(** * DV_Backend: article lifecycle and ranking engine

    A shallow embedding of the write, delete and surface routes of the
    backend (routes/admin/categories.js, routes/api/client.js, the three
    delete routers of unnamed/part_001, routes/api/updates/breaking.js and
    pinned.js) together with the properties the design document states
    about them.

    Conventions.
    - A JavaScript string is a [string]; one [ascii] stands for one UTF-16
      code unit, so the development covers code units below 256.
    - A JavaScript number that the routes handle as an identifier, a counter
      or a page size is an integer and is modelled in [Z]; NaN is [None].
    - The PostgreSQL client is an interface: a handler is a program that
      sends statements and reads replies, and the statements it sends are
      recorded in a trace. *)

From Stdlib Require Import ZArith List String Ascii Bool Lia QArith Permutation Sorted.
From Stdlib Require Import DecimalString Lqa.
Import ListNotations.
Local Open Scope string_scope.
Local Open Scope Z_scope.
Local Open Scope list_scope.
Set Warnings "-register-all".
Set Implicit Arguments.

(* ===================================================================== *)
(** * JavaScript values and the built-ins the routes use *)
(* ===================================================================== *)

Module JS.

(** Values of JSON.parse and of request bodies. *)
Inductive jsval : Type :=
| JUndefined
| JNull
| JBool (b : bool)
| JNum (n : Z)
| JNaN
| JStr (s : string)
| JArr (items : list jsval)
| JObj (fields : list (string * jsval)).

(** ToBoolean. *)
Definition truthy (v : jsval) : bool :=
  match v with
  | JUndefined | JNull | JNaN => false
  | JBool b => b
  | JNum n => negb (n =? 0)
  | JStr s => negb (String.eqb s "")
  | JArr _ | JObj _ => true
  end.

(** [a || b]. *)
Definition js_or (a b : jsval) : jsval := if truthy a then a else b.

(** [a !== false]. *)
Definition not_false (a : jsval) : bool :=
  match a with JBool false => false | _ => true end.

(** [a !== undefined]. *)
Definition is_defined (a : jsval) : bool :=
  match a with JUndefined => false | _ => true end.

(** Own-property lookup of a parsed JSON object: the last binding of a
    repeated key wins. *)
Fixpoint lookup (k : string) (fields : list (string * jsval)) : jsval :=
  match fields with
  | [] => JUndefined
  | (k', v) :: rest =>
      match lookup k rest with
      | JUndefined => if String.eqb k k' then v else JUndefined
      | found => found
      end
  end.

(** [o.k] for a key that no primitive wrapper or array defines: a
    TypeError ([None]) on null and undefined, undefined on the other
    non-objects. *)
Definition prop (o : jsval) (k : string) : option jsval :=
  match o with
  | JUndefined | JNull => None
  | JObj fields => Some (lookup k fields)
  | _ => Some JUndefined
  end.

(** [o.k] where [o] is known not to be null or undefined. *)
Definition field (o : jsval) (k : string) : jsval :=
  match prop o k with Some v => v | None => JUndefined end.

(** WhiteSpace and LineTerminator code units below 256: the class [\s] of
    regular expressions, and what [trim] and [parseInt] strip. *)
Definition is_ws (c : ascii) : bool :=
  let n := N_of_ascii c in
  ((9 <=? n) && (n <=? 13) || (n =? 32) || (n =? 160))%N.

Fixpoint drop_ws (s : list ascii) : list ascii :=
  match s with
  | c :: s' => if is_ws c then drop_ws s' else s
  | [] => []
  end.

Definition trim_chars (s : list ascii) : list ascii :=
  rev (drop_ws (rev (drop_ws s))).

(** String.prototype.trim *)
Definition trim (s : string) : string :=
  string_of_list_ascii (trim_chars (list_ascii_of_string s)).

(** The value of a digit in [parseInt]. *)
Definition digit_val (c : ascii) : option Z :=
  let n := Z.of_N (N_of_ascii c) in
  if (48 <=? n) && (n <=? 57) then Some (n - 48)
  else if (97 <=? n) && (n <=? 122) then Some (n - 87)
  else if (65 <=? n) && (n <=? 90) then Some (n - 55)
  else None.

(** The longest prefix of digits of radix [r], read left to right. *)
Fixpoint digits (r : Z) (acc : option Z) (s : list ascii) : option Z :=
  match s with
  | [] => acc
  | c :: s' =>
      match digit_val c with
      | Some d =>
          if d <? r
          then digits r (Some (match acc with Some a => a * r + d | None => d end)) s'
          else acc
      | None => acc
      end
  end.

Definition strip_hex (s : list ascii) : option (list ascii) :=
  match s with
  | "0"%char :: "x"%char :: s' => Some s'
  | "0"%char :: "X"%char :: s' => Some s'
  | _ => None
  end.

(** [parseInt(s, radix)]; radix 0 stands for an omitted radix. [None] is
    NaN. *)
Definition parseInt (s : string) (radix : Z) : option Z :=
  let s0 := drop_ws (list_ascii_of_string s) in
  let '(sign, s1) :=
    match s0 with
    | "-"%char :: s' => (-1, s')
    | "+"%char :: s' => (1, s')
    | _ => (1, s0)
    end in
  if negb (radix =? 0) && ((radix <? 2) || (36 <? radix)) then None
  else
    let '(r, s2) :=
      if (radix =? 0) || (radix =? 16) then
        match strip_hex s1 with
        | Some s' => (16, s')
        | None => (if radix =? 0 then 10 else radix, s1)
        end
      else (radix, s1) in
    match digits r None s2 with
    | Some n => Some (sign * n)
    | None => None
    end.

End JS.
Export JS.

(* ===================================================================== *)
(** * Content formatter: quote extraction (routes/admin/categories.js) *)
(* ===================================================================== *)

Module Formatter.

Record quote : Type := mkQuote {
  text : string;
  sayer : option string;
  position : nat
}.

Definition chars (s : string) : list ascii := list_ascii_of_string s.

(** A literal of the pattern at the head of the input. *)
Fixpoint strip_prefix (p s : list ascii) : option (list ascii) :=
  match p, s with
  | [], _ => Some s
  | a :: p', b :: s' => if Ascii.eqb a b then strip_prefix p' s' else None
  | _ :: _, [] => None
  end.

(** A greedy character class: the longest run and what follows it. *)
Fixpoint span (f : ascii -> bool) (s : list ascii) : list ascii * list ascii :=
  match s with
  | c :: s' =>
      if f c then let '(run, rest) := span f s' in (c :: run, rest)
      else ([], s)
  | [] => ([], [])
  end.

(** The lazy [(.*?)] followed by the literal [stop], with the [s] flag:
    everything up to the first occurrence of [stop]. *)
Fixpoint lazy_until (stop s : list ascii) : option (list ascii * list ascii) :=
  match strip_prefix stop s with
  | Some rest => Some ([], rest)
  | None =>
      match s with
      | [] => None
      | c :: s' =>
          match lazy_until stop s' with
          | Some (body, rest) => Some (c :: body, rest)
          | None => None
          end
      end
  end.

(** The double quote, code unit 34. *)
Definition dquote : ascii := "034"%char.

Definition not_dquote (c : ascii) : bool := negb (Ascii.eqb c dquote).

(** The optional group: white space, then the attribute sayer with a
    quoted value; the capture (the value) and the rest.
    Both repetitions are followed by a character outside their class, so
    only the longest run can succeed. *)
Definition sayer_group (s : list ascii) : option (list ascii * list ascii) :=
  let '(ws, r) := span is_ws s in
  match ws with
  | [] => None
  | _ :: _ =>
      match strip_prefix (chars "sayer=" ++ [dquote]) r with
      | None => None
      | Some r1 =>
          let '(name, r2) := span not_dquote r1 in
          match r2 with
          | c :: r3 => if Ascii.eqb c dquote then Some (name, r3) else None
          | [] => None
          end
      end
  end.

(** The tail [\](.*?)\[\/QUOTE\] of the pattern. *)
Definition close_tag (s : list ascii) : option (list ascii * list ascii) :=
  match s with
  | "]"%char :: s' => lazy_until (chars "[/QUOTE]") s'
  | _ => None
  end.

(** [quoteRegex] anchored at the head of the input: capture 1 (absent when
    the group did not take part), capture 2, and the input after the
    match. The group is tried first and skipped on failure. *)
Definition quoteRegex_at (s : list ascii)
  : option (option (list ascii) * list ascii * list ascii) :=
  match strip_prefix (chars "[QUOTE") s with
  | None => None
  | Some r =>
      let without :=
        match close_tag r with
        | Some (body, rest) => Some (None, body, rest)
        | None => None
        end in
      match sayer_group r with
      | Some (name, r') =>
          match close_tag r' with
          | Some (body, rest) => Some (Some name, body, rest)
          | None => without
          end
      | None => without
      end
  end.

(** [quoteRegex.exec] from [lastIndex]: the leftmost position at which the
    pattern matches. [s] is the input from [idx] on. *)
Fixpoint quoteRegex_exec (idx : nat) (s : list ascii)
  : option (nat * option (list ascii) * list ascii * list ascii) :=
  match quoteRegex_at s with
  | Some (c1, c2, rest) => Some (idx, c1, c2, rest)
  | None =>
      match s with
      | [] => None
      | _ :: s' => quoteRegex_exec (S idx) s'
      end
  end.

(** The object pushed for one match. *)
Definition quote_of_match (idx : nat) (c1 : option (list ascii)) (c2 : list ascii)
  : quote :=
  {| text := match c2 with
             | [] => ""
             | _ :: _ => string_of_list_ascii (trim_chars c2)
             end;
     sayer := match c1 with
              | Some (c :: n) => Some (string_of_list_ascii (c :: n))
              | _ => None
              end;
     position := idx |}.

(** The [while] loop of extractQuotes. [s] is the input from [lastIndex]
    on; every match is at least fifteen code units long, so [fuel] above
    the length of [s] is never used up. *)
Fixpoint extract_loop (fuel lastIndex : nat) (s : list ascii) (quotes : list quote)
  : list quote :=
  match fuel with
  | O => quotes
  | S fuel' =>
      match quoteRegex_exec lastIndex s with
      | None => quotes
      | Some (idx, c1, c2, rest) =>
          extract_loop fuel' (lastIndex + (List.length s - List.length rest))%nat rest
            (quotes ++ [quote_of_match idx c1 c2])
      end
  end.

Definition extractQuotes (content : string) : list quote :=
  if String.eqb content "" then []
  else extract_loop (S (String.length content)) 0 (chars content) [].

End Formatter.


(* ===================================================================== *)
(** * Surface queries and the trending score
      (routes/api/updates/breaking.js, routes/api/updates/pinned.js) *)
(* ===================================================================== *)

Module Surface.

Local Open Scope Q_scope.

(** The columns of [news] that the score reads. A counter may be NULL; a
    timestamp is in seconds since the epoch. *)
Record news_row : Type := mkNews {
  views : option Z;
  likes_count : option Z;
  comments_count : option Z;
  share_count : option Z;
  published_at : option Q
}.

(** COALESCE(x, 0) *)
Definition coalesce0 (x : option Z) : Z :=
  match x with Some v => v | None => 0%Z end.

(** EXTRACT(EPOCH FROM (NOW() - n.published_at)) / 3600; NULL when the
    article has no publication time. *)
Definition hours_ago (now : Q) (n : news_row) : option Q :=
  match published_at n with
  | Some p => Some ((now - p) / 3600)
  | None => None
  end.

(** [x < k] in SQL: unknown, hence not taken, when [x] is NULL. *)
Definition sql_lt (x : option Q) (k : Q) : bool :=
  match x with
  | Some h => negb (Qle_bool k h)
  | None => false
  end.

(** The CASE expression of both surface queries. *)
Definition decay_case (h : option Q) : Q :=
  if sql_lt h 1 then 3.0
  else if sql_lt h 3 then 2.0
  else if sql_lt h 6 then 1.5
  else if sql_lt h 12 then 1.2
  else if sql_lt h 24 then 1.0
  else if sql_lt h 48 then 0.5
  else 0.2.

(** The weighted sum of the counters in both surface queries. *)
Definition weighted_counters (n : news_row) : Z :=
  (coalesce0 (views n) * 1 + coalesce0 (likes_count n) * 5
   + coalesce0 (comments_count n) * 10 + coalesce0 (share_count n) * 15)%Z.

(** The column [trending_score] of the breaking query. *)
Definition breaking_trending_score (now : Q) (n : news_row) : Q :=
  inject_Z (weighted_counters n) * decay_case (hours_ago now n).

(** The column [trending_score] of the pinned query: the same expression,
    written out a second time in pinned.js. *)
Definition pinned_trending_score (now : Q) (n : news_row) : Q :=
  inject_Z (weighted_counters n) * decay_case (hours_ago now n).

(** The score as the design document defines it, for counters and an age
    in hours. *)
Definition spec_engagement (v l c s : Z) : Z := (v * 1 + l * 5 + c * 10 + s * 15)%Z.

Definition spec_decay (h : Q) : Q :=
  if Qlt_le_dec h 1 then 3.0
  else if Qlt_le_dec h 3 then 2.0
  else if Qlt_le_dec h 6 then 1.5
  else if Qlt_le_dec h 12 then 1.2
  else if Qlt_le_dec h 24 then 1.0
  else if Qlt_le_dec h 48 then 0.5
  else 0.2.

Definition spec_score (v l c s : Z) (h : Q) : Q :=
  inject_Z (spec_engagement v l c s) * spec_decay h.

Local Close Scope Q_scope.

(** A query-string parameter: absent, or its text. *)
Definition qparam := option string.

(** [req.query.p || dflt] *)
Definition or_default (p : qparam) (dflt : string) : string :=
  match p with
  | Some s => if String.eqb s "" then dflt else s
  | None => dflt
  end.

(** [Math.max(a, x)] and [Math.min(a, x)] for an integer [a]; NaN passes
    through both. *)
Definition Math_max (a : Z) (x : option Z) : option Z := option_map (Z.max a) x.
Definition Math_min (a : Z) (x : option Z) : option Z := option_map (Z.min a) x.

(** [const page = Math.max(1, parseInt(req.query.page || '1'))] *)
Definition page_of (page : qparam) : option Z :=
  Math_max 1 (parseInt (or_default page "1") 0).

(** [const limit = Math.min(100, Math.max(1, parseInt(req.query.limit || '50')))] *)
Definition limit_of (limit : qparam) : option Z :=
  Math_min 100 (Math_max 1 (parseInt (or_default limit "50") 0)).

(** [const offset = (page - 1) * limit] *)
Definition offset_of (page limit : option Z) : option Z :=
  match page, limit with
  | Some p, Some l => Some ((p - 1) * l)
  | _, _ => None
  end.

(** [Math.ceil(total / limit)]; [limit] is at least 1 when it is a number. *)
Definition ceil_div (total limit : option Z) : option Z :=
  match total, limit with
  | Some t, Some l => Some (- ((- t) / l))
  | _, _ => None
  end.

(** [a < b] on numbers: false when either is NaN. *)
Definition js_lt (a b : option Z) : bool :=
  match a, b with
  | Some x, Some y => x <? y
  | _, _ => false
  end.

(** The pagination block of a response; a NaN is [None]. *)
Record pagination : Type := mkPagination {
  current_page : option Z;
  per_page : option Z;
  total_items : option Z;
  total_pages : option Z;
  has_next : bool;
  has_prev : bool
}.

Record response : Type := mkResponse {
  status_code : Z;
  success : bool;
  news : list news_row;
  page_info : pagination
}.

(** The two queries of a surface, sent together: the count and the page
    of rows for LIMIT $1 OFFSET $2. [None] is a rejected promise. *)
Definition pool := option Z -> option Z -> option (option string * list news_row).

(** The handler of GET / in breaking.js; pinned.js differs in the category
    filter of its queries only. *)
Definition surface (db : pool) (page limit : qparam) : response :=
  let page := page_of page in
  let limit := limit_of limit in
  let offset := offset_of page limit in
  match db limit offset with
  | Some (total, rows) =>
      let total :=
        parseInt (match total with
                  | Some t => if String.eqb t "" then "0" else t
                  | None => "0"
                  end) 0 in
      let totalPages := ceil_div total limit in
      {| status_code := 200;
         success := true;
         news := rows;
         page_info := {| current_page := page;
                         per_page := limit;
                         total_items := total;
                         total_pages := totalPages;
                         has_next := js_lt page totalPages;
                         has_prev := js_lt (Some 1) page |} |}
  | None =>
      {| status_code := 500;
         success := false;
         news := [];
         page_info := {| current_page := Some 1;
                         per_page := Some 50;
                         total_items := Some 0;
                         total_pages := Some 0;
                         has_next := false;
                         has_prev := false |} |}
  end.

(** The page size the handler sends as $1. *)
Definition query_limit (limit : qparam) : option Z := limit_of limit.

End Surface.

(* ===================================================================== *)
(** * The PostgreSQL client as the routes use it *)
(* ===================================================================== *)

Module Pg.

(** The tables whose rows hang off an article. *)
Inductive table : Type :=
| breaking_news | featured_news | pinned_news | news_categories
| news_images | news_social_media | news_videos | news_content_blocks
| news_comments | news_reactions | news_shares | user_saved_articles
| page_views | news_approval_history | news_approval | likes
| post_promotions.

Definition table_eqb (a b : table) : bool :=
  match a, b with
  | breaking_news, breaking_news | featured_news, featured_news
  | pinned_news, pinned_news | news_categories, news_categories
  | news_images, news_images | news_social_media, news_social_media
  | news_videos, news_videos | news_content_blocks, news_content_blocks
  | news_comments, news_comments | news_reactions, news_reactions
  | news_shares, news_shares | user_saved_articles, user_saved_articles
  | page_views, page_views | news_approval_history, news_approval_history
  | news_approval, news_approval | likes, likes
  | post_promotions, post_promotions => true
  | _, _ => false
  end.

(** The parameters $1 .. $15 of the INSERT INTO news of the create route. *)
Record news_values : Type := mkNewsValues {
  n_title : string;
  n_slug : string;
  n_content : string;
  n_processed_content : string;
  n_excerpt : string;
  n_author_id : Z;
  n_category_id : Z;
  n_primary_category_id : Z;
  n_priority : string;
  n_reading_time : Z;
  n_status : string;
  n_tags : option string;
  n_meta_description : option string;
  n_seo_keywords : option string;
  n_published_at : option Z
}.

(** The parameters $1 .. $13 of the UPDATE news of the update route; $14
    is the article id. *)
Record news_update : Type := mkNewsUpdate {
  u_title : string;
  u_slug : string;
  u_content : string;
  u_processed_content : string;
  u_excerpt : string;
  u_category_id : Z;
  u_primary_category_id : Z;
  u_priority : string;
  u_reading_time : Z;
  u_status : string;
  u_tags : option string;
  u_meta_description : option string;
  u_seo_keywords : option string
}.

(** The parameters of INSERT INTO news_social_media. *)
Record social_values : Type := mkSocialValues {
  s_platform : jsval;
  s_post_type : jsval;
  s_post_url : string;
  s_display_order : jsval;
  s_auto_embed : bool;
  s_show_full_embed : bool;
  s_is_featured : jsval;
  s_caption : jsval
}.

(** The parameters of INSERT INTO news_images. *)
Record image_values : Type := mkImageValues {
  i_image_url : jsval;
  i_image_caption : jsval;
  i_alt_text : jsval;
  i_display_order : jsval;
  i_is_featured : jsval;
  i_width : jsval;
  i_height : jsval;
  i_file_size : jsval;
  i_mime_type : jsval;
  i_storage_provider : jsval;
  i_cloudflare_id : jsval;
  i_metadata : jsval
}.

(** The statements the routes send, with their parameters. *)
Inductive stmt : Type :=
| BEGIN
| COMMIT
| ROLLBACK
| INSERT_news (v : news_values)
| UPDATE_news (v : news_update) (news_id : jsval)
| SELECT_news (news_id : jsval)
| DELETE_news (news_id : jsval)
| INSERT_news_categories (news_id category_id : jsval) (is_primary : bool)
| UPDATE_quotes_data (quotes : list Formatter.quote) (news_id : jsval)
| INSERT_news_social_media (news_id : jsval) (v : social_values)
| INSERT_news_images (news_id : jsval) (v : image_values)
| UPDATE_image_url (image_url news_id : jsval)
| DELETE_FROM (t : table) (news_id : jsval)
| SELECT_image_urls (news_id : jsval)
| SELECT_main_image (news_id : jsval)
| INSERT_admin_activity_log
    (admin_id : jsval) (action target_type : string)
    (target_id details ip : jsval).

(** The result object of a query. *)
Record qresult : Type := mkResult {
  rows : list jsval;
  rowCount : nat
}.

(** A reply: the result, or the message of the error the promise is
    rejected with. *)
Definition reply : Type := string + qresult.

(** A client over a database in state [W]. *)
Definition client (W : Type) : Type := stmt -> W -> W * reply.

(** A handler: a computation over the database and the trace of the
    statements sent so far with their replies, ending in a value or in a
    thrown error.
    Releasing the connection in the finally block sends no statement and
    is left out. *)
Definition trace : Type := list (stmt * reply).

Definition M (W A : Type) : Type :=
  W * trace -> (W * trace) * (string + A).

Definition ret {W A} (a : A) : M W A := fun s => (s, inr a).

Definition throw {W A} (e : string) : M W A := fun s => (s, inl e).

Definition bind {W A B} (m : M W A) (k : A -> M W B) : M W B :=
  fun s =>
    match m s with
    | (s', inr a) => k a s'
    | (s', inl e) => (s', inl e)
    end.

(** try { m } catch (e) { h e } *)
Definition try_catch {W A} (m : M W A) (h : string -> M W A) : M W A :=
  fun s =>
    match m s with
    | (s', inl e) => h e s'
    | r => r
    end.

(** await client.query(...) *)
Definition query {W} (pg : client W) (q : stmt) : M W qresult :=
  fun s =>
    let '(w', r) := pg q (fst s) in
    ((w', snd s ++ [(q, r)]), r).

(** A handler started on a database, with nothing sent yet. *)
Definition run {W A} (m : M W A) (w : W) : (W * trace) * (string + A) :=
  m (w, []).

(** The statements of a trace. *)
Definition sent (t : trace) : list stmt := map fst t.

(** for (const x of xs) { await f x } *)
Fixpoint for_each {W A} (f : A -> M W unit) (xs : list A) : M W unit :=
  match xs with
  | [] => ret tt
  | x :: xs' => bind (f x) (fun _ => for_each f xs')
  end.

(** A value that may be a TypeError. *)
Definition lift {W A} (r : string + A) : M W A :=
  match r with
  | inl e => throw e
  | inr a => ret a
  end.

(** One entry of results.success and of results.failed of a bulk delete. *)
Record deleted_item : Type := mkDeleted {
  d_id : jsval;
  d_title : jsval;
  d_deleted_images : option nat
}.

Record failed_item : Type := mkFailed {
  f_id : jsval;
  f_reason : string
}.

(** The response a handler sends. *)
Inductive payload : Type :=
| NoData
| ErrorDetail (error : string)
| Written (news_id : jsval) (slug status : string) (requires_approval : bool)
| Deleted
| DeletedRecords (deleted_records : nat)
| DeletedImages (deleted_images : nat)
| DeletedArticle (news_id title : jsval)
| BulkResults (succeeded : list deleted_item) (failed : list failed_item)
    (total_deleted_images : option nat).

Record response : Type := mkResponse {
  status_code : Z;
  success : bool;
  message : string;
  data : payload
}.

(** logAdminActivity: the insert, with any error of it swallowed. *)
Definition logAdminActivity {W} (pg : client W)
    (adminId : jsval) (action targetType : string) (targetId details ip : jsval)
  : M W unit :=
  try_catch
    (bind (query pg (INSERT_admin_activity_log adminId action targetType
                       targetId details ip))
          (fun _ => ret tt))
    (fun _ => ret tt).

End Pg.
Export Pg.

Declare Scope pg_scope.
Notation "x <- m ;; k" := (bind m (fun x => k))
  (at level 61, m at next level, right associativity) : pg_scope.
Notation "m ;; k" := (bind m (fun _ => k))
  (at level 61, right associativity) : pg_scope.

(* ===================================================================== *)
(** * Create, update and delete of an article (routes/admin/categories.js) *)
(* ===================================================================== *)

Module Posts.

Local Open Scope pg_scope.

(** What the routes take from outside themselves: the client, the
    permission oracle of middleware/rolePermissions, the media ingestion of
    config/imagesUpload, JSON.parse ([None] when it throws), and the two
    helpers generateSlug (which reads the clock) and
    processContentFormatting, on whose results nothing below depends. *)
Record env (W : Type) : Type := mkEnv {
  pg : client W;
  canPublishDirectly : jsval -> bool;
  processUploadedFiles : list jsval -> string + list jsval;
  JSON_parse : string -> option jsval;
  generateSlug : string -> string;
  processedContent : string -> string
}.

(** The same collaborators over another client. *)
Definition over {W W'} (E : env W) (pg' : client W') : env W' :=
  mkEnv pg' (canPublishDirectly E) (processUploadedFiles E) (JSON_parse E)
    (generateSlug E) (processedContent E).

(** The text fields of a multipart body: absent, or a string. The fields
    the handlers do not name are kept in submission order. *)
Record body : Type := mkBody {
  title : option string;
  content : option string;
  excerpt : option string;
  category_ids : option string;
  primary_category_id : option string;
  priority : option string;
  tags : option string;
  meta_description : option string;
  seo_keywords : option string;
  status : option string;
  author_id : option string;
  social_media_links : option string;
  other_fields : list (string * string)
}.

Record request : Type := mkRequest {
  req_body : body;
  files : list jsval;
  userRole : jsval;
  adminId : jsval;
  ip : jsval;
  param_newsId : string;
  now : Z
}.

(** The string of a field; the empty string stands for an absent one where
    both are falsy. *)
Definition str (f : option string) : string :=
  match f with Some s => s | None => "" end.

(** [!f] *)
Definition falsy (f : option string) : bool := String.eqb (str f) "".

(** A destructuring default: taken for an absent field only. *)
Definition dflt (f : option string) (d : string) : string :=
  match f with Some s => s | None => d end.

(** [f ? f.trim() : null] *)
Definition trim_or_null (f : string) : option string :=
  if String.eqb f "" then None else Some (trim f).

Definition is_blank (val : string) : bool :=
  String.eqb val "" || String.eqb val "null" || String.eqb val "undefined".

(** safeJSON, on a text field. *)
Definition safeJSON {W} (E : env W) (input : option string) (fallback : jsval)
  : jsval :=
  match input with
  | None => fallback
  | Some s =>
      if is_blank s then fallback
      else match JSON_parse E s with
           | Some v => v
           | None => fallback
           end
  end.

(** parseIntSafe, on a text field. *)
Definition parseIntSafe (val : option string) (fallback : Z) : Z :=
  match val with
  | None => fallback
  | Some s =>
      if is_blank s then fallback
      else match parseInt s 10 with
           | Some n => n
           | None => fallback
           end
  end.

(** [v === n] for a number [n]. *)
Definition is_num (n : Z) (v : jsval) : bool :=
  match v with JNum m => m =? n | _ => false end.

(** [xs.includes(n)] for a number [n]. *)
Definition includes (xs : list jsval) (n : Z) : bool := existsb (is_num n) xs.

(** The number of words of calculateReadingTime: the pieces of the trimmed
    text between runs of white space. *)
Fixpoint pieces (in_ws : bool) (s : list ascii) : Z :=
  match s with
  | [] => 1
  | c :: s' =>
      if is_ws c then (if in_ws then 0 else 1) + pieces true s'
      else pieces false s'
  end.

(** calculateReadingTime *)
Definition calculateReadingTime (content : string) : Z :=
  if String.eqb content "" then 1
  else Z.max 1 ((pieces false (trim_chars (list_ascii_of_string content)) + 199) / 200).

(** What the validation chain of a write leaves: the author id (create
    only), the category ids and the primary category id. *)
Record checked : Type := mkChecked {
  actualAuthorId : Z;
  parsedCategoryIds : list jsval;
  parsedPrimaryCategoryId : Z
}.

(** The validation chain of the create route, in its order; [inl] is the
    message of the 400 response. *)
Definition validate_create {W} (E : env W) (b : body) : string + checked :=
  if falsy (title b) || falsy (content b) || falsy (category_ids b)
     || falsy (primary_category_id b) || falsy (author_id b)
  then inl "Missing required fields: title, content, category_ids, primary_category_id, author_id"
  else
    let actualAuthorId := parseIntSafe (author_id b) 0 in
    if actualAuthorId =? 0 then inl "Invalid author_id"
    else
      match safeJSON E (category_ids b) (JArr []) with
      | JArr (c :: cs) =>
          let parsedPrimaryCategoryId := parseIntSafe (primary_category_id b) 0 in
          if parsedPrimaryCategoryId =? 0 then inl "Primary category ID is required"
          else if negb (includes (c :: cs) parsedPrimaryCategoryId)
          then inl "Primary category must be one of the selected categories"
          else inr (mkChecked actualAuthorId (c :: cs) parsedPrimaryCategoryId)
      | _ => inl "At least one category must be selected"
      end.

(** The validation chain of the update route: no author id. *)
Definition validate_update {W} (E : env W) (b : body) : string + checked :=
  if falsy (title b) || falsy (content b) || falsy (category_ids b)
     || falsy (primary_category_id b)
  then inl "Missing required fields"
  else
    match safeJSON E (category_ids b) (JArr []) with
    | JArr (c :: cs) =>
        let parsedPrimaryCategoryId := parseIntSafe (primary_category_id b) 0 in
        if parsedPrimaryCategoryId =? 0 then inl "Primary category ID is required"
        else if negb (includes (c :: cs) parsedPrimaryCategoryId)
        then inl "Primary category must be one of the selected categories"
        else inr (mkChecked 0 (c :: cs) parsedPrimaryCategoryId)
    | _ => inl "At least one category must be selected"
    end.

(** The publish gate of both write routes:
    [let finalStatus = status; let requiresApproval = false;
     if (status === 'published' && !canPublish) { ... }] *)
Definition publish_gate (status : string) (canPublish : bool) : string * bool :=
  if String.eqb status "published" && negb canPublish
  then ("pending_approval", true)
  else (status, false).

Definition finalStatus {W} (E : env W) (req : request) : string :=
  fst (publish_gate (dflt (status (req_body req)) "draft")
         (canPublishDirectly E (userRole req))).

Definition requiresApproval {W} (E : env W) (req : request) : bool :=
  snd (publish_gate (dflt (status (req_body req)) "draft")
         (canPublishDirectly E (userRole req))).

(** [excerpt ? excerpt.trim() : title.substring(0, 200)] *)
Definition excerpt_of (b : body) : string :=
  if falsy (excerpt b) then substring 0 200 (str (title b))
  else trim (str (excerpt b)).

(** newsInsertValues *)
Definition newsInsertValues {W} (E : env W) (req : request) (c : checked)
  : news_values :=
  let b := req_body req in
  {| n_title := trim (str (title b));
     n_slug := generateSlug E (str (title b));
     n_content := str (content b);
     n_processed_content := processedContent E (str (content b));
     n_excerpt := excerpt_of b;
     n_author_id := actualAuthorId c;
     n_category_id := parsedPrimaryCategoryId c;
     n_primary_category_id := parsedPrimaryCategoryId c;
     n_priority := dflt (priority b) "medium";
     n_reading_time := calculateReadingTime (str (content b));
     n_status := finalStatus E req;
     n_tags := trim_or_null (dflt (tags b) "");
     n_meta_description := trim_or_null (dflt (meta_description b) "");
     n_seo_keywords := trim_or_null (dflt (seo_keywords b) "");
     n_published_at :=
       if String.eqb (finalStatus E req) "published" then Some (now req) else None |}.

(** updateValues *)
Definition updateValues {W} (E : env W) (req : request) (c : checked)
  : news_update :=
  let b := req_body req in
  {| u_title := trim (str (title b));
     u_slug := generateSlug E (str (title b));
     u_content := str (content b);
     u_processed_content := processedContent E (str (content b));
     u_excerpt := excerpt_of b;
     u_category_id := parsedPrimaryCategoryId c;
     u_primary_category_id := parsedPrimaryCategoryId c;
     u_priority := dflt (priority b) "medium";
     u_reading_time := calculateReadingTime (str (content b));
     u_status := finalStatus E req;
     u_tags := trim_or_null (dflt (tags b) "");
     u_meta_description := trim_or_null (dflt (meta_description b) "");
     u_seo_keywords := trim_or_null (dflt (seo_keywords b) "") |}.

(** The statement of one turn of the category loop. *)
Definition category_insert (newsId : jsval) (c : checked) (categoryId : jsval)
  : stmt :=
  INSERT_news_categories newsId categoryId
    (is_num (parsedPrimaryCategoryId c) categoryId).

Definition insert_categories {W} (E : env W) (newsId : jsval) (c : checked)
  : M W unit :=
  for_each (fun categoryId =>
              query (pg E) (category_insert newsId c categoryId) ;; ret tt)
           (parsedCategoryIds c).

(** The parameters for one social link that has a post url. *)
Definition social_insert (link : jsval) (post_url : string) : social_values :=
  {| s_platform := js_or (field link "platform") (JStr "youtube_video");
     s_post_type := js_or (field link "post_type") (JStr "video");
     s_post_url := trim post_url;
     s_display_order := js_or (field link "display_order") (JNum 1);
     s_auto_embed := not_false (field link "auto_embed");
     s_show_full_embed := not_false (field link "show_full_embed");
     s_is_featured := js_or (field link "is_featured") (JBool false);
     s_caption := js_or (field link "caption") JNull |}.

(** One turn of the social-link loop:
    [if (link.post_url && link.post_url.trim()) { insert }]. Reading a
    property of null and calling trim on what is not a string throw. *)
Definition insert_social_link {W} (E : env W) (newsId link : jsval) : M W unit :=
  match prop link "post_url" with
  | None => throw "Cannot read properties of null (reading 'post_url')"
  | Some post_url =>
      if truthy post_url then
        match post_url with
        | JStr s =>
            if String.eqb (trim s) "" then ret tt
            else query (pg E) (INSERT_news_social_media newsId (social_insert link s)) ;;
                 ret tt
        | _ => throw "link.post_url.trim is not a function"
        end
      else ret tt
  end.

Definition insert_social_links {W} (E : env W) (newsId : jsval) (b : body)
  : M W unit :=
  match safeJSON E (social_media_links b) (JArr []) with
  | JArr links => for_each (insert_social_link E newsId) links
  | _ => ret tt
  end.

(** The index of a sidecar key: the pattern ^image_metadata_(\d+)$ and
    parseInt of its group. *)
Definition is_digit (c : ascii) : bool :=
  let n := N_of_ascii c in ((48 <=? n) && (n <=? 57))%N.

Definition metadata_index (key : string) : option Z :=
  match Formatter.strip_prefix (list_ascii_of_string "image_metadata_")
          (list_ascii_of_string key) with
  | Some (d :: ds) =>
      if forallb is_digit (d :: ds)
      then parseInt (string_of_list_ascii (d :: ds)) 10
      else None
  | _ => None
  end.

(** The last assignment to [metadataByIndex[i]] in the forEach over the
    keys of the body, if there is one. *)
Fixpoint sidecar {W} (E : env W) (fields : list (string * string)) (i : Z)
  : option jsval :=
  match fields with
  | [] => None
  | (key, value) :: rest =>
      match sidecar E rest i with
      | Some later => Some later
      | None =>
          match metadata_index key with
          | Some index =>
              if index =? i then Some (safeJSON E (Some value) (JObj [])) else None
          | None => None
          end
      end
  end.

(** [metadataByIndex[i]] *)
Definition metadataByIndex {W} (E : env W) (fields : list (string * string)) (i : Z)
  : jsval :=
  match sidecar E fields i with
  | Some v => v
  | None => JUndefined
  end.

(** [const isFeatured = i === 0 ? true : (metadata.is_featured || false)] *)
Definition isFeatured (i : Z) (metadata : jsval) : jsval :=
  if i =? 0 then JBool true
  else js_or (field metadata "is_featured") (JBool false).

(** The parameters of the insert for upload [i]. *)
Definition image_insert (i : Z) (imgData metadata : jsval) : image_values :=
  {| i_image_url := field imgData "url";
     i_image_caption := js_or (field metadata "caption") (JStr "");
     i_alt_text := js_or (js_or (field metadata "caption") (field imgData "originalname"))
                     (JStr "");
     i_display_order := if is_defined (field metadata "order")
                        then field metadata "order" else JNum i;
     i_is_featured := isFeatured i metadata;
     i_width := js_or (field imgData "width") JNull;
     i_height := js_or (field imgData "height") JNull;
     i_file_size := js_or (field imgData "size") JNull;
     i_mime_type := js_or (field imgData "mimetype") JNull;
     i_storage_provider := js_or (field imgData "storage_provider") (JStr "local");
     i_cloudflare_id := js_or (field imgData "cloudflare_id") JNull;
     i_metadata :=
       JObj [("originalname", field imgData "originalname");
             ("filename", field imgData "filename");
             ("has_watermark", js_or (field metadata "has_watermark") (JBool false))] |}.

(** [if (isFeatured && !featuredImageUrl) featuredImageUrl = imgData.url] *)
Definition next_featured (i : Z) (imgData metadata featuredImageUrl : jsval)
  : jsval :=
  if truthy (isFeatured i metadata) && negb (truthy featuredImageUrl)
  then field imgData "url"
  else featuredImageUrl.

(** The loop over the uploads, from index [i] on; its value is
    featuredImageUrl. An upload that is null or undefined throws when its
    url is read. *)
Fixpoint insert_images {W} (E : env W) (newsId : jsval) (b : body) (i : Z)
    (uploaded : list jsval) (featuredImageUrl : jsval) : M W jsval :=
  match uploaded with
  | [] => ret featuredImageUrl
  | imgData :: rest =>
      let metadata := js_or (metadataByIndex E (other_fields b) i) (JObj []) in
      match prop imgData "url" with
      | None => throw "Cannot read properties of undefined (reading 'url')"
      | Some _ =>
          query (pg E) (INSERT_news_images newsId (image_insert i imgData metadata)) ;;
          insert_images E newsId b (i + 1) rest
            (next_featured i imgData metadata featuredImageUrl)
      end
  end.

(** [if (req.files && req.files.length > 0) { ... }] *)
Definition insert_media {W} (E : env W) (newsId : jsval) (req : request)
  : M W unit :=
  match files req with
  | [] => ret tt
  | _ :: _ =>
      uploadedImageData <- lift (processUploadedFiles E (files req)) ;;
      featuredImageUrl <-
        insert_images E newsId (req_body req) 0 uploadedImageData JNull ;;
      if truthy featuredImageUrl
      then query (pg E) (UPDATE_image_url featuredImageUrl newsId) ;; ret tt
      else ret tt
  end.

(** [newsResult.rows[0].news_id] *)
Definition first_news_id {W} (r : qresult) : M W jsval :=
  match rows r with
  | [] => throw "Cannot read properties of undefined (reading 'news_id')"
  | row :: _ =>
      match prop row "news_id" with
      | Some v => ret v
      | None => throw "Cannot read properties of null (reading 'news_id')"
      end
  end.

(** The details of the activity-log entry of a write. *)
Definition write_details {W} (E : env W) (req : request) : jsval :=
  JObj [("title", JStr (str (title (req_body req))));
        ("status", JStr (finalStatus E req));
        ("requires_approval", JBool (requiresApproval E req))].

Definition respond {W} (code : Z) (ok : bool) (msg : string) (d : payload)
  : M W response :=
  ret (mkResponse code ok msg d).

(** The part of the create route after the validation chain. *)
Definition persist_create {W} (E : env W) (req : request) (c : checked)
  : M W response :=
  let b := req_body req in
  newsResult <- query (pg E) (INSERT_news (newsInsertValues E req c)) ;;
  newsId <- first_news_id newsResult ;;
  insert_categories E newsId c ;;
  (match Formatter.extractQuotes (str (content b)) with
   | [] => ret tt
   | q :: qs => query (pg E) (UPDATE_quotes_data (q :: qs) newsId) ;; ret tt
   end) ;;
  insert_social_links E newsId b ;;
  insert_media E newsId req ;;
  logAdminActivity (pg E) (adminId req) "create_post" "news" newsId
    (write_details E req) (ip req) ;;
  query (pg E) COMMIT ;;
  respond 201 true
    (if requiresApproval E req then "Post created and submitted for approval"
     else if String.eqb (finalStatus E req) "published"
          then "Post published successfully"
          else "Draft created successfully")
    (Written newsId (generateSlug E (str (title b))) (finalStatus E req)
       (requiresApproval E req)).

(** router.post('/') *)
Definition create_post {W} (E : env W) (req : request) : M W response :=
  try_catch
    (query (pg E) BEGIN ;;
     match validate_create E (req_body req) with
     | inl msg => query (pg E) ROLLBACK ;; respond 400 false msg NoData
     | inr c => persist_create E req c
     end)
    (fun error =>
       query (pg E) ROLLBACK ;;
       respond 500 false "Failed to create post" (ErrorDetail error)).

(** [parseInt(req.params.newsId, 10)] *)
Definition newsId_of (req : request) : jsval :=
  match parseInt (param_newsId req) 10 with
  | Some n => JNum n
  | None => JNaN
  end.

(** The part of the update route after the validation chain. *)
Definition persist_update {W} (E : env W) (req : request) (c : checked)
  : M W response :=
  let b := req_body req in
  let newsId := newsId_of req in
  query (pg E) (UPDATE_news (updateValues E req c) newsId) ;;
  query (pg E) (DELETE_FROM news_categories newsId) ;;
  insert_categories E newsId c ;;
  query (pg E) (UPDATE_quotes_data (Formatter.extractQuotes (str (content b))) newsId) ;;
  query (pg E) (DELETE_FROM news_social_media newsId) ;;
  insert_social_links E newsId b ;;
  insert_media E newsId req ;;
  logAdminActivity (pg E) (adminId req) "update_post" "news" newsId
    (write_details E req) (ip req) ;;
  query (pg E) COMMIT ;;
  respond 200 true
    (if requiresApproval E req then "Post updated and submitted for approval"
     else if String.eqb (finalStatus E req) "published"
          then "Post updated successfully"
          else "Draft updated successfully")
    (Written newsId (generateSlug E (str (title b))) (finalStatus E req)
       (requiresApproval E req)).

(** router.put('/:newsId') *)
Definition update_post {W} (E : env W) (req : request) : M W response :=
  try_catch
    (query (pg E) BEGIN ;;
     existingNews <- query (pg E) (SELECT_news (newsId_of req)) ;;
     match rows existingNews with
     | [] => query (pg E) ROLLBACK ;; respond 404 false "Post not found" NoData
     | _ :: _ =>
         match validate_update E (req_body req) with
         | inl msg => query (pg E) ROLLBACK ;; respond 400 false msg NoData
         | inr c => persist_update E req c
         end
     end)
    (fun error =>
       query (pg E) ROLLBACK ;;
       respond 500 false "Failed to update post" (ErrorDetail error)).

(** router.delete('/:newsId') *)
Definition delete_post {W} (E : env W) (req : request) : M W response :=
  let newsId := newsId_of req in
  try_catch
    (query (pg E) BEGIN ;;
     existingNews <- query (pg E) (SELECT_news newsId) ;;
     match rows existingNews with
     | [] => query (pg E) ROLLBACK ;; respond 404 false "Post not found" NoData
     | row :: _ =>
         query (pg E) (DELETE_FROM news_categories newsId) ;;
         query (pg E) (DELETE_FROM news_social_media newsId) ;;
         query (pg E) (DELETE_FROM news_images newsId) ;;
         query (pg E) (DELETE_news newsId) ;;
         title <- lift (match prop row "title" with
                        | Some t => inr t
                        | None => inl "Cannot read properties of null (reading 'title')"
                        end) ;;
         logAdminActivity (pg E) (adminId req) "delete_post" "news" newsId
           (JObj [("title", title)]) (ip req) ;;
         query (pg E) COMMIT ;;
         respond 200 true "Post deleted successfully" Deleted
     end)
    (fun error =>
       query (pg E) ROLLBACK ;;
       respond 500 false "Failed to delete post" (ErrorDetail error)).

End Posts.

(* ===================================================================== *)
(** * The delete routers (unnamed/part_001 and routes/api/client.js) *)
(* ===================================================================== *)

Module Deleter.

Local Open Scope pg_scope.

Record request : Type := mkRequest {
  id : string;
  news_ids : jsval;
  adminId : jsval;
  x_forwarded_for : jsval;
  x_real_ip : jsval;
  ip : jsval
}.

(** [!id || !/^\d+$/.test(id)] *)
Definition bad_id (id : string) : bool :=
  String.eqb id "" || negb (forallb Posts.is_digit (list_ascii_of_string id)).

(** [req.headers['x-forwarded-for'] || req.headers['x-real-ip'] || req.ip
     || 'unknown'] *)
Definition ip_of (req : request) : jsval :=
  js_or (js_or (js_or (x_forwarded_for req) (x_real_ip req)) (ip req))
        (JStr "unknown").

(** A template literal, kept as the list of its parts. *)
Definition template (parts : list jsval) : jsval := JArr parts.

Definition nat_str (n : nat) : string := NilEmpty.string_of_uint (Nat.to_uint n).

(** [article.title] of a row of the existence check. *)
Definition title_of {W} (article : jsval) : M W jsval :=
  match prop article "title" with
  | Some t => ret t
  | None => throw "Cannot read properties of null (reading 'title')"
  end.

Definition respond {W} (code : Z) (ok : bool) (msg : string) (d : payload)
  : M W response :=
  ret (mkResponse code ok msg d).

(** The catch block of the single-delete routes: the rollback is itself
    guarded. *)
Definition guarded_rollback {W} (pg : client W) : M W unit :=
  try_catch (query pg ROLLBACK ;; ret tt) (fun _ => ret tt).

(** [results.success.length] and the like, in the bulk message. *)
Definition bulk_message (succeeded : list deleted_item) (failed : list failed_item)
  : string :=
  ("Bulk operation completed: " ++ nat_str (List.length succeeded)
   ++ " succeeded, " ++ nat_str (List.length failed) ++ " failed")%string.

(** The results object of a bulk delete and (client.js) the running count
    of removed images. *)
Record results : Type := mkResults {
  succeeded : list deleted_item;
  failed : list failed_item;
  totalDeletedImages : nat
}.

Definition no_results : results := mkResults [] [] 0.

Definition push_success (r : results) (d : deleted_item) : results :=
  mkResults (succeeded r ++ [d]) (failed r) (totalDeletedImages r).

Definition push_failed (r : results) (f : failed_item) : results :=
  mkResults (succeeded r) (failed r ++ [f]) (totalDeletedImages r).

Definition add_images (r : results) (n : nat) : results :=
  mkResults (succeeded r) (failed r) (totalDeletedImages r + n).

(** The for-of loop of a bulk route: [item] is the body of the loop, the
    try block and its catch included. *)
Fixpoint bulk_loop {W} (item : jsval -> results -> M W results)
    (ids : list jsval) (r : results) : M W results :=
  match ids with
  | [] => ret r
  | newsId :: rest => r' <- item newsId r ;; bulk_loop item rest r'
  end.

(** ** First router of part_001: safeDelete and a checked root delete *)

Module Safe.

(** safeDelete: the rows removed, or 0 when the delete throws. *)
Definition safeDelete {W} (pg : client W) (tableName : table) (newsId : jsval)
  : M W nat :=
  try_catch
    (result <- query pg (DELETE_FROM tableName newsId) ;; ret (rowCount result))
    (fun _ => ret 0%nat).

(** The fifteen dependent tables, in the order the routes name them. *)
Definition dependents : list table :=
  [breaking_news; featured_news; pinned_news; news_categories; news_images;
   news_social_media; news_videos; news_content_blocks; news_comments;
   news_reactions; news_shares; user_saved_articles; page_views;
   news_approval_history; news_approval].

(** [totalDeleted += await safeDelete(client, t, id)] for each table. *)
Fixpoint safeDelete_all {W} (pg : client W) (ts : list table) (newsId : jsval)
    (totalDeleted : nat) : M W nat :=
  match ts with
  | [] => ret totalDeleted
  | t :: ts' =>
      n <- safeDelete pg t newsId ;;
      safeDelete_all pg ts' newsId (totalDeleted + n)
  end.

(** router.delete('/:id') *)
Definition delete_news {W} (pg : client W) (req : request) : M W response :=
  try_catch
    (query pg BEGIN ;;
     if bad_id (id req)
     then query pg ROLLBACK ;; respond 400 false "Valid news ID is required" NoData
     else
       checkResult <- query pg (SELECT_news (JStr (id req))) ;;
       match rows checkResult with
       | [] => query pg ROLLBACK ;;
               respond 404 false "News article not found" NoData
       | article :: _ =>
           title <- title_of article ;;
           totalDeleted <- safeDelete_all pg dependents (JStr (id req)) 0 ;;
           newsDeleteResult <- query pg (DELETE_news (JStr (id req))) ;;
           if (rowCount newsDeleteResult =? 0)%nat
           then query pg ROLLBACK ;;
                respond 500 false "Failed to delete news article" NoData
           else
             logAdminActivity pg (adminId req) "delete_news" "news"
               (JStr (id req))
               (template [JStr "Permanently deleted article: "; title])
               (ip_of req) ;;
             query pg COMMIT ;;
             respond 200 true "Article permanently deleted"
               (DeletedRecords (totalDeleted + rowCount newsDeleteResult))
       end)
    (fun error =>
       guarded_rollback pg ;;
       respond 500 false "Internal server error" (ErrorDetail error)).

(** The body of the loop of router.post('/bulk'). *)
Definition bulk_item {W} (pg : client W) (newsId : jsval) (r : results)
  : M W results :=
  try_catch
    (checkResult <- query pg (SELECT_news newsId) ;;
     match rows checkResult with
     | [] => ret (push_failed r (mkFailed newsId "Not found"))
     | article :: _ =>
         safeDelete_all pg dependents newsId 0 ;;
         newsDeleteResult <- query pg (DELETE_news newsId) ;;
         if (0 <? rowCount newsDeleteResult)%nat
         then title <- title_of article ;;
              ret (push_success r (mkDeleted newsId title None))
         else ret (push_failed r (mkFailed newsId "Delete failed"))
     end)
    (fun itemError => ret (push_failed r (mkFailed newsId itemError))).

(** router.post('/bulk') *)
Definition bulk_delete {W} (pg : client W) (req : request) : M W response :=
  try_catch
    (query pg BEGIN ;;
     match news_ids req with
     | JArr (i :: ids) =>
         r <- bulk_loop (bulk_item pg) (i :: ids) no_results ;;
         logAdminActivity pg (adminId req) "bulk_delete" "news" JNull
           (template [JStr "Bulk deleted ";
                      JNum (Z.of_nat (List.length (succeeded r)));
                      JStr " articles"])
           (ip_of req) ;;
         query pg COMMIT ;;
         respond 200 true (bulk_message (succeeded r) (failed r))
           (BulkResults (succeeded r) (failed r) None)
     | _ => query pg ROLLBACK ;;
            respond 400 false "Valid news IDs array is required" NoData
     end)
    (fun error =>
       query pg ROLLBACK ;;
       respond 500 false "Internal server error" (ErrorDetail error)).

End Safe.

(** ** Second router of part_001: one cascading delete, checked *)

Module Cascade.

(** router.delete('/:id') *)
Definition delete_news {W} (pg : client W) (req : request) : M W response :=
  try_catch
    (query pg BEGIN ;;
     if bad_id (id req)
     then query pg ROLLBACK ;; respond 400 false "Valid news ID is required" NoData
     else
       checkResult <- query pg (SELECT_news (JStr (id req))) ;;
       match rows checkResult with
       | [] => query pg ROLLBACK ;;
               respond 404 false "News article not found" NoData
       | article :: _ =>
           title <- title_of article ;;
           deleteResult <- query pg (DELETE_news (JStr (id req))) ;;
           if (rowCount deleteResult =? 0)%nat
           then query pg ROLLBACK ;;
                respond 500 false
                  "Failed to delete news article - no rows affected" NoData
           else
             logAdminActivity pg (adminId req) "delete_news" "news"
               (JStr (id req))
               (template [JStr "Permanently deleted article: "; title])
               (ip_of req) ;;
             query pg COMMIT ;;
             respond 200 true "Article permanently deleted"
               (DeletedArticle (JStr (id req)) title)
       end)
    (fun error =>
       guarded_rollback pg ;;
       respond 500 false "Internal server error" (ErrorDetail error)).

(** The body of the loop of router.post('/bulk'). *)
Definition bulk_item {W} (pg : client W) (newsId : jsval) (r : results)
  : M W results :=
  try_catch
    (checkResult <- query pg (SELECT_news newsId) ;;
     match rows checkResult with
     | [] => ret (push_failed r (mkFailed newsId "Not found"))
     | article :: _ =>
         deleteResult <- query pg (DELETE_news newsId) ;;
         if (0 <? rowCount deleteResult)%nat
         then title <- title_of article ;;
              ret (push_success r (mkDeleted newsId title None))
         else ret (push_failed r
                     (mkFailed newsId "Delete failed - no rows affected"))
     end)
    (fun itemError => ret (push_failed r (mkFailed newsId itemError))).

(** router.post('/bulk') *)
Definition bulk_delete {W} (pg : client W) (req : request) : M W response :=
  try_catch
    (query pg BEGIN ;;
     match news_ids req with
     | JArr (i :: ids) =>
         r <- bulk_loop (bulk_item pg) (i :: ids) no_results ;;
         logAdminActivity pg (adminId req) "bulk_delete" "news" JNull
           (template [JStr "Bulk deleted ";
                      JNum (Z.of_nat (List.length (succeeded r)));
                      JStr " articles"])
           (ip_of req) ;;
         query pg COMMIT ;;
         respond 200 true (bulk_message (succeeded r) (failed r))
           (BulkResults (succeeded r) (failed r) None)
     | _ => query pg ROLLBACK ;;
            respond 400 false "Valid news IDs array is required" NoData
     end)
    (fun error =>
       query pg ROLLBACK ;;
       respond 500 false "Internal server error" (ErrorDetail error)).

End Cascade.

(** ** Third router of part_001: every table by hand, root delete unchecked *)

Module Explicit.

(** [await client.query('DELETE FROM t WHERE news_id = $1', [id])] for
    each table. *)
Definition delete_all {W} (pg : client W) (ts : list table) (newsId : jsval)
  : M W unit :=
  for_each (fun t => query pg (DELETE_FROM t newsId) ;; ret tt) ts.

(** router.delete('/:id') *)
Definition delete_news {W} (pg : client W) (req : request) : M W response :=
  try_catch
    (query pg BEGIN ;;
     if bad_id (id req)
     then query pg ROLLBACK ;; respond 400 false "Valid news ID is required" NoData
     else
       checkResult <- query pg (SELECT_news (JStr (id req))) ;;
       match rows checkResult with
       | [] => query pg ROLLBACK ;;
               respond 404 false "News article not found" NoData
       | article :: _ =>
           delete_all pg Safe.dependents (JStr (id req)) ;;
           query pg (DELETE_news (JStr (id req))) ;;
           title <- title_of article ;;
           logAdminActivity pg (adminId req) "delete_news" "news"
             (JStr (id req))
             (template [JStr "Permanently deleted article: "; title])
             (ip_of req) ;;
           query pg COMMIT ;;
           respond 200 true "Article permanently deleted" Deleted
       end)
    (fun error =>
       guarded_rollback pg ;;
       respond 500 false "Internal server error" (ErrorDetail error)).

(** The body of the loop of router.post('/bulk'). *)
Definition bulk_item {W} (pg : client W) (newsId : jsval) (r : results)
  : M W results :=
  try_catch
    (checkResult <- query pg (SELECT_news newsId) ;;
     match rows checkResult with
     | [] => ret (push_failed r (mkFailed newsId "Not found"))
     | article :: _ =>
         delete_all pg Safe.dependents newsId ;;
         query pg (DELETE_news newsId) ;;
         title <- title_of article ;;
         ret (push_success r (mkDeleted newsId title None))
     end)
    (fun itemError => ret (push_failed r (mkFailed newsId itemError))).

(** router.post('/bulk') *)
Definition bulk_delete {W} (pg : client W) (req : request) : M W response :=
  try_catch
    (query pg BEGIN ;;
     match news_ids req with
     | JArr (i :: ids) =>
         r <- bulk_loop (bulk_item pg) (i :: ids) no_results ;;
         logAdminActivity pg (adminId req) "bulk_delete" "news" JNull
           (template [JStr "Bulk deleted ";
                      JNum (Z.of_nat (List.length (succeeded r)));
                      JStr " articles"])
           (ip_of req) ;;
         query pg COMMIT ;;
         respond 200 true (bulk_message (succeeded r) (failed r))
           (BulkResults (succeeded r) (failed r) None)
     | _ => query pg ROLLBACK ;;
            respond 400 false "Valid news IDs array is required" NoData
     end)
    (fun error =>
       query pg ROLLBACK ;;
       respond 500 false "Internal server error" (ErrorDetail error)).

End Explicit.

(** ** routes/api/client.js: remote images first, root delete unchecked *)

Module Client.

(** [row.image_url] is truthy. *)
Definition has_url (row : jsval) : string + bool :=
  match prop row "image_url" with
  | Some u => inr (truthy u)
  | None => inl "Cannot read properties of null (reading 'image_url')"
  end.

Fixpoint count_urls (rs : list jsval) : string + nat :=
  match rs with
  | [] => inr 0%nat
  | row :: rs' =>
      match has_url row, count_urls rs' with
      | inr b, inr n => inr ((if b then 1 else 0) + n)%nat
      | inl e, _ => inl e
      | _, inl e => inl e
      end
  end.

(** deleteCloudflareImages: the number of image urls found for the
    article, or 0 when anything throws. The calls to the image service
    send no statement and their errors are swallowed one by one. *)
Definition deleteCloudflareImages {W} (pg : client W) (newsId : jsval) : M W nat :=
  try_catch
    (imagesResult <- query pg (SELECT_image_urls newsId) ;;
     mainImageResult <- query pg (SELECT_main_image newsId) ;;
     main <- lift (match rows mainImageResult with
                   | [] => inr false
                   | row :: _ => has_url row
                   end) ;;
     n <- lift (count_urls (rows imagesResult)) ;;
     ret ((if main then 1 else 0) + n)%nat)
    (fun _ => ret 0%nat).

(** The seven dependent tables client.js names. *)
Definition dependents : list table :=
  [news_categories; news_images; news_social_media; news_comments; likes;
   post_promotions; featured_news].

(** router.delete('/:id') *)
Definition delete_news {W} (pg : client W) (req : request) : M W response :=
  try_catch
    (query pg BEGIN ;;
     if bad_id (id req)
     then query pg ROLLBACK ;; respond 400 false "Valid news ID is required" NoData
     else
       checkResult <- query pg (SELECT_news (JStr (id req))) ;;
       match rows checkResult with
       | [] => query pg ROLLBACK ;;
               respond 404 false "News article not found" NoData
       | article :: _ =>
           deletedImagesCount <- deleteCloudflareImages pg (JStr (id req)) ;;
           Explicit.delete_all pg dependents (JStr (id req)) ;;
           query pg (DELETE_news (JStr (id req))) ;;
           title <- title_of article ;;
           logAdminActivity pg (adminId req) "delete_news" "news"
             (JStr (id req))
             (template [JStr "Permanently deleted article: "; title;
                        JStr " ("; JNum (Z.of_nat deletedImagesCount);
                        JStr " images removed from Cloudflare)"])
             (ip_of req) ;;
           query pg COMMIT ;;
           respond 200 true "Article permanently deleted"
             (DeletedImages deletedImagesCount)
       end)
    (fun error =>
       guarded_rollback pg ;;
       respond 500 false "Internal server error" (ErrorDetail error)).

(** The body of the loop of router.post('/bulk'). The running count
    totalDeletedImages is a variable outside the try block: what was added
    to it stays when a later statement of the same turn throws, hence the
    inner handler. *)
Definition bulk_item {W} (pg : client W) (newsId : jsval) (r : results)
  : M W results :=
  try_catch
    (checkResult <- query pg (SELECT_news newsId) ;;
     match rows checkResult with
     | [] => ret (push_failed r (mkFailed newsId "Not found"))
     | article :: _ =>
         deletedImagesCount <- deleteCloudflareImages pg newsId ;;
         let r := add_images r deletedImagesCount in
         try_catch
           (Explicit.delete_all pg dependents newsId ;;
            query pg (DELETE_news newsId) ;;
            title <- title_of article ;;
            ret (push_success r (mkDeleted newsId title (Some deletedImagesCount))))
           (fun itemError => ret (push_failed r (mkFailed newsId itemError)))
     end)
    (fun itemError => ret (push_failed r (mkFailed newsId itemError))).

(** router.post('/bulk') *)
Definition bulk_delete {W} (pg : client W) (req : request) : M W response :=
  try_catch
    (query pg BEGIN ;;
     match news_ids req with
     | JArr (i :: ids) =>
         r <- bulk_loop (bulk_item pg) (i :: ids) no_results ;;
         logAdminActivity pg (adminId req) "bulk_delete" "news" JNull
           (template [JStr "Bulk deleted ";
                      JNum (Z.of_nat (List.length (succeeded r)));
                      JStr " articles (";
                      JNum (Z.of_nat (totalDeletedImages r));
                      JStr " images removed from Cloudflare)"])
           (ip_of req) ;;
         query pg COMMIT ;;
         respond 200 true (bulk_message (succeeded r) (failed r))
           (BulkResults (succeeded r) (failed r) (Some (totalDeletedImages r)))
     | _ => query pg ROLLBACK ;;
            respond 400 false "Valid news IDs array is required" NoData
     end)
    (fun error =>
       query pg ROLLBACK ;;
       respond 500 false "Internal server error" (ErrorDetail error)).

End Client.

End Deleter.

(* ===================================================================== *)
(** * A reference database

    One session over tables kept as lists: every table exists, no
    constraint is declared, and a statement sees the rows the statements
    before it left. BEGIN keeps a copy of the tables that ROLLBACK puts
    back. The routes are checked against it where a property speaks of the
    rows that are there afterwards. *)
(* ===================================================================== *)

Module Store.

Record article : Type := mkArticle {
  news_id : Z;
  cols : news_values;
  quotes_data : list Formatter.quote;
  image_url : jsval
}.

Record link : Type := mkLink {
  l_news_id : Z;
  l_category_id : jsval;
  l_is_primary : bool
}.

Record tables : Type := mkTables {
  news : list article;
  categories : list link;
  images : list (Z * image_values);
  socials : list (Z * social_values);
  others : list (table * Z);
  activity : list stmt;
  serial : Z
}.

Record db : Type := mkDb {
  live : tables;
  saved : option tables;
  clock : Z
}.

(** A parameter compared with the integer column news_id: a number, text
    made of digits, or NULL, which equals nothing. *)
Definition as_id (v : jsval) : string + option Z :=
  match v with
  | JNum n => inr (Some n)
  | JStr s =>
      if Deleter.bad_id s then inl "invalid input syntax for type integer"
      else inr (parseInt s 10)
  | JNull | JUndefined => inr None
  | _ => inl "invalid input syntax for type integer"
  end.

Definition same (k : option Z) (n : Z) : bool :=
  match k with Some m => m =? n | None => false end.

(** The CASE expression of updateQuery:
    CASE WHEN $10 = 'published' AND published_at IS NULL THEN NOW()
    ELSE published_at END *)
Definition updateQuery_published_at (status : string) (published_at : option Z)
    (NOW : Z) : option Z :=
  match published_at with
  | None => if String.eqb status "published" then Some NOW else None
  | Some t => Some t
  end.

(** The SET list of updateQuery on one row. *)
Definition updated (v : news_update) (NOW : Z) (a : article) : article :=
  let c := cols a in
  mkArticle (news_id a)
    {| n_title := u_title v;
       n_slug := u_slug v;
       n_content := u_content v;
       n_processed_content := u_processed_content v;
       n_excerpt := u_excerpt v;
       n_author_id := n_author_id c;
       n_category_id := u_category_id v;
       n_primary_category_id := u_primary_category_id v;
       n_priority := u_priority v;
       n_reading_time := u_reading_time v;
       n_status := u_status v;
       n_tags := u_tags v;
       n_meta_description := u_meta_description v;
       n_seo_keywords := u_seo_keywords v;
       n_published_at := updateQuery_published_at (u_status v) (n_published_at c) NOW |}
    (quotes_data a) (image_url a).

(** The row object of a SELECT or RETURNING on news. *)
Definition row_of (a : article) : jsval :=
  JObj [("news_id", JNum (news_id a));
        ("title", JStr (n_title (cols a)));
        ("slug", JStr (n_slug (cols a)));
        ("status", JStr (n_status (cols a)))].

Definition ok (rs : list jsval) (n : nat) : reply := inr (mkResult rs n).

Definition is_article (k : option Z) (a : article) : bool := same k (news_id a).

Definition on_article (k : option Z) (f : article -> article) (a : article)
  : article :=
  if is_article k a then f a else a.

(** DELETE FROM t WHERE news_id = k, on the tables. *)
Definition delete_from (t : table) (k : option Z) (ts : tables) : tables * nat :=
  match t with
  | news_categories =>
      let gone := filter (fun l => same k (l_news_id l)) (categories ts) in
      (mkTables (news ts)
         (filter (fun l => negb (same k (l_news_id l))) (categories ts))
         (images ts) (socials ts) (others ts) (activity ts) (serial ts),
       List.length gone)
  | news_images =>
      let gone := filter (fun r => same k (fst r)) (images ts) in
      (mkTables (news ts) (categories ts)
         (filter (fun r => negb (same k (fst r))) (images ts))
         (socials ts) (others ts) (activity ts) (serial ts),
       List.length gone)
  | news_social_media =>
      let gone := filter (fun r => same k (fst r)) (socials ts) in
      (mkTables (news ts) (categories ts) (images ts)
         (filter (fun r => negb (same k (fst r))) (socials ts))
         (others ts) (activity ts) (serial ts),
       List.length gone)
  | _ =>
      let hit := fun r : table * Z => table_eqb (fst r) t && same k (snd r) in
      (mkTables (news ts) (categories ts) (images ts) (socials ts)
         (filter (fun r => negb (hit r)) (others ts)) (activity ts) (serial ts),
       List.length (filter hit (others ts)))
  end.

Definition with_news (ts : tables) (ns : list article) : tables :=
  mkTables ns (categories ts) (images ts) (socials ts) (others ts)
    (activity ts) (serial ts).

(** One statement on the tables; the clock is what NOW() reads. *)
Definition exec (q : stmt) (NOW : Z) (ts : tables) : tables * reply :=
  match q with
  | BEGIN | COMMIT | ROLLBACK => (ts, ok [] 0)
  | INSERT_news v =>
      let a := mkArticle (serial ts) v [] JNull in
      (mkTables (news ts ++ [a]) (categories ts) (images ts) (socials ts)
         (others ts) (activity ts) (serial ts + 1),
       ok [row_of a] 1)
  | UPDATE_news v i =>
      match as_id i with
      | inl e => (ts, inl e)
      | inr k =>
          let hit := filter (is_article k) (news ts) in
          (with_news ts (map (on_article k (updated v NOW)) (news ts)),
           ok (map (fun a => row_of (updated v NOW a)) hit) (List.length hit))
      end
  | SELECT_news i =>
      match as_id i with
      | inl e => (ts, inl e)
      | inr k =>
          let hit := filter (is_article k) (news ts) in
          (ts, ok (map row_of hit) (List.length hit))
      end
  | DELETE_news i =>
      match as_id i with
      | inl e => (ts, inl e)
      | inr k =>
          (with_news ts (filter (fun a => negb (is_article k a)) (news ts)),
           ok [] (List.length (filter (is_article k) (news ts))))
      end
  | INSERT_news_categories i c p =>
      match as_id i with
      | inr (Some n) =>
          (mkTables (news ts) (categories ts ++ [mkLink n c p]) (images ts)
             (socials ts) (others ts) (activity ts) (serial ts),
           ok [] 1)
      | inr None => (ts, inl "null value in column news_id")
      | inl e => (ts, inl e)
      end
  | UPDATE_quotes_data qs i =>
      match as_id i with
      | inl e => (ts, inl e)
      | inr k =>
          (with_news ts
             (map (on_article k (fun a =>
                     mkArticle (news_id a) (cols a) qs (image_url a))) (news ts)),
           ok [] (List.length (filter (is_article k) (news ts))))
      end
  | UPDATE_image_url u i =>
      match as_id i with
      | inl e => (ts, inl e)
      | inr k =>
          (with_news ts
             (map (on_article k (fun a =>
                     mkArticle (news_id a) (cols a) (quotes_data a) u)) (news ts)),
           ok [] (List.length (filter (is_article k) (news ts))))
      end
  | INSERT_news_social_media i v =>
      match as_id i with
      | inr (Some n) =>
          (mkTables (news ts) (categories ts) (images ts) (socials ts ++ [(n, v)])
             (others ts) (activity ts) (serial ts),
           ok [] 1)
      | inr None => (ts, inl "null value in column news_id")
      | inl e => (ts, inl e)
      end
  | INSERT_news_images i v =>
      match as_id i with
      | inr (Some n) =>
          (mkTables (news ts) (categories ts) (images ts ++ [(n, v)]) (socials ts)
             (others ts) (activity ts) (serial ts),
           ok [] 1)
      | inr None => (ts, inl "null value in column news_id")
      | inl e => (ts, inl e)
      end
  | DELETE_FROM t i =>
      match as_id i with
      | inl e => (ts, inl e)
      | inr k => let '(ts', n) := delete_from t k ts in (ts', ok [] n)
      end
  | SELECT_image_urls i =>
      match as_id i with
      | inl e => (ts, inl e)
      | inr k =>
          let hit := filter (fun r => same k (fst r)) (images ts) in
          (ts, ok (map (fun r => JObj [("image_url", i_image_url (snd r))]) hit)
                  (List.length hit))
      end
  | SELECT_main_image i =>
      match as_id i with
      | inl e => (ts, inl e)
      | inr k =>
          let hit := filter (is_article k) (news ts) in
          (ts, ok (map (fun a => JObj [("image_url", image_url a)]) hit)
                  (List.length hit))
      end
  | INSERT_admin_activity_log _ _ _ _ _ _ =>
      (mkTables (news ts) (categories ts) (images ts) (socials ts) (others ts)
         (activity ts ++ [q]) (serial ts),
       ok [] 1)
  end.

(** The client of the session. *)
Definition step : client db := fun q d =>
  match q with
  | BEGIN => (mkDb (live d) (Some (live d)) (clock d), ok [] 0)
  | COMMIT => (mkDb (live d) None (clock d), ok [] 0)
  | ROLLBACK =>
      (mkDb (match saved d with Some ts => ts | None => live d end) None (clock d),
       ok [] 0)
  | _ =>
      let '(ts, r) := exec q (clock d) (live d) in
      (mkDb ts (saved d) (clock d), r)
  end.

(** A second session that commits its own statements between those of the
    first: [schedule] says what it runs just before the statement number
    [k] of the first session (counted from 0). Each statement of the first
    session sees what was committed before it started, and a rollback of
    the first session does not undo what the second committed. *)
Fixpoint interleave (k : nat) (schedule : list (nat * stmt)) (d : db) : db :=
  match schedule with
  | [] => d
  | (at_k, q) :: rest =>
      let d' := interleave k rest d in
      if (at_k =? k)%nat
      then mkDb (fst (exec q (clock d') (live d')))
                (option_map (fun ts => fst (exec q (clock d') ts)) (saved d'))
                (clock d')
      else d'
  end.

Definition racing (schedule : list (nat * stmt)) : client (db * nat) :=
  fun q w =>
    let '(d, k) := w in
    let '(d', r) := step q (interleave k schedule d) in
    ((d', S k), r).

(** A database at rest: no transaction open. *)
Definition at_rest (ts : tables) (NOW : Z) : db := mkDb ts None NOW.

End Store.

(* ===================================================================== *)
(** * A small deployment, for running the routes *)
(* ===================================================================== *)

Module Demo.

Definition q : string := String Formatter.dquote "".

(** The JSON documents of the runs below; JSON.parse throws on any other
    text. *)
Definition documents : list (string * jsval) :=
  [ ("[3,7]", JArr [JNum 3; JNum 7]);
    ("[7]", JArr [JNum 7]);
    ("[5,9999]", JArr [JNum 5; JNum 9999]);
    (("{" ++ q ++ "is_featured" ++ q ++ ":true}")%string,
     JObj [("is_featured", JBool true)]);
    (("[{" ++ q ++ "post_url" ++ q ++ ":" ++ q ++ "https://video.example/1" ++ q ++ "}]")%string,
     JArr [JObj [("post_url", JStr "https://video.example/1")]]) ].

Fixpoint find_document (docs : list (string * jsval)) (s : string) : option jsval :=
  match docs with
  | [] => None
  | (d, v) :: rest => if String.eqb d s then Some v else find_document rest s
  end.

(** Administrators publish directly; editors and the rest do not. *)
Definition canPublishDirectly (role : jsval) : bool :=
  match role with
  | JStr r => String.eqb r "super_admin" || String.eqb r "admin"
  | _ => false
  end.

(** The environment over a client: uploads arrive as the objects the
    ingestion would return, the slug is the title, the formatted body is
    the raw one. *)
Definition env_over {W} (pg : client W) : Posts.env W :=
  {| Posts.pg := pg;
     Posts.canPublishDirectly := canPublishDirectly;
     Posts.processUploadedFiles := fun files => inr files;
     Posts.JSON_parse := find_document documents;
     Posts.generateSlug := fun title => title;
     Posts.processedContent := fun content => content |}.

Definition env : Posts.env Store.db := env_over Store.step.

Definition a_news (id : Z) (title status : string) (published : option Z)
  : Store.article :=
  Store.mkArticle id
    (mkNewsValues title title "body" "body" title 1 7 7 "medium" 1 status
       None None None published)
    [] JNull.

(** Two articles, the first with its links, an image and a promotion; the
    next article gets id 6. *)
Definition tables0 : Store.tables :=
  Store.mkTables
    [a_news 4 "Draft four" "draft" None; a_news 5 "Story five" "published" (Some 1000)]
    [Store.mkLink 5 (JNum 7) true; Store.mkLink 5 (JNum 3) false]
    [] [] [(breaking_news, 5)] [] 6.

Definition db0 : Store.db := Store.at_rest tables0 2000.

Definition a_body (status : string) : Posts.body :=
  {| Posts.title := Some "Floods in the valley";
     Posts.content := Some "Rain fell. [QUOTE]We are safe[/QUOTE] More rain.";
     Posts.excerpt := None;
     Posts.category_ids := Some "[3,7]";
     Posts.primary_category_id := Some "7";
     Posts.priority := None;
     Posts.tags := None;
     Posts.meta_description := None;
     Posts.seo_keywords := None;
     Posts.status := Some status;
     Posts.author_id := Some "12";
     Posts.social_media_links := None;
     Posts.other_fields := [] |}.

Definition a_request (role status : string) : Posts.request :=
  {| Posts.req_body := a_body status;
     Posts.files := [];
     Posts.userRole := JStr role;
     Posts.adminId := JNum 12;
     Posts.ip := JStr "10.0.0.1";
     Posts.param_newsId := "5";
     Posts.now := 2000 |}.

(** Two uploads, the second marked featured by its sidecar. *)
Definition two_uploads (role status : string) : Posts.request :=
  {| Posts.req_body :=
       {| Posts.title := Some "Floods in the valley";
          Posts.content := Some "Rain fell.";
          Posts.excerpt := None;
          Posts.category_ids := Some "[3,7]";
          Posts.primary_category_id := Some "7";
          Posts.priority := None;
          Posts.tags := None;
          Posts.meta_description := None;
          Posts.seo_keywords := None;
          Posts.status := Some status;
          Posts.author_id := Some "12";
          Posts.social_media_links := None;
          Posts.other_fields :=
            [("image_metadata_1",
              ("{" ++ q ++ "is_featured" ++ q ++ ":true}")%string)] |};
     Posts.files := [JObj [("url", JStr "/uploads/a.jpg")];
                     JObj [("url", JStr "/uploads/b.jpg")]];
     Posts.userRole := JStr role;
     Posts.adminId := JNum 12;
     Posts.ip := JStr "10.0.0.1";
     Posts.param_newsId := "5";
     Posts.now := 2000 |}.

Definition a_delete (id : string) (ids : jsval) : Deleter.request :=
  {| Deleter.id := id;
     Deleter.news_ids := ids;
     Deleter.adminId := JNum 1;
     Deleter.x_forwarded_for := JUndefined;
     Deleter.x_real_ip := JUndefined;
     Deleter.ip := JStr "10.0.0.1" |}.

End Demo.
(* ===================================================================== *)
(** * Article objects of the surfaces
      (getImageUrl and normalizeArticle of breaking.js and pinned.js) *)
(* ===================================================================== *)

Module Article.

(** The image service and the environment getImageUrl reads. *)
Record services : Type := mkServices {
  isEnabled : bool;
  getPublicUrl : string -> string;
  R2_PUBLIC_URL : option string
}.

Definition startsWith (p s : string) : bool := String.prefix p s.

(** [s.endsWith('/')] *)
Definition endsWith_slash (s : string) : bool :=
  match rev (list_ascii_of_string s) with
  | c :: _ => Ascii.eqb c "/"
  | [] => false
  end.

(** [s.slice(0, -1)] *)
Definition drop_last (s : string) : string :=
  string_of_list_ascii (removelast (list_ascii_of_string s)).

(** [s.substring(1)] *)
Definition drop_first (s : string) : string :=
  match s with
  | String _ t => t
  | EmptyString => ""
  end.

(** getImageUrl. A value that is truthy and not a string has no
    startsWith, which throws. *)
Definition getImageUrl (sv : services) (imageUrl : jsval) : string + jsval :=
  if negb (truthy imageUrl) then inr JNull
  else
    match imageUrl with
    | JStr u =>
        if startsWith "http://" u || startsWith "https://" u then inr (JStr u)
        else
          let cleanPath := if startsWith "/" u then drop_first u else u in
          if isEnabled sv then inr (JStr (getPublicUrl sv cleanPath))
          else
            match R2_PUBLIC_URL sv with
            | Some r2Url =>
                if String.eqb r2Url "" then inr (JStr u)
                else
                  let cleanUrl :=
                    if endsWith_slash r2Url then drop_last r2Url else r2Url in
                  inr (JStr (cleanUrl ++ "/" ++ cleanPath))
            | None => inr (JStr u)
            end
    | _ => inl "imageUrl.startsWith is not a function"
    end.

(** [s.split(sep)] for a separator of one code unit. *)
Fixpoint split_on (sep : ascii) (s : list ascii) : list (list ascii) :=
  match s with
  | [] => [[]]
  | c :: s' =>
      match split_on sep s' with
      | piece :: rest =>
          if Ascii.eqb c sep then [] :: piece :: rest else (c :: piece) :: rest
      | [] => [[c]]
      end
  end.

(** [tags.split(',').map(t => t.trim()).filter(Boolean)] *)
Definition tag_list (tags : string) : list string :=
  filter (fun t => negb (String.eqb t ""))
    (map (fun p => string_of_list_ascii (trim_chars p))
       (split_on "," (list_ascii_of_string tags))).

(** [article.tags ? ... : []] *)
Definition tags_of (tags : jsval) : string + jsval :=
  if negb (truthy tags) then inr (JArr [])
  else
    match tags with
    | JStr s => inr (JArr (map JStr (tag_list s)))
    | _ => inl "article.tags.split is not a function"
    end.

(** The two surfaces. *)
Inductive surface_kind : Type := Breaking | Pinned.

(** [v === s] *)
Definition is_str (v : jsval) (s : string) : bool :=
  match v with JStr t => String.eqb t s | _ => false end.

(** The block that differs between the two files. A string outside the
    code units below 256 (the emoji) is written by its code point. *)
Definition kind_block (k : surface_kind) (article : jsval) : string * jsval :=
  match k with
  | Breaking =>
      ("breaking",
       JObj [("priority", field article "breaking_priority");
             ("started_at", field article "breaking_started_at");
             ("startedAt", field article "breaking_started_at");
             ("ends_at", field article "breaking_ends_at");
             ("endsAt", field article "breaking_ends_at");
             ("emoji",
              JStr (if is_str (field article "breaking_priority") "urgent"
                    then "U+1F6A8"
                    else if is_str (field article "breaking_priority") "high"
                    then "U+26A1"
                    else if is_str (field article "breaking_priority") "medium"
                    then "U+1F4E2"
                    else "U+1F4F0"))])
  | Pinned =>
      ("pinned",
       JObj [("position", field article "pin_position");
             ("tier", field article "pin_tier");
             ("started_at", field article "pin_started_at");
             ("startedAt", field article "pin_started_at");
             ("ends_at", field article "pin_ends_at");
             ("endsAt", field article "pin_ends_at");
             ("emoji",
              JStr (if is_str (field article "pin_tier") "gold" then "U+1F4CC"
                    else if is_str (field article "pin_tier") "silver"
                    then "U+1F4CD"
                    else "U+1F4CE"))])
  end.

(** normalizeArticle, on a row object. *)
Definition normalizeArticle (sv : services) (k : surface_kind) (article : jsval)
  : string + jsval :=
  match prop article "news_id" with
  | None => inl "Cannot read properties of null (reading 'news_id')"
  | Some news_id =>
      match getImageUrl sv (field article "image_url") with
      | inl e => inl e
      | inr image =>
          match tags_of (field article "tags") with
          | inl e => inl e
          | inr tags =>
              let a := field article in
              inr (JObj
                [("news_id", news_id);
                 ("newsId", news_id);
                 ("title", a "title");
                 ("excerpt", js_or (js_or (a "excerpt") (a "meta_description"))
                               (JStr ""));
                 ("slug", a "slug");
                 ("image_url", image);
                 ("imageUrl", image);
                 ("published_at", a "published_at");
                 ("publishedAt", a "published_at");
                 ("reading_time", js_or (a "reading_time") (JNum 3));
                 ("readingTime", js_or (a "reading_time") (JNum 3));
                 ("views", js_or (a "views") (JNum 0));
                 ("likes_count", js_or (a "likes_count") (JNum 0));
                 ("likesCount", js_or (a "likes_count") (JNum 0));
                 ("comments_count", js_or (a "comments_count") (JNum 0));
                 ("commentsCount", js_or (a "comments_count") (JNum 0));
                 ("share_count", js_or (a "share_count") (JNum 0));
                 ("shareCount", js_or (a "share_count") (JNum 0));
                 ("first_name", js_or (a "first_name") (JStr "Daily Vaibe"));
                 ("firstName", js_or (a "first_name") (JStr "Daily Vaibe"));
                 ("last_name", js_or (a "last_name") (JStr "Editor"));
                 ("lastName", js_or (a "last_name") (JStr "Editor"));
                 ("category_name", js_or (a "category_name") (JStr "Uncategorized"));
                 ("categoryName", js_or (a "category_name") (JStr "Uncategorized"));
                 ("category_slug", js_or (a "category_slug") (JStr "general"));
                 ("categorySlug", js_or (a "category_slug") (JStr "general"));
                 ("category_color", js_or (a "category_color") (JStr "#6366f1"));
                 ("categoryColor", js_or (a "category_color") (JStr "#6366f1"));
                 ("category_icon", js_or (a "category_icon") (JStr "U+1F4F0"));
                 ("categoryIcon", js_or (a "category_icon") (JStr "U+1F4F0"));
                 ("meta_description", a "meta_description");
                 ("metaDescription", a "meta_description");
                 ("tags", tags);
                 kind_block k article;
                 ("trending_score", js_or (a "trending_score") (JNum 0));
                 ("trendingScore", js_or (a "trending_score") (JNum 0));
                 ("hours_ago", js_or (a "hours_ago") (JNum 0));
                 ("hoursAgo", js_or (a "hours_ago") (JNum 0))])
          end
      end
  end.

(** [newsResult.rows.map(normalizeArticle)]: the first row that throws
    ends the map. *)
Fixpoint normalize_rows (sv : services) (k : surface_kind) (rows : list jsval)
  : string + list jsval :=
  match rows with
  | [] => inr []
  | row :: rest =>
      match normalizeArticle sv k row with
      | inl e => inl e
      | inr a =>
          match normalize_rows sv k rest with
          | inl e => inl e
          | inr more => inr (a :: more)
          end
      end
  end.

End Article.

(* ===================================================================== *)
(** * Category groups (GET / of the first router of
      routes/admin/categories.js) *)
(* ===================================================================== *)

Module Groups.

(** A row of the categories query. *)
Record category : Type := mkCategory {
  category_id : Z;
  name : jsval;
  slug : jsval;
  parent_id : option Z;
  description : jsval;
  color : jsval;
  icon : jsval;
  order_index : jsval
}.

Record group_metadata : Type := mkMetadata {
  groupKey : string;
  m_title : string;
  m_icon : string;
  m_description : string;
  m_color : string
}.

(** CATEGORY_GROUP_METADATA, in the order of the source; an icon is
    written by its code points. *)
Definition CATEGORY_GROUP_METADATA : list (Z * group_metadata) :=
  [ (1, mkMetadata "live-world" "Live & World" "U+1F30D"
          "Global news and international affairs" "#2563eb");
    (14, mkMetadata "counties" "Counties" "U+1F3E2"
           "County-level news and developments" "#7c3aed");
    (15, mkMetadata "politics" "Politics" "U+1F3DB U+FE0F"
           "Political news and analysis" "#dc2626");
    (16, mkMetadata "business" "Business" "U+1F4BC"
           "Business, economy and finance" "#059669");
    (17, mkMetadata "opinion" "Opinion" "U+1F4AD"
           "Opinion pieces and editorials" "#ea580c");
    (18, mkMetadata "sports" "Sports" "U+26BD"
           "Sports news and events" "#0891b2");
    (19, mkMetadata "lifestyle" "Life & Style" "U+1F3AD"
           "Lifestyle, fashion and culture" "#db2777");
    (20, mkMetadata "entertainment" "Entertainment" "U+1F389"
           "Entertainment and celebrity news" "#8b5cf6");
    (21, mkMetadata "tech" "Technology" "U+1F4BB"
           "Technology news and innovations" "#0284c7");
    (100, mkMetadata "health" "Health" "U+1F3E5"
            "Health, wellness and medical news" "#16a085");
    (106, mkMetadata "education" "Education" "U+1F4DA"
            "Education news, exams and learning" "#3498db");
    (112, mkMetadata "crime-security" "Crime & Security" "U+1F694"
            "Crime reports and security updates" "#c0392b");
    (22, mkMetadata "other" "Other" "U+1F4CC"
           "Miscellaneous categories" "#0233df") ].

(** [CATEGORY_GROUP_METADATA[id]] *)
Fixpoint metadata_of (table : list (Z * group_metadata)) (id : Z)
  : option group_metadata :=
  match table with
  | [] => None
  | (k, md) :: rest => if k =? id then Some md else metadata_of rest id
  end.

(** [parent_category] of a group. *)
Record parent_info : Type := mkParentInfo {
  p_category_id : Z;
  p_name : jsval;
  p_slug : jsval;
  p_color : jsval;
  p_icon : jsval
}.

(** An entry of [categories] of a group. *)
Record listed : Type := mkListed {
  l_category_id : Z;
  l_name : jsval;
  l_slug : jsval;
  l_parent_id : option Z;
  l_description : jsval;
  l_color : jsval;
  l_icon : jsval;
  l_order_index : jsval;
  l_group : string
}.

Record group : Type := mkGroup {
  g_title : string;
  g_icon : string;
  g_description : string;
  g_color : string;
  parent_category : option parent_info;
  categories : list listed
}.

(** The object [groups]: its keys in insertion order. *)
Definition groups_object : Type := list (string * group).

(** [groups[k]] *)
Fixpoint get (k : string) (gs : groups_object) : option group :=
  match gs with
  | [] => None
  | (k', g) :: rest => if String.eqb k k' then Some g else get k rest
  end.

(** [groups[k] = g]: a key that is there keeps its place. *)
Fixpoint assign (k : string) (g : group) (gs : groups_object) : groups_object :=
  match gs with
  | [] => [(k, g)]
  | (k', g') :: rest =>
      if String.eqb k k' then (k, g) :: rest else (k', g') :: assign k g rest
  end.

Definition is_parent (cat : category) : bool :=
  match parent_id cat with None => true | Some _ => false end.

(** [cat.parent_id === id] *)
Definition child_of (id : Z) (cat : category) : bool :=
  match parent_id cat with Some p => p =? id | None => false end.

Definition list_in (groupKey : string) (cat : category) : listed :=
  {| l_category_id := category_id cat;
     l_name := name cat;
     l_slug := slug cat;
     l_parent_id := parent_id cat;
     l_description := description cat;
     l_color := color cat;
     l_icon := icon cat;
     l_order_index := order_index cat;
     l_group := groupKey |}.

(** One turn of the loop over the parents, on [groups] and
    [totalCategories]. *)
Definition add_parent (children : list category)
    (acc : groups_object * Z) (parent : category) : groups_object * Z :=
  match metadata_of CATEGORY_GROUP_METADATA (category_id parent) with
  | None => acc
  | Some metadata =>
      let parentChildren := filter (child_of (category_id parent)) children in
      (assign (groupKey metadata)
         {| g_title := m_title metadata;
            g_icon := m_icon metadata;
            g_description := m_description metadata;
            g_color := m_color metadata;
            parent_category :=
              Some {| p_category_id := category_id parent;
                      p_name := name parent;
                      p_slug := slug parent;
                      p_color := color parent;
                      p_icon := icon parent |};
            categories := map (list_in (groupKey metadata)) parentChildren |}
         (fst acc),
       snd acc + Z.of_nat (List.length parentChildren))
  end.

(** [!validParentIds.includes(cat.parent_id)] *)
Definition orphaned (validParentIds : list Z) (cat : category) : bool :=
  match parent_id cat with
  | Some p => negb (existsb (Z.eqb p) validParentIds)
  | None => true
  end.

(** The group the orphans go to when no parent opened it. *)
Definition empty_other : group :=
  {| g_title := "Other";
     g_icon := "U+1F4CC";
     g_description := "Miscellaneous categories";
     g_color := "#0233df";
     parent_category := None;
     categories := [] |}.

(** [groups['other'].categories.push(...)] *)
Definition push_other (more : list listed) (gs : groups_object) : groups_object :=
  let other := match get "other" gs with
               | Some g => g
               | None => empty_other
               end in
  assign "other"
    {| g_title := g_title other;
       g_icon := g_icon other;
       g_description := g_description other;
       g_color := g_color other;
       parent_category := parent_category other;
       categories := categories other ++ more |}
    gs.

Record summary : Type := mkSummary {
  group_count : nat;
  parent_count : nat;
  has_other_group : bool
}.

Record response : Type := mkResponse {
  status_code : Z;
  success : bool;
  groups : groups_object;
  total_categories : Z;
  message : string;
  metadata : option summary
}.

(** The groups and the total, from the rows. *)
Definition group_rows (rows : list category) : groups_object * Z :=
  let parents := filter is_parent rows in
  let children := filter (fun cat => negb (is_parent cat)) rows in
  let '(groups, totalCategories) :=
    fold_left (add_parent children) parents ([], 0) in
  let validParentIds := map category_id parents in
  let orphanedChildren := filter (orphaned validParentIds) children in
  match orphanedChildren with
  | [] => (groups, totalCategories)
  | _ :: _ =>
      (push_other (map (list_in "other") orphanedChildren) groups,
       totalCategories + Z.of_nat (List.length orphanedChildren))
  end.

(** The handler. The pool may be missing ([None]) and the query may be
    rejected; the time stamps of the answers are left out. *)
Definition get_categories (pool : option (string + list category)) : response :=
  match pool with
  | None =>
      mkResponse 500 false [] 0 "Database connection pool not available" None
  | Some (inl error) =>
      mkResponse 500 false [] 0
        "Internal server error while fetching categories" None
  | Some (inr []) =>
      mkResponse 200 true [] 0 "No categories found in database" None
  | Some (inr rows) =>
      let '(groups, totalCategories) := group_rows rows in
      mkResponse 200 true groups totalCategories
        "Categories fetched successfully"
        (Some {| group_count := List.length groups;
                 parent_count := List.length (filter is_parent rows);
                 has_other_group :=
                   match get "other" groups with Some _ => true | None => false end |})
  end.

End Groups.

(* ===================================================================== *)
(** * Slugs (generateSlug of routes/admin/categories.js) *)
(* ===================================================================== *)

Module Slug.

(** String.prototype.toLowerCase on one code unit below 256. *)
Definition toLowerCase (c : ascii) : ascii :=
  let n := N_of_ascii c in
  if ((65 <=? n) && (n <=? 90) || (192 <=? n) && (n <=? 214)
      || (216 <=? n) && (n <=? 222))%N
  then ascii_of_N (n + 32)
  else c.

(** The class [a-z0-9\s-]. *)
Definition kept (c : ascii) : bool :=
  let n := N_of_ascii c in
  ((97 <=? n) && (n <=? 122) || (48 <=? n) && (n <=? 57))%N
  || is_ws c || Ascii.eqb c "-".

(** [replace(/\s+/g, '-')] *)
Fixpoint spaces_to_hyphen (in_run : bool) (s : list ascii) : list ascii :=
  match s with
  | [] => []
  | c :: s' =>
      if is_ws c
      then (if in_run then [] else ["-"%char]) ++ spaces_to_hyphen true s'
      else c :: spaces_to_hyphen false s'
  end.

(** [replace(/-+/g, '-')] *)
Fixpoint collapse_hyphens (in_run : bool) (s : list ascii) : list ascii :=
  match s with
  | [] => []
  | c :: s' =>
      if Ascii.eqb c "-"
      then (if in_run then [] else ["-"%char]) ++ collapse_hyphens true s'
      else c :: collapse_hyphens false s'
  end.

(** baseSlug *)
Definition baseSlug (title : string) : list ascii :=
  firstn 180
    (collapse_hyphens false
       (spaces_to_hyphen false
          (filter kept
             (trim_chars (map toLowerCase (list_ascii_of_string title)))))).

(** A digit of radix 36. *)
Definition digit36 (d : N) : ascii :=
  if (d <? 10)%N then ascii_of_N (48 + d) else ascii_of_N (87 + d).

(** Number.prototype.toString(36) of a non-negative integer; there are
    no more digits than bits. *)
Fixpoint digits36 (fuel : nat) (n : N) (acc : list ascii) : list ascii :=
  match fuel with
  | O => acc
  | S fuel' =>
      let acc' := digit36 (n mod 36) :: acc in
      if (n / 36 =? 0)%N then acc' else digits36 fuel' (n / 36) acc'
  end.

Definition toString36 (n : N) : list ascii :=
  digits36 (S (N.to_nat (N.log2 n))) n [].

(** [s.substring(start)]: a negative start counts as 0. *)
Definition substring_from (start : Z) (s : list ascii) : list ascii :=
  skipn (Z.to_nat start) s.

(** generateSlug, at time [now] in milliseconds. *)
Definition generateSlug (now : N) (title : string) : string :=
  string_of_list_ascii
    (baseSlug title ++ ["-"%char] ++ substring_from (-6) (toString36 now)).

End Slug.

(* ===================================================================== *)
(** * Content markup (processContentFormatting of
      routes/admin/categories.js) *)
(* ===================================================================== *)

Module Markup.
Import Formatter.

(** A pattern anchored at the head of the input, with its replacement:
    the text that stands for the match, and the input after the match. *)
Definition rule : Type := list ascii -> option (list ascii * list ascii).

(** [s.replace(/pattern/gs, replacement)]: the leftmost match from each
    position on; the search goes on after the match. A match of the
    patterns below is never empty, so [fuel] above the length of the
    input is never used up. *)
Fixpoint replace_loop (fuel : nat) (r : rule) (s : list ascii) : list ascii :=
  match fuel with
  | O => s
  | S fuel' =>
      match r s with
      | Some (replacement, rest) => replacement ++ replace_loop fuel' r rest
      | None =>
          match s with
          | [] => []
          | c :: s' => c :: replace_loop fuel' r s'
          end
      end
  end.

Definition replace_all (r : rule) (s : list ascii) : list ascii :=
  replace_loop (S (List.length s)) r s.

(** [\[TAG\](.*?)\[\/TAG\]], replaced by [before $1 after]. *)
Definition block_rule (tag : string) (before after : list ascii) : rule :=
  fun s =>
    match strip_prefix (chars ("[" ++ tag ++ "]")) s with
    | None => None
    | Some r =>
        match lazy_until (chars ("[/" ++ tag ++ "]")) r with
        | Some (body, rest) => Some (before ++ body ++ after, rest)
        | None => None
        end
    end.

(** An attribute with its quoted value. *)
Definition attribute (name value : list ascii) : list ascii :=
  name ++ chars "=" ++ [dquote] ++ value ++ [dquote].

(** The dash of the footer, U+2014, a code unit above 255, is written by
    its code point. *)
Definition em_dash : list ascii := chars "U+2014".

(** The replacement of a quote with a sayer. *)
Definition said_quote_html (name body : list ascii) : list ascii :=
  chars "<blockquote " ++ attribute (chars "class") (chars "news-large-quote")
  ++ chars " " ++ attribute (chars "data-sayer") name
  ++ chars "><p>" ++ body ++ chars "</p><footer>" ++ em_dash ++ chars " "
  ++ name ++ chars "</footer></blockquote>".

(** The first pattern: the literal [\[QUOTE sayer=] and a double quote,
    the longest run of characters other than the double quote (capture
    1), a double quote and [\]], then [(.*?)\[\/QUOTE\]] (capture 2). The
    class is followed by a double quote, so only its longest run can
    succeed. *)
Definition said_quote_rule : rule :=
  fun s =>
    match strip_prefix (chars "[QUOTE sayer=" ++ [dquote]) s with
    | None => None
    | Some r1 =>
        let '(name, r2) := span not_dquote r1 in
        match strip_prefix (dquote :: chars "]") r2 with
        | None => None
        | Some r3 =>
            match lazy_until (chars "[/QUOTE]") r3 with
            | Some (body, rest) => Some (said_quote_html name body, rest)
            | None => None
            end
        end
    end.

Definition quote_rule : rule :=
  block_rule "QUOTE"
    (chars "<blockquote " ++ attribute (chars "class") (chars "news-large-quote")
     ++ chars ">")
    (chars "</blockquote>").

Definition highlight_rule : rule :=
  block_rule "HIGHLIGHT"
    (chars "<span " ++ attribute (chars "class") (chars "news-highlight")
     ++ chars ">")
    (chars "</span>").

Definition bold_rule : rule :=
  block_rule "BOLD" (chars "<strong>") (chars "</strong>").

Definition italic_rule : rule :=
  block_rule "ITALIC" (chars "<em>") (chars "</em>").

Definition heading_rule : rule :=
  block_rule "HEADING"
    (chars "<h3 " ++ attribute (chars "class") (chars "content-heading")
     ++ chars ">")
    (chars "</h3>").

(** processContentFormatting: (processedContent, rawContent). *)
Definition processContentFormatting (content : string) : string * string :=
  if String.eqb content "" then ("", "")
  else
    (string_of_list_ascii
       (replace_all heading_rule
          (replace_all italic_rule
             (replace_all bold_rule
                (replace_all highlight_rule
                   (replace_all quote_rule
                      (replace_all said_quote_rule (chars content))))))),
     content).

End Markup.

(* ===================================================================== *)
(** * Laws of the handler monad *)
(* ===================================================================== *)

Module PgFacts.

Section Laws.
Context {W : Type}.

Lemma bind_inr {A B} (m : M W A) (k : A -> M W B) s s' b :
  bind m k s = (s', inr b) ->
  exists s1 a, m s = (s1, inr a) /\ k a s1 = (s', inr b).
Proof.
  unfold bind. destruct (m s) as [s1 [e|a]]; [discriminate|].
  intros H. now exists s1, a.
Qed.

Lemma try_catch_inv {A} (m : M W A) (h : string -> M W A) s s' r :
  try_catch m h s = (s', r) ->
  (exists a, m s = (s', inr a) /\ r = inr a)
  \/ (exists s1 e, m s = (s1, inl e) /\ h e s1 = (s', r)).
Proof.
  unfold try_catch. destruct (m s) as [s1 [e|a]]; intros H.
  - right. now exists s1, e.
  - left. inversion H; subst. now exists a.
Qed.

Lemma query_inv (pg : client W) q s s' r :
  query pg q s = (s', r) ->
  s' = (fst (pg q (fst s)), snd s ++ [(q, r)]) /\ r = snd (pg q (fst s)).
Proof.
  unfold query. destruct (pg q (fst s)) as [w' r']. intros H.
  inversion H; subst. now split.
Qed.

Lemma query_sent (pg : client W) q s s' r :
  query pg q s = (s', r) -> sent (snd s') = sent (snd s) ++ [q].
Proof.
  intros H. apply query_inv in H. destruct H as [-> _].
  unfold sent. simpl. now rewrite map_app.
Qed.

Lemma ret_inv {A} (a : A) (s s' : W * trace) r :
  ret a s = (s', r) -> s' = s /\ r = inr a.
Proof. unfold ret. intros H; inversion H; now split. Qed.

(** The activity log never fails and sends its one insert. *)
Lemma logAdminActivity_inv (pg : client W) a act tt' ti d i s s' r :
  logAdminActivity pg a act tt' ti d i s = (s', r) ->
  r = inr tt
  /\ sent (snd s') = sent (snd s) ++ [INSERT_admin_activity_log a act tt' ti d i]
  /\ fst s' = fst (pg (INSERT_admin_activity_log a act tt' ti d i) (fst s)).
Proof.
  unfold logAdminActivity, try_catch, bind, ret.
  destruct (query pg _ s) as [s1 [e|x]] eqn:E; intros H;
    inversion H; subst; pose proof (query_sent _ _ _ E) as Hs;
    apply query_inv in E; destruct E as [-> _]; simpl; auto.
Qed.

(** A loop that ends normally has sent what each turn sends. *)
Lemma for_each_sent {A} (f : A -> M W unit) (g : A -> list stmt) :
  (forall x s s', f x s = (s', inr tt) -> sent (snd s') = sent (snd s) ++ g x) ->
  forall xs s s',
    for_each f xs s = (s', inr tt) ->
    sent (snd s') = sent (snd s) ++ List.concat (map g xs).
Proof.
  intros Hf. induction xs as [|x xs IH]; intros s s' H; simpl in *.
  - apply ret_inv in H. destruct H as [-> _]. now rewrite app_nil_r.
  - apply bind_inr in H. destruct H as (s1 & [] & H1 & H2).
    rewrite (IH _ _ H2), (Hf _ _ _ H1). now rewrite app_assoc.
Qed.

(** ** The database after a handler is the database after its statements *)

(** The database after the statements [qs], sent one after the other. *)
Definition replay (pg : client W) (qs : list stmt) (w : W) : W :=
  fold_left (fun w q => fst (pg q w)) qs w.

Lemma replay_app pg qs1 qs2 w :
  replay pg (qs1 ++ qs2) w = replay pg qs2 (replay pg qs1 w).
Proof. apply fold_left_app. Qed.

(** A computation that touches the database through its queries only. *)
Definition tracks {A} (pg : client W) (m : M W A) : Prop :=
  forall s s' r,
    m s = (s', r) ->
    exists l, snd s' = snd s ++ l /\ fst s' = replay pg (sent l) (fst s).

Lemma tracks_ret {A} pg (a : A) : tracks pg (ret a).
Proof.
  intros s s' r H. inversion H; subst. exists []. now rewrite app_nil_r.
Qed.

Lemma tracks_throw {A} pg e : tracks pg (@throw W A e).
Proof.
  intros s s' r H. inversion H; subst. exists []. now rewrite app_nil_r.
Qed.

Lemma tracks_lift {A} pg (x : string + A) : tracks pg (lift x).
Proof. destruct x; [apply tracks_throw | apply tracks_ret]. Qed.

Lemma tracks_query pg q : tracks pg (query pg q).
Proof.
  intros s s' r H. apply query_inv in H. destruct H as [-> _].
  exists [(q, r)]. split; reflexivity.
Qed.

Lemma tracks_bind {A B} pg (m : M W A) (k : A -> M W B) :
  tracks pg m -> (forall a, tracks pg (k a)) -> tracks pg (bind m k).
Proof.
  intros Hm Hk s s' r H. unfold bind in H.
  destruct (m s) as [s1 [e|a]] eqn:E.
  - inversion H; subst. exact (Hm _ _ _ E).
  - destruct (Hm _ _ _ E) as (l1 & Ht1 & Hw1).
    destruct (Hk a _ _ _ H) as (l2 & Ht2 & Hw2).
    exists (l1 ++ l2). split.
    + rewrite Ht2, Ht1. now rewrite app_assoc.
    + unfold sent. rewrite map_app. fold (sent l1). fold (sent l2).
      rewrite replay_app. now rewrite <- Hw1.
Qed.

Lemma tracks_try_catch {A} pg (m : M W A) (h : string -> M W A) :
  tracks pg m -> (forall e, tracks pg (h e)) -> tracks pg (try_catch m h).
Proof.
  intros Hm Hh s s' r H. unfold try_catch in H.
  destruct (m s) as [s1 [e|a]] eqn:E.
  - destruct (Hm _ _ _ E) as (l1 & Ht1 & Hw1).
    destruct (Hh e _ _ _ H) as (l2 & Ht2 & Hw2).
    exists (l1 ++ l2). split.
    + rewrite Ht2, Ht1. now rewrite app_assoc.
    + unfold sent. rewrite map_app. fold (sent l1). fold (sent l2).
      rewrite replay_app. now rewrite <- Hw1.
  - inversion H; subst. exact (Hm _ _ _ E).
Qed.

Lemma tracks_for_each {A} pg (f : A -> M W unit) xs :
  (forall x, tracks pg (f x)) -> tracks pg (for_each f xs).
Proof.
  intros Hf. induction xs as [|x xs IH]; simpl.
  - apply tracks_ret.
  - apply tracks_bind; [apply Hf | intros _; exact IH].
Qed.

Lemma tracks_logAdminActivity pg a act tt' ti d i :
  tracks pg (logAdminActivity pg a act tt' ti d i).
Proof.
  unfold logAdminActivity. apply tracks_try_catch.
  - apply tracks_bind; [apply tracks_query | intros; apply tracks_ret].
  - intros; apply tracks_ret.
Qed.

(** From an empty trace: the final database is the replay of what was
    sent. *)
Lemma tracks_run {A} pg (m : M W A) w s' r :
  tracks pg m -> run m w = (s', r) -> fst s' = replay pg (sent (snd s')) w.
Proof.
  intros Hm H. destruct (Hm _ _ _ H) as (l & Ht & Hw).
  simpl in Ht, Hw. now rewrite Ht.
Qed.

(** ** What a handler can send *)

(** Every statement the computation sends satisfies [P]. *)
Definition sends {A} (P : stmt -> Prop) (m : M W A) : Prop :=
  forall s s' r,
    m s = (s', r) ->
    exists l, snd s' = snd s ++ l /\ Forall P (sent l).

Lemma sends_ret {A} P (a : A) : sends P (ret a).
Proof.
  intros s s' r H. inversion H; subst. exists []. split;
    [now rewrite app_nil_r | constructor].
Qed.

Lemma sends_throw {A} P e : sends P (@throw W A e).
Proof.
  intros s s' r H. inversion H; subst. exists []. split;
    [now rewrite app_nil_r | constructor].
Qed.

Lemma sends_lift {A} P (x : string + A) : sends P (lift x).
Proof. destruct x; [apply sends_throw | apply sends_ret]. Qed.

Lemma sends_query (P : stmt -> Prop) pg q : P q -> sends P (query pg q).
Proof.
  intros Hq s s' r H. apply query_inv in H. destruct H as [-> _].
  exists [(q, r)]. split; [reflexivity | repeat constructor; exact Hq].
Qed.

Lemma sends_bind {A B} P (m : M W A) (k : A -> M W B) :
  sends P m -> (forall a, sends P (k a)) -> sends P (bind m k).
Proof.
  intros Hm Hk s s' r H. unfold bind in H.
  destruct (m s) as [s1 [e|a]] eqn:E.
  - inversion H; subst. exact (Hm _ _ _ E).
  - destruct (Hm _ _ _ E) as (l1 & Ht1 & Hp1).
    destruct (Hk a _ _ _ H) as (l2 & Ht2 & Hp2).
    exists (l1 ++ l2). split.
    + rewrite Ht2, Ht1. now rewrite app_assoc.
    + unfold sent. rewrite map_app. apply Forall_app. now split.
Qed.

Lemma sends_try_catch {A} P (m : M W A) (h : string -> M W A) :
  sends P m -> (forall e, sends P (h e)) -> sends P (try_catch m h).
Proof.
  intros Hm Hh s s' r H. unfold try_catch in H.
  destruct (m s) as [s1 [e|a]] eqn:E.
  - destruct (Hm _ _ _ E) as (l1 & Ht1 & Hp1).
    destruct (Hh e _ _ _ H) as (l2 & Ht2 & Hp2).
    exists (l1 ++ l2). split.
    + rewrite Ht2, Ht1. now rewrite app_assoc.
    + unfold sent. rewrite map_app. apply Forall_app. now split.
  - inversion H; subst. exact (Hm _ _ _ E).
Qed.

Lemma sends_for_each {A} P (f : A -> M W unit) xs :
  (forall x, sends P (f x)) -> sends P (for_each f xs).
Proof.
  intros Hf. induction xs as [|x xs IH]; simpl.
  - apply sends_ret.
  - apply sends_bind; [apply Hf | intros _; exact IH].
Qed.

(** A step keeps what was already in the trace. *)
Lemma sends_keeps {A} P (m : M W A) s s' r x :
  sends P m -> m s = (s', r) -> In x (snd s) -> In x (snd s').
Proof.
  intros Hm H Hx. destruct (Hm _ _ _ H) as (l & -> & _).
  apply in_or_app. now left.
Qed.

End Laws.

(** Walks the structure of a handler. *)
Ltac tracks_step :=
  first
    [ apply tracks_ret
    | apply tracks_throw
    | apply tracks_lift
    | apply tracks_query
    | apply tracks_logAdminActivity
    | apply tracks_bind; [|intros]
    | apply tracks_try_catch; [|intros]
    | apply tracks_for_each; intros
    | match goal with
      | |- tracks _ (match ?x with _ => _ end) => destruct x
      end ].

Ltac sends_step :=
  first
    [ apply sends_ret
    | apply sends_throw
    | apply sends_lift
    | apply sends_query; simpl; auto
    | apply sends_bind; [|intros]
    | apply sends_try_catch; [|intros]
    | apply sends_for_each; intros
    | match goal with
      | |- sends _ (match ?x with _ => _ end) => destruct x
      end ].

(** Inversion of a successful [bind], one step at a time. *)
Ltac inv_bind H :=
  let s1 := fresh "s" in
  let a := fresh "a" in
  let H1 := fresh "Hstep" in
  apply bind_inr in H; destruct H as (s1 & a & H1 & H).

End PgFacts.

(* ===================================================================== *)
(** * What a successful write sends *)
(* ===================================================================== *)

Module PostsFacts.
Import Posts PgFacts.

Section Sent.
Context {W : Type} (E : env W).

(** The statement of one turn of the social-link loop that ends normally. *)
Definition social_sent (newsId link : jsval) : list stmt :=
  match prop link "post_url" with
  | Some (JStr s) =>
      if String.eqb (trim s) "" then []
      else [INSERT_news_social_media newsId (social_insert link s)]
  | _ => []
  end.

Definition social_links_sent (newsId : jsval) (b : body) : list stmt :=
  match safeJSON E (social_media_links b) (JArr []) with
  | JArr links => List.concat (map (social_sent newsId) links)
  | _ => []
  end.

(** The metadata the loop pairs with upload [i]. *)
Definition metadata_at (b : body) (i : Z) : jsval :=
  js_or (metadataByIndex E (other_fields b) i) (JObj []).

(** The rows the upload loop writes, from index [i] on. *)
Fixpoint image_rows (b : body) (i : Z) (uploaded : list jsval) : list image_values :=
  match uploaded with
  | [] => []
  | imgData :: rest =>
      image_insert i imgData (metadata_at b i) :: image_rows b (i + 1) rest
  end.

(** featuredImageUrl after the loop. *)
Fixpoint featured_after (b : body) (i : Z) (uploaded : list jsval) (f : jsval)
  : jsval :=
  match uploaded with
  | [] => f
  | imgData :: rest =>
      featured_after b (i + 1) rest (next_featured i imgData (metadata_at b i) f)
  end.

Definition media_sent (newsId : jsval) (req : request) (uploaded : list jsval)
  : list stmt :=
  match files req with
  | [] => []
  | _ :: _ =>
      map (INSERT_news_images newsId) (image_rows (req_body req) 0 uploaded)
      ++ (let f := featured_after (req_body req) 0 uploaded JNull in
          if truthy f then [UPDATE_image_url f newsId] else [])
  end.

Definition quotes_sent (newsId : jsval) (b : body) : list stmt :=
  match Formatter.extractQuotes (str (content b)) with
  | [] => []
  | q :: qs => [UPDATE_quotes_data (q :: qs) newsId]
  end.

(** Everything a create that answers 201 has sent, in order. *)
Definition create_sent (req : request) (c : checked) (newsId : jsval)
    (uploaded : list jsval) : list stmt :=
  [BEGIN; INSERT_news (newsInsertValues E req c)]
  ++ map (category_insert newsId c) (parsedCategoryIds c)
  ++ quotes_sent newsId (req_body req)
  ++ social_links_sent newsId (req_body req)
  ++ media_sent newsId req uploaded
  ++ [INSERT_admin_activity_log (adminId req) "create_post" "news" newsId
        (write_details E req) (ip req);
      COMMIT].

(** Everything an update that answers 200 has sent, in order. *)
Definition update_sent (req : request) (c : checked) (uploaded : list jsval)
  : list stmt :=
  let newsId := newsId_of req in
  [BEGIN; SELECT_news newsId; UPDATE_news (updateValues E req c) newsId;
   DELETE_FROM news_categories newsId]
  ++ map (category_insert newsId c) (parsedCategoryIds c)
  ++ [UPDATE_quotes_data (Formatter.extractQuotes (str (content (req_body req))))
        newsId;
      DELETE_FROM news_social_media newsId]
  ++ social_links_sent newsId (req_body req)
  ++ media_sent newsId req uploaded
  ++ [INSERT_admin_activity_log (adminId req) "update_post" "news" newsId
        (write_details E req) (ip req);
      COMMIT].

Lemma concat_map_one {A B} (f : A -> B) (l : list A) :
  List.concat (map (fun x => [f x]) l) = map f l.
Proof. induction l as [|x l IH]; simpl; [reflexivity | now rewrite IH]. Qed.

Lemma insert_categories_sent newsId c s s' :
  insert_categories E newsId c s = (s', inr tt) ->
  sent (snd s') = sent (snd s) ++ map (category_insert newsId c) (parsedCategoryIds c).
Proof.
  unfold insert_categories. intros H.
  rewrite <- concat_map_one.
  eapply for_each_sent; [|exact H].
  intros x s0 s1 H0. inv_bind H0.
  apply ret_inv in H0. destruct H0 as [-> _].
  now apply query_sent in Hstep.
Qed.

Lemma insert_social_link_sent newsId link s s' :
  insert_social_link E newsId link s = (s', inr tt) ->
  sent (snd s') = sent (snd s) ++ social_sent newsId link.
Proof.
  unfold insert_social_link, social_sent.
  destruct (prop link "post_url") as [post_url|]; [|discriminate].
  destruct (truthy post_url) eqn:Ht.
  - destruct post_url; try discriminate.
    destruct (String.eqb (trim s0) "").
    + intros H. apply ret_inv in H. destruct H as [-> _]. now rewrite app_nil_r.
    + intros H. inv_bind H. apply ret_inv in H. destruct H as [-> _].
      now apply query_sent in Hstep.
  - intros H. apply ret_inv in H. destruct H as [-> _].
    destruct post_url; try (now rewrite app_nil_r).
    simpl in Ht. apply negb_false_iff, String.eqb_eq in Ht. subst s0.
    simpl. now rewrite app_nil_r.
Qed.

Lemma insert_social_links_sent newsId b s s' :
  insert_social_links E newsId b s = (s', inr tt) ->
  sent (snd s') = sent (snd s) ++ social_links_sent newsId b.
Proof.
  unfold insert_social_links, social_links_sent.
  destruct (safeJSON E (social_media_links b) (JArr []));
    try (intros H; apply ret_inv in H; destruct H as [-> _];
         now rewrite app_nil_r).
  apply for_each_sent. intros x s0 s1. apply insert_social_link_sent.
Qed.

Lemma insert_images_sent newsId b : forall uploaded i f s s' f',
  insert_images E newsId b i uploaded f s = (s', inr f') ->
  sent (snd s') = sent (snd s)
                  ++ map (INSERT_news_images newsId) (image_rows b i uploaded)
  /\ f' = featured_after b i uploaded f.
Proof.
  induction uploaded as [|imgData rest IH]; intros i f s s' f' H; simpl in *.
  - apply ret_inv in H. destruct H as [-> H]. inversion H.
    split; [now rewrite app_nil_r | reflexivity].
  - destruct (prop imgData "url"); [|discriminate].
    inv_bind H. apply query_sent in Hstep.
    destruct (IH _ _ _ _ _ H) as [Hs Hf].
    split; [|exact Hf].
    rewrite Hs, Hstep. unfold metadata_at. now rewrite <- app_assoc.
Qed.

Lemma insert_media_sent newsId req s s' :
  insert_media E newsId req s = (s', inr tt) ->
  exists uploaded,
    (files req = [] \/ processUploadedFiles E (files req) = inr uploaded)
    /\ sent (snd s') = sent (snd s) ++ media_sent newsId req uploaded.
Proof.
  unfold insert_media, media_sent.
  destruct (files req) as [|file rest] eqn:Hfiles.
  - intros H. apply ret_inv in H. destruct H as [-> _].
    exists []. split; [now left | now rewrite app_nil_r].
  - intros H. inv_bind H.
    destruct (processUploadedFiles E (file :: rest)) as [e|uploaded] eqn:Hup;
      [discriminate|].
    apply ret_inv in Hstep. destruct Hstep as [-> Ha]. inversion Ha; subst a.
    inv_bind H. apply insert_images_sent in Hstep. destruct Hstep as [Hs ->].
    exists uploaded. split; [now right|].
    destruct (truthy (featured_after (req_body req) 0 uploaded JNull)).
    + inv_bind H. apply ret_inv in H. destruct H as [-> _].
      apply query_sent in Hstep. rewrite Hstep, Hs. now rewrite <- app_assoc.
    + apply ret_inv in H. destruct H as [-> _]. rewrite Hs.
      now rewrite app_nil_r.
Qed.

Lemma first_news_id_inv (r : qresult) (s s' : W * trace) v :
  first_news_id r s = (s', inr v) -> s' = s.
Proof.
  unfold first_news_id. destruct (rows r) as [|row ?]; [discriminate|].
  destruct (prop row "news_id"); [|discriminate].
  intros H. now apply ret_inv in H.
Qed.

Lemma quotes_step_sent newsId b s s' :
  match Formatter.extractQuotes (str (content b)) with
  | [] => ret tt
  | q :: qs => bind (query (pg E) (UPDATE_quotes_data (q :: qs) newsId))
                    (fun _ => ret tt)
  end s = (s', inr tt) ->
  sent (snd s') = sent (snd s) ++ quotes_sent newsId b.
Proof.
  unfold quotes_sent.
  destruct (Formatter.extractQuotes (str (content b))); intros H.
  - apply ret_inv in H. destruct H as [-> _]. now rewrite app_nil_r.
  - inv_bind H. apply ret_inv in H. destruct H as [-> _].
    now apply query_sent in Hstep.
Qed.

(** The response of a write that went through. *)
Definition written (code : Z) (msg_approval msg_published msg_draft : string)
    (req : request) (newsId : jsval) : response :=
  mkResponse code true
    (if requiresApproval E req then msg_approval
     else if String.eqb (finalStatus E req) "published" then msg_published
          else msg_draft)
    (Written newsId (generateSlug E (str (title (req_body req))))
       (finalStatus E req) (requiresApproval E req)).

(** [rows[0].news_id] of a reply, when it is there. *)
Definition returned_id (r : qresult) : option jsval :=
  match rows r with
  | row :: _ => prop row "news_id"
  | [] => None
  end.

Lemma first_news_id_returned (r : qresult) (s s' : W * trace) v :
  first_news_id r s = (s', inr v) -> returned_id r = Some v.
Proof.
  unfold first_news_id, returned_id. destruct (rows r) as [|row ?]; [discriminate|].
  destruct (prop row "news_id"); [|discriminate].
  intros H. apply ret_inv in H. destruct H as [_ H]. now inversion H.
Qed.

Lemma persist_create_sent req c s s' resp :
  persist_create E req c s = (s', inr resp) ->
  exists newsId uploaded r,
    (files req = [] \/ processUploadedFiles E (files req) = inr uploaded)
    /\ snd (pg E (INSERT_news (newsInsertValues E req c)) (fst s)) = inr r
    /\ returned_id r = Some newsId
    /\ sent (snd s') = sent (snd s) ++ tl (create_sent req c newsId uploaded)
    /\ resp = written 201 "Post created and submitted for approval"
                "Post published successfully" "Draft created successfully"
                req newsId.
Proof.
  unfold persist_create. intros H.
  inv_bind H. pose proof (query_inv _ _ _ Hstep) as [_ Hreply].
  apply query_sent in Hstep. rename Hstep into H1.
  inv_bind H. pose proof (first_news_id_returned _ _ Hstep) as Hid.
  apply first_news_id_inv in Hstep. subst s1. rename a0 into newsId.
  inv_bind H. destruct a0. apply insert_categories_sent in Hstep. rename Hstep into H2.
  inv_bind H. destruct a0. apply quotes_step_sent in Hstep. rename Hstep into H3.
  inv_bind H. destruct a0. apply insert_social_links_sent in Hstep. rename Hstep into H4.
  inv_bind H. destruct a0. apply insert_media_sent in Hstep.
  destruct Hstep as (uploaded & Hup & H5).
  inv_bind H. apply logAdminActivity_inv in Hstep. destruct Hstep as (_ & H6 & _).
  inv_bind H. apply query_sent in Hstep. rename Hstep into H7.
  apply ret_inv in H. destruct H as [-> H]. inversion H; subst resp; clear H.
  exists newsId, uploaded, a. split; [exact Hup|]. split; [now symmetry|].
  split; [exact Hid|]. split; [|reflexivity].
  rewrite H7, H6, H5, H4, H3, H2, H1. unfold create_sent. simpl.
  now rewrite <- ?app_assoc.
Qed.

(** A create that answers 201 passed the validation chain, sent exactly
    [create_sent] and reports what the gate decided. *)
Lemma create_post_201 req w s' resp :
  run (create_post E req) w = (s', inr resp) ->
  status_code resp = 201 ->
  exists c newsId uploaded r,
    validate_create E (req_body req) = inr c
    /\ (files req = [] \/ processUploadedFiles E (files req) = inr uploaded)
    /\ snd (pg E (INSERT_news (newsInsertValues E req c)) (fst (pg E BEGIN w)))
       = inr r
    /\ returned_id r = Some newsId
    /\ sent (snd s') = create_sent req c newsId uploaded
    /\ resp = written 201 "Post created and submitted for approval"
                "Post published successfully" "Draft created successfully"
                req newsId.
Proof.
  unfold run, create_post. intros H Hcode.
  apply try_catch_inv in H. destruct H as [(a & H & Ha) | (s1 & e & _ & H)].
  - inversion Ha; subst a; clear Ha.
    inv_bind H. pose proof (query_inv _ _ _ Hstep) as [Hw _].
    apply query_sent in Hstep. simpl in Hstep.
    destruct (validate_create E (req_body req)) as [msg|c] eqn:Hv.
    + inv_bind H. apply ret_inv in H. destruct H as [_ H].
      inversion H; subst resp. discriminate.
    + apply persist_create_sent in H.
      destruct H as (newsId & uploaded & r & Hup & Hreply & Hid & Hs & Hr).
      exists c, newsId, uploaded, r. subst s. simpl in Hreply.
      repeat split; auto; rewrite Hs, Hstep; reflexivity.
  - inv_bind H. apply ret_inv in H. destruct H as [_ H].
    inversion H; subst resp. discriminate.
Qed.

Lemma persist_update_sent req c s s' resp :
  persist_update E req c s = (s', inr resp) ->
  exists uploaded,
    (files req = [] \/ processUploadedFiles E (files req) = inr uploaded)
    /\ sent (snd s') = sent (snd s) ++ skipn 2 (update_sent req c uploaded)
    /\ resp = written 200 "Post updated and submitted for approval"
                "Post updated successfully" "Draft updated successfully"
                req (newsId_of req).
Proof.
  unfold persist_update. intros H.
  inv_bind H. apply query_sent in Hstep. rename Hstep into H1.
  inv_bind H. apply query_sent in Hstep. rename Hstep into H1'.
  inv_bind H. destruct a1. apply insert_categories_sent in Hstep. rename Hstep into H2.
  inv_bind H. apply query_sent in Hstep. rename Hstep into H3.
  inv_bind H. apply query_sent in Hstep. rename Hstep into H3'.
  inv_bind H. destruct a3. apply insert_social_links_sent in Hstep. rename Hstep into H4.
  inv_bind H. destruct a3. apply insert_media_sent in Hstep.
  destruct Hstep as (uploaded & Hup & H5).
  inv_bind H. apply logAdminActivity_inv in Hstep. destruct Hstep as (_ & H6 & _).
  inv_bind H. apply query_sent in Hstep. rename Hstep into H7.
  apply ret_inv in H. destruct H as [-> H]. inversion H; subst resp; clear H.
  exists uploaded. split; [exact Hup|]. split; [|reflexivity].
  rewrite H7, H6, H5, H4, H3', H3, H2, H1', H1. unfold update_sent. simpl.
  now rewrite <- ?app_assoc.
Qed.

(** An update that answers 200 found the article, passed the validation
    chain, sent exactly [update_sent] and reports what the gate decided. *)
Lemma update_post_200 req w s' resp :
  run (update_post E req) w = (s', inr resp) ->
  status_code resp = 200 ->
  exists c uploaded r,
    validate_update E (req_body req) = inr c
    /\ (files req = [] \/ processUploadedFiles E (files req) = inr uploaded)
    /\ snd (pg E (SELECT_news (newsId_of req)) (fst (pg E BEGIN w))) = inr r
    /\ rows r <> []
    /\ sent (snd s') = update_sent req c uploaded
    /\ resp = written 200 "Post updated and submitted for approval"
                "Post updated successfully" "Draft updated successfully"
                req (newsId_of req).
Proof.
  unfold run, update_post. intros H Hcode.
  apply try_catch_inv in H. destruct H as [(a & H & Ha) | (s1 & e & _ & H)].
  - inversion Ha; subst a; clear Ha.
    inv_bind H. pose proof (query_inv _ _ _ Hstep) as [Hw _].
    apply query_sent in Hstep. simpl in Hstep.
    inv_bind H. pose proof (query_inv _ _ _ Hstep0) as [_ Hreply].
    subst s. simpl in Hreply.
    apply query_sent in Hstep0. rewrite Hstep in Hstep0.
    destruct (rows a0) as [|row more] eqn:Hrows.
    + inv_bind H. apply ret_inv in H. destruct H as [_ H].
      inversion H; subst resp. discriminate.
    + destruct (validate_update E (req_body req)) as [msg|c] eqn:Hv.
      * inv_bind H. apply ret_inv in H. destruct H as [_ H].
        inversion H; subst resp. discriminate.
      * apply persist_update_sent in H.
        destruct H as (uploaded & Hup & Hs & Hr).
        exists c, uploaded, a0. repeat split; auto.
        -- rewrite Hrows. discriminate.
        -- rewrite Hs, Hstep0. reflexivity.
  - inv_bind H. apply ret_inv in H. destruct H as [_ H].
    inversion H; subst resp. discriminate.
Qed.

(** ** The routes touch the database through their queries only *)

Lemma tracks_insert_images newsId b : forall uploaded i f,
  tracks (pg E) (insert_images E newsId b i uploaded f).
Proof.
  induction uploaded as [|imgData rest IH]; intros i f; simpl.
  - apply tracks_ret.
  - destruct (prop imgData "url"); [|apply tracks_throw].
    apply tracks_bind; [apply tracks_query | intros; apply IH].
Qed.

Lemma tracks_create_post req : tracks (pg E) (create_post E req).
Proof.
  unfold create_post, persist_create, insert_categories, insert_social_links,
    insert_media, first_news_id, respond.
  repeat first [ apply tracks_insert_images | tracks_step ].
  unfold insert_social_link. repeat tracks_step.
Qed.

Lemma tracks_update_post req : tracks (pg E) (update_post E req).
Proof.
  unfold update_post, persist_update, insert_categories, insert_social_links,
    insert_media, respond.
  repeat first [ apply tracks_insert_images | tracks_step ].
  unfold insert_social_link. repeat tracks_step.
Qed.

Lemma tracks_delete_post req : tracks (pg E) (delete_post E req).
Proof. unfold delete_post, respond. repeat tracks_step. Qed.

(** ** The kinds of statement in each part of a write *)

Lemma social_links_sent_kind newsId b q :
  In q (social_links_sent newsId b) ->
  exists v, q = INSERT_news_social_media newsId v.
Proof.
  unfold social_links_sent.
  destruct (safeJSON E (social_media_links b) (JArr [])); try contradiction.
  intros H. apply in_concat in H. destruct H as (l & Hl & Hq).
  apply in_map_iff in Hl. destruct Hl as (link & <- & _).
  unfold social_sent in Hq.
  destruct (prop link "post_url") as [[]|]; try contradiction.
  destruct (String.eqb (trim s) ""); [contradiction|].
  destruct Hq as [<-|[]]. eauto.
Qed.

Lemma media_sent_kind newsId req uploaded q :
  In q (media_sent newsId req uploaded) ->
  (exists v, q = INSERT_news_images newsId v)
  \/ (exists u, q = UPDATE_image_url u newsId).
Proof.
  unfold media_sent. destruct (files req); [contradiction|].
  intros H. apply in_app_or in H. destruct H as [H|H].
  - apply in_map_iff in H. destruct H as (v & <- & _). eauto.
  - destruct (truthy _); [|contradiction]. destruct H as [<-|[]]. eauto.
Qed.

Lemma quotes_sent_kind newsId b q :
  In q (quotes_sent newsId b) -> exists qs, q = UPDATE_quotes_data qs newsId.
Proof.
  unfold quotes_sent. destruct (Formatter.extractQuotes _); [contradiction|].
  intros [<-|[]]. eauto.
Qed.

Lemma flat_map_none {A B} (f : A -> list B) (l : list A) :
  (forall x, In x l -> f x = []) -> flat_map f l = [].
Proof.
  induction l as [|x l IH]; intros H; simpl; [reflexivity|].
  rewrite (H x (or_introl eq_refl)), IH; [reflexivity|].
  intros y Hy. apply H. now right.
Qed.

End Sent.

(** A projection of the statements vanishes on the parts of a write that
    hold none of its kind. *)
Ltac no_such_statement :=
  intros ? Hq;
  first
    [ apply social_links_sent_kind in Hq; destruct Hq as (? & ->); reflexivity
    | apply media_sent_kind in Hq; destruct Hq as [(? & ->)|(? & ->)]; reflexivity
    | apply quotes_sent_kind in Hq; destruct Hq as (? & ->); reflexivity
    | apply in_map_iff in Hq; destruct Hq as (? & <- & _); reflexivity ].

End PostsFacts.

(* ===================================================================== *)
(** * The reference database under the statements of a write *)
(* ===================================================================== *)

Module StoreFacts.
Import Store PgFacts.

(** The columns the properties read, per article. *)
Definition pub (a : article) : Z * option Z := (news_id a, n_published_at (cols a)).
Definition cover (a : article) : Z * jsval := (news_id a, image_url a).

Definition pubs (d : db) : list (Z * option Z) := map pub (news (live d)).
Definition covers (d : db) : list (Z * jsval) := map cover (news (live d)).
Definition links (d : db) : list link := categories (live d).
Definition media (d : db) : list (Z * image_values) := images (live d).

(** The statements that can change each of them. *)
Definition touches_pubs (q : stmt) : bool :=
  match q with
  | INSERT_news _ | UPDATE_news _ _ | DELETE_news _ | ROLLBACK => true
  | _ => false
  end.

Definition touches_covers (q : stmt) : bool :=
  match q with
  | INSERT_news _ | DELETE_news _ | UPDATE_image_url _ _ | ROLLBACK => true
  | _ => false
  end.

Definition touches_links (q : stmt) : bool :=
  match q with
  | INSERT_news_categories _ _ _ | DELETE_FROM news_categories _ | ROLLBACK => true
  | _ => false
  end.

Definition touches_media (q : stmt) : bool :=
  match q with
  | INSERT_news_images _ _ | DELETE_FROM news_images _ | ROLLBACK => true
  | _ => false
  end.

Lemma replay_cons q qs d : replay step (q :: qs) d = replay step qs (fst (step q d)).
Proof. reflexivity. Qed.

Lemma replay_preserved {X} (proj : db -> X) (touches : stmt -> bool) :
  (forall q d, touches q = false -> proj (fst (step q d)) = proj d) ->
  forall qs d,
    Forall (fun q => touches q = false) qs -> proj (replay step qs d) = proj d.
Proof.
  intros Hstep. induction qs as [|q qs IH]; intros d H; [reflexivity|].
  inversion H; subst. rewrite replay_cons, IH; auto.
Qed.

Ltac step_cases q d :=
  destruct q as [ | | | v | v i | i | i | i c p | qs i | i v | i v | u i | t i
                  | i | i | a act tt' ti dt ip ];
  try discriminate; unfold step, exec; simpl;
  try reflexivity;
  try (destruct (as_id i) as [e|[n|]]; reflexivity);
  try (destruct (as_id i) as [e|k]; reflexivity).

Lemma step_pubs q d : touches_pubs q = false -> pubs (fst (step q d)) = pubs d.
Proof.
  intros H. unfold pubs. step_cases q d.
  - destruct (as_id i) as [e|k]; simpl; [reflexivity|].
    rewrite map_map. apply map_ext. intros a. unfold on_article.
    now destruct (is_article k a).
  - destruct (as_id i) as [e|k]; simpl; [reflexivity|].
    rewrite map_map. apply map_ext. intros a. unfold on_article.
    now destruct (is_article k a).
  - destruct (as_id i) as [e|k]; simpl; [reflexivity|].
    destruct t; reflexivity.
Qed.

Lemma step_covers q d : touches_covers q = false -> covers (fst (step q d)) = covers d.
Proof.
  intros H. unfold covers. step_cases q d.
  - destruct (as_id i) as [e|k]; simpl; [reflexivity|].
    rewrite map_map. apply map_ext. intros a. unfold on_article.
    now destruct (is_article k a).
  - destruct (as_id i) as [e|k]; simpl; [reflexivity|].
    rewrite map_map. apply map_ext. intros a. unfold on_article.
    now destruct (is_article k a).
  - destruct (as_id i) as [e|k]; simpl; [reflexivity|].
    destruct t; reflexivity.
Qed.

Lemma step_links q d : touches_links q = false -> links (fst (step q d)) = links d.
Proof.
  intros H. unfold links. step_cases q d.
  destruct (as_id i) as [e|k]; simpl; [reflexivity|].
  destruct t; try reflexivity. discriminate.
Qed.

Lemma step_media q d : touches_media q = false -> media (fst (step q d)) = media d.
Proof.
  intros H. unfold media. step_cases q d.
  destruct (as_id i) as [e|k]; simpl; [reflexivity|].
  destruct t; try reflexivity. discriminate.
Qed.

Lemma step_clock q d : clock (fst (step q d)) = clock d.
Proof.
  destruct q; unfold step, exec; simpl; try reflexivity;
    repeat match goal with
           | |- context [match ?x with _ => _ end] => destruct x; simpl
           end;
    reflexivity.
Qed.

Lemma replay_clock qs : forall d, clock (replay step qs d) = clock d.
Proof.
  induction qs as [|q qs IH]; intros d; [reflexivity|].
  now rewrite replay_cons, IH, step_clock.
Qed.

(** The links the category loop adds for article [n]. *)
Lemma replay_category_inserts n (mk : jsval -> bool) : forall ids d,
  links (replay step (map (fun c => INSERT_news_categories (JNum n) c (mk c)) ids) d)
  = links d ++ map (fun c => mkLink n c (mk c)) ids.
Proof.
  induction ids as [|c ids IH]; intros d; cbn [map].
  - simpl. now rewrite app_nil_r.
  - rewrite replay_cons, IH. unfold links, step, exec. simpl.
    now rewrite <- app_assoc.
Qed.

(** The rows the upload loop adds for article [n]. *)
Lemma replay_image_inserts n : forall vs d,
  media (replay step (map (INSERT_news_images (JNum n)) vs) d)
  = media d ++ map (fun v => (n, v)) vs.
Proof.
  induction vs as [|v vs IH]; intros d; cbn [map].
  - simpl. now rewrite app_nil_r.
  - rewrite replay_cons, IH. unfold media, step, exec. simpl.
    now rewrite <- app_assoc.
Qed.

(** ** Single statements, on any parameters *)

Lemma step_begin d : fst (step BEGIN d) = mkDb (live d) (Some (live d)) (clock d).
Proof. reflexivity. Qed.

Lemma step_insert_news_pubs v d :
  pubs (fst (step (INSERT_news v) d))
  = pubs d ++ [(serial (live d), n_published_at v)].
Proof. unfold pubs, step, exec. cbn. now rewrite map_app. Qed.

Lemma step_update_news_pubs v n d :
  pubs (fst (step (UPDATE_news v (JNum n)) d))
  = map (fun p => (fst p,
                   if fst p =? n
                   then updateQuery_published_at (u_status v) (snd p) (clock d)
                   else snd p))
        (pubs d).
Proof.
  unfold pubs, step, exec. cbn. rewrite !map_map. apply map_ext. intros a.
  unfold on_article, is_article, same, pub. cbn. rewrite Z.eqb_sym.
  now destruct (news_id a =? n).
Qed.

Lemma step_delete_links n d :
  links (fst (step (DELETE_FROM news_categories (JNum n)) d))
  = filter (fun l => negb (l_news_id l =? n)) (links d).
Proof.
  unfold links, step, exec. cbn. apply filter_ext. intros l.
  unfold same. now rewrite Z.eqb_sym.
Qed.

Lemma step_update_image_url_covers f n d p :
  In p (covers (fst (step (UPDATE_image_url f (JNum n)) d))) ->
  fst p = n -> snd p = f.
Proof.
  unfold covers, step, exec. cbn. rewrite map_map. intros Hp Hn.
  apply in_map_iff in Hp. destruct Hp as (a & <- & _).
  unfold on_article, is_article, same, cover in *. cbn in *.
  destruct (n =? news_id a) eqn:Heq; [reflexivity|].
  apply Z.eqb_neq in Heq. cbn in Hn. congruence.
Qed.

End StoreFacts.

(* ===================================================================== *)
(** * The write routes on the reference database *)
(* ===================================================================== *)

Module PostsStore.
Import Posts Store PgFacts PostsFacts StoreFacts.

Section OnStore.
Context {W : Type} (E : env W).

(** The deployment over the reference database. *)
Definition ES : env db := over E step.

(** The parts of a write after its first statements, in order. *)
Definition create_tail (req : request) (newsId : jsval) (uploaded : list jsval)
  : list stmt :=
  quotes_sent newsId (req_body req)
  ++ social_links_sent ES newsId (req_body req)
  ++ media_sent ES newsId req uploaded
  ++ [INSERT_admin_activity_log (adminId req) "create_post" "news" newsId
        (write_details ES req) (ip req);
      COMMIT].

Definition update_tail (req : request) (newsId : jsval) (uploaded : list jsval)
  : list stmt :=
  [UPDATE_quotes_data (Formatter.extractQuotes (str (content (req_body req))))
     newsId;
   DELETE_FROM news_social_media newsId]
  ++ social_links_sent ES newsId (req_body req)
  ++ media_sent ES newsId req uploaded
  ++ [INSERT_admin_activity_log (adminId req) "update_post" "news" newsId
        (write_details ES req) (ip req);
      COMMIT].

Lemma create_sent_parts req c newsId uploaded :
  create_sent ES req c newsId uploaded
  = [BEGIN; INSERT_news (newsInsertValues ES req c)]
    ++ map (category_insert newsId c) (parsedCategoryIds c)
    ++ create_tail req newsId uploaded.
Proof. reflexivity. Qed.

Lemma update_sent_parts req c uploaded :
  update_sent ES req c uploaded
  = [BEGIN; SELECT_news (newsId_of req);
     UPDATE_news (updateValues ES req c) (newsId_of req);
     DELETE_FROM news_categories (newsId_of req)]
    ++ map (category_insert (newsId_of req) c) (parsedCategoryIds c)
    ++ update_tail req (newsId_of req) uploaded.
Proof.
  unfold update_sent, update_tail. simpl. now rewrite <- ?app_assoc.
Qed.

(** A create that answers 201 on the reference database: the new article
    takes the next serial number, and the database ends as the statements
    of [create_sent] leave it. *)
Lemma create_on_store req ts NOW s' resp :
  run (create_post ES req) (at_rest ts NOW) = (s', inr resp) ->
  status_code resp = 201 ->
  exists c uploaded,
    validate_create ES (req_body req) = inr c
    /\ (files req = [] \/ processUploadedFiles E (files req) = inr uploaded)
    /\ resp = written ES 201 "Post created and submitted for approval"
                "Post published successfully" "Draft created successfully"
                req (JNum (serial ts))
    /\ fst s' = replay step (create_sent ES req c (JNum (serial ts)) uploaded)
                  (at_rest ts NOW).
Proof.
  intros H Hcode.
  pose proof (@tracks_run _ _ _ _ _ _ _ (@tracks_create_post _ ES req) H) as Hdb.
  destruct (create_post_201 _ _ _ H Hcode)
    as (c & newsId & uploaded & r & Hv & Hup & Hreply & Hid & Hs & Hr).
  simpl in Hreply. unfold step, exec in Hreply. simpl in Hreply.
  injection Hreply as <-. unfold returned_id in Hid. simpl in Hid.
  injection Hid as <-.
  exists c, uploaded. repeat split; auto.
  now rewrite <- Hs.
Qed.

(** An update that answers 200 on the reference database. *)
Lemma update_on_store req ts NOW s' resp :
  run (update_post ES req) (at_rest ts NOW) = (s', inr resp) ->
  status_code resp = 200 ->
  exists c uploaded n,
    validate_update ES (req_body req) = inr c
    /\ (files req = [] \/ processUploadedFiles E (files req) = inr uploaded)
    /\ newsId_of req = JNum n
    /\ resp = written ES 200 "Post updated and submitted for approval"
                "Post updated successfully" "Draft updated successfully"
                req (JNum n)
    /\ fst s' = replay step (update_sent ES req c uploaded) (at_rest ts NOW).
Proof.
  intros H Hcode.
  pose proof (@tracks_run _ _ _ _ _ _ _ (@tracks_update_post _ ES req) H) as Hdb.
  destruct (update_post_200 _ _ _ H Hcode)
    as (c & uploaded & r & Hv & Hup & Hreply & Hrows & Hs & Hr).
  assert (Hn : exists n, newsId_of req = JNum n).
  { unfold newsId_of in *. destruct (parseInt (param_newsId req) 10); [eauto|].
    simpl in Hreply. discriminate. }
  destruct Hn as [n Hn].
  exists c, uploaded, n. repeat split; auto.
  - rewrite Hr, Hn. reflexivity.
  - now rewrite <- Hs.
Qed.

(** ** What the tail of a write leaves alone *)

Lemma quotes_sent_untouched touches newsId b :
  (forall qs, touches (UPDATE_quotes_data qs newsId) = false) ->
  Forall (fun q => touches q = false) (quotes_sent newsId b).
Proof.
  intros H. apply Forall_forall. intros q Hq.
  apply quotes_sent_kind in Hq. destruct Hq as (qs & ->). apply H.
Qed.

Lemma social_sent_untouched touches newsId b :
  (forall v, touches (INSERT_news_social_media newsId v) = false) ->
  Forall (fun q => touches q = false) (social_links_sent ES newsId b).
Proof.
  intros H. apply Forall_forall. intros q Hq.
  apply social_links_sent_kind in Hq. destruct Hq as (v & ->). apply H.
Qed.

Lemma media_sent_untouched touches newsId req uploaded :
  (forall v, touches (INSERT_news_images newsId v) = false) ->
  (forall u, touches (UPDATE_image_url u newsId) = false) ->
  Forall (fun q => touches q = false) (media_sent ES newsId req uploaded).
Proof.
  intros H1 H2. apply Forall_forall. intros q Hq.
  apply media_sent_kind in Hq. destruct Hq as [(v & ->)|(u & ->)]; auto.
Qed.

Lemma create_tail_links req newsId uploaded :
  Forall (fun q => touches_links q = false) (create_tail req newsId uploaded).
Proof.
  unfold create_tail. repeat (apply Forall_app; split).
  - now apply quotes_sent_untouched.
  - now apply social_sent_untouched.
  - now apply media_sent_untouched.
  - repeat constructor.
Qed.

Lemma update_tail_links req newsId uploaded :
  Forall (fun q => touches_links q = false) (update_tail req newsId uploaded).
Proof.
  unfold update_tail. repeat (apply Forall_app; split).
  - repeat constructor.
  - now apply social_sent_untouched.
  - now apply media_sent_untouched.
  - repeat constructor.
Qed.

Lemma create_tail_pubs req newsId uploaded :
  Forall (fun q => touches_pubs q = false) (create_tail req newsId uploaded).
Proof.
  unfold create_tail. repeat (apply Forall_app; split).
  - now apply quotes_sent_untouched.
  - now apply social_sent_untouched.
  - now apply media_sent_untouched.
  - repeat constructor.
Qed.

Lemma update_tail_pubs req newsId uploaded :
  Forall (fun q => touches_pubs q = false) (update_tail req newsId uploaded).
Proof.
  unfold update_tail. repeat (apply Forall_app; split).
  - repeat constructor.
  - now apply social_sent_untouched.
  - now apply media_sent_untouched.
  - repeat constructor.
Qed.

Lemma category_inserts_untouched (touches : stmt -> bool) newsId c :
  (forall i k p, touches (INSERT_news_categories i k p) = false) ->
  Forall (fun q => touches q = false)
    (map (category_insert newsId c) (parsedCategoryIds c)).
Proof.
  intros H. apply Forall_forall. intros q Hq.
  apply in_map_iff in Hq. destruct Hq as (k & <- & _). apply H.
Qed.

(** ** The category links after a write *)

Lemma links_after_create req c n uploaded ts NOW :
  links (replay step (create_sent ES req c (JNum n) uploaded) (at_rest ts NOW))
  = categories ts
    ++ map (fun k => mkLink n k (is_num (parsedPrimaryCategoryId c) k))
         (parsedCategoryIds c).
Proof.
  rewrite create_sent_parts, !replay_app.
  rewrite (replay_preserved links touches_links step_links);
    [|apply create_tail_links].
  unfold category_insert. rewrite replay_category_inserts. reflexivity.
Qed.

Lemma replay_nil (d : db) : replay step [] d = d.
Proof. reflexivity. Qed.

Lemma links_after_update req c n uploaded ts NOW :
  newsId_of req = JNum n ->
  links (replay step (update_sent ES req c uploaded) (at_rest ts NOW))
  = filter (fun l => negb (l_news_id l =? n)) (categories ts)
    ++ map (fun k => mkLink n k (is_num (parsedPrimaryCategoryId c) k))
         (parsedCategoryIds c).
Proof.
  intros Hn. rewrite update_sent_parts, !replay_app.
  rewrite (replay_preserved links touches_links step_links);
    [|apply update_tail_links].
  rewrite Hn. unfold category_insert. rewrite replay_category_inserts.
  f_equal. rewrite !replay_cons, replay_nil, step_delete_links.
  now rewrite !step_links.
Qed.

(** ** The publication times after a write *)

Lemma pubs_after_create req c n uploaded ts NOW :
  pubs (replay step (create_sent ES req c (JNum n) uploaded) (at_rest ts NOW))
  = map pub (news ts)
    ++ [(serial ts, n_published_at (newsInsertValues ES req c))].
Proof.
  rewrite create_sent_parts, !replay_app.
  rewrite (replay_preserved pubs touches_pubs step_pubs);
    [|apply create_tail_pubs].
  rewrite (replay_preserved pubs touches_pubs step_pubs);
    [|now apply category_inserts_untouched].
  rewrite !replay_cons, replay_nil, step_insert_news_pubs, step_begin.
  reflexivity.
Qed.

Lemma pubs_after_update req c n uploaded ts NOW :
  newsId_of req = JNum n ->
  pubs (replay step (update_sent ES req c uploaded) (at_rest ts NOW))
  = map (fun a =>
           (news_id a,
            if news_id a =? n
            then updateQuery_published_at (finalStatus ES req)
                   (n_published_at (cols a)) NOW
            else n_published_at (cols a)))
        (news ts).
Proof.
  intros Hn. rewrite update_sent_parts, !replay_app.
  rewrite (replay_preserved pubs touches_pubs step_pubs);
    [|apply update_tail_pubs].
  rewrite (replay_preserved pubs touches_pubs step_pubs);
    [|now apply category_inserts_untouched].
  rewrite Hn, !replay_cons, replay_nil.
  rewrite step_pubs by reflexivity.
  rewrite step_update_news_pubs, !step_clock.
  rewrite !step_pubs by reflexivity.
  unfold pubs, at_rest. cbn [live clock]. rewrite map_map.
  apply map_ext. intros a. reflexivity.
Qed.

(** ** The media rows and the cover image after a write *)

Lemma create_tail_split req newsId uploaded :
  create_tail req newsId uploaded
  = (quotes_sent newsId (req_body req)
     ++ social_links_sent ES newsId (req_body req))
    ++ media_sent ES newsId req uploaded
    ++ [INSERT_admin_activity_log (adminId req) "create_post" "news" newsId
          (write_details ES req) (ip req);
        COMMIT].
Proof. unfold create_tail. now rewrite <- app_assoc. Qed.

Lemma update_tail_split req newsId uploaded :
  update_tail req newsId uploaded
  = ([UPDATE_quotes_data (Formatter.extractQuotes (str (content (req_body req))))
        newsId;
      DELETE_FROM news_social_media newsId]
     ++ social_links_sent ES newsId (req_body req))
    ++ media_sent ES newsId req uploaded
    ++ [INSERT_admin_activity_log (adminId req) "update_post" "news" newsId
          (write_details ES req) (ip req);
        COMMIT].
Proof. unfold update_tail. now rewrite <- app_assoc. Qed.

(** The media rows a request with uploads writes for article [n]. *)
Lemma media_after_uploads req n uploaded d :
  files req <> [] ->
  media (replay step (media_sent ES (JNum n) req uploaded) d)
  = media d ++ map (fun v => (n, v)) (image_rows ES (req_body req) 0 uploaded).
Proof.
  intros Hf. unfold media_sent. destruct (files req); [contradiction|].
  rewrite replay_app.
  rewrite (replay_preserved media touches_media step_media).
  - apply replay_image_inserts.
  - destruct (truthy _); repeat constructor.
Qed.

Ltac untouched :=
  first [ now apply quotes_sent_untouched
        | now apply social_sent_untouched
        | now apply media_sent_untouched
        | now apply category_inserts_untouched
        | solve [repeat constructor] ].

Lemma media_after_create req c n uploaded ts NOW :
  files req <> [] ->
  media (replay step (create_sent ES req c (JNum n) uploaded) (at_rest ts NOW))
  = images ts ++ map (fun v => (n, v)) (image_rows ES (req_body req) 0 uploaded).
Proof.
  intros Hf. rewrite create_sent_parts, create_tail_split, !replay_app.
  rewrite (replay_preserved media touches_media step_media) by untouched.
  rewrite media_after_uploads by exact Hf.
  now rewrite !(replay_preserved media touches_media step_media) by untouched.
Qed.

Lemma media_after_update req c n uploaded ts NOW :
  files req <> [] ->
  newsId_of req = JNum n ->
  media (replay step (update_sent ES req c uploaded) (at_rest ts NOW))
  = images ts ++ map (fun v => (n, v)) (image_rows ES (req_body req) 0 uploaded).
Proof.
  intros Hf Hn. rewrite update_sent_parts, update_tail_split, !replay_app.
  rewrite (replay_preserved media touches_media step_media) by untouched.
  rewrite Hn. rewrite media_after_uploads by exact Hf.
  now rewrite !(replay_preserved media touches_media step_media) by untouched.
Qed.

(** The cover image of article [n] after the upload part of a request
    whose first featured url is not empty. *)
Lemma covers_after_uploads req n uploaded d :
  files req <> [] ->
  truthy (featured_after ES (req_body req) 0 uploaded JNull) = true ->
  forall p,
    In p (covers (replay step (media_sent ES (JNum n) req uploaded) d)) ->
    fst p = n ->
    snd p = featured_after ES (req_body req) 0 uploaded JNull.
Proof.
  intros Hf Ht p. unfold media_sent. destruct (files req); [contradiction|].
  rewrite Ht, replay_app, replay_cons, replay_nil.
  apply step_update_image_url_covers.
Qed.

Lemma covers_after_create req c n uploaded ts NOW p :
  files req <> [] ->
  truthy (featured_after ES (req_body req) 0 uploaded JNull) = true ->
  In p (covers (replay step (create_sent ES req c (JNum n) uploaded)
                  (at_rest ts NOW))) ->
  fst p = n ->
  snd p = featured_after ES (req_body req) 0 uploaded JNull.
Proof.
  intros Hf Ht. rewrite create_sent_parts, create_tail_split, !replay_app.
  rewrite (replay_preserved covers touches_covers step_covers) by untouched.
  now apply covers_after_uploads.
Qed.

Lemma covers_after_update req c uploaded ts NOW p n :
  files req <> [] ->
  newsId_of req = JNum n ->
  truthy (featured_after ES (req_body req) 0 uploaded JNull) = true ->
  In p (covers (replay step (update_sent ES req c uploaded) (at_rest ts NOW))) ->
  fst p = n ->
  snd p = featured_after ES (req_body req) 0 uploaded JNull.
Proof.
  intros Hf Hn Ht. rewrite update_sent_parts, update_tail_split, Hn, !replay_app.
  rewrite (replay_preserved covers touches_covers step_covers) by untouched.
  now apply covers_after_uploads.
Qed.

(** Once a featured url is there, the loop keeps it. *)
Lemma featured_after_keeps b : forall uploaded i f,
  truthy f = true -> featured_after ES b i uploaded f = f.
Proof.
  induction uploaded as [|x rest IH]; intros i f Hf; simpl; [reflexivity|].
  unfold next_featured. rewrite Hf, andb_false_r. now apply IH.
Qed.

Lemma featured_after_first b img rest :
  truthy (field img "url") = true ->
  featured_after ES b 0 (img :: rest) JNull = field img "url".
Proof.
  intros Hu. cbn [featured_after]. unfold next_featured, isFeatured.
  cbn [Z.eqb truthy andb negb]. now apply featured_after_keeps.
Qed.

(** The row the loop writes for upload number [k]. *)
Lemma image_rows_nth b : forall uploaded i k x,
  nth_error uploaded k = Some x ->
  nth_error (image_rows ES b i uploaded) k
  = Some (image_insert (i + Z.of_nat k) x (metadata_at ES b (i + Z.of_nat k))).
Proof.
  induction uploaded as [|y rest IH]; intros i k x H; destruct k as [|k];
    cbn [nth_error image_rows] in *; try discriminate.
  - injection H as ->. now rewrite Z.add_0_r.
  - rewrite (IH _ _ _ H).
    replace (i + Z.of_nat (S k)) with (i + 1 + Z.of_nat k) by lia. reflexivity.
Qed.

End OnStore.
End PostsStore.
(* ===================================================================== *)
(** * Transaction discipline of the handlers *)
(* ===================================================================== *)

Module TxnFacts.
Import PgFacts.

Definition not_rollback (q : stmt) : Prop := q <> ROLLBACK.

Definition whatever (q : stmt) : Prop := True.

(** The statement that ends the transaction of a response. *)
Definition closing (ok : Z) (resp : response) : stmt :=
  if status_code resp =? ok then COMMIT else ROLLBACK.

Section AnyClient.
Context {W : Type} (pg : client W).

(** A handler that, when it answers, has ended its transaction: the last
    statement it sent is COMMIT when the answer has status [ok] and
    ROLLBACK otherwise, and no ROLLBACK was sent before a COMMIT that
    is answered with [ok]. *)
Definition closes (ok : Z) (m : M W response) : Prop :=
  forall s s' resp,
    m s = (s', inr resp) ->
    exists l,
      sent (snd s') = sent (snd s) ++ l ++ [closing ok resp]
      /\ (status_code resp = ok -> ~ In ROLLBACK l).

Lemma closes_commit ok b msg d :
  closes ok (bind (query pg COMMIT) (fun _ => ret (mkResponse ok b msg d))).
Proof.
  intros s s' resp H. inv_bind H. apply ret_inv in H. destruct H as [-> H].
  inversion H; subst resp; clear H. exists []. split.
  - rewrite (query_sent _ _ _ Hstep). unfold closing. simpl.
    now rewrite Z.eqb_refl.
  - intros _ [].
Qed.

Lemma closes_rollback ok code b msg d :
  code <> ok ->
  closes ok (bind (query pg ROLLBACK) (fun _ => ret (mkResponse code b msg d))).
Proof.
  intros Hne s s' resp H. inv_bind H. apply ret_inv in H. destruct H as [-> H].
  inversion H; subst resp; clear H. exists []. split.
  - rewrite (query_sent _ _ _ Hstep). unfold closing. simpl.
    apply Z.eqb_neq in Hne. now rewrite Hne.
  - simpl. intros Hc. contradiction.
Qed.

Lemma closes_bind {A} ok (m : M W A) (k : A -> M W response) :
  sends not_rollback m -> (forall a, closes ok (k a)) -> closes ok (bind m k).
Proof.
  intros Hm Hk s s' resp H. inv_bind H.
  destruct (Hm _ _ _ Hstep) as (l1 & Ht1 & Hp1).
  destruct (Hk _ _ _ _ H) as (l2 & Ht2 & Hp2).
  exists (sent l1 ++ l2). split.
  - rewrite Ht2, Ht1. unfold sent at 1. rewrite map_app.
    now rewrite <- !app_assoc.
  - intros Hok Hin. apply in_app_or in Hin. destruct Hin as [Hin|Hin].
    + rewrite Forall_forall in Hp1. exact (Hp1 _ Hin eq_refl).
    + exact (Hp2 Hok Hin).
Qed.

(** A catch block that answers with a failure after a ROLLBACK. *)
Definition aborts (ok : Z) (h : M W response) : Prop :=
  forall s s' resp,
    h s = (s', inr resp) ->
    status_code resp <> ok /\ sent (snd s') = sent (snd s) ++ [ROLLBACK].

Lemma aborts_rollback ok code b msg d :
  code <> ok ->
  aborts ok (bind (query pg ROLLBACK) (fun _ => ret (mkResponse code b msg d))).
Proof.
  intros Hne s s' resp H. inv_bind H. apply ret_inv in H. destruct H as [-> H].
  inversion H; subst resp; clear H. split; [exact Hne|].
  exact (query_sent _ _ _ Hstep).
Qed.

Lemma guarded_rollback_inv s s' r :
  Deleter.guarded_rollback pg s = (s', r) ->
  r = inr tt /\ sent (snd s') = sent (snd s) ++ [ROLLBACK].
Proof.
  unfold Deleter.guarded_rollback, try_catch, bind, ret.
  destruct (query pg ROLLBACK s) as [s1 [e|x]] eqn:E; intros H;
    inversion H; subst; split; try reflexivity; exact (query_sent _ _ _ E).
Qed.

Lemma aborts_guarded ok code b msg d :
  code <> ok ->
  aborts ok (bind (Deleter.guarded_rollback pg)
               (fun _ => ret (mkResponse code b msg d))).
Proof.
  intros Hne s s' resp H. inv_bind H. apply ret_inv in H. destruct H as [-> H].
  inversion H; subst resp; clear H. split; [exact Hne|].
  now destruct (guarded_rollback_inv _ Hstep).
Qed.

Lemma closes_try_catch ok (m : M W response) (h : string -> M W response) :
  sends whatever m -> closes ok m -> (forall e, aborts ok (h e)) ->
  closes ok (try_catch m h).
Proof.
  intros Hs Hm Hh s s' resp H. apply try_catch_inv in H.
  destruct H as [(a & H & Ha) | (s1 & e & H & Hhe)].
  - inversion Ha; subst a. exact (Hm _ _ _ H).
  - destruct (Hs _ _ _ H) as (l1 & Ht1 & _).
    destruct (Hh e _ _ _ Hhe) as [Hne Ht2].
    exists (sent l1). split.
    + rewrite Ht2, Ht1. unfold sent at 1. rewrite map_app.
      unfold closing. apply Z.eqb_neq in Hne. rewrite Hne.
      now rewrite <- app_assoc.
    + intros Hok. contradiction.
Qed.

(** A handler whose first statement is BEGIN, whether it goes through or
    not. *)
Definition begins {A} (m : M W A) : Prop :=
  forall s s' r,
    m s = (s', r) -> exists l, sent (snd s') = sent (snd s) ++ BEGIN :: l.

Lemma begins_route {A} (k : qresult -> M W A) (h : string -> M W A) :
  (forall a, sends whatever (k a)) -> (forall e, sends whatever (h e)) ->
  begins (try_catch (bind (query pg BEGIN) k) h).
Proof.
  intros Hk Hh s s' r H.
  assert (Hb : forall s1 r1, bind (query pg BEGIN) k s = (s1, r1) ->
                 exists l, sent (snd s1) = sent (snd s) ++ BEGIN :: l).
  { intros s1 r1 Hb. unfold bind in Hb.
    destruct (query pg BEGIN s) as [s0 [e|a]] eqn:E.
    - inversion Hb; subst. exists []. exact (query_sent _ _ _ E).
    - destruct (Hk a _ _ _ Hb) as (l & Ht & _). exists (sent l).
      rewrite Ht. unfold sent at 1. rewrite map_app.
      fold (sent (snd s0)). rewrite (query_sent _ _ _ E).
      now rewrite <- app_assoc. }
  apply try_catch_inv in H.
  destruct H as [(a & H & _) | (s1 & e & H & Hhe)].
  - exact (Hb _ _ H).
  - destruct (Hb _ _ H) as (l1 & Ht1).
    destruct (Hh e _ _ _ Hhe) as (l2 & Ht2 & _).
    exists (l1 ++ sent l2). rewrite Ht2. unfold sent at 1. rewrite map_app.
    fold (sent (snd s1)). rewrite Ht1. now rewrite <- app_assoc.
Qed.

(** What the two give for a run. *)
Lemma begins_and_closes ok (m : M W response) w s' resp :
  begins m -> closes ok m ->
  run m w = (s', inr resp) ->
  exists mid,
    sent (snd s') = BEGIN :: mid ++ [closing ok resp]
    /\ (status_code resp = ok -> ~ In ROLLBACK mid).
Proof.
  intros Hb Hc H. destruct (Hb _ _ _ H) as (l1 & H1).
  destruct (Hc _ _ _ H) as (l2 & H2 & Hno). simpl in H1, H2.
  destruct l2 as [|q l2].
  - rewrite H2 in H1. simpl in H1. injection H1 as Hq _.
    unfold closing in Hq. destruct (status_code resp =? ok); discriminate.
  - rewrite H2 in H1. simpl in H1. injection H1 as -> _.
    exists l2. split; [exact H2|].
    intros Hok Hin. apply (Hno Hok). now right.
Qed.

(** ** What the parts of the handlers send *)

Lemma sends_weaken {A} (P Q : stmt -> Prop) (m : M W A) :
  (forall q, P q -> Q q) -> sends P m -> sends Q m.
Proof.
  intros HPQ Hm s s' r H. destruct (Hm _ _ _ H) as (l & Ht & Hp).
  exists l. split; [exact Ht|]. eapply Forall_impl; [|exact Hp]. exact HPQ.
Qed.

Lemma sends_log P a act tt' ti d i :
  P (INSERT_admin_activity_log a act tt' ti d i) ->
  sends P (logAdminActivity pg a act tt' ti d i).
Proof. intros H. unfold logAdminActivity. repeat sends_step. Qed.

Lemma sends_safeDelete_every P newsId :
  (forall t, P (DELETE_FROM t newsId)) ->
  forall ts n, sends P (Deleter.Safe.safeDelete_all pg ts newsId n).
Proof.
  intros H. induction ts as [|t ts IH]; intros n; simpl.
  - apply sends_ret.
  - apply sends_bind; [|intros; apply IH].
    unfold Deleter.Safe.safeDelete.
    apply sends_try_catch; [|intros; apply sends_ret].
    apply sends_bind; [apply sends_query; apply H | intros; apply sends_ret].
Qed.

Lemma sends_delete_every P newsId ts :
  (forall t, P (DELETE_FROM t newsId)) ->
  sends P (Deleter.Explicit.delete_all pg ts newsId).
Proof.
  intros H. unfold Deleter.Explicit.delete_all. apply sends_for_each. intros t.
  apply sends_bind; [apply sends_query; apply H | intros; apply sends_ret].
Qed.

Lemma sends_remote_images P newsId :
  P (SELECT_image_urls newsId) -> P (SELECT_main_image newsId) ->
  sends P (Deleter.Client.deleteCloudflareImages pg newsId).
Proof.
  intros H1 H2. unfold Deleter.Client.deleteCloudflareImages.
  repeat first [ apply sends_query; assumption | sends_step ].
Qed.

Lemma sends_bulk_loop P (item : jsval -> Deleter.results -> M W Deleter.results) :
  (forall i r, sends P (item i r)) ->
  forall ids r, sends P (Deleter.bulk_loop item ids r).
Proof.
  intros Hi. induction ids as [|i ids IH]; intros r; simpl.
  - apply sends_ret.
  - apply sends_bind; [apply Hi | intros; apply IH].
Qed.

(** A route whose catch block rolls back without a guard: it answers
    after ending its transaction, and the only error that escapes it is
    the one of the ROLLBACK of its catch block. *)
Definition in_transaction (ok : Z) (route : M W response) : Prop :=
  forall w,
    match run route w with
    | (s', inr resp) =>
        exists mid,
          sent (snd s') = BEGIN :: mid ++ [closing ok resp]
          /\ (status_code resp = ok -> ~ In ROLLBACK mid)
    | (s', inl e) => exists t, snd s' = t ++ [(ROLLBACK, inl e)]
    end.

Lemma in_transaction_route ok (k : qresult -> M W response) code b msg
    (d : string -> payload) :
  code <> ok ->
  (forall a, sends whatever (k a)) ->
  closes ok (bind (query pg BEGIN) k) ->
  in_transaction ok
    (try_catch (bind (query pg BEGIN) k)
       (fun e => bind (query pg ROLLBACK)
                   (fun _ => ret (mkResponse code b msg (d e))))).
Proof.
  intros Hne Hk Hc w.
  destruct (run _ w) as [s' [e|resp]] eqn:H.
  - unfold run in H. apply try_catch_inv in H.
    destruct H as [(a & _ & Ha) | (s1 & e0 & _ & H)]; [discriminate|].
    unfold bind in H. destruct (query pg ROLLBACK s1) as [s2 [e2|r2]] eqn:E.
    + inversion H; subst. apply query_inv in E. destruct E as [-> _].
      now exists (snd s1).
    + unfold ret in H. discriminate.
  - eapply begins_and_closes; [| |exact H].
    + apply begins_route; [exact Hk|]. intros e.
      apply sends_bind; [now apply sends_query | intros; apply sends_ret].
    + apply closes_try_catch.
      * apply sends_bind; [now apply sends_query | exact Hk].
      * exact Hc.
      * intros e. now apply aborts_rollback.
Qed.

End AnyClient.

(** ** On the reference database *)

Section OnStore.
Import Store.

(** The statements that read and write rows. *)
Definition data (q : stmt) : Prop :=
  match q with
  | BEGIN | COMMIT | ROLLBACK => False
  | _ => True
  end.

(** A computation that leaves the copy of the tables BEGIN took alone. *)
Definition quiet {A} (m : M db A) : Prop :=
  forall s s' r, m s = (s', r) -> saved (fst s') = saved (fst s).

Lemma quiet_ret {A} (a : A) : quiet (ret a).
Proof. intros s s' r H. now inversion H. Qed.

Lemma quiet_throw {A} e : quiet (@throw db A e).
Proof. intros s s' r H. now inversion H. Qed.

Lemma quiet_lift {A} (x : string + A) : quiet (lift x).
Proof. destruct x; [apply quiet_throw | apply quiet_ret]. Qed.

Lemma quiet_query q : data q -> quiet (query step q).
Proof.
  intros Hq s s' r H. apply query_inv in H. destruct H as [-> _].
  cbn [fst]. destruct q; try contradiction; unfold step;
    match goal with
    | |- context [exec ?q ?c ?l] => destruct (exec q c l)
    end; reflexivity.
Qed.

Lemma quiet_bind {A B} (m : M db A) (k : A -> M db B) :
  quiet m -> (forall a, quiet (k a)) -> quiet (bind m k).
Proof.
  intros Hm Hk s s' r H. unfold bind in H.
  destruct (m s) as [s1 [e|a]] eqn:E.
  - inversion H; subst. exact (Hm _ _ _ E).
  - rewrite (Hk a _ _ _ H). exact (Hm _ _ _ E).
Qed.

Lemma quiet_try_catch {A} (m : M db A) (h : string -> M db A) :
  quiet m -> (forall e, quiet (h e)) -> quiet (try_catch m h).
Proof.
  intros Hm Hh s s' r H. unfold try_catch in H.
  destruct (m s) as [s1 [e|a]] eqn:E.
  - rewrite (Hh e _ _ _ H). exact (Hm _ _ _ E).
  - inversion H; subst. exact (Hm _ _ _ E).
Qed.

Lemma quiet_for_each {A} (f : A -> M db unit) xs :
  (forall x, quiet (f x)) -> quiet (for_each f xs).
Proof.
  intros Hf. induction xs as [|x xs IH]; simpl.
  - apply quiet_ret.
  - apply quiet_bind; [apply Hf | intros _; exact IH].
Qed.

Lemma quiet_log a act tt' ti d i :
  quiet (logAdminActivity step a act tt' ti d i).
Proof.
  unfold logAdminActivity. apply quiet_try_catch; [|intros; apply quiet_ret].
  apply quiet_bind; [now apply quiet_query | intros; apply quiet_ret].
Qed.

(** A handler body that runs inside a transaction and either commits and
    answers [ok], or rolls back and answers something else with the
    tables as BEGIN found them, or throws with the copy BEGIN took still
    there for the catch block. *)
Definition atomic (ok : Z) (m : M db response) : Prop :=
  forall s s' r ts,
    m s = (s', r) -> saved (fst s) = Some ts ->
    match r with
    | inr resp =>
        saved (fst s') = None /\ (status_code resp <> ok -> live (fst s') = ts)
    | inl _ => saved (fst s') = Some ts
    end.

Lemma atomic_commit ok b msg d :
  atomic ok (bind (query step COMMIT) (fun _ => ret (mkResponse ok b msg d))).
Proof.
  intros [d0 tr] s' r ts H Hs. unfold bind, query, step, ret in H.
  cbn [fst snd] in H. inversion H; subst. cbn. split; [reflexivity|].
  intros Hne. now elim Hne.
Qed.

Lemma atomic_rollback ok code b msg d :
  atomic ok (bind (query step ROLLBACK) (fun _ => ret (mkResponse code b msg d))).
Proof.
  intros [d0 tr] s' r ts H Hs. unfold bind, query, step, ret in H.
  cbn [fst snd] in H. inversion H; subst. cbn. cbn in Hs. rewrite Hs.
  now split.
Qed.

Lemma atomic_bind {A} ok (m : M db A) (k : A -> M db response) :
  quiet m -> (forall a, atomic ok (k a)) -> atomic ok (bind m k).
Proof.
  intros Hm Hk s s' r ts H Hs. unfold bind in H.
  destruct (m s) as [s1 [e|a]] eqn:E.
  - inversion H; subst. rewrite (Hm _ _ _ E). exact Hs.
  - apply (Hk a _ _ _ _ H). rewrite (Hm _ _ _ E). exact Hs.
Qed.

(** A route over such a body, with a catch block that rolls back: on a
    database at rest it always answers, no transaction is left open, and
    unless the answer is [ok] the tables are as they were. *)
Definition all_or_nothing (ok : Z) (route : M db response) : Prop :=
  forall ts NOW,
    exists s' resp,
      run route (at_rest ts NOW) = (s', inr resp)
      /\ saved (fst s') = None
      /\ (status_code resp <> ok -> live (fst s') = ts).

Lemma atomic_route ok (k : qresult -> M db response) code b msg
    (d : string -> payload) :
  (forall a, atomic ok (k a)) ->
  all_or_nothing ok
    (try_catch (bind (query step BEGIN) k)
       (fun e => bind (query step ROLLBACK)
                   (fun _ => ret (mkResponse code b msg (d e))))).
Proof.
  intros Hk ts NOW. unfold run, try_catch. unfold bind at 1.
  change (query step BEGIN (at_rest ts NOW, []))
    with ((mkDb ts (Some ts) NOW, [(BEGIN, Store.ok [] 0)]) : db * trace,
          @inr string qresult (mkResult [] 0)).
  cbv beta iota.
  match goal with
  | |- context [k ?a ?s] => destruct (k a s) as [s2 [e|resp]] eqn:E
  end.
  - pose proof (Hk _ _ _ _ ts E eq_refl) as Hs. cbn in Hs.
    destruct s2 as [d2 tr2]. cbn in Hs.
    unfold bind, query, step, ret. cbn [fst snd]. rewrite Hs.
    eexists _, _. split; [reflexivity|]. cbn. now split.
  - pose proof (Hk _ _ _ _ ts E eq_refl) as [Hs Hl].
    eexists _, _. split; [reflexivity|]. now split.
Qed.

End OnStore.

(** Walks a handler of the delete routers, for a property of what it
    sends that every data statement has. *)
Ltac sends_data :=
  repeat first
    [ apply sends_ret
    | apply sends_throw
    | apply sends_lift
    | apply sends_query; first [ discriminate | exact I ]
    | apply sends_log; first [ discriminate | exact I ]
    | apply sends_safeDelete_every; intros; first [ discriminate | exact I ]
    | apply sends_delete_every; intros; first [ discriminate | exact I ]
    | apply sends_remote_images; first [ discriminate | exact I ]
    | apply sends_bind; [|intros]
    | apply sends_try_catch; [|intros]
    | apply sends_for_each; intros
    | match goal with
      | |- sends _ (match ?x with _ => _ end) => destruct x
      end ].

Ltac closes_step :=
  first
    [ apply closes_commit
    | apply closes_rollback; discriminate
    | apply closes_bind; [solve [sends_data] | intros]
    | match goal with
      | |- closes _ (match ?x with _ => _ end) => destruct x
      end ].

End TxnFacts.
Example extractQuotes_two :
  Formatter.extractQuotes
    ("a[QUOTE sayer=" ++ String Formatter.dquote "Ann"
       ++ String Formatter.dquote "] hi [/QUOTE] b [QUOTE]x[/QUOTE]")%string
  = [ Formatter.mkQuote "hi" (Some "Ann") 1;
      Formatter.mkQuote "x" None 35 ].
Proof. reflexivity. Qed.

(** ** Properties of the matcher *)

Module FormatterFacts.
Import Formatter.

Lemma chars_app (a b : string) : chars (a ++ b)%string = chars a ++ chars b.
Proof.
  unfold chars. induction a as [|c a IH]; simpl; [reflexivity|].
  now rewrite IH.
Qed.

Lemma chars_length (a : string) : List.length (chars a) = String.length a.
Proof.
  unfold chars. induction a as [|c a IH]; simpl; [reflexivity|].
  now rewrite IH.
Qed.

Lemma chars_of_list (l : list ascii) : chars (string_of_list_ascii l) = l.
Proof. apply list_ascii_of_string_of_list_ascii. Qed.

Lemma of_list_chars (a : string) : string_of_list_ascii (chars a) = a.
Proof. apply string_of_list_ascii_of_string. Qed.

Lemma strip_prefix_app p : forall s r,
  strip_prefix p s = Some r -> s = (p ++ r)%list.
Proof.
  induction p as [|a p IH]; intros s r H; simpl in *.
  - now inversion H.
  - destruct s as [|b s]; [discriminate|].
    destruct (Ascii.eqb a b) eqn:E; [|discriminate].
    apply Ascii.eqb_eq in E; subst b.
    now rewrite (IH _ _ H).
Qed.

Lemma span_app f : forall s run rest,
  span f s = (run, rest) -> s = (run ++ rest)%list.
Proof.
  induction s as [|c s IH]; intros run rest H; simpl in H.
  - now inversion H.
  - destruct (f c).
    + destruct (span f s) as [run' rest'] eqn:E.
      inversion H; subst. simpl. now rewrite (IH _ _ eq_refl).
    + now inversion H.
Qed.

Lemma lazy_until_app stop : forall s body rest,
  lazy_until stop s = Some (body, rest) -> s = (body ++ stop ++ rest)%list.
Proof.
  induction s as [|c s IH]; intros body rest H; simpl in H.
  - destruct (strip_prefix stop []) eqn:E; [|discriminate].
    inversion H; subst. simpl. now apply strip_prefix_app.
  - destruct (strip_prefix stop (c :: s)) eqn:E.
    + inversion H; subst. simpl. now apply strip_prefix_app.
    + destruct (lazy_until stop s) as [[b r]|] eqn:E'; [|discriminate].
      inversion H; subst. simpl. now rewrite (IH _ _ eq_refl).
Qed.

Lemma sayer_group_app s name r :
  sayer_group s = Some (name, r) -> exists attr, s = (attr ++ r)%list.
Proof.
  unfold sayer_group. intros H.
  destruct (span is_ws s) as [ws r0] eqn:E0.
  destruct ws as [|w ws]; [discriminate|].
  destruct (strip_prefix (chars "sayer=" ++ [dquote]) r0) as [r1|] eqn:E1;
    [|discriminate].
  destruct (span not_dquote r1) as [nm r2] eqn:E2.
  destruct r2 as [|c r3]; [discriminate|].
  destruct (Ascii.eqb c dquote) eqn:Ec; [|discriminate].
  inversion H; subst nm r3; clear H.
  apply span_app in E0, E2. apply strip_prefix_app in E1.
  exists ((w :: ws) ++ (chars "sayer=" ++ [dquote]) ++ name ++ [c])%list.
  rewrite E0, E1, E2. now rewrite <- !app_assoc.
Qed.

Lemma close_tag_app s body rest :
  close_tag s = Some (body, rest) ->
  s = (chars "]" ++ body ++ chars "[/QUOTE]" ++ rest)%list.
Proof.
  unfold close_tag. destruct s as [|c s]; [discriminate|].
  destruct c as [[] [] [] [] [] [] [] []]; try discriminate.
  intros H. apply lazy_until_app in H. now rewrite H.
Qed.

Lemma quoteRegex_at_app s c1 c2 rest :
  quoteRegex_at s = Some (c1, c2, rest) ->
  exists attr,
    s = (chars "[QUOTE" ++ attr ++ chars "]" ++ c2 ++ chars "[/QUOTE]" ++ rest)%list.
Proof.
  unfold quoteRegex_at. intros H.
  destruct (strip_prefix (chars "[QUOTE") s) as [r|] eqn:E; [|discriminate].
  apply strip_prefix_app in E.
  assert (Hwithout :
    match close_tag r with
    | Some (body, rest0) => Some (None, body, rest0)
    | None => None
    end = Some (c1, c2, rest) ->
    exists attr,
      s = (chars "[QUOTE" ++ attr ++ chars "]" ++ c2 ++ chars "[/QUOTE]" ++ rest)%list).
  { destruct (close_tag r) as [[b r']|] eqn:Ec; [|discriminate].
    intros H'; injection H' as <- <- <-. apply close_tag_app in Ec.
    exists []. now rewrite E, Ec. }
  destruct (sayer_group r) as [[name r']|] eqn:Es; [|now apply Hwithout].
  destruct (close_tag r') as [[b r'']|] eqn:Ec; [|now apply Hwithout].
  injection H as <- <- <-. apply close_tag_app in Ec.
  destruct (sayer_group_app _ Es) as [attr Ha].
  exists attr. now rewrite E, Ha, Ec, <- ?app_assoc.
Qed.

Lemma quoteRegex_exec_app : forall s idx i c1 c2 rest,
  quoteRegex_exec idx s = Some (i, c1, c2, rest) ->
  exists skipped attr,
    s = (skipped ++ chars "[QUOTE" ++ attr ++ chars "]" ++ c2
           ++ chars "[/QUOTE]" ++ rest)%list
    /\ i = (idx + List.length skipped)%nat.
Proof.
  induction s as [|c s IH]; intros idx i c1 c2 rest H.
  - discriminate H.
  - cbn [quoteRegex_exec] in H.
    destruct (quoteRegex_at (c :: s)) as [[[a b] r]|] eqn:E.
    + injection H as <- <- <- <-. destruct (quoteRegex_at_app _ E) as [attr Ha].
      exists [], attr. split; [exact Ha | simpl; lia].
    + destruct (IH _ _ _ _ _ H) as (sk & attr & Hs & Hi).
      exists (c :: sk), attr. split; [simpl; now rewrite Hs | simpl; lia].
Qed.

Lemma of_list_app (a b : list ascii) :
  string_of_list_ascii (a ++ b)
  = (string_of_list_ascii a ++ string_of_list_ascii b)%string.
Proof. induction a as [|c a IH]; simpl; [reflexivity | now rewrite IH]. Qed.

(** The accumulator only ever grows at its end. *)
Lemma extract_loop_acc : forall fuel i s acc,
  extract_loop fuel i s acc = (acc ++ extract_loop fuel i s [])%list.
Proof.
  induction fuel as [|fuel IH]; intros i s acc; simpl.
  - now rewrite app_nil_r.
  - destruct (quoteRegex_exec i s) as [[[[idx c1] c2] rest]|].
    + rewrite IH. rewrite (IH _ _ [_]). now rewrite <- app_assoc.
    + now rewrite app_nil_r.
Qed.

(** A match is not empty, so the loop never needs more fuel than the input
    has code units. *)
Lemma extract_loop_fuel : forall f1 f2 i s acc,
  (List.length s < f1)%nat -> (List.length s < f2)%nat ->
  extract_loop f1 i s acc = extract_loop f2 i s acc.
Proof.
  induction f1 as [|f1 IH]; intros f2 i s acc H1 H2; [lia|].
  destruct f2 as [|f2]; [lia|]. simpl.
  destruct (quoteRegex_exec i s) as [[[[idx c1] c2] rest]|] eqn:E; [|reflexivity].
  destruct (quoteRegex_exec_app _ _ E) as (sk & attr & Hs & _).
  assert (List.length rest < List.length s)%nat.
  { rewrite Hs. rewrite !length_app. simpl. lia. }
  apply IH; lia.
Qed.

(** What the loop records for a block, on code units. *)
Definition block_at (raw : list ascii) (q : quote) : Prop :=
  exists pre attr body post,
    raw = (pre ++ chars "[QUOTE" ++ attr ++ chars "]" ++ body
             ++ chars "[/QUOTE]" ++ post)%list
    /\ position q = List.length pre
    /\ text q = string_of_list_ascii (trim_chars body).

Definition before (a b : quote) : Prop := (position a < position b)%nat.

Lemma extract_loop_blocks raw : forall fuel pre s,
  raw = (pre ++ s)%list ->
  let qs := extract_loop fuel (List.length pre) s [] in
  Forall (fun q => block_at raw q /\ (List.length pre <= position q)%nat) qs
  /\ StronglySorted before qs.
Proof.
  induction fuel as [|fuel IH]; intros pre s Hraw; simpl.
  - split; constructor.
  - destruct (quoteRegex_exec (List.length pre) s) as [[[[idx c1] c2] rest]|] eqn:E;
      [|split; constructor].
    destruct (quoteRegex_exec_app _ _ E) as (sk & attr & Hs & Hi).
    rewrite extract_loop_acc. simpl.
    set (blk := (chars "[QUOTE" ++ attr ++ chars "]" ++ c2 ++ chars "[/QUOTE]")%list).
    assert (Hs' : s = (sk ++ blk ++ rest)%list).
    { rewrite Hs. unfold blk. now rewrite <- ?app_assoc. }
    assert (Hlen : (List.length pre + (List.length s - List.length rest)
                    = List.length (pre ++ sk ++ blk))%nat).
    { rewrite Hs'. rewrite !length_app. lia. }
    rewrite Hlen.
    destruct (IH (pre ++ sk ++ blk)%list rest) as [Hall Hsorted].
    { rewrite Hraw, Hs'. now rewrite <- ?app_assoc. }
    assert (Hpos : (idx < List.length (pre ++ sk ++ blk))%nat).
    { rewrite Hi. rewrite !length_app. unfold blk. rewrite !length_app.
      simpl. lia. }
    split.
    + constructor.
      * split.
        -- exists (pre ++ sk)%list, attr, c2, rest. repeat split.
           ++ rewrite Hraw, Hs. now rewrite <- ?app_assoc.
           ++ simpl. rewrite length_app. lia.
           ++ simpl. destruct c2; reflexivity.
        -- simpl. lia.
      * eapply Forall_impl; [|exact Hall].
        intros q [Hq Hle]. split; [exact Hq|].
        rewrite length_app in Hle. lia.
    + constructor; [exact Hsorted|].
      eapply Forall_impl; [|exact Hall].
      intros q [_ Hle]. unfold before. simpl. lia.
Qed.

End FormatterFacts.

(* ===================================================================== *)
(** * The write routes: publish gate, validation, links, publication time,
      featured media *)
(* ===================================================================== *)

Module PostsClaims.
Import Posts PgFacts PostsFacts.

(** The status a statement writes to the article row, if it writes one. *)
Definition status_written (q : stmt) : list string :=
  match q with
  | INSERT_news v => [n_status v]
  | UPDATE_news v _ => [u_status v]
  | _ => []
  end.

(** The category link a statement writes, if it writes one. *)
Definition link_written (q : stmt) : list (jsval * jsval * bool) :=
  match q with
  | INSERT_news_categories i c p => [(i, c, p)]
  | _ => []
  end.

(** The publication time a create writes. *)
Definition published_at_written (q : stmt) : list (option Z) :=
  match q with
  | INSERT_news v => [n_published_at v]
  | _ => []
  end.

(** The media row and the cover image a statement writes. *)
Definition image_written (q : stmt) : list image_values :=
  match q with
  | INSERT_news_images _ v => [v]
  | _ => []
  end.

Definition cover_written (q : stmt) : list jsval :=
  match q with
  | UPDATE_image_url u _ => [u]
  | _ => []
  end.

Section Projections.
Context {W : Type} (E : env W).

Lemma create_status_written req c newsId uploaded :
  flat_map status_written (create_sent E req c newsId uploaded)
  = [finalStatus E req].
Proof.
  unfold create_sent. rewrite !flat_map_app. simpl.
  repeat (rewrite (@flat_map_none _ _ status_written); [|no_such_statement]).
  reflexivity.
Qed.

Lemma update_status_written req c uploaded :
  flat_map status_written (update_sent E req c uploaded) = [finalStatus E req].
Proof.
  unfold update_sent. rewrite !flat_map_app. simpl.
  repeat (rewrite (@flat_map_none _ _ status_written); [|no_such_statement]).
  reflexivity.
Qed.

End Projections.



(** ** Validation *)

(** The four ways a create request fails the validation chain. *)
Definition missing_required (b : body) : Prop :=
  str (title b) = "" \/ str (content b) = "" \/ str (category_ids b) = ""
  \/ str (primary_category_id b) = "" \/ str (author_id b) = "".

Definition malformed_author (b : body) : Prop :=
  parseIntSafe (author_id b) 0 = 0.

Definition empty_category_set {W} (E : env W) (b : body) : Prop :=
  forall c cs, safeJSON E (category_ids b) (JArr []) <> JArr (c :: cs).

Definition primary_not_member {W} (E : env W) (b : body) : Prop :=
  parseIntSafe (primary_category_id b) 0 = 0
  \/ forall ids, safeJSON E (category_ids b) (JArr []) = JArr ids ->
                 includes ids (parseIntSafe (primary_category_id b) 0) = false.

Definition fails_validation {W} (E : env W) (b : body) : Prop :=
  missing_required b \/ malformed_author b \/ empty_category_set E b
  \/ primary_not_member E b.

Lemma fails_validation_rejected {W} (E : env W) (b : body) :
  fails_validation E b -> exists msg, validate_create E b = inl msg.
Proof.
  unfold validate_create. intros H.
  destruct (falsy (title b) || falsy (content b) || falsy (category_ids b)
            || falsy (primary_category_id b) || falsy (author_id b)) eqn:Hreq;
    [eauto|].
  repeat (apply orb_false_iff in Hreq; destruct Hreq as [Hreq ?]).
  unfold falsy in *.
  destruct (parseIntSafe (author_id b) 0 =? 0) eqn:Hauth; [eauto|].
  destruct (safeJSON E (category_ids b) (JArr [])) as [| | | | | |[|c cs]|] eqn:Hcat;
    eauto.
  destruct (parseIntSafe (primary_category_id b) 0 =? 0) eqn:Hprim; [eauto|].
  destruct (includes (c :: cs) (parseIntSafe (primary_category_id b) 0)) eqn:Hin;
    simpl; [|eauto].
  exfalso. destruct H as [H | [H | [H | [H | H]]]].
  - unfold missing_required in H.
    repeat match goal with
           | Hx : String.eqb _ _ = false |- _ => apply String.eqb_neq in Hx
           end.
    tauto.
  - unfold malformed_author in H. apply Z.eqb_neq in Hauth. contradiction.
  - exact (H c cs Hcat).
  - apply Z.eqb_neq in Hprim. contradiction.
  - rewrite (H _ Hcat) in Hin. discriminate.
Qed.

(** A statement that opens or abandons the transaction and writes nothing. *)
Definition control_only (q : stmt) : Prop := q = BEGIN \/ q = ROLLBACK.

Lemma rejected_sends_nothing {W} (E : env W) (req : request) (w : W) msg :
  validate_create E (req_body req) = inl msg ->
  Forall control_only (sent (snd (fst (run (create_post E req) w)))).
Proof.
  intros Hv. unfold run, create_post, try_catch, bind, query, respond, ret.
  simpl. destruct (pg E BEGIN w) as [w1 [e|r]]; simpl.
  - destruct (pg E ROLLBACK w1) as [w2 [e2|r2]]; simpl;
      repeat (apply Forall_cons; [unfold control_only; auto|]);
      apply Forall_nil.
  - rewrite Hv. simpl.
    destruct (pg E ROLLBACK w1) as [w2 [e2|r2]]; simpl.
    + destruct (pg E ROLLBACK w2) as [w3 [e3|r3]]; simpl;
        repeat (apply Forall_cons; [unfold control_only; auto|]);
        apply Forall_nil.
    + repeat (apply Forall_cons; [unfold control_only; auto|]);
        apply Forall_nil.
Qed.

(** C2. Validation atomicity of create. A create request that fails a
    validation check (a missing required field, a malformed author id, an
    empty category set, a primary category that is no member of the set)
    sends nothing but BEGIN and ROLLBACK, whatever the database answers;
    and on the reference database it answers 400 with success false and a
    message, and leaves every table as it was. *)
Theorem create_validation_atomic {W} (E : env W) (req : request) :
  fails_validation E (req_body req) ->
  (forall w, Forall control_only (sent (snd (fst (run (create_post E req) w)))))
  /\ (forall ts NOW,
        let db := Store.at_rest ts NOW in
        let r := run (create_post (over E Store.step) req) db in
        (exists msg, snd r = inr (mkResponse 400 false msg NoData))
        /\ fst (fst r) = db).
Proof.
  intros Hf. destruct (fails_validation_rejected Hf) as [msg Hv]. split.
  - intros w. exact (rejected_sends_nothing E req w Hv).
  - intros ts NOW db r. subst r db.
    assert (Hv' : validate_create (over E Store.step) (req_body req) = inl msg)
      by exact Hv.
    unfold run, create_post, try_catch, bind, query, respond, ret.
    rewrite Hv'. simpl. split; [exists msg|]; reflexivity.
Qed.

(** A create whose primary category is not among its categories. *)
Lemma create_validation_atomic_witness :
  let req := Posts.mkRequest
               (Posts.mkBody (Some "T") (Some "body") None (Some "[3,7]")
                  (Some "9") None None None None None (Some "12") None [])
               [] (JStr "editor") (JNum 12) (JStr "10.0.0.1") "" 2000 in
  fails_validation Demo.env (req_body req)
  /\ (forall w, Forall control_only
                  (sent (snd (fst (run (create_post Demo.env req) w)))))
  /\ snd (run (create_post Demo.env req) Demo.db0)
     = inr (mkResponse 400 false
              "Primary category must be one of the selected categories" NoData)
  /\ fst (fst (run (create_post Demo.env req) Demo.db0)) = Demo.db0.
Proof.
  intros req.
  assert (Hf : fails_validation Demo.env (req_body req)).
  { right; right; right; right. intros ids Hids.
    vm_compute in Hids. injection Hids as <-. reflexivity. }
  split; [exact Hf|].
  destruct (@create_validation_atomic _ Demo.env req Hf) as [Hsent Hstore].
  split; [exact Hsent|].
  destruct (Hstore Demo.tables0 2000) as [_ Hd].
  split; [vm_compute; reflexivity | exact Hd].
Defined.

(** ** Category links *)

Lemma validate_create_inr {W} (E : env W) b c :
  validate_create E b = inr c ->
  safeJSON E (category_ids b) (JArr []) = JArr (parsedCategoryIds c)
  /\ parsedPrimaryCategoryId c = parseIntSafe (primary_category_id b) 0
  /\ includes (parsedCategoryIds c) (parsedPrimaryCategoryId c) = true.
Proof.
  unfold validate_create.
  destruct (falsy (title b) || _ || _ || _ || _); [discriminate|].
  destruct (parseIntSafe (author_id b) 0 =? 0); [discriminate|].
  destruct (safeJSON E (category_ids b) (JArr [])) as [| | | | | |[|k ks]|];
    try discriminate.
  destruct (parseIntSafe (primary_category_id b) 0 =? 0); [discriminate|].
  destruct (includes (k :: ks) _) eqn:Hin; [|discriminate].
  simpl. intros H. injection H as <-. simpl. auto.
Qed.

Lemma validate_update_inr {W} (E : env W) b c :
  validate_update E b = inr c ->
  safeJSON E (category_ids b) (JArr []) = JArr (parsedCategoryIds c)
  /\ parsedPrimaryCategoryId c = parseIntSafe (primary_category_id b) 0
  /\ includes (parsedCategoryIds c) (parsedPrimaryCategoryId c) = true.
Proof.
  unfold validate_update.
  destruct (falsy (title b) || _ || _ || _); [discriminate|].
  destruct (safeJSON E (category_ids b) (JArr [])) as [| | | | | |[|k ks]|];
    try discriminate.
  destruct (parseIntSafe (primary_category_id b) 0 =? 0); [discriminate|].
  destruct (includes (k :: ks) _) eqn:Hin; [|discriminate].
  simpl. intros H. injection H as <-. simpl. auto.
Qed.

Lemma is_num_true p k : is_num p k = true -> k = JNum p.
Proof.
  destruct k; simpl; try discriminate. intros H.
  apply Z.eqb_eq in H. now subst.
Qed.

Lemma includes_In ids p : includes ids p = true -> In (JNum p) ids.
Proof.
  unfold includes. intros H. apply existsb_exists in H.
  destruct H as (k & Hk & Hp). apply is_num_true in Hp. now subst.
Qed.

Lemma filter_none {A} (f : A -> bool) l :
  Forall (fun x => f x = false) l -> filter f l = [].
Proof.
  induction 1 as [|x l Hx _ IH]; simpl; [reflexivity|]. now rewrite Hx.
Qed.

Lemma filter_all {A} (f : A -> bool) l :
  Forall (fun x => f x = true) l -> filter f l = l.
Proof.
  induction 1 as [|x l Hx _ IH]; simpl; [reflexivity|]. now rewrite Hx, IH.
Qed.

(** In a list of distinct ids, the primary one is flagged and no other. *)
Lemma one_flagged n p ids :
  In (JNum p) ids -> NoDup ids ->
  exists before after,
    map (fun k => Store.mkLink n k (is_num p k)) ids
    = before ++ [Store.mkLink n (JNum p) true] ++ after
    /\ Forall (fun l => Store.l_is_primary l = false) (before ++ after).
Proof.
  intros Hin Hnd. apply in_split in Hin. destruct Hin as (l1 & l2 & ->).
  apply NoDup_remove_2 in Hnd.
  exists (map (fun k => Store.mkLink n k (is_num p k)) l1),
         (map (fun k => Store.mkLink n k (is_num p k)) l2).
  split.
  - rewrite map_app. simpl. now rewrite Z.eqb_refl.
  - rewrite <- map_app. apply Forall_forall. intros l Hl.
    apply in_map_iff in Hl. destruct Hl as (k & <- & Hk). simpl.
    destruct (is_num p k) eqn:Hp; [|reflexivity].
    apply is_num_true in Hp. subst k. contradiction.
Qed.



(** ** Publication time *)

(** C4. published_at is set once. On the reference database, a create that
    answers 201 adds one article whose published_at is the request time
    when the final status is published and null otherwise, so it is
    non-null iff the final status is published; an update that answers 200
    leaves the published_at of every other article alone and, for its own
    article, keeps a published_at that is set, whatever the new status,
    and fills a null one with the current time exactly when the final
    status is published. *)
Theorem published_at_set_once {W} (E : env W) (req : request)
    (ts : Store.tables) (NOW : Z) (s' : Store.db * trace) (resp : response) :
  let ES := PostsStore.ES E in
  let db := Store.at_rest ts NOW in
  let final := finalStatus E req in
  (run (create_post ES req) db = (s', inr resp) /\ status_code resp = 201 ->
   exists p,
     StoreFacts.pubs (fst s')
     = map StoreFacts.pub (Store.news ts) ++ [(Store.serial ts, p)]
     /\ p = (if String.eqb final "published" then Some (now req) else None)
     /\ (p <> None <-> final = "published"))
  /\ (run (update_post ES req) db = (s', inr resp) /\ status_code resp = 200 ->
      exists n,
        newsId_of req = JNum n
        /\ StoreFacts.pubs (fst s')
           = map (fun a =>
                    (Store.news_id a,
                     if Store.news_id a =? n
                     then match n_published_at (Store.cols a) with
                          | Some t => Some t
                          | None => if String.eqb final "published"
                                    then Some NOW else None
                          end
                     else n_published_at (Store.cols a)))
               (Store.news ts)).
Proof.
  intros ES db final. split.
  - intros [H Hcode].
    destruct (@PostsStore.create_on_store _ E _ _ _ _ _ H Hcode)
      as (c & up & _ & _ & _ & Hdb).
    exists (if String.eqb final "published" then Some (now req) else None).
    split; [|split; [reflexivity|]].
    + rewrite Hdb. apply PostsStore.pubs_after_create.
    + destruct (String.eqb final "published") eqn:Hf.
      * apply String.eqb_eq in Hf. split; [auto | discriminate].
      * apply String.eqb_neq in Hf. split; [intros Hp; now elim Hp | contradiction].
  - intros [H Hcode].
    destruct (@PostsStore.update_on_store _ E _ _ _ _ _ H Hcode)
      as (c & up & n & _ & _ & Hn & _ & Hdb).
    exists n. split; [exact Hn|].
    rewrite Hdb. apply (PostsStore.pubs_after_update E req c up ts NOW Hn).
Qed.

(** An administrator publishes a new article, then article 5, published at
    time 1000, is updated back to a draft: the new article carries the
    request time and article 5 keeps its own. *)
Lemma published_at_set_once_witness :
  let created := fst (run (create_post Demo.env (Demo.a_request "admin" "published"))
                        Demo.db0) in
  let updated := fst (run (update_post Demo.env (Demo.a_request "admin" "draft"))
                        Demo.db0) in
  (exists p,
     StoreFacts.pubs (fst created) = [(4, None); (5, Some 1000); (6, p)]
     /\ (p <> None <-> "published" = "published"))
  /\ StoreFacts.pubs (fst updated) = [(4, None); (5, Some 1000)].
Proof.
  intros created updated. split.
  - destruct (@published_at_set_once _ Demo.env (Demo.a_request "admin" "published")
                Demo.tables0 2000 created
                (mkResponse 201 true "Post published successfully"
                   (Written (JNum 6) "Floods in the valley" "published" false)))
      as [Hc _].
    destruct Hc as (p & Hp & _ & Hiff);
      [split; [vm_compute; reflexivity | reflexivity]|].
    exists p. split; [exact Hp | exact Hiff].
  - destruct (@published_at_set_once _ Demo.env (Demo.a_request "admin" "draft")
                Demo.tables0 2000 updated
                (mkResponse 200 true "Draft updated successfully"
                   (Written (JNum 5) "Floods in the valley" "draft" false)))
      as [_ Hu].
    destruct Hu as (n & Hn & Hp);
      [split; [vm_compute; reflexivity | reflexivity]|].
    vm_compute in Hn. injection Hn as <-. exact Hp.
Defined.

(** ** Featured media *)

(** The media rows of article [n] that are featured. *)
Definition featured_rows (n : Z) (d : Store.db) : list (Z * image_values) :=
  filter (fun r => (fst r =? n) && truthy (i_is_featured (snd r)))
         (StoreFacts.media d).




End PostsClaims.

(* ===================================================================== *)
(** * The delete routes: the root delete, and isolation in a bulk delete *)
(* ===================================================================== *)

Module DeleterClaims.
Import Deleter PgFacts.

Definition any_statement (q : stmt) : Prop := True.

Section AnyClient.
Context {W : Type} (pg : client W).

Lemma sends_logAdminActivity P a act tt' ti d i :
  P (INSERT_admin_activity_log a act tt' ti d i) ->
  sends P (logAdminActivity pg a act tt' ti d i).
Proof.
  intros H. unfold logAdminActivity. repeat sends_step.
Qed.

Lemma sends_safeDelete P t newsId :
  P (DELETE_FROM t newsId) -> sends P (Safe.safeDelete pg t newsId).
Proof. intros H. unfold Safe.safeDelete. repeat sends_step. Qed.

Lemma sends_safeDelete_all P newsId :
  (forall t, P (DELETE_FROM t newsId)) ->
  forall ts n, sends P (Safe.safeDelete_all pg ts newsId n).
Proof.
  intros H. induction ts as [|t ts IH]; intros n; simpl.
  - apply sends_ret.
  - apply sends_bind; [now apply sends_safeDelete | intros; apply IH].
Qed.

(** safeDelete and the guarded rollback never throw. *)
Lemma safeDelete_all_total newsId : forall ts n s,
  exists s' m, Safe.safeDelete_all pg ts newsId n s = (s', inr m).
Proof.
  induction ts as [|t ts IH]; intros n s; simpl.
  - now exists s, n.
  - unfold bind at 1. unfold Safe.safeDelete, try_catch, bind, ret.
    destruct (query pg (DELETE_FROM t newsId) s) as [s1 [e|r]]; apply IH.
Qed.

Lemma guarded_rollback_total s :
  exists s', guarded_rollback pg s = (s', inr tt).
Proof.
  unfold guarded_rollback, try_catch, bind, ret.
  destruct (query pg ROLLBACK s) as [s1 [e|r]]; eauto.
Qed.

(** The answer of the single-delete catch block is a failure. *)
Lemma caught_is_failure e s s' resp :
  bind (guarded_rollback pg)
       (fun _ => respond 500 false "Internal server error" (ErrorDetail e)) s
  = (s', inr resp) ->
  success resp = false.
Proof.
  intros H. inv_bind H. apply ret_inv in H. destruct H as [_ H].
  now inversion H.
Qed.

(** The first router of part_001 reports success only when its root delete
    removed a row. *)
Lemma safe_delete_checked req w s' resp :
  run (Safe.delete_news pg req) w = (s', inr resp) ->
  success resp = true ->
  exists r, In (DELETE_news (JStr (id req)), inr r) (snd s')
            /\ (0 < rowCount r)%nat.
Proof.
  unfold run, Safe.delete_news. intros H Hok.
  apply try_catch_inv in H. destruct H as [(a & H & Ha) | (s1 & e & _ & H)].
  2: { apply caught_is_failure in H. congruence. }
  inversion Ha; subst a; clear Ha.
  inv_bind H. destruct (bad_id (id req)).
  { inv_bind H. apply ret_inv in H. destruct H as [_ H].
    inversion H; subst resp. discriminate. }
  inv_bind H. destruct (rows a0) as [|article more].
  { inv_bind H. apply ret_inv in H. destruct H as [_ H].
    inversion H; subst resp. discriminate. }
  inv_bind H. inv_bind H. inv_bind H.
  destruct (rowCount a3 =? 0)%nat eqn:Hcount.
  { inv_bind H. apply ret_inv in H. destruct H as [_ H].
    inversion H; subst resp. discriminate. }
  exists a3. split; [|apply Nat.eqb_neq in Hcount; lia].
  inv_bind H. inv_bind H. apply ret_inv in H. destruct H as [-> _].
  eapply (sends_keeps (P := any_statement)); [|exact Hstep5|].
  { apply sends_query. exact I. }
  eapply (sends_keeps (P := any_statement)); [|exact Hstep4|].
  { apply sends_logAdminActivity. exact I. }
  apply query_inv in Hstep3. destruct Hstep3 as [-> _]. simpl.
  apply in_or_app. right. now left.
Qed.

(** So does the second. *)
Lemma cascade_delete_checked req w s' resp :
  run (Cascade.delete_news pg req) w = (s', inr resp) ->
  success resp = true ->
  exists r, In (DELETE_news (JStr (id req)), inr r) (snd s')
            /\ (0 < rowCount r)%nat.
Proof.
  unfold run, Cascade.delete_news. intros H Hok.
  apply try_catch_inv in H. destruct H as [(a & H & Ha) | (s1 & e & _ & H)].
  2: { apply caught_is_failure in H. congruence. }
  inversion Ha; subst a; clear Ha.
  inv_bind H. destruct (bad_id (id req)).
  { inv_bind H. apply ret_inv in H. destruct H as [_ H].
    inversion H; subst resp. discriminate. }
  inv_bind H. destruct (rows a0) as [|article more].
  { inv_bind H. apply ret_inv in H. destruct H as [_ H].
    inversion H; subst resp. discriminate. }
  inv_bind H. inv_bind H.
  destruct (rowCount a2 =? 0)%nat eqn:Hcount.
  { inv_bind H. apply ret_inv in H. destruct H as [_ H].
    inversion H; subst resp. discriminate. }
  exists a2. split; [|apply Nat.eqb_neq in Hcount; lia].
  inv_bind H. inv_bind H. apply ret_inv in H. destruct H as [-> _].
  eapply (sends_keeps (P := any_statement)); [|exact Hstep4|].
  { apply sends_query. exact I. }
  eapply (sends_keeps (P := any_statement)); [|exact Hstep3|].
  { apply sends_logAdminActivity. exact I. }
  apply query_inv in Hstep2. destruct Hstep2 as [-> _]. simpl.
  apply in_or_app. right. now left.
Qed.

End AnyClient.

(** C8. Delete success condition, where it fails. Article 5 is there when
    the route checks for it and a second session removes it before the
    route's own root delete, which then affects no row: the routes of
    routes/admin/categories.js and routes/api/client.js commit and answer
    200 with success true, where the first router of part_001 rolls back
    and answers 500. *)
Theorem root_delete_unchecked :
  let admin := Posts.mkRequest (Demo.a_body "draft") [] (JStr "admin") (JNum 1)
                 (JStr "10.0.0.1") "5" 2000 in
  let r1 := run (Posts.delete_post
                   (Demo.env_over (Store.racing [(5%nat, DELETE_news (JNum 5))]))
                   admin)
              (Demo.db0, 0%nat) in
  let r2 := run (Client.delete_news (Store.racing [(11%nat, DELETE_news (JNum 5))])
                   (Demo.a_delete "5" JNull))
              (Demo.db0, 0%nat) in
  let r3 := run (Safe.delete_news (Store.racing [(17%nat, DELETE_news (JNum 5))])
                   (Demo.a_delete "5" JNull))
              (Demo.db0, 0%nat) in
  (snd r1 = inr (mkResponse 200 true "Post deleted successfully" Deleted)
   /\ In (DELETE_news (JNum 5), inr (mkResult [] 0)) (snd (fst r1))
   /\ In COMMIT (sent (snd (fst r1))))
  /\ (snd r2 = inr (mkResponse 200 true "Article permanently deleted"
                      (DeletedImages 0))
      /\ In (DELETE_news (JStr "5"), inr (mkResult [] 0)) (snd (fst r2))
      /\ In COMMIT (sent (snd (fst r2))))
  /\ (snd r3 = inr (mkResponse 500 false "Failed to delete news article" NoData)
      /\ In (DELETE_news (JStr "5"), inr (mkResult [] 0)) (snd (fst r3))
      /\ In ROLLBACK (sent (snd (fst r3)))).
Proof.
  intros admin r1 r2 r3.
  split; [|split];
    (split; [vm_compute; reflexivity|];
     split; vm_compute; repeat (first [left; reflexivity | right])).
Qed.

(** ** Bulk delete: one member at a time *)

(** The ids a bulk delete has reported so far. *)
Definition reported (r : results) : list jsval :=
  map d_id (succeeded r) ++ map f_id (failed r).

(** [r'] is [r] with one more entry, for [id], in one of the two lists. *)
Definition one_more (id : jsval) (r r' : results) : Prop :=
  (exists d, d_id d = id /\ succeeded r' = succeeded r ++ [d]
             /\ failed r' = failed r)
  \/ (exists f, f_id f = id /\ failed r' = failed r ++ [f]
                /\ succeeded r' = succeeded r).

(** A turn of the loop that always ends normally, with one more entry, and
    never sends a ROLLBACK. *)
Definition isolated {W} (item : jsval -> results -> M W results) : Prop :=
  forall id r,
    sends (fun q => q <> ROLLBACK) (item id r)
    /\ forall s, exists s' r', item id r s = (s', inr r') /\ one_more id r r'.

Lemma one_more_reported id r r' :
  one_more id r r' -> Permutation (reported r') (reported r ++ [id]).
Proof.
  unfold reported.
  intros [(d & <- & -> & ->) | (f & <- & -> & ->)]; rewrite map_app; simpl.
  - rewrite <- !app_assoc. apply Permutation_app_head, Permutation_app_comm.
  - now rewrite <- !app_assoc.
Qed.

Lemma one_more_success id r t n : one_more id r (push_success r (mkDeleted id t n)).
Proof. left. now exists (mkDeleted id t n). Qed.

Lemma one_more_failed id r e : one_more id r (push_failed r (mkFailed id e)).
Proof. right. now exists (mkFailed id e). Qed.

Lemma one_more_images id r r' n :
  one_more id (add_images r n) r' -> one_more id r r'.
Proof. exact (fun H => H). Qed.

Section Loop.
Context {W : Type} (item : jsval -> results -> M W results).
Hypothesis item_isolated : isolated item.

Lemma bulk_loop_sends : forall ids r,
  sends (fun q => q <> ROLLBACK) (bulk_loop item ids r).
Proof.
  induction ids as [|i ids IH]; intros r; simpl.
  - apply sends_ret.
  - apply sends_bind; [apply item_isolated | intros; apply IH].
Qed.

Lemma bulk_loop_reports : forall ids r s,
  exists s' r',
    bulk_loop item ids r s = (s', inr r')
    /\ Permutation (reported r') (reported r ++ ids).
Proof.
  induction ids as [|i ids IH]; intros r s; simpl.
  - exists s, r. split; [reflexivity | now rewrite app_nil_r].
  - destruct (item_isolated i r) as [_ Hi].
    destruct (Hi s) as (s1 & r1 & H1 & Hone).
    destruct (IH r1 s1) as (s' & r' & H' & Hp).
    exists s', r'. split.
    + unfold bind. now rewrite H1.
    + rewrite Hp. rewrite (one_more_reported Hone).
      now rewrite <- app_assoc.
Qed.

End Loop.

Section Items.
Context {W : Type} (pg : client W).

Lemma safe_item_isolated : isolated (Safe.bulk_item pg).
Proof.
  intros id r. split.
  - unfold Safe.bulk_item, title_of.
    repeat first [ apply sends_safeDelete_all; discriminate
                 | apply sends_query; discriminate
                 | sends_step ].
  - intros s. unfold Safe.bulk_item, try_catch.
    destruct (bind (query pg (SELECT_news id)) _ s) as [s1 [e|r1]] eqn:E.
    + eexists _, _. split; [reflexivity | apply one_more_failed].
    + exists s1, r1. split; [reflexivity|].
      inv_bind E. destruct (rows a) as [|article more].
      * apply ret_inv in E. destruct E as [_ E]. inversion E.
        apply one_more_failed.
      * inv_bind E. inv_bind E. destruct (0 <? rowCount a1)%nat.
        -- inv_bind E. apply ret_inv in E. destruct E as [_ E]. inversion E.
           apply one_more_success.
        -- apply ret_inv in E. destruct E as [_ E]. inversion E.
           apply one_more_failed.
Qed.

Lemma sends_delete_all P newsId ts :
  (forall t, P (DELETE_FROM t newsId)) ->
  sends P (Explicit.delete_all pg ts newsId).
Proof.
  intros H. unfold Explicit.delete_all. apply sends_for_each. intros t.
  apply sends_bind; [apply sends_query; apply H | intros; apply sends_ret].
Qed.

Lemma sends_deleteCloudflareImages P newsId :
  P (SELECT_image_urls newsId) -> P (SELECT_main_image newsId) ->
  sends P (Client.deleteCloudflareImages pg newsId).
Proof.
  intros H1 H2. unfold Client.deleteCloudflareImages.
  repeat first [ apply sends_query; assumption | sends_step ].
Qed.

Lemma deleteCloudflareImages_total newsId s :
  exists s' n, Client.deleteCloudflareImages pg newsId s = (s', inr n).
Proof.
  unfold Client.deleteCloudflareImages, try_catch.
  match goal with
  | |- context [match ?x with _ => _ end] => destruct x as [s1 [e|n]]
  end; [unfold ret|]; eauto.
Qed.

Lemma client_item_isolated : isolated (Client.bulk_item pg).
Proof.
  intros id r. split.
  - unfold Client.bulk_item, title_of.
    repeat first [ apply sends_delete_all; discriminate
                 | apply sends_deleteCloudflareImages; discriminate
                 | apply sends_query; discriminate
                 | sends_step ].
  - intros s. unfold Client.bulk_item. unfold try_catch at 1.
    destruct (bind (query pg (SELECT_news id)) _ s) as [s1 [e|r1]] eqn:E.
    + eexists _, _. split; [reflexivity | apply one_more_failed].
    + exists s1, r1. split; [reflexivity|].
      inv_bind E. destruct (rows a) as [|article more].
      * apply ret_inv in E. destruct E as [_ E]. inversion E.
        apply one_more_failed.
      * inv_bind E. unfold try_catch in E.
        destruct (bind (Explicit.delete_all pg Client.dependents id) _ s2)
          as [s3 [e|r3]] eqn:E3.
        -- apply ret_inv in E. destruct E as [_ E]. inversion E.
           apply (@one_more_images id r _ a0), one_more_failed.
        -- inversion E; subst. inv_bind E3. inv_bind E3. inv_bind E3.
           apply ret_inv in E3. destruct E3 as [_ E3]. inversion E3.
           apply (@one_more_images id r _ a0), one_more_success.
Qed.

Lemma logAdminActivity_total a act tt' ti d i s :
  exists s', logAdminActivity pg a act tt' ti d i s = (s', inr tt).
Proof.
  unfold logAdminActivity, try_catch, bind, ret.
  destruct (query pg _ s) as [s1 [e|r]]; eauto.
Qed.

End Items.

(** A bulk route isolates the failures of its members: whatever the
    database answers to the statements of the members, as long as BEGIN
    and COMMIT go through, the route answers 200, every submitted id is
    reported once, in results.success or in results.failed, and no
    ROLLBACK is sent. *)
Definition isolates_failures
    (bulk : forall W, client W -> request -> M W response) : Prop :=
  forall W (pg : client W) req i ids w,
    news_ids req = JArr (i :: ids) ->
    (forall w, exists r, snd (pg BEGIN w) = inr r) ->
    (forall w, exists r, snd (pg COMMIT w) = inr r) ->
    exists s' succ fail n,
      run (bulk W pg req) w
      = (s', inr (mkResponse 200 true (bulk_message succ fail)
                    (BulkResults succ fail n)))
      /\ Permutation (map d_id succ ++ map f_id fail) (i :: ids)
      /\ ~ In ROLLBACK (sent (snd s')).

Lemma query_ok {W} (pg : client W) q s :
  (forall w, exists r, snd (pg q w) = inr r) ->
  exists s' r, query pg q s = (s', inr r).
Proof.
  intros H. unfold query. destruct (H (fst s)) as [r Hr].
  destruct (pg q (fst s)) as [w' x]. simpl in Hr. subst x. eauto.
Qed.

Lemma no_rollback_sent {W A} (m : M W A) w s' r :
  sends (fun q => q <> ROLLBACK) m -> run m w = (s', r) ->
  ~ In ROLLBACK (sent (snd s')).
Proof.
  intros Hm H. destruct (Hm _ _ _ H) as (l & -> & Hl). simpl.
  intros Hin. rewrite Forall_forall in Hl. exact (Hl _ Hin eq_refl).
Qed.

Lemma safe_bulk_isolates : isolates_failures (@Safe.bulk_delete).
Proof.
  intros W pg req i ids w Hids Hbegin Hcommit.
  destruct (query_ok pg BEGIN (w, []) Hbegin) as (s1 & r1 & H1).
  destruct (bulk_loop_reports (safe_item_isolated pg) (i :: ids) no_results s1)
    as (s2 & r2 & H2 & Hp).
  destruct (logAdminActivity_total pg (adminId req) "bulk_delete" "news" JNull
              (template [JStr "Bulk deleted ";
                         JNum (Z.of_nat (List.length (succeeded r2)));
                         JStr " articles"])
              (ip_of req) s2) as (s3 & H3).
  destruct (query_ok pg COMMIT s3 Hcommit) as (s4 & r4 & H4).
  set (body :=
    bind (query pg BEGIN) (fun _ =>
      bind (bulk_loop (Safe.bulk_item pg) (i :: ids) no_results) (fun r =>
        bind (logAdminActivity pg (adminId req) "bulk_delete" "news" JNull
                (template [JStr "Bulk deleted ";
                           JNum (Z.of_nat (List.length (succeeded r)));
                           JStr " articles"])
                (ip_of req)) (fun _ =>
          bind (query pg COMMIT) (fun _ =>
            respond 200 true (bulk_message (succeeded r) (failed r))
              (BulkResults (succeeded r) (failed r) None)))))).
  assert (Hbody : body (w, [])
                  = (s4, inr (mkResponse 200 true
                                (bulk_message (succeeded r2) (failed r2))
                                (BulkResults (succeeded r2) (failed r2) None)))).
  { unfold body, bind. rewrite H1, H2, H3, H4. reflexivity. }
  exists s4, (succeeded r2), (failed r2), None. split; [|split].
  - unfold run, Safe.bulk_delete, try_catch. rewrite Hids.
    fold body. now rewrite Hbody.
  - exact Hp.
  - eapply (@no_rollback_sent _ _ body w s4); [|exact Hbody].
    unfold body.
    repeat first [ apply bulk_loop_sends; apply safe_item_isolated
                 | apply sends_logAdminActivity; discriminate
                 | apply sends_query; discriminate
                 | sends_step ].
Qed.

Lemma client_bulk_isolates : isolates_failures (@Client.bulk_delete).
Proof.
  intros W pg req i ids w Hids Hbegin Hcommit.
  destruct (query_ok pg BEGIN (w, []) Hbegin) as (s1 & r1 & H1).
  destruct (bulk_loop_reports (client_item_isolated pg) (i :: ids) no_results s1)
    as (s2 & r2 & H2 & Hp).
  destruct (logAdminActivity_total pg (adminId req) "bulk_delete" "news" JNull
              (template [JStr "Bulk deleted ";
                         JNum (Z.of_nat (List.length (succeeded r2)));
                         JStr " articles (";
                         JNum (Z.of_nat (totalDeletedImages r2));
                         JStr " images removed from Cloudflare)"])
              (ip_of req) s2) as (s3 & H3).
  destruct (query_ok pg COMMIT s3 Hcommit) as (s4 & r4 & H4).
  set (body :=
    bind (query pg BEGIN) (fun _ =>
      bind (bulk_loop (Client.bulk_item pg) (i :: ids) no_results) (fun r =>
        bind (logAdminActivity pg (adminId req) "bulk_delete" "news" JNull
                (template [JStr "Bulk deleted ";
                           JNum (Z.of_nat (List.length (succeeded r)));
                           JStr " articles (";
                           JNum (Z.of_nat (totalDeletedImages r));
                           JStr " images removed from Cloudflare)"])
                (ip_of req)) (fun _ =>
          bind (query pg COMMIT) (fun _ =>
            respond 200 true (bulk_message (succeeded r) (failed r))
              (BulkResults (succeeded r) (failed r)
                 (Some (totalDeletedImages r)))))))).
  assert (Hbody : body (w, [])
                  = (s4, inr (mkResponse 200 true
                                (bulk_message (succeeded r2) (failed r2))
                                (BulkResults (succeeded r2) (failed r2)
                                   (Some (totalDeletedImages r2)))))).
  { unfold body, bind. rewrite H1, H2, H3, H4. reflexivity. }
  exists s4, (succeeded r2), (failed r2), (Some (totalDeletedImages r2)).
  split; [|split].
  - unfold run, Client.bulk_delete, try_catch. rewrite Hids.
    fold body. now rewrite Hbody.
  - exact Hp.
  - eapply (@no_rollback_sent _ _ body w s4); [|exact Hbody].
    unfold body.
    repeat first [ apply bulk_loop_sends; apply client_item_isolated
                 | apply sends_logAdminActivity; discriminate
                 | apply sends_query; discriminate
                 | sends_step ].
Qed.

(** ** Bulk delete on the reference database *)

Section OnStore.
Import Store.

Definition present (n : Z) (d : db) : bool :=
  existsb (is_article (Some n)) (news (live d)).

Definition without (n : Z) (ns : list article) : list article :=
  filter (fun a => negb (is_article (Some n) a)) ns.

Lemma present_In n d : present n d = true <-> In n (map news_id (news (live d))).
Proof.
  unfold present. rewrite existsb_exists, in_map_iff. split.
  - intros (a & Ha & Hn). exists a. split; [|exact Ha].
    unfold is_article, same in Hn. apply Z.eqb_eq in Hn. now symmetry.
  - intros (a & Hn & Ha). exists a. split; [exact Ha|].
    unfold is_article, same. now apply Z.eqb_eq.
Qed.

Lemma absent_without n ns :
  existsb (is_article (Some n)) ns = false -> without n ns = ns.
Proof.
  unfold without.
  induction ns as [|a ns IH]; cbn [filter existsb]; [reflexivity|].
  intros H. apply orb_false_iff in H. destruct H as [Ha Hns].
  rewrite Ha. cbn [negb]. now rewrite IH.
Qed.

Lemma present_without m n ns :
  m <> n ->
  existsb (is_article (Some m)) (without n ns) = existsb (is_article (Some m)) ns.
Proof.
  intros Hmn. unfold without.
  induction ns as [|a ns IH]; cbn [filter existsb]; [reflexivity|].
  destruct (is_article (Some n) a) eqn:Hn; cbn [negb existsb].
  - rewrite IH. unfold is_article, same in Hn. apply Z.eqb_eq in Hn.
    replace (is_article (Some m) a) with false; [reflexivity|].
    symmetry. unfold is_article, same. apply Z.eqb_neq. congruence.
  - now rewrite IH.
Qed.

(** The existence check. *)
Lemma select_on_store n (s : db * trace) :
  exists s1,
    query step (SELECT_news (JNum n)) s
    = (s1,
       inr (mkResult (map row_of (filter (is_article (Some n)) (news (live (fst s)))))
              (List.length (filter (is_article (Some n)) (news (live (fst s)))))))
    /\ saved (fst s1) = saved (fst s)
    /\ live (fst s1) = live (fst s).
Proof. destruct s as [d tr]. eexists. repeat split. Qed.

(** The root delete. *)
Lemma delete_news_on_store n (s : db * trace) :
  exists d' tr,
    query step (DELETE_news (JNum n)) s
    = ((d', tr),
       inr (mkResult [] (List.length (filter (is_article (Some n))
                                         (news (live (fst s)))))))
    /\ saved d' = saved (fst s)
    /\ news (live d') = without n (news (live (fst s))).
Proof. destruct s as [d tr]. eexists _, _. repeat split. Qed.

Lemma delete_from_news t k ts : news (fst (delete_from t k ts)) = news ts.
Proof. destruct t; reflexivity. Qed.

(** A delete from a dependent table leaves the articles alone. *)
Lemma delete_dependent_on_store t n (s : db * trace) :
  exists d' tr m,
    query step (DELETE_FROM t (JNum n)) s = ((d', tr), inr (mkResult [] m))
    /\ saved d' = saved (fst s)
    /\ news (live d') = news (live (fst s)).
Proof.
  destruct s as [d tr]. unfold query, step, exec. cbn [fst snd as_id].
  destruct (delete_from t (Some n) (live d)) as [ts' m] eqn:E.
  eexists _, _, _. split; [reflexivity|]. split; [reflexivity|].
  cbn [live]. change ts' with (fst (ts', m)). rewrite <- E.
  apply delete_from_news.
Qed.

Lemma safeDelete_all_on_store n : forall ts acc (s : db * trace),
  exists s' m,
    Safe.safeDelete_all step ts (JNum n) acc s = (s', inr m)
    /\ saved (fst s') = saved (fst s)
    /\ news (live (fst s')) = news (live (fst s)).
Proof.
  induction ts as [|t ts IH]; intros acc s; cbn [Safe.safeDelete_all].
  - exists s, acc. repeat split.
  - destruct (delete_dependent_on_store t n s) as (d1 & tr1 & m1 & H1 & Hs1 & Hn1).
    destruct (IH (acc + m1)%nat (d1, tr1)) as (s' & m & H & Hs & Hn).
    exists s', m. split; [|split].
    + unfold bind at 1. unfold Safe.safeDelete, try_catch, bind. rewrite H1.
      exact H.
    + now rewrite Hs.
    + now rewrite Hn.
Qed.

Lemma delete_all_on_store n : forall ts (s : db * trace),
  exists s',
    Explicit.delete_all step ts (JNum n) s = (s', inr tt)
    /\ saved (fst s') = saved (fst s)
    /\ news (live (fst s')) = news (live (fst s)).
Proof.
  unfold Explicit.delete_all.
  induction ts as [|t ts IH]; intros s; cbn [for_each].
  - exists s. repeat split.
  - destruct (delete_dependent_on_store t n s) as (d1 & tr1 & m1 & H1 & Hs1 & Hn1).
    destruct (IH (d1, tr1)) as (s' & H & Hs & Hn).
    exists s'. split; [|split].
    + unfold bind at 1. unfold bind at 1. rewrite H1. exact H.
    + now rewrite Hs.
    + now rewrite Hn.
Qed.

(** The two lookups before the remote images are removed change nothing. *)
Lemma deleteCloudflareImages_on_store n (s : db * trace) :
  exists s1 m,
    Client.deleteCloudflareImages step (JNum n) s = (s1, inr m)
    /\ saved (fst s1) = saved (fst s)
    /\ live (fst s1) = live (fst s).
Proof.
  destruct s as [d tr].
  unfold Client.deleteCloudflareImages, try_catch, bind, query, step, exec, lift, ret, ok.
  cbn [fst snd as_id live saved clock rows].
  destruct (match map _ _ with [] => _ | _ => _ end) as [e|b];
    [eexists _, _; repeat split|].
  destruct (Client.count_urls _) as [e|k]; eexists _, _; repeat split.
Qed.

Lemma title_of_row a (s : db * trace) :
  title_of (row_of a) s = (s, inr (JStr (n_title (cols a)))).
Proof. reflexivity. Qed.

(** A turn of the loop on the reference database: an article that is there
    is removed and reported in results.success, one that is not is
    reported in results.failed as not found; the transaction stays open. *)
Definition deletes_member (item : jsval -> results -> M db results) : Prop :=
  forall n r s,
    exists s' r',
      item (JNum n) r s = (s', inr r')
      /\ saved (fst s') = saved (fst s)
      /\ news (live (fst s')) = without n (news (live (fst s)))
      /\ (if present n (fst s)
          then exists d, d_id d = JNum n /\ succeeded r' = succeeded r ++ [d]
                         /\ failed r' = failed r
          else succeeded r' = succeeded r
               /\ failed r' = failed r ++ [mkFailed (JNum n) "Not found"]).

Lemma hit_present n d a more :
  filter (is_article (Some n)) (news (live d)) = a :: more -> present n d = true.
Proof.
  intros H. unfold present. apply existsb_exists. exists a.
  assert (Hin : In a (filter (is_article (Some n)) (news (live d)))).
  { rewrite H. now left. }
  apply filter_In in Hin. exact Hin.
Qed.

Lemma no_hit_absent n d :
  filter (is_article (Some n)) (news (live d)) = [] -> present n d = false.
Proof.
  intros H. unfold present. destruct (existsb _ _) eqn:E; [|reflexivity].
  apply existsb_exists in E. destruct E as (a & Ha & Hn).
  assert (Hin : In a (filter (is_article (Some n)) (news (live d)))).
  { apply filter_In. now split. }
  rewrite H in Hin. contradiction.
Qed.

Lemma safe_item_deletes : deletes_member (Safe.bulk_item step).
Proof.
  intros n r s. unfold Safe.bulk_item, try_catch.
  destruct (select_on_store n s) as (s1 & H1 & Hs1 & Hl1).
  unfold bind at 1. rewrite H1. cbn [rows].
  destruct (filter (is_article (Some n)) (news (live (fst s)))) as [|a more] eqn:Hhit.
  - cbn [map]. unfold ret. eexists _, _. split; [reflexivity|].
    rewrite (no_hit_absent _ _ Hhit). cbn [fst].
    split; [exact Hs1|]. split; [|split; reflexivity].
    rewrite Hl1. symmetry. apply absent_without. exact (no_hit_absent _ _ Hhit).
  - cbn [map].
    destruct (safeDelete_all_on_store n Safe.dependents 0 s1)
      as (s2 & m & H2 & Hs2 & Hn2).
    destruct (delete_news_on_store n s2) as (d3 & tr3 & H3 & Hs3 & Hn3).
    unfold bind at 1. rewrite H2. unfold bind at 1. rewrite H3.
    cbn [rowCount]. rewrite Hn2, Hl1. rewrite Hhit.
    cbn [List.length Nat.ltb Nat.leb].
    unfold bind. rewrite title_of_row. unfold ret.
    eexists _, _. split; [reflexivity|]. cbn [fst].
    rewrite (hit_present _ _ Hhit).
    split; [now rewrite Hs3, Hs2|]. split; [now rewrite Hn3, Hn2, Hl1|].
    eexists. split; [|split; reflexivity]. reflexivity.
Qed.

Lemma client_item_deletes : deletes_member (Client.bulk_item step).
Proof.
  intros n r s. unfold Client.bulk_item. unfold try_catch at 1.
  destruct (select_on_store n s) as (s1 & H1 & Hs1 & Hl1).
  unfold bind at 1. rewrite H1. cbn [rows].
  destruct (filter (is_article (Some n)) (news (live (fst s)))) as [|a more] eqn:Hhit.
  - cbn [map]. unfold ret. eexists _, _. split; [reflexivity|].
    rewrite (no_hit_absent _ _ Hhit). cbn [fst].
    split; [exact Hs1|]. split; [|split; reflexivity].
    rewrite Hl1. symmetry. apply absent_without. exact (no_hit_absent _ _ Hhit).
  - cbn [map].
    destruct (deleteCloudflareImages_on_store n s1) as (s2 & m & H2 & Hs2 & Hl2).
    destruct (delete_all_on_store n Client.dependents s2)
      as (s3 & H3 & Hs3 & Hn3).
    destruct (delete_news_on_store n s3) as (d4 & tr4 & H4 & Hs4 & Hn4).
    unfold bind at 1. rewrite H2. cbn [fst]. unfold try_catch.
    unfold bind at 1. rewrite H3. unfold bind at 1. rewrite H4.
    unfold bind. rewrite title_of_row. unfold ret.
    eexists _, _. split; [reflexivity|]. cbn [fst].
    rewrite (hit_present _ _ Hhit).
    split; [now rewrite Hs4, Hs3, Hs2|]. split; [now rewrite Hn4, Hn3, Hl2, Hl1|].
    eexists. split; [|split; reflexivity]. reflexivity.
Qed.

(** The articles whose id is none of [ids]. *)
Definition without_all (ids : list Z) (ns : list article) : list article :=
  filter (fun a => negb (existsb (fun n => is_article (Some n) a) ids)) ns.

Lemma without_all_cons n ids ns :
  without_all ids (without n ns) = without_all (n :: ids) ns.
Proof.
  unfold without_all, without.
  induction ns as [|a ns IH]; cbn [filter existsb]; [reflexivity|].
  destruct (is_article (Some n) a); cbn [negb orb filter]; [exact IH|].
  destruct (existsb _ ids); cbn [negb]; [exact IH | now rewrite IH].
Qed.

Lemma bulk_loop_on_store item :
  deletes_member item ->
  forall ids r s,
    exists s' r',
      bulk_loop item (map JNum ids) r s = (s', inr r')
      /\ saved (fst s') = saved (fst s)
      /\ news (live (fst s')) = without_all ids (news (live (fst s)))
      /\ (forall n, In n ids -> present n (fst s) = true ->
                    In (JNum n) (map d_id (succeeded r')))
      /\ (forall n, In n ids -> present n (fst s) = false ->
                    In (mkFailed (JNum n) "Not found") (failed r'))
      /\ (forall x, In x (succeeded r) -> In x (succeeded r'))
      /\ (forall x, In x (failed r) -> In x (failed r')).
Proof.
  intros Hitem. induction ids as [|n ids IH]; intros r s; cbn [map bulk_loop].
  - exists s, r. split; [reflexivity|]. split; [reflexivity|].
    split; [|repeat split; auto; contradiction].
    unfold without_all. cbn [existsb negb]. clear.
    induction (news (live (fst s))) as [|a l IHl]; cbn [filter]; congruence.
  - destruct (Hitem n r s) as (s1 & r1 & H1 & Hs1 & Hn1 & Hres).
    destruct (IH r1 s1) as (s' & r' & H' & Hs' & Hn' & Hok & Hko & Hms & Hmf).
    exists s', r'. split; [unfold bind; now rewrite H1|].
    split; [now rewrite Hs'|].
    split; [rewrite Hn', Hn1; apply without_all_cons|].
    assert (Hr1s : forall x, In x (succeeded r) -> In x (succeeded r1)).
    { intros x Hx. destruct (present n (fst s)).
      - destruct Hres as (d & _ & -> & _). apply in_or_app. now left.
      - destruct Hres as [-> _]. exact Hx. }
    assert (Hr1f : forall x, In x (failed r) -> In x (failed r1)).
    { intros x Hx. destruct (present n (fst s)).
      - destruct Hres as (d & _ & _ & ->). exact Hx.
      - destruct Hres as [_ ->]. apply in_or_app. now left. }
    split; [|split; [|split; auto]].
    + intros m Hm Hpres. destruct (Z.eq_dec m n) as [->|Hne].
      * rewrite Hpres in Hres. destruct Hres as (d & Hd & Hsucc & _).
        apply in_map_iff. exists d. split; [exact Hd|].
        apply Hms. rewrite Hsucc. apply in_or_app. right. now left.
      * destruct Hm as [Hm|Hm]; [congruence|].
        apply Hok; [exact Hm|]. unfold present in *. rewrite Hn1.
        now rewrite present_without.
    + intros m Hm Hpres. destruct (Z.eq_dec m n) as [->|Hne].
      * rewrite Hpres in Hres. destruct Hres as [_ Hfail].
        apply Hmf. rewrite Hfail. apply in_or_app. right. now left.
      * destruct Hm as [Hm|Hm]; [congruence|].
        apply Hko; [exact Hm|]. unfold present in *. rewrite Hn1.
        now rewrite present_without.
Qed.

(** A bulk route on the reference database: it answers 200 and commits;
    every submitted id that has an article is in results.success and its
    article is gone; every submitted id that has none is in results.failed
    as not found; the other articles are as they were. *)
Definition keeps_siblings (bulk : client db -> request -> M db response) : Prop :=
  forall ts NOW ids req,
    ids <> [] ->
    news_ids req = JArr (map JNum ids) ->
    exists s' succ fail x,
      run (bulk step req) (at_rest ts NOW)
      = (s', inr (mkResponse 200 true (bulk_message succ fail)
                    (BulkResults succ fail x)))
      /\ saved (fst s') = None
      /\ news (live (fst s')) = without_all ids (news ts)
      /\ (forall n, In n ids -> In n (map news_id (news ts)) ->
                    In (JNum n) (map d_id succ))
      /\ (forall n, In n ids -> ~ In n (map news_id (news ts)) ->
                    In (mkFailed (JNum n) "Not found") fail).

Lemma log_on_store a act tt' ti d i (s : db * trace) :
  exists s',
    logAdminActivity step a act tt' ti d i s = (s', inr tt)
    /\ saved (fst s') = saved (fst s)
    /\ news (live (fst s')) = news (live (fst s)).
Proof. destruct s as [db0 tr]. eexists. repeat split. Qed.

Lemma commit_on_store (s : db * trace) :
  exists s' r,
    query step COMMIT s = (s', inr r)
    /\ saved (fst s') = None
    /\ news (live (fst s')) = news (live (fst s)).
Proof. destruct s as [db0 tr]. eexists _, _. repeat split. Qed.

Lemma absent_not_In n d :
  ~ In n (map news_id (news (live d))) -> present n d = false.
Proof.
  intros H. destruct (present n d) eqn:E; [|reflexivity].
  apply present_In in E. contradiction.
Qed.

Lemma safe_bulk_keeps : keeps_siblings Safe.bulk_delete.
Proof.
  intros ts NOW ids req Hne Hids.
  destruct ids as [|i0 ids0]; [contradiction|].
  set (s1 := (mkDb ts (Some ts) NOW, [(BEGIN, ok [] 0)]) : db * trace).
  destruct (bulk_loop_on_store safe_item_deletes (i0 :: ids0) no_results s1)
    as (s2 & r2 & H2 & Hs2 & Hn2 & Hok & Hko & _ & _).
  destruct (log_on_store (adminId req) "bulk_delete" "news" JNull
              (template [JStr "Bulk deleted ";
                         JNum (Z.of_nat (List.length (succeeded r2)));
                         JStr " articles"])
              (ip_of req) s2) as (s3 & H3 & Hs3 & Hn3).
  destruct (commit_on_store s3) as (s4 & r4 & H4 & Hs4 & Hn4).
  exists s4, (succeeded r2), (failed r2), None. split; [|split; [|split; [|split]]].
  - unfold run, Safe.bulk_delete, try_catch. rewrite Hids. cbn [map].
    unfold bind at 1. change (query step BEGIN (at_rest ts NOW, []))
      with (s1, @inr string qresult (mkResult [] 0)).
    cbn [map] in H2. unfold bind at 1. rewrite H2.
    unfold bind at 1. rewrite H3. unfold bind at 1. rewrite H4. reflexivity.
  - exact Hs4.
  - now rewrite Hn4, Hn3, Hn2.
  - intros n Hn Hin. apply Hok; [exact Hn|]. now apply present_In.
  - intros n Hn Hin. apply Hko; [exact Hn|]. now apply absent_not_In.
Qed.

Lemma client_bulk_keeps : keeps_siblings Client.bulk_delete.
Proof.
  intros ts NOW ids req Hne Hids.
  destruct ids as [|i0 ids0]; [contradiction|].
  set (s1 := (mkDb ts (Some ts) NOW, [(BEGIN, ok [] 0)]) : db * trace).
  destruct (bulk_loop_on_store client_item_deletes (i0 :: ids0) no_results s1)
    as (s2 & r2 & H2 & Hs2 & Hn2 & Hok & Hko & _ & _).
  destruct (log_on_store (adminId req) "bulk_delete" "news" JNull
              (template [JStr "Bulk deleted ";
                         JNum (Z.of_nat (List.length (succeeded r2)));
                         JStr " articles (";
                         JNum (Z.of_nat (totalDeletedImages r2));
                         JStr " images removed from Cloudflare)"])
              (ip_of req) s2) as (s3 & H3 & Hs3 & Hn3).
  destruct (commit_on_store s3) as (s4 & r4 & H4 & Hs4 & Hn4).
  exists s4, (succeeded r2), (failed r2), (Some (totalDeletedImages r2)).
  split; [|split; [|split; [|split]]].
  - unfold run, Client.bulk_delete, try_catch. rewrite Hids. cbn [map].
    unfold bind at 1. change (query step BEGIN (at_rest ts NOW, []))
      with (s1, @inr string qresult (mkResult [] 0)).
    cbn [map] in H2. unfold bind at 1. rewrite H2.
    unfold bind at 1. rewrite H3. unfold bind at 1. rewrite H4. reflexivity.
  - exact Hs4.
  - now rewrite Hn4, Hn3, Hn2.
  - intros n Hn Hin. apply Hok; [exact Hn|]. now apply present_In.
  - intros n Hn Hin. apply Hko; [exact Hn|]. now apply absent_not_In.
Qed.

End OnStore.



End DeleterClaims.

(* ===================================================================== *)
(** * Quote extraction: order and offsets *)
(* ===================================================================== *)

Module FormatterClaims.
Import Formatter FormatterFacts.

(** A quote block of [raw] that starts at the offset of [q] and whose
    trimmed content is the text of [q]. *)
Definition quote_block (raw : string) (q : quote) : Prop :=
  exists pre attr body post : string,
    raw = (pre ++ "[QUOTE" ++ attr ++ "]" ++ body ++ "[/QUOTE]" ++ post)%string
    /\ position q = String.length pre
    /\ text q = trim body.

Lemma block_at_quote_block raw q :
  block_at (chars raw) q -> quote_block raw q.
Proof.
  intros (pre & attr & body & post & Hraw & Hpos & Htext).
  exists (string_of_list_ascii pre), (string_of_list_ascii attr),
    (string_of_list_ascii body), (string_of_list_ascii post).
  split; [|split].
  - rewrite <- (of_list_chars raw), Hraw.
    now rewrite !of_list_app, !of_list_chars.
  - rewrite Hpos, <- chars_length. now rewrite chars_of_list.
  - rewrite Htext. unfold trim. fold (chars (string_of_list_ascii body)).
    now rewrite chars_of_list.
Qed.



End FormatterClaims.

(* ===================================================================== *)
(** * The surfaces: trending score and page size *)
(* ===================================================================== *)

Module SurfaceClaims.
Import Surface.

Local Open Scope Q_scope.

Lemma sql_lt_spec h k : sql_lt (Some h) k = if Qlt_le_dec h k then true else false.
Proof.
  unfold sql_lt. destruct (Qlt_le_dec h k) as [Hlt | Hle].
  - destruct (Qle_bool k h) eqn:E; [|reflexivity].
    apply Qle_bool_iff in E. exfalso. exact (Qlt_not_le _ _ Hlt E).
  - apply Qle_bool_iff in Hle. now rewrite Hle.
Qed.

(** The CASE of the queries is the decay of the design document. *)
Lemma decay_case_spec h : decay_case (Some h) = spec_decay h.
Proof.
  unfold decay_case, spec_decay. rewrite !sql_lt_spec.
  repeat match goal with
         | |- context [Qlt_le_dec ?a ?b] => destruct (Qlt_le_dec a b)
         end; reflexivity.
Qed.

Lemma dec_compat {A} h h' k (a b : A) :
  h == h' ->
  (if Qlt_le_dec h k then a else b) = (if Qlt_le_dec h' k then a else b).
Proof.
  intros Heq.
  destruct (Qlt_le_dec h k) as [H|H], (Qlt_le_dec h' k) as [H'|H'];
    try reflexivity; exfalso; rewrite Heq in H; exact (Qlt_not_le _ _ ltac:(eassumption) ltac:(eassumption)).
Qed.

Lemma spec_decay_compat h h' : h == h' -> spec_decay h = spec_decay h'.
Proof.
  intros Heq. unfold spec_decay.
  do 6 rewrite (@dec_compat _ h h' _ _ _ Heq). reflexivity.
Qed.

(** C5. Trending score. For an article with a publication time, the score
    column of the breaking query and of the pinned query is the weighted
    sum of the counters (a NULL counter counting 0) times the decay of the
    age in hours, as the design document defines them; and of two articles
    with the same counters, one published half an hour ago and one thirty
    hours ago, the first scores three times the weighted sum and the
    second half of it, so the younger one is not below the older one, and
    is above it when the weighted sum is positive. *)
Theorem trending_score_formula (now : Q) (young old : news_row) (py po : Q) :
  published_at young = Some py ->
  published_at old = Some po ->
  let score_of := fun n p =>
    spec_score (coalesce0 (views n)) (coalesce0 (likes_count n))
      (coalesce0 (comments_count n)) (coalesce0 (share_count n))
      ((now - p) / 3600) in
  (breaking_trending_score now young = score_of young py
   /\ pinned_trending_score now young = score_of young py)
  /\ ((now - py) / 3600 == 1 # 2 ->
      (now - po) / 3600 == 30 ->
      weighted_counters young = weighted_counters old ->
      let e := inject_Z (weighted_counters young) in
      breaking_trending_score now young == e * 3
      /\ breaking_trending_score now old == e * (1 # 2)
      /\ (0 <= e -> breaking_trending_score now old <= breaking_trending_score now young)
      /\ (0 < e -> breaking_trending_score now old < breaking_trending_score now young)).
Proof.
  intros Hy Ho score_of.
  assert (Hb : forall n p, published_at n = Some p ->
                 breaking_trending_score now n = score_of n p).
  { intros n p Hp. unfold breaking_trending_score, score_of, spec_score, hours_ago.
    rewrite Hp, decay_case_spec. reflexivity. }
  split; [split; [now apply Hb | now apply (Hb young py)]|].
  intros Hhalf Hthirty Hsame e.
  assert (Hys : breaking_trending_score now young == e * 3).
  { rewrite (Hb _ _ Hy). unfold score_of, spec_score.
    rewrite (spec_decay_compat Hhalf).
    change (spec_decay (1 # 2)) with 3.0.
    fold (spec_engagement (coalesce0 (views young)) (coalesce0 (likes_count young))
            (coalesce0 (comments_count young)) (coalesce0 (share_count young))).
    change (spec_engagement (coalesce0 (views young)) (coalesce0 (likes_count young))
              (coalesce0 (comments_count young)) (coalesce0 (share_count young)))
      with (weighted_counters young).
    fold e. lra. }
  assert (Hos : breaking_trending_score now old == e * (1 # 2)).
  { rewrite (Hb _ _ Ho). unfold score_of, spec_score.
    rewrite (spec_decay_compat Hthirty).
    change (spec_decay 30) with 0.5.
    change (spec_engagement (coalesce0 (views old)) (coalesce0 (likes_count old))
              (coalesce0 (comments_count old)) (coalesce0 (share_count old)))
      with (weighted_counters old).
    rewrite <- Hsame. fold e. lra. }
  split; [exact Hys|]. split; [exact Hos|].
  rewrite Hys, Hos. split; intros Hpos; lra.
Qed.

(** Two articles with 10 views and 2 likes each, at time 200000. *)
Lemma trending_score_formula_witness :
  let young := mkNews (Some 10%Z) (Some 2%Z) None None (Some 198200) in
  let old := mkNews (Some 10%Z) (Some 2%Z) None None (Some 92000) in
  breaking_trending_score 200000 young == 60
  /\ breaking_trending_score 200000 old == 10
  /\ breaking_trending_score 200000 old < breaking_trending_score 200000 young.
Proof.
  intros young old.
  destruct (@trending_score_formula 200000 young old 198200 92000 eq_refl eq_refl)
    as [_ H].
  destruct H as (Hy & Ho & _ & Hlt);
    [reflexivity | reflexivity | reflexivity |].
  split; [rewrite Hy; reflexivity|]. split; [rewrite Ho; reflexivity|].
  apply Hlt. reflexivity.
Defined.

(** ** Page size *)

Local Close Scope Q_scope.

(** The page size for a limit that reads as a number: the default for an
    absent or empty parameter, the number clamped into 1 .. 100 for the
    rest. *)
Lemma limit_of_number (limit : qparam) (n : Z) :
  parseInt (or_default limit "50") 0 = Some n ->
  limit_of limit = Some (Z.min 100 (Z.max 1 n))
  /\ (limit = None \/ limit = Some "" -> limit_of limit = Some 50).
Proof.
  intros Hn. split.
  - unfold limit_of, Math_min, Math_max. now rewrite Hn.
  - intros [-> | ->]; reflexivity.
Qed.

(** C10, where it fails. For limit=abc the page size is NaN: that is what
    goes to the query as $1, with a NaN offset, and what a response built
    from the rows reports as per_page; when the query is rejected the
    route answers 500 and reports 50. A limit that reads as a number is
    clamped into 1 .. 100, and an absent one is 50. *)
Theorem limit_not_a_number (db : pool) :
  query_limit (Some "abc") = None
  /\ offset_of (page_of None) (limit_of (Some "abc")) = None
  /\ (forall total rows,
        db None None = Some (total, rows) ->
        status_code (surface db None (Some "abc")) = 200
        /\ per_page (page_info (surface db None (Some "abc"))) = None)
  /\ (db None None = None ->
      status_code (surface db None (Some "abc")) = 500
      /\ per_page (page_info (surface db None (Some "abc"))) = Some 50)
  /\ query_limit None = Some 50
  /\ query_limit (Some "0") = Some 1
  /\ query_limit (Some "250") = Some 100.
Proof.
  split; [reflexivity|]. split; [reflexivity|]. split; [|split].
  - intros total rows H. unfold surface.
    change (offset_of (page_of None) (limit_of (Some "abc"))) with (@None Z).
    change (limit_of (Some "abc")) with (@None Z).
    rewrite H. split; reflexivity.
  - intros H. unfold surface.
    change (offset_of (page_of None) (limit_of (Some "abc"))) with (@None Z).
    change (limit_of (Some "abc")) with (@None Z).
    rewrite H. split; reflexivity.
  - repeat split; reflexivity.
Qed.

End SurfaceClaims.
(* ===================================================================== *)
(** * The delete routers: transactions, refusals and what is removed *)
(* ===================================================================== *)

Module DeleterMore.
Import Deleter PgFacts TxnFacts.

Section AnyClient.
Context {W : Type} (pg : client W).

Lemma guarded_catch_answers (m : M W response) code b msg s :
  exists s' resp,
    try_catch m
      (fun error => bind (guarded_rollback pg)
                      (fun _ => respond code b msg (ErrorDetail error))) s
    = (s', inr resp).
Proof.
  unfold try_catch. destruct (m s) as [s1 [e|resp]]; [|eauto].
  unfold bind. destruct (guarded_rollback pg s1) as [s2 r] eqn:E.
  apply guarded_rollback_inv in E. destruct E as [-> _]. unfold respond, ret. eauto.
Qed.

Lemma closes_safe_delete req : closes 200 (Safe.delete_news pg req).
Proof.
  unfold Safe.delete_news, respond, title_of.
  apply closes_try_catch;
    [sends_data | | intros; apply aborts_guarded; discriminate].
  repeat closes_step.
Qed.

Lemma closes_cascade_delete req : closes 200 (Cascade.delete_news pg req).
Proof.
  unfold Cascade.delete_news, respond, title_of.
  apply closes_try_catch;
    [sends_data | | intros; apply aborts_guarded; discriminate].
  repeat closes_step.
Qed.

Lemma closes_explicit_delete req : closes 200 (Explicit.delete_news pg req).
Proof.
  unfold Explicit.delete_news, respond, title_of.
  apply closes_try_catch;
    [sends_data | | intros; apply aborts_guarded; discriminate].
  repeat closes_step.
Qed.

Lemma closes_client_delete req : closes 200 (Client.delete_news pg req).
Proof.
  unfold Client.delete_news, respond, title_of.
  apply closes_try_catch;
    [sends_data | | intros; apply aborts_guarded; discriminate].
  repeat closes_step.
Qed.

Lemma begins_safe_delete req : begins (Safe.delete_news pg req).
Proof.
  unfold Safe.delete_news, respond, title_of.
  apply begins_route; intros; sends_data.
Qed.

Lemma begins_cascade_delete req : begins (Cascade.delete_news pg req).
Proof.
  unfold Cascade.delete_news, respond, title_of.
  apply begins_route; intros; sends_data.
Qed.

Lemma begins_explicit_delete req : begins (Explicit.delete_news pg req).
Proof.
  unfold Explicit.delete_news, respond, title_of.
  apply begins_route; intros; sends_data.
Qed.

Lemma begins_client_delete req : begins (Client.delete_news pg req).
Proof.
  unfold Client.delete_news, respond, title_of.
  apply begins_route; intros; sends_data.
Qed.

End AnyClient.

(** A route that always answers, and answers after its transaction has
    ended: the first statement it sends is BEGIN, the last is COMMIT when
    it answers 200 and ROLLBACK when it answers anything else, and no
    ROLLBACK goes out before a COMMIT that is answered with 200. *)
Definition answers_in_transaction
    (route : forall W, client W -> request -> M W response) : Prop :=
  forall W (pg : client W) req w,
    exists s' resp mid,
      run (route W pg req) w = (s', inr resp)
      /\ sent (snd s') = BEGIN :: mid ++ [closing 200 resp]
      /\ (status_code resp = 200 -> ~ In ROLLBACK mid).

(** The four single-delete routes (the three routers of part_001 and
    routes/api/client.js) never let an error escape, whatever the
    database answers: they always respond, and they respond only after
    ending the transaction they opened, with COMMIT exactly when the
    answer is 200. *)
Theorem single_delete_answers_in_transaction :
  answers_in_transaction (@Safe.delete_news)
  /\ answers_in_transaction (@Cascade.delete_news)
  /\ answers_in_transaction (@Explicit.delete_news)
  /\ answers_in_transaction (@Client.delete_news).
Proof.
  split; [|split; [|split]]; intros W pg req w.
  - assert (H : exists s' resp, run (Safe.delete_news pg req) w = (s', inr resp))
      by (unfold run, Safe.delete_news; apply guarded_catch_answers).
    destruct H as (s' & resp & H). exists s', resp.
    pose proof H as Hrun.
    eapply begins_and_closes in H;
      [|apply begins_safe_delete | apply closes_safe_delete].
    destruct H as (mid & Hs & Hno).
    exists mid. split; [exact Hrun|]. split; [exact Hs | exact Hno].
  - assert (H : exists s' resp, run (Cascade.delete_news pg req) w = (s', inr resp))
      by (unfold run, Cascade.delete_news; apply guarded_catch_answers).
    destruct H as (s' & resp & H). exists s', resp.
    pose proof H as Hrun.
    eapply begins_and_closes in H;
      [|apply begins_cascade_delete | apply closes_cascade_delete].
    destruct H as (mid & Hs & Hno).
    exists mid. split; [exact Hrun|]. split; [exact Hs | exact Hno].
  - assert (H : exists s' resp, run (Explicit.delete_news pg req) w = (s', inr resp))
      by (unfold run, Explicit.delete_news; apply guarded_catch_answers).
    destruct H as (s' & resp & H). exists s', resp.
    pose proof H as Hrun.
    eapply begins_and_closes in H;
      [|apply begins_explicit_delete | apply closes_explicit_delete].
    destruct H as (mid & Hs & Hno).
    exists mid. split; [exact Hrun|]. split; [exact Hs | exact Hno].
  - assert (H : exists s' resp, run (Client.delete_news pg req) w = (s', inr resp))
      by (unfold run, Client.delete_news; apply guarded_catch_answers).
    destruct H as (s' & resp & H). exists s', resp.
    pose proof H as Hrun.
    eapply begins_and_closes in H;
      [|apply begins_client_delete | apply closes_client_delete].
    destruct H as (mid & Hs & Hno).
    exists mid. split; [exact Hrun|]. split; [exact Hs | exact Hno].
Qed.

(** ** The bulk routes *)

Section BulkAnyClient.
Context {W : Type} (pg : client W).

Lemma sends_safe_item P i r :
  (forall q, q <> ROLLBACK -> q <> BEGIN -> q <> COMMIT -> P q) ->
  sends P (Safe.bulk_item pg i r).
Proof.
  intros HP. unfold Safe.bulk_item, title_of.
  repeat first
    [ apply sends_safeDelete_every; intros; apply HP; discriminate
    | apply sends_query; apply HP; discriminate
    | sends_step ].
Qed.

Lemma sends_cascade_item P i r :
  (forall q, q <> ROLLBACK -> q <> BEGIN -> q <> COMMIT -> P q) ->
  sends P (Cascade.bulk_item pg i r).
Proof.
  intros HP. unfold Cascade.bulk_item, title_of.
  repeat first
    [ apply sends_query; apply HP; discriminate
    | sends_step ].
Qed.

Lemma sends_explicit_item P i r :
  (forall q, q <> ROLLBACK -> q <> BEGIN -> q <> COMMIT -> P q) ->
  sends P (Explicit.bulk_item pg i r).
Proof.
  intros HP. unfold Explicit.bulk_item, title_of.
  repeat first
    [ apply sends_delete_every; intros; apply HP; discriminate
    | apply sends_query; apply HP; discriminate
    | sends_step ].
Qed.

Lemma sends_client_item P i r :
  (forall q, q <> ROLLBACK -> q <> BEGIN -> q <> COMMIT -> P q) ->
  sends P (Client.bulk_item pg i r).
Proof.
  intros HP. unfold Client.bulk_item, title_of.
  repeat first
    [ apply sends_delete_every; intros; apply HP; discriminate
    | apply sends_remote_images; apply HP; discriminate
    | apply sends_query; apply HP; discriminate
    | sends_step ].
Qed.

End BulkAnyClient.

Ltac sends_bulk :=
  repeat first
    [ apply sends_bulk_loop; intros;
      first [ apply sends_safe_item | apply sends_cascade_item
            | apply sends_explicit_item | apply sends_client_item ];
      intros; first [ assumption | exact I ]
    | apply sends_ret
    | apply sends_query; first [ discriminate | exact I ]
    | apply sends_log; first [ discriminate | exact I ]
    | apply sends_bind; [|intros]
    | match goal with
      | |- sends _ (match ?x with _ => _ end) => destruct x
      end ].

Ltac closes_bulk :=
  repeat first
    [ apply closes_commit
    | apply closes_rollback; discriminate
    | apply closes_bind; [solve [sends_bulk] | intros]
    | match goal with
      | |- closes _ (match ?x with _ => _ end) => destruct x
      end ].

(** The four bulk routes end the transaction they open before they
    answer: BEGIN first, COMMIT last when the answer is 200, ROLLBACK
    last otherwise, and no ROLLBACK before the COMMIT of a 200. Their
    catch block rolls back without a guard, so an error of that ROLLBACK
    is the one error that can escape them. *)
Theorem bulk_delete_in_transaction {W} (pg : client W) (req : request) :
  in_transaction 200 (Safe.bulk_delete pg req)
  /\ in_transaction 200 (Cascade.bulk_delete pg req)
  /\ in_transaction 200 (Explicit.bulk_delete pg req)
  /\ in_transaction 200 (Client.bulk_delete pg req).
Proof.
  split; [|split; [|split]].
  - unfold Safe.bulk_delete, respond.
    apply in_transaction_route with (d := ErrorDetail);
      [discriminate | intros; sends_bulk | closes_bulk].
  - unfold Cascade.bulk_delete, respond.
    apply in_transaction_route with (d := ErrorDetail);
      [discriminate | intros; sends_bulk | closes_bulk].
  - unfold Explicit.bulk_delete, respond.
    apply in_transaction_route with (d := ErrorDetail);
      [discriminate | intros; sends_bulk | closes_bulk].
  - unfold Client.bulk_delete, respond.
    apply in_transaction_route with (d := ErrorDetail);
      [discriminate | intros; sends_bulk | closes_bulk].
Qed.

(** ** Isolation in the bulk routes of the second and third router *)

(** The shape the bulk routes share: they differ in the body of the loop,
    in the details of the activity-log entry and in the image count of
    the answer. *)
Definition bulk_shape {W} (pg : client W)
    (item : jsval -> results -> M W results)
    (details : results -> jsval) (images : results -> option nat)
    (req : request) : M W response :=
  try_catch
    (bind (query pg BEGIN) (fun _ =>
     match news_ids req with
     | JArr (i :: ids) =>
         bind (bulk_loop item (i :: ids) no_results) (fun r =>
         bind (logAdminActivity pg (adminId req) "bulk_delete" "news" JNull
                 (details r) (ip_of req)) (fun _ =>
         bind (query pg COMMIT) (fun _ =>
         respond 200 true (bulk_message (succeeded r) (failed r))
           (BulkResults (succeeded r) (failed r) (images r)))))
     | _ => bind (query pg ROLLBACK) (fun _ =>
            respond 400 false "Valid news IDs array is required" NoData)
     end))
    (fun error =>
       bind (query pg ROLLBACK) (fun _ =>
       respond 500 false "Internal server error" (ErrorDetail error))).

Definition plain_details (r : results) : jsval :=
  template [JStr "Bulk deleted ";
            JNum (Z.of_nat (List.length (succeeded r)));
            JStr " articles"].

Lemma cascade_bulk_shape {W} (pg : client W) req :
  Cascade.bulk_delete pg req
  = bulk_shape pg (Cascade.bulk_item pg) plain_details (fun _ => None) req.
Proof. reflexivity. Qed.

Lemma explicit_bulk_shape {W} (pg : client W) req :
  Explicit.bulk_delete pg req
  = bulk_shape pg (Explicit.bulk_item pg) plain_details (fun _ => None) req.
Proof. reflexivity. Qed.

Section ItemsAnyClient.
Context {W : Type} (pg : client W).
Import DeleterClaims.

Lemma cascade_item_isolated : isolated (Cascade.bulk_item pg).
Proof.
  intros id r. split.
  - apply sends_cascade_item. intros q Hq _ _. exact Hq.
  - intros s. unfold Cascade.bulk_item, try_catch.
    destruct (bind (query pg (SELECT_news id)) _ s) as [s1 [e|r1]] eqn:E.
    + eexists _, _. split; [reflexivity | apply one_more_failed].
    + exists s1, r1. split; [reflexivity|].
      inv_bind E. destruct (rows a) as [|article more].
      * apply ret_inv in E. destruct E as [_ E]. inversion E.
        apply one_more_failed.
      * inv_bind E. destruct (0 <? rowCount a0)%nat.
        -- inv_bind E. apply ret_inv in E. destruct E as [_ E]. inversion E.
           apply one_more_success.
        -- apply ret_inv in E. destruct E as [_ E]. inversion E.
           apply one_more_failed.
Qed.

Lemma explicit_item_isolated : isolated (Explicit.bulk_item pg).
Proof.
  intros id r. split.
  - apply sends_explicit_item. intros q Hq _ _. exact Hq.
  - intros s. unfold Explicit.bulk_item, try_catch.
    destruct (bind (query pg (SELECT_news id)) _ s) as [s1 [e|r1]] eqn:E.
    + eexists _, _. split; [reflexivity | apply one_more_failed].
    + exists s1, r1. split; [reflexivity|].
      inv_bind E. destruct (rows a) as [|article more].
      * apply ret_inv in E. destruct E as [_ E]. inversion E.
        apply one_more_failed.
      * inv_bind E. inv_bind E. inv_bind E.
        apply ret_inv in E. destruct E as [_ E]. inversion E.
        apply one_more_success.
Qed.

Lemma shape_isolates item details images req i ids w :
  isolated item ->
  news_ids req = JArr (i :: ids) ->
  (forall w, exists r, snd (pg BEGIN w) = inr r) ->
  (forall w, exists r, snd (pg COMMIT w) = inr r) ->
  exists s' succ fail n,
    run (bulk_shape pg item details images req) w
    = (s', inr (mkResponse 200 true (bulk_message succ fail)
                  (BulkResults succ fail n)))
    /\ Permutation (map d_id succ ++ map f_id fail) (i :: ids)
    /\ ~ In ROLLBACK (sent (snd s')).
Proof.
  intros Hitem Hids Hbegin Hcommit.
  destruct (query_ok pg BEGIN (w, []) Hbegin) as (s1 & r1 & H1).
  destruct (bulk_loop_reports Hitem (i :: ids) no_results s1)
    as (s2 & r2 & H2 & Hp).
  destruct (logAdminActivity_total pg (adminId req) "bulk_delete" "news" JNull
              (details r2) (ip_of req) s2) as (s3 & H3).
  destruct (query_ok pg COMMIT s3 Hcommit) as (s4 & r4 & H4).
  set (body :=
    bind (query pg BEGIN) (fun _ =>
      bind (bulk_loop item (i :: ids) no_results) (fun r =>
        bind (logAdminActivity pg (adminId req) "bulk_delete" "news" JNull
                (details r) (ip_of req)) (fun _ =>
          bind (query pg COMMIT) (fun _ =>
            respond 200 true (bulk_message (succeeded r) (failed r))
              (BulkResults (succeeded r) (failed r) (images r))))))).
  assert (Hbody : body (w, [])
                  = (s4, inr (mkResponse 200 true
                                (bulk_message (succeeded r2) (failed r2))
                                (BulkResults (succeeded r2) (failed r2)
                                   (images r2))))).
  { unfold body, bind. rewrite H1, H2, H3, H4. reflexivity. }
  exists s4, (succeeded r2), (failed r2), (images r2). split; [|split].
  - unfold run, bulk_shape, try_catch. rewrite Hids.
    fold body. now rewrite Hbody.
  - exact Hp.
  - eapply (@no_rollback_sent _ _ body w s4); [|exact Hbody].
    unfold body, respond.
    repeat first [ apply bulk_loop_sends; exact Hitem
                 | apply sends_log; discriminate
                 | apply sends_query; discriminate
                 | sends_step ].
Qed.

End ItemsAnyClient.

Section ItemsOnStore.
Import Store DeleterClaims.

Lemma cascade_item_deletes : deletes_member (Cascade.bulk_item step).
Proof.
  intros n r s. unfold Cascade.bulk_item, try_catch.
  destruct (select_on_store n s) as (s1 & H1 & Hs1 & Hl1).
  unfold bind at 1. rewrite H1. cbn [rows].
  destruct (filter (is_article (Some n)) (news (live (fst s)))) as [|a more] eqn:Hhit.
  - cbn [map]. unfold ret. eexists _, _. split; [reflexivity|].
    rewrite (no_hit_absent _ _ Hhit). cbn [fst].
    split; [exact Hs1|]. split; [|split; reflexivity].
    rewrite Hl1. symmetry. apply absent_without. exact (no_hit_absent _ _ Hhit).
  - cbn [map].
    destruct (delete_news_on_store n s1) as (d3 & tr3 & H3 & Hs3 & Hn3).
    unfold bind at 1. rewrite H3.
    cbn [rowCount]. rewrite Hl1. rewrite Hhit.
    cbn [List.length Nat.ltb Nat.leb].
    unfold bind. rewrite title_of_row. unfold ret.
    eexists _, _. split; [reflexivity|]. cbn [fst].
    rewrite (hit_present _ _ Hhit).
    split; [now rewrite Hs3|]. split; [now rewrite Hn3, Hl1|].
    eexists. split; [|split; reflexivity]. reflexivity.
Qed.

Lemma explicit_item_deletes : deletes_member (Explicit.bulk_item step).
Proof.
  intros n r s. unfold Explicit.bulk_item, try_catch.
  destruct (select_on_store n s) as (s1 & H1 & Hs1 & Hl1).
  unfold bind at 1. rewrite H1. cbn [rows].
  destruct (filter (is_article (Some n)) (news (live (fst s)))) as [|a more] eqn:Hhit.
  - cbn [map]. unfold ret. eexists _, _. split; [reflexivity|].
    rewrite (no_hit_absent _ _ Hhit). cbn [fst].
    split; [exact Hs1|]. split; [|split; reflexivity].
    rewrite Hl1. symmetry. apply absent_without. exact (no_hit_absent _ _ Hhit).
  - cbn [map].
    destruct (delete_all_on_store n Safe.dependents s1)
      as (s2 & H2 & Hs2 & Hn2).
    destruct (delete_news_on_store n s2) as (d3 & tr3 & H3 & Hs3 & Hn3).
    unfold bind at 1. rewrite H2. unfold bind at 1. rewrite H3.
    unfold bind. rewrite title_of_row. unfold ret.
    eexists _, _. split; [reflexivity|]. cbn [fst].
    rewrite (hit_present _ _ Hhit).
    split; [now rewrite Hs3, Hs2|]. split; [now rewrite Hn3, Hn2, Hl1|].
    eexists. split; [|split; reflexivity]. reflexivity.
Qed.

Lemma shape_keeps_siblings item details images :
  deletes_member item ->
  keeps_siblings (fun pg req =>
    bulk_shape step item details images req).
Proof.
  intros Hitem ts NOW ids req Hne Hids.
  destruct ids as [|i0 ids0]; [contradiction|].
  set (s1 := (mkDb ts (Some ts) NOW, [(BEGIN, ok [] 0)]) : db * trace).
  destruct (bulk_loop_on_store Hitem (i0 :: ids0) no_results s1)
    as (s2 & r2 & H2 & Hs2 & Hn2 & Hok & Hko & _ & _).
  destruct (log_on_store (adminId req) "bulk_delete" "news" JNull
              (details r2) (ip_of req) s2) as (s3 & H3 & Hs3 & Hn3).
  destruct (commit_on_store s3) as (s4 & r4 & H4 & Hs4 & Hn4).
  exists s4, (succeeded r2), (failed r2), (images r2).
  split; [|split; [|split; [|split]]].
  - unfold run, bulk_shape, try_catch. rewrite Hids. cbn [map].
    unfold bind at 1. change (query step BEGIN (at_rest ts NOW, []))
      with (s1, @inr string qresult (mkResult [] 0)).
    cbn [map] in H2. unfold bind at 1. rewrite H2.
    unfold bind at 1. rewrite H3. unfold bind at 1. rewrite H4. reflexivity.
  - exact Hs4.
  - now rewrite Hn4, Hn3, Hn2.
  - intros n Hn Hin. apply Hok; [exact Hn|]. now apply present_In.
  - intros n Hn Hin. apply Hko; [exact Hn|]. now apply absent_not_In.
Qed.

End ItemsOnStore.



(** ** A single delete on the reference database *)

Section SingleOnStore.
Import Store.

(** The tables after DELETE FROM t WHERE news_id = k for each t of [ts]. *)
Definition purge (k : option Z) (ts : list table) (t0 : tables) : tables :=
  fold_left (fun acc t => fst (delete_from t k acc)) ts t0.

Variable newsId : jsval.
Variable k : option Z.
Hypothesis Hk : as_id newsId = inr k.

Lemma select_store (s : db * trace) :
  exists s1,
    query step (SELECT_news newsId) s
    = (s1, inr (mkResult (map row_of (filter (is_article k) (news (live (fst s)))))
                  (List.length (filter (is_article k) (news (live (fst s)))))))
    /\ saved (fst s1) = saved (fst s)
    /\ live (fst s1) = live (fst s).
Proof.
  destruct s as [d tr]. unfold query, step, exec. cbn [fst snd]. rewrite Hk.
  eexists. repeat split.
Qed.

Lemma delete_news_store (s : db * trace) :
  exists s1,
    query step (DELETE_news newsId) s
    = (s1, inr (mkResult [] (List.length (filter (is_article k)
                                            (news (live (fst s)))))))
    /\ saved (fst s1) = saved (fst s)
    /\ live (fst s1)
       = with_news (live (fst s))
           (filter (fun a => negb (is_article k a)) (news (live (fst s)))).
Proof.
  destruct s as [d tr]. unfold query, step, exec. cbn [fst snd]. rewrite Hk.
  eexists. repeat split.
Qed.

Lemma delete_from_store t (s : db * trace) :
  exists s1 m,
    query step (DELETE_FROM t newsId) s = (s1, inr (mkResult [] m))
    /\ saved (fst s1) = saved (fst s)
    /\ live (fst s1) = fst (delete_from t k (live (fst s))).
Proof.
  destruct s as [d tr]. unfold query, step, exec. cbn [fst snd]. rewrite Hk.
  destruct (delete_from t k (live d)) as [ts' m].
  eexists _, _. repeat split.
Qed.

Lemma safeDelete_all_store : forall ts acc (s : db * trace),
  exists s1 m,
    Safe.safeDelete_all step ts newsId acc s = (s1, inr m)
    /\ saved (fst s1) = saved (fst s)
    /\ live (fst s1) = purge k ts (live (fst s)).
Proof.
  induction ts as [|t ts IH]; intros acc s; cbn [Safe.safeDelete_all].
  - exists s, acc. repeat split.
  - destruct (delete_from_store t s) as (s1 & m1 & H1 & Hs1 & Hl1).
    destruct (IH (acc + m1)%nat s1) as (s2 & m & H & Hs & Hl).
    exists s2, m. split; [|split].
    + unfold bind at 1. unfold Safe.safeDelete, try_catch, bind. rewrite H1.
      exact H.
    + now rewrite Hs.
    + rewrite Hl, Hl1. reflexivity.
Qed.

Lemma delete_all_store : forall ts (s : db * trace),
  exists s1,
    Explicit.delete_all step ts newsId s = (s1, inr tt)
    /\ saved (fst s1) = saved (fst s)
    /\ live (fst s1) = purge k ts (live (fst s)).
Proof.
  unfold Explicit.delete_all.
  induction ts as [|t ts IH]; intros s; cbn [for_each].
  - exists s. repeat split.
  - destruct (delete_from_store t s) as (s1 & m1 & H1 & Hs1 & Hl1).
    destruct (IH s1) as (s2 & H & Hs & Hl).
    exists s2. split; [|split].
    + unfold bind at 1. unfold bind at 1. rewrite H1. exact H.
    + now rewrite Hs.
    + rewrite Hl, Hl1. reflexivity.
Qed.

Lemma remote_images_store (s : db * trace) :
  exists s1 m,
    Client.deleteCloudflareImages step newsId s = (s1, inr m)
    /\ saved (fst s1) = saved (fst s)
    /\ live (fst s1) = live (fst s).
Proof.
  destruct s as [d tr].
  unfold Client.deleteCloudflareImages, try_catch, bind, query, step, exec, lift,
    ret, ok.
  cbn [fst snd]. rewrite Hk. cbn [fst snd live saved clock rows].
  destruct (match map _ _ with [] => _ | _ => _ end) as [e|b];
    [eexists _, _; repeat split|].
  destruct (Client.count_urls _) as [e|n]; eexists _, _; repeat split.
Qed.

End SingleOnStore.

Section RoutesOnStore.
Import Store.

Lemma begin_store ts NOW :
  query step BEGIN (at_rest ts NOW, [])
  = ((mkDb ts (Some ts) NOW, [(BEGIN, ok [] 0)]), inr (mkResult [] 0)).
Proof. reflexivity. Qed.

Lemma rollback_store (s : db * trace) ts :
  saved (fst s) = Some ts ->
  exists s1 r,
    query step ROLLBACK s = (s1, inr r)
    /\ saved (fst s1) = None /\ live (fst s1) = ts.
Proof.
  destruct s as [d tr]. cbn [fst]. intros Hs.
  unfold query, step. cbn [fst snd]. rewrite Hs. eexists _, _. repeat split.
Qed.

Lemma commit_store (s : db * trace) :
  exists s1 r,
    query step COMMIT s = (s1, inr r)
    /\ saved (fst s1) = None /\ live (fst s1) = live (fst s).
Proof. destruct s as [d tr]. eexists _, _. repeat split. Qed.

(** The activity log is a table of its own. *)
Definition logged (t t' : tables) : Prop :=
  news t' = news t /\ categories t' = categories t /\ images t' = images t
  /\ socials t' = socials t /\ others t' = others t /\ serial t' = serial t.

Lemma log_store a act tt' ti d i (s : db * trace) :
  exists s1,
    logAdminActivity step a act tt' ti d i s = (s1, inr tt)
    /\ saved (fst s1) = saved (fst s)
    /\ logged (live (fst s)) (live (fst s1)).
Proof. destruct s as [db0 tr]. eexists. repeat split. Qed.

Lemma as_id_good i : bad_id i = false -> as_id (JStr i) = inr (parseInt i 10).
Proof. intros H. unfold as_id. now rewrite H. Qed.

Lemma title_row a (s : db * trace) :
  title_of (row_of a) s = (s, inr (JStr (n_title (cols a)))).
Proof. reflexivity. Qed.

(** What a single delete answers on the reference database, and what it
    leaves: 400 and the tables as they were for an id that is not a run
    of digits, 404 and the tables as they were when no article has the
    id, and otherwise 200 with the article row gone and, of the tables
    news_categories, news_images and news_social_media, the rows of the
    article gone from those the route names ([purged] says whether it
    names them); the rows of the other articles stay. No transaction is
    left open. *)
Definition deletes_on_store (purged : bool)
    (route : client db -> request -> M db response) : Prop :=
  forall ts NOW req,
    let k := parseInt (id req) 10 in
    exists s' resp,
      run (route step req) (at_rest ts NOW) = (s', inr resp)
      /\ saved (fst s') = None
      /\ (if bad_id (id req)
          then status_code resp = 400 /\ live (fst s') = ts
          else if existsb (is_article k) (news ts)
          then status_code resp = 200
               /\ news (live (fst s'))
                  = filter (fun a => negb (is_article k a)) (news ts)
               /\ categories (live (fst s'))
                  = filter (fun l => negb (purged && same k (l_news_id l)))
                      (categories ts)
               /\ images (live (fst s'))
                  = filter (fun r => negb (purged && same k (fst r))) (images ts)
               /\ socials (live (fst s'))
                  = filter (fun r => negb (purged && same k (fst r))) (socials ts)
          else status_code resp = 404 /\ live (fst s') = ts).

Lemma no_hit l (k : option Z) :
  filter (is_article k) l = [] -> existsb (is_article k) l = false.
Proof.
  induction l as [|a l IH]; cbn [filter existsb]; [reflexivity|].
  destruct (is_article k a); [discriminate|]. exact IH.
Qed.

Lemma some_hit l (k : option Z) a more :
  filter (is_article k) l = a :: more -> existsb (is_article k) l = true.
Proof.
  induction l as [|b l IH]; cbn [filter existsb]; [discriminate|].
  destruct (is_article k b); [reflexivity|]. exact IH.
Qed.

Lemma filter_keep {A} (f : A -> bool) (l : list A) :
  filter (fun x => negb (false && f x)) l = l.
Proof.
  cbn [andb negb]. induction l as [|a l IH]; cbn [filter]; congruence.
Qed.

Lemma safe_deletes_on_store : deletes_on_store true Safe.delete_news.
Proof.
  intros ts NOW req k. unfold run, Safe.delete_news, try_catch.
  unfold bind at 1. rewrite begin_store.
  set (s1 := (mkDb ts (Some ts) NOW, [(BEGIN, ok [] 0)]) : db * trace).
  destruct (bad_id (id req)) eqn:Hbad.
  { destruct (@rollback_store s1 ts eq_refl) as (s2 & r2 & H2 & Hs2 & Hl2).
    unfold bind. rewrite H2. unfold respond, ret.
    eexists _, _. split; [reflexivity|]. split; [exact Hs2|].
    split; [reflexivity | exact Hl2]. }
  pose proof (as_id_good _ Hbad) as Hk. fold k in Hk.
  destruct (@select_store _ _ Hk s1) as (s2 & H2 & Hs2 & Hl2).
  unfold bind at 1. rewrite H2. cbn [rows].
  change (live (fst s1)) with ts in *.
  destruct (filter (is_article k) (news ts)) as [|a more] eqn:Hhit.
  { cbn [map]. rewrite (no_hit _ _ Hhit).
    destruct (@rollback_store s2 ts Hs2) as (s3 & r3 & H3 & Hs3 & Hl3).
    unfold bind. rewrite H3. unfold respond, ret.
    eexists _, _. split; [reflexivity|]. split; [exact Hs3|].
    split; [reflexivity | exact Hl3]. }
  cbn [map]. rewrite (some_hit _ _ Hhit).
  unfold bind at 1. rewrite title_row.
  destruct (@safeDelete_all_store _ _ Hk Safe.dependents 0 s2)
    as (s3 & m & H3 & Hs3 & Hl3).
  unfold bind at 1. rewrite H3.
  destruct (@delete_news_store _ _ Hk s3) as (s4 & H4 & Hs4 & Hl4).
  unfold bind at 1. rewrite H4. cbn [rowCount].
  assert (Hn3 : news (live (fst s3)) = news ts).
  { rewrite Hl3, Hl2. reflexivity. }
  rewrite Hn3, Hhit. cbn [List.length Nat.eqb].
  destruct (log_store (adminId req) "delete_news" "news" (JStr (id req))
              (template [JStr "Permanently deleted article: ";
                         JStr (n_title (cols a))])
              (ip_of req) s4) as (s5 & H5 & Hs5 & Hl5).
  unfold bind at 1. rewrite H5.
  destruct (commit_store s5) as (s6 & r6 & H6 & Hs6 & Hl6).
  unfold bind. rewrite H6. unfold respond, ret.
  eexists _, _. split; [reflexivity|]. split; [exact Hs6|].
  split; [reflexivity|].
  destruct Hl5 as (L1 & L2 & L3 & L4 & _).
  rewrite Hl6, L1, L2, L3, L4, Hl4, Hl3, Hl2.
  repeat split.
Qed.

Lemma cascade_deletes_on_store : deletes_on_store false Cascade.delete_news.
Proof.
  intros ts NOW req k. unfold run, Cascade.delete_news, try_catch.
  unfold bind at 1. rewrite begin_store.
  set (s1 := (mkDb ts (Some ts) NOW, [(BEGIN, ok [] 0)]) : db * trace).
  destruct (bad_id (id req)) eqn:Hbad.
  { destruct (@rollback_store s1 ts eq_refl) as (s2 & r2 & H2 & Hs2 & Hl2).
    unfold bind. rewrite H2. unfold respond, ret.
    eexists _, _. split; [reflexivity|]. split; [exact Hs2|].
    split; [reflexivity | exact Hl2]. }
  pose proof (as_id_good _ Hbad) as Hk. fold k in Hk.
  destruct (@select_store _ _ Hk s1) as (s2 & H2 & Hs2 & Hl2).
  unfold bind at 1. rewrite H2. cbn [rows].
  change (live (fst s1)) with ts in *.
  destruct (filter (is_article k) (news ts)) as [|a more] eqn:Hhit.
  { cbn [map]. rewrite (no_hit _ _ Hhit).
    destruct (@rollback_store s2 ts Hs2) as (s3 & r3 & H3 & Hs3 & Hl3).
    unfold bind. rewrite H3. unfold respond, ret.
    eexists _, _. split; [reflexivity|]. split; [exact Hs3|].
    split; [reflexivity | exact Hl3]. }
  cbn [map]. rewrite (some_hit _ _ Hhit).
  unfold bind at 1. rewrite title_row.
  destruct (@delete_news_store _ _ Hk s2) as (s4 & H4 & Hs4 & Hl4).
  unfold bind at 1. rewrite H4. cbn [rowCount].
  rewrite Hl2, Hhit. cbn [List.length Nat.eqb].
  destruct (log_store (adminId req) "delete_news" "news" (JStr (id req))
              (template [JStr "Permanently deleted article: ";
                         JStr (n_title (cols a))])
              (ip_of req) s4) as (s5 & H5 & Hs5 & Hl5).
  unfold bind at 1. rewrite H5.
  destruct (commit_store s5) as (s6 & r6 & H6 & Hs6 & Hl6).
  unfold bind. rewrite H6. unfold respond, ret.
  eexists _, _. split; [reflexivity|]. split; [exact Hs6|].
  split; [reflexivity|].
  destruct Hl5 as (L1 & L2 & L3 & L4 & _).
  rewrite Hl6, L1, L2, L3, L4, Hl4, Hl2, !filter_keep.
  repeat split.
Qed.

Lemma explicit_deletes_on_store : deletes_on_store true Explicit.delete_news.
Proof.
  intros ts NOW req k. unfold run, Explicit.delete_news, try_catch.
  unfold bind at 1. rewrite begin_store.
  set (s1 := (mkDb ts (Some ts) NOW, [(BEGIN, ok [] 0)]) : db * trace).
  destruct (bad_id (id req)) eqn:Hbad.
  { destruct (@rollback_store s1 ts eq_refl) as (s2 & r2 & H2 & Hs2 & Hl2).
    unfold bind. rewrite H2. unfold respond, ret.
    eexists _, _. split; [reflexivity|]. split; [exact Hs2|].
    split; [reflexivity | exact Hl2]. }
  pose proof (as_id_good _ Hbad) as Hk. fold k in Hk.
  destruct (@select_store _ _ Hk s1) as (s2 & H2 & Hs2 & Hl2).
  unfold bind at 1. rewrite H2. cbn [rows].
  change (live (fst s1)) with ts in *.
  destruct (filter (is_article k) (news ts)) as [|a more] eqn:Hhit.
  { cbn [map]. rewrite (no_hit _ _ Hhit).
    destruct (@rollback_store s2 ts Hs2) as (s3 & r3 & H3 & Hs3 & Hl3).
    unfold bind. rewrite H3. unfold respond, ret.
    eexists _, _. split; [reflexivity|]. split; [exact Hs3|].
    split; [reflexivity | exact Hl3]. }
  cbn [map]. rewrite (some_hit _ _ Hhit).
  destruct (@delete_all_store _ _ Hk Safe.dependents s2)
    as (s3 & H3 & Hs3 & Hl3).
  unfold bind at 1. rewrite H3.
  destruct (@delete_news_store _ _ Hk s3) as (s4 & H4 & Hs4 & Hl4).
  unfold bind at 1. rewrite H4.
  unfold bind at 1. rewrite title_row.
  destruct (log_store (adminId req) "delete_news" "news" (JStr (id req))
              (template [JStr "Permanently deleted article: ";
                         JStr (n_title (cols a))])
              (ip_of req) s4) as (s5 & H5 & Hs5 & Hl5).
  unfold bind at 1. rewrite H5.
  destruct (commit_store s5) as (s6 & r6 & H6 & Hs6 & Hl6).
  unfold bind. rewrite H6. unfold respond, ret.
  eexists _, _. split; [reflexivity|]. split; [exact Hs6|].
  split; [reflexivity|].
  destruct Hl5 as (L1 & L2 & L3 & L4 & _).
  rewrite Hl6, L1, L2, L3, L4, Hl4, Hl3, Hl2.
  repeat split.
Qed.

Lemma client_deletes_on_store : deletes_on_store true Client.delete_news.
Proof.
  intros ts NOW req k. unfold run, Client.delete_news, try_catch.
  unfold bind at 1. rewrite begin_store.
  set (s1 := (mkDb ts (Some ts) NOW, [(BEGIN, ok [] 0)]) : db * trace).
  destruct (bad_id (id req)) eqn:Hbad.
  { destruct (@rollback_store s1 ts eq_refl) as (s2 & r2 & H2 & Hs2 & Hl2).
    unfold bind. rewrite H2. unfold respond, ret.
    eexists _, _. split; [reflexivity|]. split; [exact Hs2|].
    split; [reflexivity | exact Hl2]. }
  pose proof (as_id_good _ Hbad) as Hk. fold k in Hk.
  destruct (@select_store _ _ Hk s1) as (s2 & H2 & Hs2 & Hl2).
  unfold bind at 1. rewrite H2. cbn [rows].
  change (live (fst s1)) with ts in *.
  destruct (filter (is_article k) (news ts)) as [|a more] eqn:Hhit.
  { cbn [map]. rewrite (no_hit _ _ Hhit).
    destruct (@rollback_store s2 ts Hs2) as (s3 & r3 & H3 & Hs3 & Hl3).
    unfold bind. rewrite H3. unfold respond, ret.
    eexists _, _. split; [reflexivity|]. split; [exact Hs3|].
    split; [reflexivity | exact Hl3]. }
  cbn [map]. rewrite (some_hit _ _ Hhit).
  destruct (@remote_images_store _ _ Hk s2) as (s2' & n & H2' & Hs2' & Hl2').
  unfold bind at 1. rewrite H2'.
  destruct (@delete_all_store _ _ Hk Client.dependents s2')
    as (s3 & H3 & Hs3 & Hl3).
  unfold bind at 1. rewrite H3.
  destruct (@delete_news_store _ _ Hk s3) as (s4 & H4 & Hs4 & Hl4).
  unfold bind at 1. rewrite H4.
  unfold bind at 1. rewrite title_row.
  destruct (log_store (adminId req) "delete_news" "news" (JStr (id req))
              (template [JStr "Permanently deleted article: ";
                         JStr (n_title (cols a));
                         JStr " ("; JNum (Z.of_nat n);
                         JStr " images removed from Cloudflare)"])
              (ip_of req) s4) as (s5 & H5 & Hs5 & Hl5).
  unfold bind at 1. rewrite H5.
  destruct (commit_store s5) as (s6 & r6 & H6 & Hs6 & Hl6).
  unfold bind. rewrite H6. unfold respond, ret.
  eexists _, _. split; [reflexivity|]. split; [exact Hs6|].
  split; [reflexivity|].
  destruct Hl5 as (L1 & L2 & L3 & L4 & _).
  rewrite Hl6, L1, L2, L3, L4, Hl4, Hl3, Hl2', Hl2.
  repeat split.
Qed.

End RoutesOnStore.


(** ** Refusals *)

(** The statements that open and abandon a transaction. *)
Definition opens_or_abandons (q : stmt) : Prop := q = BEGIN \/ q = ROLLBACK.

Section Refusals.
Context {W : Type} (pg : client W).

(** What a route does when its input check fails. *)
Definition refuses (route : M W response) (msg : string) : Prop :=
  forall w,
    Forall opens_or_abandons (sent (snd (fst (run route w))))
    /\ ((forall w, exists r, snd (pg BEGIN w) = inr r) ->
        (forall w, exists r, snd (pg ROLLBACK w) = inr r) ->
        snd (run route w) = inr (mkResponse 400 false msg NoData)).

Lemma refusal msg (h : string -> M W response) :
  (forall e, sends opens_or_abandons (h e)) ->
  refuses
    (try_catch
       (bind (query pg BEGIN) (fun _ =>
        bind (query pg ROLLBACK) (fun _ => respond 400 false msg NoData)))
       h)
    msg.
Proof.
  intros Hh w. split.
  - destruct (run _ w) as [s' r] eqn:H. cbn [fst snd].
    assert (Hs : sends opens_or_abandons
                   (try_catch
                      (bind (query pg BEGIN) (fun _ =>
                       bind (query pg ROLLBACK)
                         (fun _ => respond 400 false msg NoData))) h)).
    { apply sends_try_catch; [|exact Hh].
      apply sends_bind; [apply sends_query; now left | intros].
      apply sends_bind; [apply sends_query; now right | intros].
      apply sends_ret. }
    destruct (Hs _ _ _ H) as (l & Hl & HP). simpl in Hl. now rewrite Hl.
  - intros Hb Hr. unfold run, try_catch.
    destruct (DeleterClaims.query_ok pg BEGIN (w, []) Hb) as (s1 & r1 & H1).
    destruct (DeleterClaims.query_ok pg ROLLBACK s1 Hr) as (s2 & r2 & H2).
    unfold bind. rewrite H1, H2. reflexivity.
Qed.

Lemma sends_guarded_catch code b msg e :
  sends opens_or_abandons
    (bind (guarded_rollback pg)
       (fun _ => respond code b msg (ErrorDetail e))).
Proof.
  unfold guarded_rollback.
  apply sends_bind; [|intros; apply sends_ret].
  apply sends_try_catch; [|intros; apply sends_ret].
  apply sends_bind; [apply sends_query; now right | intros; apply sends_ret].
Qed.

Lemma sends_plain_catch code b msg e :
  sends opens_or_abandons
    (bind (query pg ROLLBACK)
       (fun _ => respond code b msg (ErrorDetail e))).
Proof.
  apply sends_bind; [apply sends_query; now right | intros; apply sends_ret].
Qed.

End Refusals.

(** An id that is empty or holds anything but digits is refused by the
    four single-delete routes before any row is read: whatever the
    database answers, nothing but BEGIN and ROLLBACK is sent, and when
    these two go through the answer is 400, Valid news ID is required. *)
Theorem single_delete_refuses_bad_id {W} (pg : client W) (req : request) :
  bad_id (id req) = true ->
  refuses pg (Safe.delete_news pg req) "Valid news ID is required"
  /\ refuses pg (Cascade.delete_news pg req) "Valid news ID is required"
  /\ refuses pg (Explicit.delete_news pg req) "Valid news ID is required"
  /\ refuses pg (Client.delete_news pg req) "Valid news ID is required".
Proof.
  intros Hbad. split; [|split; [|split]].
  - unfold Safe.delete_news. rewrite Hbad.
    apply refusal. intros e. apply sends_guarded_catch.
  - unfold Cascade.delete_news. rewrite Hbad.
    apply refusal. intros e. apply sends_guarded_catch.
  - unfold Explicit.delete_news. rewrite Hbad.
    apply refusal. intros e. apply sends_guarded_catch.
  - unfold Client.delete_news. rewrite Hbad.
    apply refusal. intros e. apply sends_guarded_catch.
Qed.

(** The id 12a on the demo database. *)
Lemma single_delete_refuses_bad_id_witness :
  bad_id (id (Demo.a_delete "12a" JNull)) = true
  /\ snd (run (Client.delete_news Store.step (Demo.a_delete "12a" JNull)) Demo.db0)
     = inr (mkResponse 400 false "Valid news ID is required" NoData)
  /\ fst (fst (run (Client.delete_news Store.step (Demo.a_delete "12a" JNull))
                 Demo.db0))
     = Demo.db0.
Proof.
  split; [reflexivity|].
  destruct (@single_delete_refuses_bad_id _ Store.step (Demo.a_delete "12a" JNull)
              eq_refl) as (_ & _ & _ & Hc).
  destruct (Hc Demo.db0) as [_ Hresp].
  split; [|reflexivity].
  apply Hresp; intros w; eexists; reflexivity.
Defined.

(** A body whose news_ids is missing, is not an array or is an empty
    array is refused by the four bulk routes before any row is read:
    whatever the database answers, nothing but BEGIN and ROLLBACK is
    sent, and when these two go through the answer is 400, Valid news
    IDs array is required. *)
Theorem bulk_delete_refuses_no_ids {W} (pg : client W) (req : request) :
  (forall i ids, news_ids req <> JArr (i :: ids)) ->
  refuses pg (Safe.bulk_delete pg req) "Valid news IDs array is required"
  /\ refuses pg (Cascade.bulk_delete pg req) "Valid news IDs array is required"
  /\ refuses pg (Explicit.bulk_delete pg req) "Valid news IDs array is required"
  /\ refuses pg (Client.bulk_delete pg req) "Valid news IDs array is required".
Proof.
  intros Hno. split; [|split; [|split]].
  - unfold Safe.bulk_delete.
    destruct (news_ids req) as [| | | | | |[|i ids]|] eqn:E;
      try (apply refusal; intros e; apply sends_plain_catch).
    now elim (Hno i ids).
  - unfold Cascade.bulk_delete.
    destruct (news_ids req) as [| | | | | |[|i ids]|] eqn:E;
      try (apply refusal; intros e; apply sends_plain_catch).
    now elim (Hno i ids).
  - unfold Explicit.bulk_delete.
    destruct (news_ids req) as [| | | | | |[|i ids]|] eqn:E;
      try (apply refusal; intros e; apply sends_plain_catch).
    now elim (Hno i ids).
  - unfold Client.bulk_delete.
    destruct (news_ids req) as [| | | | | |[|i ids]|] eqn:E;
      try (apply refusal; intros e; apply sends_plain_catch).
    now elim (Hno i ids).
Qed.

(** An empty array on the demo database. *)
Lemma bulk_delete_refuses_no_ids_witness :
  (forall i ids, news_ids (Demo.a_delete "" (JArr [])) <> JArr (i :: ids))
  /\ snd (run (Safe.bulk_delete Store.step (Demo.a_delete "" (JArr []))) Demo.db0)
     = inr (mkResponse 400 false "Valid news IDs array is required" NoData).
Proof.
  assert (Hno : forall i ids,
            news_ids (Demo.a_delete "" (JArr [])) <> JArr (i :: ids))
    by (intros i ids; discriminate).
  split; [exact Hno|].
  destruct (@bulk_delete_refuses_no_ids _ Store.step (Demo.a_delete "" (JArr []))
              Hno) as (Hs & _).
  destruct (Hs Demo.db0) as [_ Hresp].
  apply Hresp; intros w; eexists; reflexivity.
Defined.

(** ** The helpers that swallow errors *)

(** The rows the statements of a trace removed: a statement that threw
    counts for nothing. *)
Definition removed (t : trace) : nat :=
  fold_right (fun e n => match snd e with
                         | inr r => (rowCount r + n)%nat
                         | inl _ => n
                         end) 0%nat t.

Lemma removed_app t1 t2 : removed (t1 ++ t2) = (removed t1 + removed t2)%nat.
Proof.
  induction t1 as [|[q [e|r]] t1 IH]; simpl; [reflexivity | exact IH |].
  unfold removed in *. simpl. rewrite IH. lia.
Qed.

(** safeDelete never throws, and a table whose delete throws does not
    stop the ones after it: whatever the database answers, the deletes of
    all the tables are sent, one per table and in order, and the total is
    the number of rows the deletes that went through removed. *)
Theorem safeDelete_attempts_every_table {W} (pg : client W)
    (ts : list table) (newsId : jsval) (totalDeleted : nat) (s : W * trace) :
  exists s' l,
    Safe.safeDelete_all pg ts newsId totalDeleted s
    = (s', inr (totalDeleted + removed l)%nat)
    /\ snd s' = snd s ++ l
    /\ sent l = map (fun t => DELETE_FROM t newsId) ts.
Proof.
  revert totalDeleted s.
  induction ts as [|t ts IH]; intros acc s; cbn [Safe.safeDelete_all].
  - exists s, []. split; [|split; [now rewrite app_nil_r | reflexivity]].
    unfold ret. simpl. now rewrite Nat.add_0_r.
  - unfold bind at 1. unfold Safe.safeDelete, try_catch, bind.
    destruct (query pg (DELETE_FROM t newsId) s) as [s1 [e|r]] eqn:E;
      apply query_inv in E; destruct E as [-> Er]; unfold ret.
    + destruct (IH (acc + 0)%nat
                  (fst (pg (DELETE_FROM t newsId) (fst s)),
                   snd s ++ [(DELETE_FROM t newsId, inl e)]))
        as (s' & l & H & Hl & Hsent).
      exists s', ((DELETE_FROM t newsId, inl e) :: l).
      split; [|split].
      * rewrite H. do 2 f_equal. simpl. lia.
      * rewrite Hl. cbn [snd]. now rewrite <- app_assoc.
      * simpl. now rewrite Hsent.
    + destruct (IH (acc + rowCount r)%nat
                  (fst (pg (DELETE_FROM t newsId) (fst s)),
                   snd s ++ [(DELETE_FROM t newsId, inr r)]))
        as (s' & l & H & Hl & Hsent).
      exists s', ((DELETE_FROM t newsId, inr r) :: l).
      split; [|split].
      * rewrite H. do 2 f_equal. simpl. lia.
      * rewrite Hl. cbn [snd]. now rewrite <- app_assoc.
      * simpl. now rewrite Hsent.
Qed.

(** The statements deleteCloudflareImages may send. *)
Definition reads_image_urls (newsId : jsval) (q : stmt) : Prop :=
  q = SELECT_image_urls newsId \/ q = SELECT_main_image newsId.

(** deleteCloudflareImages only reads: whatever the database answers it
    returns a count, it sends nothing but its two SELECT statements, and
    the count is 0 as soon as one of them throws. *)
Theorem deleteCloudflareImages_only_reads {W} (pg : client W)
    (newsId : jsval) (s : W * trace) :
  exists s' n l,
    Client.deleteCloudflareImages pg newsId s = (s', inr n)
    /\ snd s' = snd s ++ l
    /\ Forall (reads_image_urls newsId) (sent l)
    /\ (forall q e, In (q, inl e) l -> n = 0%nat).
Proof.
  unfold Client.deleteCloudflareImages, try_catch.
  unfold bind at 1.
  destruct (query pg (SELECT_image_urls newsId) s) as [s1 [e1|r1]] eqn:E1;
    pose proof (query_inv _ _ _ E1) as [-> Hr1].
  { unfold ret. eexists _, 0%nat, [_]. split; [reflexivity|].
    split; [reflexivity|]. split; [|reflexivity].
    repeat constructor. }
  unfold bind at 1.
  destruct (query pg (SELECT_main_image newsId) _) as [s2 [e2|r2]] eqn:E2;
    pose proof (query_inv _ _ _ E2) as [-> Hr2]; cbn [fst snd] in *.
  { unfold ret. eexists _, 0%nat, [_; _]. split; [reflexivity|].
    split; [cbn [snd]; now rewrite <- app_assoc|]. split; [|reflexivity].
    constructor; [now left|]. constructor; [now right|]. constructor. }
  assert (Hl : forall q e,
            In (q, @inl string qresult e)
               [(SELECT_image_urls newsId, inr r1);
                (SELECT_main_image newsId, inr r2)] -> False).
  { intros q e [H|[H|[]]]; discriminate. }
  match goal with
  | |- context [match ?x with _ => _ end] => destruct x as [s3 [e|n]] eqn:E3
  end.
  - unfold bind, lift in E3.
    assert (Hs3 : s3 = (fst (pg (SELECT_main_image newsId)
                           (fst (pg (SELECT_image_urls newsId) (fst s)))),
                        (snd s ++ [(SELECT_image_urls newsId, inr r1)])
                        ++ [(SELECT_main_image newsId, inr r2)])).
    { destruct (match rows r2 with [] => _ | _ => _ end) as [e0|b];
        unfold throw, ret in E3; [now inversion E3|].
      destruct (Client.count_urls (rows r1)); unfold throw, ret in E3;
        now inversion E3. }
    unfold ret. eexists _, 0%nat, [_; _]. split; [reflexivity|].
    split; [rewrite Hs3; cbn [snd]; now rewrite <- app_assoc|].
    split; [|reflexivity].
    constructor; [now left|]. constructor; [now right|]. constructor.
  - unfold bind, lift in E3.
    assert (Hs3 : s3 = (fst (pg (SELECT_main_image newsId)
                           (fst (pg (SELECT_image_urls newsId) (fst s)))),
                        (snd s ++ [(SELECT_image_urls newsId, inr r1)])
                        ++ [(SELECT_main_image newsId, inr r2)])).
    { destruct (match rows r2 with [] => _ | _ => _ end) as [e0|b];
        unfold throw, ret in E3; [now inversion E3|].
      destruct (Client.count_urls (rows r1)); unfold throw, ret in E3;
        now inversion E3. }
    eexists _, n, [_; _]. split; [reflexivity|].
    split; [rewrite Hs3; cbn [snd]; now rewrite <- app_assoc|].
    split; [|intros q e H; now elim (Hl q e H)].
    constructor; [now left|]. constructor; [now right|]. constructor.
Qed.

(** ** The checked root delete, run *)

(** Article 5 of the demo database through the first router. *)
Lemma safe_delete_checked_witness :
  let req := Demo.a_delete "5" JNull in
  let r := run (Safe.delete_news Store.step req) Demo.db0 in
  snd r = inr (mkResponse 200 true "Article permanently deleted"
                 (DeletedRecords 4))
  /\ exists q, In (DELETE_news (JStr (id req)), inr q) (snd (fst r))
               /\ (0 < rowCount q)%nat.
Proof.
  intros req r. split; [vm_compute; reflexivity|].
  apply (@DeleterClaims.safe_delete_checked _ Store.step req Demo.db0 (fst r)
           (mkResponse 200 true "Article permanently deleted" (DeletedRecords 4))).
  - vm_compute. reflexivity.
  - reflexivity.
Defined.

(** Article 5 of the demo database through the second router. *)
Lemma cascade_delete_checked_witness :
  let req := Demo.a_delete "5" JNull in
  let r := run (Cascade.delete_news Store.step req) Demo.db0 in
  snd r = inr (mkResponse 200 true "Article permanently deleted"
                 (DeletedArticle (JStr "5") (JStr "Story five")))
  /\ exists q, In (DELETE_news (JStr (id req)), inr q) (snd (fst r))
               /\ (0 < rowCount q)%nat.
Proof.
  intros req r. split; [vm_compute; reflexivity|].
  apply (@DeleterClaims.cascade_delete_checked _ Store.step req Demo.db0 (fst r)
           (mkResponse 200 true "Article permanently deleted"
              (DeletedArticle (JStr "5") (JStr "Story five")))).
  - vm_compute. reflexivity.
  - reflexivity.
Defined.

End DeleterMore.
(* ===================================================================== *)
(** * The write routes: transactions, refusals and what a write leaves *)
(* ===================================================================== *)

Module PostsMore.
Import Posts PgFacts TxnFacts.

Section AnyClient.
Context {W : Type} (E : env W).

Lemma sends_insert_images P newsId b :
  (forall v, P (INSERT_news_images newsId v)) ->
  forall uploaded i f, sends P (insert_images E newsId b i uploaded f).
Proof.
  intros HP. induction uploaded as [|imgData rest IH]; intros i f; simpl.
  - apply sends_ret.
  - destruct (prop imgData "url"); [|apply sends_throw].
    apply sends_bind; [apply sends_query; apply HP | intros; apply IH].
Qed.

Lemma sends_insert_media P newsId req :
  (forall v, P (INSERT_news_images newsId v)) ->
  (forall u, P (UPDATE_image_url u newsId)) ->
  sends P (insert_media E newsId req).
Proof.
  intros H1 H2. unfold insert_media. destruct (files req); [apply sends_ret|].
  apply sends_bind; [apply sends_lift | intros].
  apply sends_bind; [now apply sends_insert_images | intros].
  destruct (truthy a0); [|apply sends_ret].
  apply sends_bind; [apply sends_query; apply H2 | intros; apply sends_ret].
Qed.

Lemma sends_insert_social_links P newsId b :
  (forall v, P (INSERT_news_social_media newsId v)) ->
  sends P (insert_social_links E newsId b).
Proof.
  intros HP. unfold insert_social_links.
  destruct (safeJSON E (social_media_links b) (JArr [])); try apply sends_ret.
  apply sends_for_each. intros link. unfold insert_social_link.
  destruct (prop link "post_url") as [u|]; [|apply sends_throw].
  destruct (truthy u); [|apply sends_ret].
  destruct u; try apply sends_throw.
  destruct (String.eqb (trim s) ""); [apply sends_ret|].
  apply sends_bind; [apply sends_query; apply HP | intros; apply sends_ret].
Qed.

Lemma sends_insert_categories P newsId c :
  (forall k p, P (INSERT_news_categories newsId k p)) ->
  sends P (insert_categories E newsId c).
Proof.
  intros HP. unfold insert_categories, category_insert.
  apply sends_for_each. intros k.
  apply sends_bind; [apply sends_query; apply HP | intros; apply sends_ret].
Qed.

Lemma sends_first_news_id P r : sends P (@first_news_id W r).
Proof.
  unfold first_news_id. destruct (rows r); [apply sends_throw|].
  destruct (prop j "news_id"); [apply sends_ret | apply sends_throw].
Qed.

End AnyClient.

(** Walks a write route, for a property of what it sends that every data
    statement has. *)
Ltac sends_write :=
  repeat first
    [ apply sends_ret
    | apply sends_throw
    | apply sends_lift
    | apply sends_first_news_id
    | apply sends_insert_categories; intros; first [ discriminate | exact I ]
    | apply sends_insert_social_links; intros; first [ discriminate | exact I ]
    | apply sends_insert_media; intros; first [ discriminate | exact I ]
    | apply sends_query; first [ discriminate | exact I ]
    | apply sends_log; first [ discriminate | exact I ]
    | apply sends_bind; [|intros]
    | match goal with
      | |- sends _ (match ?x with _ => _ end) => destruct x
      end ].

Ltac closes_write :=
  repeat first
    [ apply closes_commit
    | apply closes_rollback; discriminate
    | apply closes_bind; [solve [sends_write] | intros]
    | match goal with
      | |- closes _ (match ?x with _ => _ end) => destruct x
      end ].

(** The create, update and delete routes of routes/admin/categories.js
    end the transaction they open before they answer: BEGIN is the first
    statement they send, COMMIT the last when the answer is the success
    status of the route (201 for a create, 200 for an update and a
    delete), ROLLBACK the last otherwise, and no ROLLBACK precedes the
    COMMIT of a success. Their catch block rolls back without a guard, so
    the one error that can escape them is the error of that ROLLBACK. *)
Theorem write_routes_in_transaction {W} (E : env W) (req : request) :
  in_transaction 201 (create_post E req)
  /\ in_transaction 200 (update_post E req)
  /\ in_transaction 200 (delete_post E req).
Proof.
  split; [|split].
  - unfold create_post, persist_create, respond.
    apply in_transaction_route with (d := ErrorDetail);
      [discriminate | intros; sends_write | closes_write].
  - unfold update_post, persist_update, respond.
    apply in_transaction_route with (d := ErrorDetail);
      [discriminate | intros; sends_write | closes_write].
  - unfold delete_post, respond.
    apply in_transaction_route with (d := ErrorDetail);
      [discriminate | intros; sends_write | closes_write].
Qed.

Section OnStore.
Import Store.
Context {W : Type} (E : env W).
Let ES : env db := over E step.

Lemma quiet_insert_images newsId b :
  forall uploaded i f, quiet (insert_images ES newsId b i uploaded f).
Proof.
  induction uploaded as [|imgData rest IH]; intros i f; simpl.
  - apply quiet_ret.
  - destruct (prop imgData "url"); [|apply quiet_throw].
    apply quiet_bind; [now apply quiet_query | intros; apply IH].
Qed.

Lemma quiet_insert_media newsId req : quiet (insert_media ES newsId req).
Proof.
  unfold insert_media. destruct (files req); [apply quiet_ret|].
  apply quiet_bind; [apply quiet_lift | intros].
  apply quiet_bind; [apply quiet_insert_images | intros].
  destruct (truthy a0); [|apply quiet_ret].
  apply quiet_bind; [now apply quiet_query | intros; apply quiet_ret].
Qed.

Lemma quiet_insert_social_links newsId b :
  quiet (insert_social_links ES newsId b).
Proof.
  unfold insert_social_links.
  destruct (safeJSON ES (social_media_links b) (JArr [])); try apply quiet_ret.
  apply quiet_for_each. intros link. unfold insert_social_link.
  destruct (prop link "post_url") as [u|]; [|apply quiet_throw].
  destruct (truthy u); [|apply quiet_ret].
  destruct u; try apply quiet_throw.
  destruct (String.eqb (trim s) ""); [apply quiet_ret|].
  apply quiet_bind; [now apply quiet_query | intros; apply quiet_ret].
Qed.

Lemma quiet_insert_categories newsId c : quiet (insert_categories ES newsId c).
Proof.
  unfold insert_categories, category_insert.
  apply quiet_for_each. intros k.
  apply quiet_bind; [now apply quiet_query | intros; apply quiet_ret].
Qed.

Lemma quiet_first_news_id r : quiet (@first_news_id db r).
Proof.
  unfold first_news_id. destruct (rows r); [apply quiet_throw|].
  destruct (prop j "news_id"); [apply quiet_ret | apply quiet_throw].
Qed.

End OnStore.

Ltac quiet_write :=
  repeat first
    [ apply quiet_ret
    | apply quiet_throw
    | apply quiet_lift
    | apply quiet_first_news_id
    | apply quiet_insert_categories
    | apply quiet_insert_social_links
    | apply quiet_insert_media
    | apply quiet_query; exact I
    | apply quiet_log
    | apply quiet_bind; [|intros]
    | match goal with
      | |- quiet (match ?x with _ => _ end) => destruct x
      end ].

Ltac atomic_write :=
  repeat first
    [ apply atomic_commit
    | apply atomic_rollback
    | apply atomic_bind; [solve [quiet_write] | intros]
    | match goal with
      | |- atomic _ (match ?x with _ => _ end) => destruct x
      end ].

(** On the reference database the three write routes are all or nothing.
    Started on a database at rest they always answer and leave no
    transaction open; and unless the answer is the success status of the
    route (201 for a create, 200 for an update and a delete), every table
    is as it was before the request, whatever was written before the
    failure: validation, a missing article, a failed upload, a malformed
    social link or a statement the database rejects. *)
Theorem write_routes_all_or_nothing {W} (E : env W) (req : request) :
  all_or_nothing 201 (create_post (over E Store.step) req)
  /\ all_or_nothing 200 (update_post (over E Store.step) req)
  /\ all_or_nothing 200 (delete_post (over E Store.step) req).
Proof.
  split; [|split].
  - unfold create_post, persist_create, respond.
    apply atomic_route with (d := ErrorDetail). intros. atomic_write.
  - unfold update_post, persist_update, respond.
    apply atomic_route with (d := ErrorDetail). intros. atomic_write.
  - unfold delete_post, respond.
    apply atomic_route with (d := ErrorDetail). intros. atomic_write.
Qed.

(** ** Refusals of the update route *)

(** An update that is refused has written nothing: when it answers 404
    or 400 it has sent BEGIN, the existence check and ROLLBACK, and
    nothing else. The existence check comes first: the answer is 404,
    Post not found, exactly when the check found no row, whatever the
    body holds, and a 400 carries the message of the validation chain
    for a body that fails it. *)
Theorem update_refused_before_any_write {W} (E : env W) (req : request) (w : W)
    (s' : W * trace) (resp : response) :
  run (update_post E req) w = (s', inr resp) ->
  status_code resp = 404 \/ status_code resp = 400 ->
  sent (snd s') = [BEGIN; SELECT_news (newsId_of req); ROLLBACK]
  /\ exists r,
       snd (pg E (SELECT_news (newsId_of req)) (fst (pg E BEGIN w))) = inr r
       /\ (status_code resp = 404 ->
           rows r = [] /\ message resp = "Post not found")
       /\ (status_code resp = 400 ->
           rows r <> []
           /\ validate_update E (req_body req) = inl (message resp)).
Proof.
  unfold run, update_post. intros H Hcode.
  apply try_catch_inv in H. destruct H as [(a & H & Ha) | (s1 & e & _ & H)].
  - inversion Ha; subst a; clear Ha.
    inv_bind H. pose proof (query_inv _ _ _ Hstep) as [Hw _].
    apply query_sent in Hstep. simpl in Hstep.
    inv_bind H. pose proof (query_inv _ _ _ Hstep0) as [_ Hreply].
    subst s. simpl in Hreply.
    apply query_sent in Hstep0. rewrite Hstep in Hstep0.
    destruct (rows a0) as [|row more] eqn:Hrows.
    + inv_bind H. apply query_sent in Hstep1. rewrite Hstep0 in Hstep1.
      apply ret_inv in H. destruct H as [-> H].
      inversion H; subst resp; clear H. split; [exact Hstep1|].
      exists a0. split; [now symmetry|]. split.
      * intros _. now split.
      * intros Hc. discriminate.
    + destruct (validate_update E (req_body req)) as [msg|c] eqn:Hv.
      * inv_bind H. apply query_sent in Hstep1. rewrite Hstep0 in Hstep1.
        apply ret_inv in H. destruct H as [-> H].
        inversion H; subst resp; clear H. split; [exact Hstep1|].
        exists a0. split; [now symmetry|]. split.
        -- intros Hc. discriminate.
        -- intros _. split; [rewrite Hrows; discriminate | reflexivity].
      * apply PostsFacts.persist_update_sent in H.
        destruct H as (uploaded & _ & _ & ->).
        destruct Hcode as [Hc|Hc]; discriminate.
  - inv_bind H. apply ret_inv in H. destruct H as [_ H].
    inversion H; subst resp. destruct Hcode as [Hc|Hc]; discriminate.
Qed.

(** An update of article 77, which the demo database does not have. *)
Lemma update_refused_before_any_write_witness :
  let req := Posts.mkRequest (Demo.a_body "draft") [] (JStr "admin") (JNum 1)
               (JStr "10.0.0.1") "77" 2000 in
  let r := run (update_post Demo.env req) Demo.db0 in
  snd r = inr (mkResponse 404 false "Post not found" NoData)
  /\ sent (snd (fst r)) = [BEGIN; SELECT_news (JNum 77); ROLLBACK].
Proof.
  intros req r.
  assert (Hrun : run (update_post Demo.env req) Demo.db0
                 = (fst r, inr (mkResponse 404 false "Post not found" NoData)))
    by (vm_compute; reflexivity).
  split; [vm_compute; reflexivity|].
  destruct (@update_refused_before_any_write _ Demo.env req Demo.db0 (fst r) _
              Hrun (or_introl eq_refl)) as [Hsent _].
  exact Hsent.
Defined.

(** ** The delete route on the reference database *)

Section DeleteOnStore.
Import Store.

Lemma row_has_title a : prop (row_of a) "title" = Some (JStr (n_title (cols a))).
Proof. reflexivity. Qed.


End DeleteOnStore.

(** ** Social links and quotes after a write *)

(** The rows the social-link loop writes: one per link whose post_url is
    a string that is not blank. *)
Definition social_row (link : jsval) : list social_values :=
  match prop link "post_url" with
  | Some (JStr s) =>
      if String.eqb (trim s) "" then [] else [social_insert link s]
  | _ => []
  end.

Definition social_rows {W} (E : env W) (b : body) : list social_values :=
  match safeJSON E (social_media_links b) (JArr []) with
  | JArr links => flat_map social_row links
  | _ => []
  end.

Section SocialOnStore.
Import Store StoreFacts PostsFacts PostsStore.
Context {W : Type} (E : env W).

Lemma social_links_sent_rows newsId b :
  social_links_sent (ES E) newsId b
  = map (INSERT_news_social_media newsId) (social_rows (ES E) b).
Proof.
  unfold social_links_sent, social_rows.
  destruct (safeJSON (ES E) (social_media_links b) (JArr [])); try reflexivity.
  induction items as [|link links IH]; [reflexivity|].
  cbn [map List.concat flat_map]. rewrite map_app, <- IH. f_equal.
  unfold social_sent, social_row.
  destruct (prop link "post_url") as [[]|]; try reflexivity.
  now destruct (String.eqb (trim s) "").
Qed.

Definition social_links (d : db) : list (Z * social_values) := socials (live d).

Definition touches_socials (q : stmt) : bool :=
  match q with
  | INSERT_news_social_media _ _ | DELETE_FROM news_social_media _ | ROLLBACK => true
  | _ => false
  end.

Lemma step_socials q d :
  touches_socials q = false -> social_links (fst (step q d)) = social_links d.
Proof.
  intros H. unfold social_links. step_cases q d.
  destruct (as_id i) as [e|k]; simpl; [reflexivity|].
  destruct t; try reflexivity. discriminate.
Qed.

Lemma replay_social_inserts n : forall vs d,
  social_links (replay step (map (INSERT_news_social_media (JNum n)) vs) d)
  = social_links d ++ map (fun v => (n, v)) vs.
Proof.
  induction vs as [|v vs IH]; intros d; cbn [map].
  - simpl. now rewrite app_nil_r.
  - rewrite replay_cons, IH. unfold social_links, step, exec. simpl.
    now rewrite <- app_assoc.
Qed.

Lemma step_delete_socials n d :
  social_links (fst (step (DELETE_FROM news_social_media (JNum n)) d))
  = filter (fun r => negb (fst r =? n)) (social_links d).
Proof.
  unfold social_links, step, exec. cbn. apply filter_ext. intros r.
  unfold same. now rewrite Z.eqb_sym.
Qed.

(** The quotes kept with each article. *)
Definition kept_quotes (d : db) : list (Z * list Formatter.quote) :=
  map (fun a => (news_id a, quotes_data a)) (news (live d)).

Definition touches_quotes (q : stmt) : bool :=
  match q with
  | INSERT_news _ | DELETE_news _ | UPDATE_quotes_data _ _ | ROLLBACK => true
  | _ => false
  end.

Lemma step_quotes q d :
  touches_quotes q = false -> kept_quotes (fst (step q d)) = kept_quotes d.
Proof.
  intros H. unfold kept_quotes. step_cases q d.
  - destruct (as_id i) as [e|k]; simpl; [reflexivity|].
    rewrite map_map. apply map_ext. intros a. unfold on_article.
    now destruct (is_article k a).
  - destruct (as_id i) as [e|k]; simpl; [reflexivity|].
    rewrite map_map. apply map_ext. intros a. unfold on_article.
    now destruct (is_article k a).
  - destruct (as_id i) as [e|k]; simpl; [reflexivity|].
    destruct t; reflexivity.
Qed.

Lemma step_update_quotes qs n d :
  kept_quotes (fst (step (UPDATE_quotes_data qs (JNum n)) d))
  = map (fun p => (fst p, if fst p =? n then qs else snd p)) (kept_quotes d).
Proof.
  unfold kept_quotes, step, exec. cbn. rewrite !map_map. apply map_ext.
  intros a. unfold on_article, is_article, same. cbn. rewrite Z.eqb_sym.
  now destruct (news_id a =? n).
Qed.

Lemma update_socials req c n uploaded ts NOW :
  newsId_of req = JNum n ->
  social_links (replay step (update_sent (ES E) req c uploaded) (at_rest ts NOW))
  = filter (fun r => negb (fst r =? n)) (socials ts)
    ++ map (fun v => (n, v)) (social_rows (ES E) (req_body req)).
Proof.
  intros Hn. unfold update_sent. rewrite Hn.
  rewrite !replay_app.
  rewrite (replay_preserved social_links touches_socials step_socials)
    by (repeat constructor).
  rewrite (replay_preserved social_links touches_socials step_socials)
    by (now apply media_sent_untouched).
  rewrite social_links_sent_rows, replay_social_inserts. f_equal.
  rewrite !replay_cons, !replay_nil, step_delete_socials.
  rewrite step_socials by reflexivity.
  rewrite (replay_preserved social_links touches_socials step_socials)
    by (now apply category_inserts_untouched).
  now rewrite !step_socials by reflexivity.
Qed.

Lemma create_socials req c n uploaded ts NOW :
  social_links (replay step (create_sent (ES E) req c (JNum n) uploaded)
                  (at_rest ts NOW))
  = socials ts ++ map (fun v => (n, v)) (social_rows (ES E) (req_body req)).
Proof.
  unfold create_sent. rewrite !replay_app.
  rewrite (replay_preserved social_links touches_socials step_socials)
    by (repeat constructor).
  rewrite (replay_preserved social_links touches_socials step_socials)
    by (now apply media_sent_untouched).
  rewrite social_links_sent_rows, replay_social_inserts. f_equal.
  rewrite (replay_preserved social_links touches_socials step_socials)
    by (now apply quotes_sent_untouched).
  rewrite (replay_preserved social_links touches_socials step_socials)
    by (now apply category_inserts_untouched).
  rewrite !replay_cons, !replay_nil.
  now rewrite !step_socials by reflexivity.
Qed.

Lemma update_quotes req c n uploaded ts NOW :
  newsId_of req = JNum n ->
  kept_quotes (replay step (update_sent (ES E) req c uploaded) (at_rest ts NOW))
  = map (fun a =>
           (news_id a,
            if news_id a =? n
            then Formatter.extractQuotes (str (content (req_body req)))
            else quotes_data a))
        (news ts).
Proof.
  intros Hn. unfold update_sent. rewrite Hn.
  rewrite !replay_app.
  rewrite (replay_preserved kept_quotes touches_quotes step_quotes)
    by (repeat constructor).
  rewrite (replay_preserved kept_quotes touches_quotes step_quotes)
    by (now apply media_sent_untouched).
  rewrite (replay_preserved kept_quotes touches_quotes step_quotes)
    by (now apply social_sent_untouched).
  rewrite !replay_cons, !replay_nil.
  rewrite step_quotes by reflexivity. rewrite step_update_quotes.
  rewrite (replay_preserved kept_quotes touches_quotes step_quotes)
    by (now apply category_inserts_untouched).
  rewrite !step_quotes by reflexivity.
  unfold kept_quotes, at_rest. cbn [live]. rewrite map_map.
  apply map_ext. intros a. reflexivity.
Qed.

Lemma social_rows_not_blank b :
  Forall (fun v => s_post_url v <> "") (social_rows (ES E) b).
Proof.
  unfold social_rows.
  destruct (safeJSON (ES E) (social_media_links b) (JArr [])); try constructor.
  apply Forall_forall. intros v Hv. apply in_flat_map in Hv.
  destruct Hv as (link & _ & Hv). unfold social_row in Hv.
  destruct (prop link "post_url") as [[]|]; try contradiction.
  destruct (String.eqb (trim s) "") eqn:Hs; [contradiction|].
  destruct Hv as [<-|[]]. cbn. now apply String.eqb_neq.
Qed.

End SocialOnStore.

(** Social links and quotes after a write, on the reference database.
    The rows written are one per submitted link whose post_url is a
    string that is not blank once trimmed, in order, with the url
    trimmed. A create that answers 201 adds them for the new article. An
    update that answers 200 replaces the social links of its article by
    them and leaves those of the other articles alone; it also rewrites
    the stored quotes of its article to the quotes of the new body,
    clearing them when the body has none, and keeps the quotes of the
    other articles. *)
Theorem write_replaces_social_links {W} (E : env W) (req : request)
    (ts : Store.tables) (NOW : Z) (s' : Store.db * trace) (resp : response) :
  let ES := PostsStore.ES E in
  let db := Store.at_rest ts NOW in
  let written := social_rows ES (req_body req) in
  Forall (fun v => s_post_url v <> "") written
  /\ (run (create_post ES req) db = (s', inr resp) /\ status_code resp = 201 ->
      Store.socials (Store.live (fst s'))
      = Store.socials ts ++ map (fun v => (Store.serial ts, v)) written)
  /\ (run (update_post ES req) db = (s', inr resp) /\ status_code resp = 200 ->
      exists n,
        newsId_of req = JNum n
        /\ Store.socials (Store.live (fst s'))
           = filter (fun r => negb (fst r =? n)) (Store.socials ts)
             ++ map (fun v => (n, v)) written
        /\ map (fun a => (Store.news_id a, Store.quotes_data a))
             (Store.news (Store.live (fst s')))
           = map (fun a =>
                    (Store.news_id a,
                     if Store.news_id a =? n
                     then Formatter.extractQuotes (str (content (req_body req)))
                     else Store.quotes_data a))
               (Store.news ts)).
Proof.
  intros ES db written. split; [apply social_rows_not_blank|]. split.
  - intros [H Hcode].
    destruct (@PostsStore.create_on_store _ E _ _ _ _ _ H Hcode)
      as (c & up & _ & _ & _ & Hdb).
    rewrite Hdb. apply (create_socials E).
  - intros [H Hcode].
    destruct (@PostsStore.update_on_store _ E _ _ _ _ _ H Hcode)
      as (c & up & n & _ & _ & Hn & _ & Hdb).
    exists n. split; [exact Hn|]. rewrite Hdb. split.
    + now apply (update_socials E).
    + now apply (update_quotes E).
Qed.

(** An update of article 5 of the demo database with one social link. *)
Lemma write_replaces_social_links_witness :
  let links := ("[{" ++ Demo.q ++ "post_url" ++ Demo.q ++ ":" ++ Demo.q
                ++ "https://video.example/1" ++ Demo.q ++ "}]")%string in
  let req := Posts.mkRequest
               (Posts.mkBody (Some "Floods in the valley") (Some "Rain fell.")
                  None (Some "[3,7]") (Some "7") None None None None
                  (Some "draft") None (Some links) [])
               [] (JStr "admin") (JNum 1) (JStr "10.0.0.1") "5" 2000 in
  let s' := fst (run (update_post Demo.env req) Demo.db0) in
  map (fun r => (fst r, s_post_url (snd r)))
    (Store.socials (Store.live (fst s')))
  = [(5, "https://video.example/1")]
  /\ map (fun a => (Store.news_id a, Store.quotes_data a))
       (Store.news (Store.live (fst s')))
     = [(4, []); (5, [])].
Proof.
  intros links req s'.
  assert (Hrun : exists resp,
            run (update_post Demo.env req) Demo.db0 = (s', inr resp)
            /\ status_code resp = 200).
  { eexists. split; [vm_compute; reflexivity | reflexivity]. }
  destruct Hrun as (resp & Hrun & Hcode).
  destruct (@write_replaces_social_links _ Demo.env req Demo.tables0 2000 s' resp)
    as (_ & _ & Hupd).
  destruct (Hupd (conj Hrun Hcode)) as (n & Hn & Hs & Hq).
  vm_compute in Hn. injection Hn as <-.
  split; [rewrite Hs | rewrite Hq]; vm_compute; reflexivity.
Defined.

End PostsMore.
(* ===================================================================== *)
(** * Content helpers: trimming, reading time, the quote loop *)
(* ===================================================================== *)

Module ContentMore.
Import Formatter FormatterFacts.

(** ** String.prototype.trim *)

Definition blank (l : list ascii) : Prop := forallb is_ws l = true.

Lemma drop_ws_length l : (List.length (drop_ws l) <= List.length l)%nat.
Proof.
  induction l as [|c l IH]; simpl; [lia|].
  destruct (is_ws c); simpl; lia.
Qed.

Lemma drop_ws_idem l : drop_ws (drop_ws l) = drop_ws l.
Proof.
  induction l as [|c l IH]; simpl; [reflexivity|].
  destruct (is_ws c) eqn:E; [exact IH|]. simpl. now rewrite E.
Qed.

Lemma drop_ws_split l : exists p, blank p /\ l = p ++ drop_ws l.
Proof.
  induction l as [|c l IH]; simpl.
  - now exists [].
  - destruct (is_ws c) eqn:E.
    + destruct IH as (p & Hp & Hl). exists (c :: p). split.
      * unfold blank. simpl. now rewrite E.
      * simpl. now rewrite <- Hl.
    + now exists [].
Qed.

Lemma drop_ws_blank p l : blank p -> drop_ws (p ++ l) = drop_ws l.
Proof.
  unfold blank. induction p as [|c p IH]; simpl; [reflexivity|].
  intros H. apply andb_true_iff in H. destruct H as [-> H]. now apply IH.
Qed.

Lemma drop_ws_head c l : is_ws c = false -> drop_ws (c :: l) = c :: l.
Proof. intros H. simpl. now rewrite H. Qed.

Lemma drop_ws_fixed c l : drop_ws (c :: l) = c :: l -> is_ws c = false.
Proof.
  simpl. destruct (is_ws c); [|reflexivity]. intros H.
  pose proof (drop_ws_length l) as Hle. rewrite H in Hle. simpl in Hle. lia.
Qed.

Lemma blank_rev p : blank p -> blank (rev p).
Proof.
  unfold blank. rewrite !forallb_forall. intros H c Hc.
  apply H. now apply in_rev.
Qed.

(** A text that neither starts nor ends with white space. *)
Definition trimmed (l : list ascii) : Prop :=
  drop_ws l = l /\ drop_ws (rev l) = rev l.

Lemma trim_chars_trimmed l : trimmed l -> trim_chars l = l.
Proof.
  intros [H1 H2]. unfold trim_chars. now rewrite H1, H2, rev_involutive.
Qed.

Lemma trim_chars_is_trimmed l : trimmed (trim_chars l).
Proof.
  unfold trim_chars.
  set (x := drop_ws l).
  destruct (drop_ws_split (rev x)) as (p & Hp & Hx).
  set (y := drop_ws (rev x)) in *.
  assert (Hxy : x = rev y ++ rev p).
  { rewrite <- (rev_involutive x), Hx, rev_app_distr. reflexivity. }
  split.
  - destruct (rev y) as [|c t] eqn:Ey; [reflexivity|].
    apply drop_ws_head. apply (@drop_ws_fixed c (t ++ rev p)).
    change (c :: t ++ rev p) with ((c :: t) ++ rev p).
    rewrite <- Hxy. apply drop_ws_idem.
  - rewrite rev_involutive. apply drop_ws_idem.
Qed.

Lemma trim_chars_idem l : trim_chars (trim_chars l) = trim_chars l.
Proof. apply trim_chars_trimmed, trim_chars_is_trimmed. Qed.

Lemma trim_idem s : trim (trim s) = trim s.
Proof.
  unfold trim. rewrite list_ascii_of_string_of_list_ascii.
  now rewrite trim_chars_idem.
Qed.

(** White space around a text that has none at its ends is what trim
    removes. *)
Lemma trim_chars_around lead core trail :
  blank lead -> blank trail -> trimmed core ->
  trim_chars (lead ++ core ++ trail) = core.
Proof.
  intros Hl Ht [H1 H2]. unfold trim_chars.
  rewrite (drop_ws_blank _ Hl).
  destruct core as [|c core'].
  - simpl. destruct (drop_ws_split trail) as (p & Hp & Htr).
    assert (Hd : drop_ws trail = []).
    { clear -Ht. unfold blank in Ht. induction trail as [|c t IH]; simpl in *;
        [reflexivity|].
      apply andb_true_iff in Ht. destruct Ht as [-> Ht]. now apply IH. }
    rewrite Hd. reflexivity.
  - change ((c :: core') ++ trail) with (c :: (core' ++ trail)).
    rewrite drop_ws_head by exact (drop_ws_fixed H1).
    change (c :: core' ++ trail) with ((c :: core') ++ trail).
    rewrite rev_app_distr, (drop_ws_blank _ (blank_rev Ht)), H2.
    apply rev_involutive.
Qed.

(** ** calculateReadingTime counts words *)

(** A word: one code unit or more, none of them white space. *)
Definition word (w : list ascii) : Prop :=
  w <> [] /\ forallb (fun c => negb (is_ws c)) w = true.

(** A gap between two words: one white-space code unit or more. *)
Definition gap (g : list ascii) : Prop := g <> [] /\ blank g.

(** A first word and the words after it, each behind its gap. *)
Fixpoint words_text (w : list ascii) (more : list (list ascii * list ascii))
  : list ascii :=
  w ++ match more with
       | [] => []
       | (g, w') :: more' => g ++ words_text w' more'
       end.

Lemma pieces_word b w x : word w -> Posts.pieces b (w ++ x) = Posts.pieces false x.
Proof.
  intros [Hne Hw]. revert b. induction w as [|c w IH]; intros b; [contradiction|].
  simpl in Hw. apply andb_true_iff in Hw. destruct Hw as [Hc Hw].
  apply negb_true_iff in Hc. simpl. rewrite Hc.
  destruct w as [|c' w']; [reflexivity|].
  apply IH; [discriminate | exact Hw].
Qed.

Lemma pieces_blank g x : blank g -> Posts.pieces true (g ++ x) = Posts.pieces true x.
Proof.
  unfold blank. induction g as [|c g IH]; intros H; [reflexivity|].
  simpl in H. apply andb_true_iff in H. destruct H as [Hc H].
  simpl. rewrite Hc. now rewrite IH.
Qed.

Lemma pieces_gap g x : gap g -> Posts.pieces false (g ++ x) = 1 + Posts.pieces true x.
Proof.
  intros [Hne Hg]. destruct g as [|c g]; [contradiction|].
  unfold blank in Hg. simpl in Hg. apply andb_true_iff in Hg.
  destruct Hg as [Hc Hg]. simpl. rewrite Hc. now rewrite pieces_blank.
Qed.

Lemma words_text_eq w more :
  words_text w more
  = w ++ match more with
         | [] => []
         | (g, w') :: more' => g ++ words_text w' more'
         end.
Proof. destruct more; reflexivity. Qed.

Lemma pieces_words_start b w more :
  word w ->
  Posts.pieces b (words_text w more) = Posts.pieces false (words_text w more).
Proof.
  intros Hw. rewrite words_text_eq.
  rewrite (pieces_word b _ Hw). now rewrite (pieces_word false _ Hw).
Qed.

Lemma pieces_words : forall more w,
  word w -> Forall (fun p => gap (fst p) /\ word (snd p)) more ->
  Posts.pieces false (words_text w more) = Z.of_nat (S (List.length more)).
Proof.
  induction more as [|[g w'] more IH]; intros w Hw Hmore; cbn [words_text].
  - rewrite pieces_word by exact Hw. reflexivity.
  - inversion Hmore as [|p l [Hg Hw'] Hrest]; subst. cbn [fst snd] in *.
    rewrite pieces_word by exact Hw. rewrite pieces_gap by exact Hg.
    rewrite (pieces_words_start true more Hw'), IH by assumption.
    cbn [List.length]. lia.
Qed.

Lemma word_head w x : word w -> exists c t, w ++ x = c :: t /\ is_ws c = false.
Proof.
  intros [Hne Hw]. destruct w as [|c w]; [contradiction|].
  simpl in Hw. apply andb_true_iff in Hw. destruct Hw as [Hc _].
  apply negb_true_iff in Hc. now exists c, (w ++ x).
Qed.

Lemma word_rev w : word w -> word (rev w).
Proof.
  intros [Hne Hw]. split.
  - intros H. apply Hne. rewrite <- (rev_involutive w), H. reflexivity.
  - rewrite forallb_forall in *. intros c Hc. apply Hw. now apply in_rev.
Qed.

Lemma words_text_last : forall more w,
  word w -> Forall (fun p => gap (fst p) /\ word (snd p)) more ->
  exists front last, words_text w more = front ++ last /\ word last.
Proof.
  induction more as [|[g w'] more IH]; intros w Hw Hmore; cbn [words_text].
  - exists [], w. now rewrite app_nil_r.
  - inversion Hmore as [|p l [Hg Hw'] Hrest]; subst. cbn [fst snd] in *.
    destruct (IH w' Hw' Hrest) as (front & last & Ht & Hl).
    exists (w ++ g ++ front), last. split; [|exact Hl].
    rewrite Ht. now rewrite <- !app_assoc.
Qed.

Lemma words_text_trimmed more w :
  word w -> Forall (fun p => gap (fst p) /\ word (snd p)) more ->
  trimmed (words_text w more).
Proof.
  intros Hw Hmore. split.
  - rewrite words_text_eq.
    match goal with
    | |- context [w ++ ?x] => destruct (word_head x Hw) as (c & t & -> & Hc)
    end.
    now apply drop_ws_head.
  - destruct (words_text_last Hw Hmore) as (front & last & -> & Hl).
    rewrite rev_app_distr.
    destruct (word_head (rev front) (word_rev Hl)) as (c & t & -> & Hc).
    now apply drop_ws_head.
Qed.

(** calculateReadingTime is the number of words of the body over 200,
    rounded up: for a body made of n words (n at least 1) separated by
    runs of white space, with any white space before the first and after
    the last, the reading time is ceil(n / 200) minutes, which is at
    least 1; and a body with no word at all (empty, or white space only)
    reads in 1 minute. *)
Theorem reading_time_counts_words (lead trail w : list ascii)
    (more : list (list ascii * list ascii)) :
  blank lead -> blank trail -> word w ->
  Forall (fun p => gap (fst p) /\ word (snd p)) more ->
  let n := Z.of_nat (S (List.length more)) in
  Posts.calculateReadingTime
    (string_of_list_ascii (lead ++ words_text w more ++ trail))
  = (n + 199) / 200
  /\ 1 <= (n + 199) / 200
  /\ Posts.calculateReadingTime (string_of_list_ascii lead) = 1.
Proof.
  intros Hl Ht Hw Hmore n.
  assert (Hn : 1 <= (n + 199) / 200).
  { apply Z.div_le_lower_bound; unfold n; lia. }
  split; [|split; [exact Hn|]].
  - unfold Posts.calculateReadingTime.
    destruct (String.eqb _ "") eqn:E.
    + apply String.eqb_eq in E.
      apply (f_equal list_ascii_of_string) in E.
      rewrite list_ascii_of_string_of_list_ascii in E. simpl in E.
      destruct (word_head (match more with
                           | [] => []
                           | (g, w') :: more' => g ++ words_text w' more'
                           end) Hw) as (c & t & Hc & _).
      rewrite <- words_text_eq in Hc.
      apply app_eq_nil in E. destruct E as [_ E].
      apply app_eq_nil in E. destruct E as [E _].
      rewrite E in Hc. discriminate.
    + rewrite list_ascii_of_string_of_list_ascii.
      rewrite trim_chars_around;
        [|exact Hl | exact Ht | now apply words_text_trimmed].
      rewrite pieces_words by assumption. fold n. lia.
  - unfold Posts.calculateReadingTime.
    destruct (String.eqb _ ""); [reflexivity|].
    rewrite list_ascii_of_string_of_list_ascii.
    replace (trim_chars lead) with (@nil ascii); [reflexivity|].
    symmetry. rewrite <- (app_nil_r lead).
    change (lead ++ []) with (lead ++ [] ++ []).
    apply trim_chars_around; [exact Hl | reflexivity | now split].
Qed.

(** Three words with uneven spacing. *)
Lemma reading_time_counts_words_witness :
  Posts.calculateReadingTime "  Rain fell   hard " = 1.
Proof.
  assert (Hw : forall s : string,
            forallb (fun c => negb (is_ws c)) (list_ascii_of_string s) = true ->
            list_ascii_of_string s <> [] -> word (list_ascii_of_string s))
    by (intros s H1 H2; now split).
  assert (Hg : forall s : string,
            forallb is_ws (list_ascii_of_string s) = true ->
            list_ascii_of_string s <> [] -> gap (list_ascii_of_string s))
    by (intros s H1 H2; now split).
  destruct (@reading_time_counts_words
              (list_ascii_of_string "  ") (list_ascii_of_string " ")
              (list_ascii_of_string "Rain")
              [(list_ascii_of_string " ", list_ascii_of_string "fell");
               (list_ascii_of_string "   ", list_ascii_of_string "hard")])
    as (H & _ & _).
  - reflexivity.
  - reflexivity.
  - apply Hw; [reflexivity | discriminate].
  - repeat constructor; cbn [fst snd];
      first [ discriminate | reflexivity ].
  - exact H.
Defined.

(** ** The loop of extractQuotes *)

Lemma extract_loop_all (P : quote -> Prop) :
  (forall idx c1 c2, P (quote_of_match idx c1 c2)) ->
  forall fuel i s acc,
    Forall P acc -> Forall P (extract_loop fuel i s acc).
Proof.
  intros HP. induction fuel as [|fuel IH]; intros i s acc Hacc; simpl.
  - exact Hacc.
  - destruct (quoteRegex_exec i s) as [[[[idx c1] c2] rest]|]; [|exact Hacc].
    apply IH. apply Forall_app. split; [exact Hacc|].
    constructor; [apply HP | constructor].
Qed.

(** What extractQuotes stores in a quote. The sayer is null or a string
    that is not empty: an empty sayer attribute is stored as null. The
    text is trimmed: trimming it again changes nothing. And the block
    the quote was read from lies inside the body: from its offset on
    there are at least the fifteen code units of the two markers. *)
Theorem extractQuotes_stores (raw : string) :
  Forall (fun q => sayer q <> Some ""
                   /\ trim (text q) = text q
                   /\ (position q + 15 <= String.length raw)%nat)
    (extractQuotes raw).
Proof.
  assert (Hfields : Forall (fun q => sayer q <> Some "" /\ trim (text q) = text q)
                      (extractQuotes raw)).
  { unfold extractQuotes. destruct (String.eqb raw ""); [constructor|].
    apply extract_loop_all; [|constructor].
    intros idx c1 c2. unfold quote_of_match. cbn [sayer text]. split.
    - destruct c1 as [[|c n]|]; discriminate.
    - destruct c2 as [|c c2]; [reflexivity|].
      unfold trim. rewrite list_ascii_of_string_of_list_ascii.
      now rewrite trim_chars_idem. }
  assert (Hblocks : Forall (block_at (chars raw)) (extractQuotes raw)).
  { unfold extractQuotes. destruct (String.eqb raw ""); [constructor|].
    destruct (@extract_loop_blocks (chars raw) (S (String.length raw)) []
                (chars raw) eq_refl) as [Hall _].
    simpl in Hall. eapply Forall_impl; [|exact Hall]. now intros q [Hq _]. }
  rewrite Forall_forall in *. intros q Hq.
  destruct (Hfields q Hq) as [Hs Ht]. split; [exact Hs|]. split; [exact Ht|].
  destruct (Hblocks q Hq) as (pre & attr & body & post & Hraw & Hpos & _).
  rewrite <- chars_length, Hraw, Hpos. rewrite !length_app. simpl. lia.
Qed.

(** The loop of extractQuotes ends. A match is never empty: it holds the
    two markers, fifteen code units, so each turn leaves less of the body
    to search; and the quotes are those of a loop that may run any
    number of turns above the length of the body. *)
Theorem extractQuotes_loop_ends (raw : string) (turns : nat) :
  (forall i s idx c1 c2 rest,
      quoteRegex_exec i s = Some (idx, c1, c2, rest) ->
      (List.length rest + 15 <= List.length s)%nat /\ (i <= idx)%nat)
  /\ extract_loop (S (String.length raw) + turns) 0 (chars raw) []
     = extractQuotes raw.
Proof.
  split.
  - intros i s idx c1 c2 rest H.
    destruct (quoteRegex_exec_app _ _ H) as (sk & attr & Hs & Hi).
    rewrite Hs, !length_app. simpl. lia.
  - unfold extractQuotes. destruct (String.eqb raw "") eqn:E.
    + apply String.eqb_eq in E. subst raw. reflexivity.
    + apply extract_loop_fuel; rewrite chars_length; lia.
Qed.

End ContentMore.
(* ===================================================================== *)
(** * Content markup: what processContentFormatting renders *)
(* ===================================================================== *)

Module MarkupMore.
Import Formatter FormatterFacts Markup.

(** ** Text without an opening bracket *)

Definition plain (l : list ascii) : Prop :=
  forallb (fun c => negb (Ascii.eqb c "[")) l = true.

Lemma plain_app a b : plain a -> plain b -> plain (a ++ b).
Proof. unfold plain. intros Ha Hb. now rewrite forallb_app, Ha, Hb. Qed.

Lemma plain_cons c l : plain (c :: l) -> Ascii.eqb c "[" = false /\ plain l.
Proof.
  unfold plain. cbn [forallb]. intros H.
  apply andb_true_iff in H. destruct H as (Hc & Hl).
  split; [now apply negb_true_iff in Hc | exact Hl].
Qed.

(** ** The loop of replace *)

(** A rule whose matches are never empty. *)
Definition consumes (r : rule) : Prop :=
  forall s replacement rest,
    r s = Some (replacement, rest) -> (List.length rest < List.length s)%nat.

Lemma replace_loop_fuel r :
  consumes r ->
  forall f1 f2 s,
    (List.length s < f1)%nat -> (List.length s < f2)%nat ->
    replace_loop f1 r s = replace_loop f2 r s.
Proof.
  intros Hr. induction f1 as [|f1 IH]; intros f2 s H1 H2; [lia|].
  destruct f2 as [|f2]; [lia|]. cbn [replace_loop].
  destruct (r s) as [[replacement rest]|] eqn:E.
  - apply Hr in E. f_equal. apply IH; lia.
  - destruct s as [|c s]; [reflexivity|]. cbn [List.length] in *.
    f_equal. apply IH; lia.
Qed.

(** One turn of the search. *)
Lemma replace_all_eq r s :
  consumes r ->
  replace_all r s
  = match r s with
    | Some (replacement, rest) => replacement ++ replace_all r rest
    | None =>
        match s with
        | [] => []
        | c :: s' => c :: replace_all r s'
        end
    end.
Proof.
  intros Hr. unfold replace_all.
  change (replace_loop (S (List.length s)) r s)
    with (match r s with
          | Some (replacement, rest) =>
              replacement ++ replace_loop (List.length s) r rest
          | None =>
              match s with
              | [] => []
              | c :: s' => c :: replace_loop (List.length s) r s'
              end
          end).
  destruct (r s) as [[replacement rest]|] eqn:E.
  - apply Hr in E. f_equal. apply replace_loop_fuel; [exact Hr | lia | lia].
  - destruct s as [|c s]; reflexivity.
Qed.

(** ** Text a pattern cannot start in *)

(** The literal [o] differs from [post] at a position both have. *)
Fixpoint clash (o post : list ascii) : bool :=
  match o, post with
  | a :: o', b :: post' => if Ascii.eqb a b then clash o' post' else true
  | _, _ => false
  end.

Lemma clash_sound : forall o post rest,
  clash o post = true -> strip_prefix o (post ++ rest) = None.
Proof.
  induction o as [|a o IH]; intros post rest H; [discriminate|].
  destruct post as [|b post]; [discriminate|].
  cbn [clash] in H. cbn [app strip_prefix].
  destruct (Ascii.eqb a b); [now apply IH | reflexivity].
Qed.

(** The non-empty suffixes. *)
Fixpoint suffixes (l : list ascii) : list (list ascii) :=
  match l with
  | [] => []
  | _ :: l' => l :: suffixes l'
  end.

(** No match of a pattern that begins with the literal [o] starts inside
    [chunk], whatever follows it. *)
Definition inert (o chunk : list ascii) : Prop :=
  forall post, In post (suffixes chunk) ->
    forall rest, strip_prefix o (post ++ rest) = None.

Lemma inert_nil o : inert o [].
Proof. intros post []. Qed.

Lemma inert_literal o chunk :
  forallb (clash o) (suffixes chunk) = true -> inert o chunk.
Proof.
  intros H post Hin rest. rewrite forallb_forall in H.
  now apply clash_sound, H.
Qed.

Lemma suffixes_app a b post :
  In post (suffixes (a ++ b)) ->
  (exists post', In post' (suffixes a) /\ post = post' ++ b)
  \/ In post (suffixes b).
Proof.
  induction a as [|c a IH]; cbn [app suffixes]; [now right|].
  intros [H|H].
  - left. exists (c :: a). split; [now left | now symmetry].
  - destruct (IH H) as [(post' & Hin & ->)|Hb]; [|now right].
    left. exists post'. split; [now right | reflexivity].
Qed.

Lemma inert_app o a b : inert o a -> inert o b -> inert o (a ++ b).
Proof.
  intros Ha Hb post Hin rest.
  apply suffixes_app in Hin. destruct Hin as [(post' & Hin & ->)|Hin].
  - rewrite <- app_assoc. now apply Ha.
  - now apply Hb.
Qed.

Lemma inert_plain o t : plain t -> inert ("["%char :: o) t.
Proof.
  induction t as [|c t IH]; intros Hp; [apply inert_nil|].
  apply plain_cons in Hp. destruct Hp as (Hc & Ht).
  intros post [<-|Hin] rest.
  - cbn [app strip_prefix]. rewrite Ascii.eqb_sym, Hc. reflexivity.
  - now apply IH.
Qed.

(** A rule that begins with the literal [o]. *)
Definition begins_with (o : list ascii) (r : rule) : Prop :=
  forall s, strip_prefix o s = None -> r s = None.

(** The search passes over inert text. *)
Lemma replace_all_inert o r chunk rest :
  consumes r -> begins_with o r -> inert o chunk ->
  replace_all r (chunk ++ rest) = chunk ++ replace_all r rest.
Proof.
  intros Hc Hb. induction chunk as [|c chunk IH]; intros Hi; [reflexivity|].
  rewrite replace_all_eq by exact Hc.
  rewrite (Hb (((c :: chunk) ++ rest))) by (apply Hi; now left).
  cbn [app]. f_equal. apply IH.
  intros post Hin. apply Hi. now right.
Qed.

(** ** The patterns *)

Lemma strip_prefix_same p rest : strip_prefix p (p ++ rest) = Some rest.
Proof.
  induction p as [|a p IH]; [now destruct rest|].
  cbn [app strip_prefix]. now rewrite Ascii.eqb_refl.
Qed.

Lemma lazy_until_eq stop s :
  lazy_until stop s
  = match strip_prefix stop s with
    | Some rest => Some ([], rest)
    | None =>
        match s with
        | [] => None
        | c :: s' =>
            match lazy_until stop s' with
            | Some (body, rest) => Some (c :: body, rest)
            | None => None
            end
        end
    end.
Proof. now destruct s. Qed.

Lemma lazy_until_plain stop body rest :
  plain body ->
  lazy_until ("["%char :: stop) (body ++ ("["%char :: stop) ++ rest)
  = Some (body, rest).
Proof.
  induction body as [|c body IH]; intros Hp; rewrite lazy_until_eq.
  - cbn [app]. change ("["%char :: stop ++ rest) with (("["%char :: stop) ++ rest).
    now rewrite strip_prefix_same.
  - apply plain_cons in Hp. destruct Hp as (Hc & Hb).
    rewrite <- app_comm_cons. cbn [strip_prefix]. rewrite Ascii.eqb_sym, Hc.
    now rewrite (IH Hb).
Qed.

Lemma span_until f name c rest :
  forallb f name = true -> f c = false ->
  span f (name ++ c :: rest) = (name, c :: rest).
Proof.
  intros Hn Hc. induction name as [|d name IH]; cbn [app span].
  - now rewrite Hc.
  - cbn [forallb] in Hn. apply andb_true_iff in Hn. destruct Hn as (Hd & Hn).
    now rewrite Hd, (IH Hn).
Qed.

(** The five blocks without an attribute. *)
Inductive block_kind : Type := Quote | Highlight | Bold | Italic | Heading.

Definition tag_of (k : block_kind) : string :=
  match k with
  | Quote => "QUOTE" | Highlight => "HIGHLIGHT" | Bold => "BOLD"
  | Italic => "ITALIC" | Heading => "HEADING"
  end.

Definition rule_of (k : block_kind) : rule :=
  match k with
  | Quote => quote_rule | Highlight => highlight_rule | Bold => bold_rule
  | Italic => italic_rule | Heading => heading_rule
  end.

(** What the page shows before and after the body of a block. *)
Definition before_of (k : block_kind) : list ascii :=
  match k with
  | Quote =>
      chars "<blockquote "
      ++ attribute (chars "class") (chars "news-large-quote") ++ chars ">"
  | Highlight =>
      chars "<span " ++ attribute (chars "class") (chars "news-highlight")
      ++ chars ">"
  | Bold => chars "<strong>"
  | Italic => chars "<em>"
  | Heading =>
      chars "<h3 " ++ attribute (chars "class") (chars "content-heading")
      ++ chars ">"
  end.

Definition after_of (k : block_kind) : list ascii :=
  match k with
  | Quote => chars "</blockquote>"
  | Highlight => chars "</span>"
  | Bold => chars "</strong>"
  | Italic => chars "</em>"
  | Heading => chars "</h3>"
  end.

Definition open_of (k : block_kind) : list ascii := chars ("[" ++ tag_of k ++ "]").
Definition close_of (k : block_kind) : list ascii := chars ("[/" ++ tag_of k ++ "]").

(** The literal a quote with a sayer begins with. *)
Definition said_open : list ascii := chars "[QUOTE sayer=" ++ [dquote].

(** A piece of a body: text, a quote with a sayer, or a block. *)
Inductive segment : Type :=
| Text (t : list ascii)
| Said (name body : list ascii)
| Block (k : block_kind) (body : list ascii).

(** The piece as the editor writes it. *)
Definition source (seg : segment) : list ascii :=
  match seg with
  | Text t => t
  | Said name body =>
      said_open ++ name ++ dquote :: chars "]" ++ body ++ chars "[/QUOTE]"
  | Block k body => open_of k ++ body ++ close_of k
  end.

(** The piece as the page shows it. *)
Definition html (seg : segment) : list ascii :=
  match seg with
  | Text t => t
  | Said name body => said_quote_html name body
  | Block k body => before_of k ++ body ++ after_of k
  end.

(** Text, names and bodies hold no opening bracket, and a name no double
    quote. *)
Definition well_formed (seg : segment) : Prop :=
  match seg with
  | Text t => plain t
  | Said name body =>
      plain name /\ forallb not_dquote name = true /\ plain body
  | Block _ body => plain body
  end.

(** The passes, in the order of the source: the quotes with a sayer,
    then the five blocks. *)
Definition pass (n : nat) : rule :=
  match n with
  | 0%nat => said_quote_rule
  | 1%nat => rule_of Quote
  | 2%nat => rule_of Highlight
  | 3%nat => rule_of Bold
  | 4%nat => rule_of Italic
  | _ => rule_of Heading
  end.

(** The literal pass [n] begins with. *)
Definition opening (n : nat) : list ascii :=
  match n with
  | 0%nat => said_open
  | 1%nat => open_of Quote
  | 2%nat => open_of Highlight
  | 3%nat => open_of Bold
  | 4%nat => open_of Italic
  | _ => open_of Heading
  end.

(** The pass that renders a piece. *)
Definition turn (seg : segment) : nat :=
  match seg with
  | Text _ => 0%nat
  | Said _ _ => 0%nat
  | Block Quote _ => 1%nat
  | Block Highlight _ => 2%nat
  | Block Bold _ => 3%nat
  | Block Italic _ => 4%nat
  | Block Heading _ => 5%nat
  end.

(** The piece before pass [n]. *)
Definition view (n : nat) (seg : segment) : list ascii :=
  if (turn seg <? n)%nat then html seg else source seg.

Lemma rule_of_block k :
  rule_of k = block_rule (tag_of k) (before_of k) (after_of k).
Proof. now destruct k. Qed.

Lemma block_rule_consumes tag before after :
  consumes (block_rule tag before after).
Proof.
  intros s replacement rest. unfold block_rule.
  destruct (strip_prefix _ s) as [r|] eqn:E1; [|discriminate].
  destruct (lazy_until _ r) as [[body rest']|] eqn:E2; [|discriminate].
  intros H. injection H as _ <-.
  apply strip_prefix_app in E1. apply lazy_until_app in E2. subst s r.
  rewrite !length_app. cbn [chars list_ascii_of_string append List.length]. lia.
Qed.

Lemma said_quote_rule_consumes : consumes said_quote_rule.
Proof.
  intros s replacement rest. unfold said_quote_rule.
  destruct (strip_prefix _ s) as [r1|] eqn:E1; [|discriminate].
  destruct (span not_dquote r1) as [name r2] eqn:E2.
  destruct (strip_prefix _ r2) as [r3|] eqn:E3; [|discriminate].
  destruct (lazy_until _ r3) as [[body rest']|] eqn:E4; [|discriminate].
  intros H. injection H as _ <-.
  apply strip_prefix_app in E1, E3. apply span_app in E2.
  apply lazy_until_app in E4. subst s r1 r2 r3.
  rewrite !length_app. cbn [List.length]. lia.
Qed.

Lemma pass_consumes n : consumes (pass n).
Proof.
  do 5 (destruct n as [|n]; [first [apply said_quote_rule_consumes
                                   | cbn [pass]; rewrite rule_of_block;
                                     apply block_rule_consumes]|]).
  cbn [pass]. rewrite rule_of_block. apply block_rule_consumes.
Qed.

Lemma pass_begins n : begins_with (opening n) (pass n).
Proof.
  intros s H.
  do 5 (destruct n as [|n];
        [cbn [pass opening rule_of] in *;
         first [unfold said_quote_rule; unfold said_open in H; now rewrite H
               | unfold quote_rule, highlight_rule, bold_rule, italic_rule,
                   heading_rule, block_rule;
                 unfold open_of, tag_of in H; now rewrite H]|]).
  cbn [pass opening rule_of] in *. unfold heading_rule, block_rule.
  unfold open_of, tag_of in H. now rewrite H.
Qed.

(** A block the pass of its turn renders. *)
Lemma block_rule_renders k body rest :
  plain body ->
  rule_of k (open_of k ++ body ++ close_of k ++ rest)
  = Some (before_of k ++ body ++ after_of k, rest).
Proof.
  intros Hp. rewrite rule_of_block. unfold block_rule.
  fold (open_of k). rewrite strip_prefix_same.
  fold (close_of k).
  assert (E : exists stop, close_of k = "["%char :: stop) by (destruct k; eexists; reflexivity).
  destruct E as (stop & E). rewrite E.
  now rewrite (lazy_until_plain _ _ Hp).
Qed.

Lemma said_quote_renders name body rest :
  forallb not_dquote name = true -> plain body ->
  said_quote_rule
    (said_open ++ name ++ dquote :: chars "]" ++ body ++ chars "[/QUOTE]" ++ rest)
  = Some (said_quote_html name body, rest).
Proof.
  intros Hn Hp. unfold said_quote_rule. fold said_open.
  rewrite strip_prefix_same.
  rewrite span_until;
    [| exact Hn | unfold not_dquote; now rewrite Ascii.eqb_refl].
  change (dquote :: chars "]" ++ body ++ chars "[/QUOTE]" ++ rest)
    with ((dquote :: chars "]") ++ body ++ chars "[/QUOTE]" ++ rest).
  rewrite strip_prefix_same.
  change (chars "[/QUOTE]") with ("["%char :: chars "/QUOTE]").
  now rewrite (lazy_until_plain _ _ Hp).
Qed.

(** ** What a pass leaves alone *)

(** The literals of the markup and of the page, against the opening of
    each pass. *)
Lemma literals_inert n :
  (n <= 5)%nat ->
  (forall k, turn (Block k []) <> n -> inert (opening n) (open_of k))
  /\ (forall k, inert (opening n) (close_of k))
  /\ (forall k, inert (opening n) (before_of k))
  /\ (forall k, inert (opening n) (after_of k)).
Proof.
  intros Hn.
  do 6 (destruct n as [|n];
        [repeat split; intros k; try (intros Hk); destruct k;
         try (now exfalso; apply Hk);
         apply inert_literal; vm_compute; reflexivity |]).
  lia.
Qed.

Lemma opening_bracket n : exists o, opening n = "["%char :: o.
Proof.
  do 5 (destruct n as [|n]; [eexists; reflexivity|]). eexists; reflexivity.
Qed.

Lemma plain_inert n t : plain t -> inert (opening n) t.
Proof.
  destruct (opening_bracket n) as (o & ->). apply inert_plain.
Qed.

Lemma html_plain seg : well_formed seg -> plain (html seg).
Proof.
  destruct seg as [t|name body|k body]; cbn [well_formed html].
  - easy.
  - intros (Hn & _ & Hb). unfold said_quote_html, attribute.
    repeat (apply plain_app; try assumption; try reflexivity).
  - intros Hb. apply plain_app; [destruct k; reflexivity|].
    apply plain_app; [exact Hb | destruct k; reflexivity].
Qed.

(** A piece that is not rendered by pass [n] passes through it. *)
Lemma view_inert n seg :
  (n <= 5)%nat -> well_formed seg -> turn seg <> n \/ (exists t, seg = Text t) ->
  inert (opening n) (view n seg) /\ view (S n) seg = view n seg.
Proof.
  intros Hn Hw Hturn. unfold view.
  destruct (Nat.ltb_spec (turn seg) n) as [Hlt|Hge].
  - split; [apply plain_inert, html_plain, Hw|].
    destruct (Nat.ltb_spec (turn seg) (S n)); [reflexivity | lia].
  - destruct seg as [t|name body|k body].
    + split; [apply plain_inert; exact Hw|].
      cbn [html source]. now destruct (turn (Text t) <? S n)%nat.
    + cbn [turn] in *. destruct Hturn as [Hturn|(t & Ht)]; [lia | discriminate].
    + destruct Hturn as [Hturn|(t & Ht)]; [|discriminate].
      assert (Hk : turn (Block k []) <> n) by (destruct k; exact Hturn).
      assert (Hgt : (n < turn (Block k body))%nat) by lia.
      destruct (literals_inert Hn) as (Ho & Hc & _).
      split.
      * cbn [source]. apply inert_app; [now apply Ho|].
        apply inert_app; [apply plain_inert; exact Hw | apply Hc].
      * destruct (Nat.ltb_spec (turn (Block k body)) (S n)); [lia | reflexivity].
Qed.

Lemma pass_nil n : replace_all (pass n) [] = [].
Proof.
  rewrite replace_all_eq by apply pass_consumes.
  rewrite (@pass_begins n []); [reflexivity|].
  destruct (opening_bracket n) as (o & ->). reflexivity.
Qed.

(** Pass [n] renders the pieces of its turn and leaves the others. *)
Lemma pass_renders n : forall doc,
  (n <= 5)%nat -> Forall well_formed doc ->
  replace_all (pass n) (flat_map (view n) doc) = flat_map (view (S n)) doc.
Proof.
  intros doc Hn. induction doc as [|seg doc IH]; intros Hw.
  { apply pass_nil. }
  inversion Hw as [|? ? Hseg Hdoc]; subst.
  cbn [flat_map].
  assert (Hcases : (turn seg <> n \/ exists t, seg = Text t)
                   \/ (turn seg = n /\ forall t, seg <> Text t)).
  { destruct seg as [t|name body|k body].
    - left. right. now exists t.
    - destruct (Nat.eq_dec (turn (Said name body)) n); [right | left; left];
        [split; [assumption | discriminate] | assumption].
    - destruct (Nat.eq_dec (turn (Block k body)) n); [right | left; left];
        [split; [assumption | discriminate] | assumption]. }
  destruct Hcases as [Hother|(Hturn & Hnot)].
  - destruct (view_inert Hn Hseg Hother) as (Hi & ->).
    rewrite (replace_all_inert _ (pass_consumes n) (@pass_begins n) Hi).
    now rewrite IH.
  - assert (Hv : view n seg = source seg).
    { unfold view. rewrite Hturn. now rewrite Nat.ltb_irrefl. }
    assert (Hv' : view (S n) seg = html seg).
    { unfold view. rewrite Hturn.
      destruct (Nat.ltb_spec n (S n)); [reflexivity | lia]. }
    rewrite Hv, Hv', replace_all_eq by apply pass_consumes.
    destruct seg as [t|name body|k body].
    + now exfalso; apply (Hnot t).
    + cbn [turn] in Hturn. subst n. cbn [pass source html].
      destruct Hseg as (_ & Hname & Hbody).
      rewrite <- !app_assoc. cbn [app].
      rewrite <- !app_assoc.
      rewrite (said_quote_renders _ _ Hname Hbody).
      change said_quote_rule with (pass 0). now rewrite IH.
    + assert (Hp : pass n = rule_of k).
      { destruct k; cbn [turn] in Hturn; subst n; reflexivity. }
      rewrite Hp. cbn [source html well_formed] in *.
      rewrite <- !app_assoc.
      rewrite (block_rule_renders k _ Hseg).
      rewrite <- Hp, IH by assumption. now rewrite <- !app_assoc.
Qed.

Lemma view_source doc : flat_map (view 0) doc = flat_map source doc.
Proof. reflexivity. Qed.

Lemma view_html doc : flat_map (view 6) doc = flat_map html doc.
Proof.
  induction doc as [|seg doc IH]; [reflexivity|].
  cbn [flat_map]. rewrite IH. f_equal.
  unfold view. now destruct seg as [| |[]].
Qed.

(** processContentFormatting renders a body piece by piece. For a body
    written as a sequence of pieces, each a text, a quote with a sayer
    or a QUOTE, HIGHLIGHT, BOLD, ITALIC or HEADING block, where texts,
    names and bodies hold no opening bracket and a name no double quote,
    processedContent is the sequence of the pieces as the page shows
    them: a text as it is, a block as its body between the tags of its
    kind. The body is copied as it is, nothing in it is escaped; and
    rawContent is the content. *)
Theorem formatting_renders_pieces (doc : list segment) :
  Forall well_formed doc ->
  processContentFormatting (string_of_list_ascii (flat_map source doc))
  = (string_of_list_ascii (flat_map html doc),
     string_of_list_ascii (flat_map source doc)).
Proof.
  intros Hw. unfold processContentFormatting.
  destruct (String.eqb _ "") eqn:E.
  - apply String.eqb_eq in E. rewrite E.
    assert (Hs : flat_map source doc = []).
    { apply (f_equal chars) in E. now rewrite chars_of_list in E. }
    assert (Hh : flat_map html doc = []).
    { clear - Hs. induction doc as [|seg doc IH]; [reflexivity|].
      cbn [flat_map] in *. apply app_eq_nil in Hs. destruct Hs as (H1 & H2).
      rewrite (IH H2), app_nil_r.
      destruct seg as [t|name body|k body]; [exact H1 | discriminate|].
      destruct k; discriminate. }
    now rewrite Hh.
  - f_equal. f_equal. rewrite chars_of_list.
    rewrite <- view_source, <- view_html.
    change said_quote_rule with (pass 0).
    change quote_rule with (pass 1). change highlight_rule with (pass 2).
    change bold_rule with (pass 3). change italic_rule with (pass 4).
    change heading_rule with (pass 5).
    now rewrite !pass_renders by (assumption || lia).
Qed.

(** A body with a quote, a sentence in bold and a line of text. *)
Lemma formatting_renders_pieces_witness :
  fst (processContentFormatting "Hi [BOLD]a < b[/BOLD] and [ITALIC]c[/ITALIC].")
  = "Hi <strong>a < b</strong> and <em>c</em>."%string.
Proof.
  assert (Hw : Forall well_formed
                 [Text (chars "Hi "); Block Bold (chars "a < b");
                  Text (chars " and "); Block Italic (chars "c");
                  Text (chars ".")]) by (repeat constructor).
  pose proof (formatting_renders_pieces Hw) as H.
  apply (f_equal fst) in H. exact H.
Defined.

(** ** Markers that are never closed *)

(** [s.includes(needle)] *)
Fixpoint includes (needle s : list ascii) : bool :=
  match strip_prefix needle s with
  | Some _ => true
  | None =>
      match s with
      | [] => false
      | _ :: s' => includes needle s'
      end
  end.

Lemma includes_eq needle s :
  includes needle s
  = match strip_prefix needle s with
    | Some _ => true
    | None =>
        match s with
        | [] => false
        | _ :: s' => includes needle s'
        end
    end.
Proof. now destruct s. Qed.

Lemma includes_app needle pre post :
  includes needle (pre ++ needle ++ post) = true.
Proof.
  induction pre as [|c pre IH]; rewrite includes_eq.
  - cbn [app]. now rewrite strip_prefix_same.
  - rewrite <- app_comm_cons. now destruct (strip_prefix needle _).
Qed.

Lemma includes_holds needle s :
  (exists pre post, s = pre ++ needle ++ post) -> includes needle s = true.
Proof. intros (pre & post & ->). apply includes_app. Qed.

Lemma includes_tail needle c s :
  includes needle (c :: s) = false -> includes needle s = false.
Proof.
  rewrite includes_eq. now destruct (strip_prefix needle (c :: s)).
Qed.

(** Every pattern needs a closing marker. *)
Lemma pass_needs_close n s replacement rest :
  pass n s = Some (replacement, rest) -> includes (chars "[/") s = true.
Proof.
  assert (Hblock : forall tag before after,
            block_rule tag before after s = Some (replacement, rest) ->
            includes (chars "[/") s = true).
  { intros tag before after. unfold block_rule.
    destruct (strip_prefix _ s) as [r|] eqn:E1; [|discriminate].
    destruct (lazy_until _ r) as [[body rest']|] eqn:E2; [|discriminate].
    intros _. apply strip_prefix_app in E1. apply lazy_until_app in E2.
    subst s r. apply includes_holds.
    exists (chars ("[" ++ tag ++ "]") ++ body), (chars (tag ++ "]") ++ rest').
    rewrite <- !app_assoc. reflexivity. }
  destruct n as [|n].
  2: { do 4 (destruct n as [|n];
             [cbn [pass]; rewrite rule_of_block; apply Hblock|]).
       cbn [pass]. rewrite rule_of_block. apply Hblock. }
  cbn [pass]. unfold said_quote_rule.
  destruct (strip_prefix _ s) as [r1|] eqn:E1; [|discriminate].
  destruct (span not_dquote r1) as [name r2] eqn:E2.
  destruct (strip_prefix _ r2) as [r3|] eqn:E3; [|discriminate].
  destruct (lazy_until _ r3) as [[body rest']|] eqn:E4; [|discriminate].
  intros _. apply strip_prefix_app in E1, E3. apply span_app in E2.
  apply lazy_until_app in E4. subst s r1 r2 r3.
  apply includes_holds.
  exists ((chars "[QUOTE sayer=" ++ [dquote]) ++ name ++ (dquote :: chars "]") ++ body),
    (chars "QUOTE]" ++ rest').
  rewrite <- !app_assoc. reflexivity.
Qed.

Lemma pass_unclosed n : forall s,
  includes (chars "[/") s = false -> replace_all (pass n) s = s.
Proof.
  induction s as [|c s IH]; intros H; [apply pass_nil|].
  rewrite replace_all_eq by apply pass_consumes.
  destruct (pass n (c :: s)) as [[replacement rest]|] eqn:E.
  - apply pass_needs_close in E. congruence.
  - f_equal. apply IH. now apply includes_tail in H.
Qed.

(** Markers that are never closed stay in the page. A body in which no
    closing marker begins (it nowhere holds the two characters of the
    start of a closing marker) is given back as it is: processedContent
    and rawContent are both the content, whatever opening markers it
    holds. *)
Theorem unclosed_markers_stay (content : string) :
  includes (chars "[/") (chars content) = false ->
  processContentFormatting content = (content, content).
Proof.
  intros H. unfold processContentFormatting.
  destruct (String.eqb content "") eqn:E.
  - apply String.eqb_eq in E. now subst content.
  - change said_quote_rule with (pass 0).
    change quote_rule with (pass 1). change highlight_rule with (pass 2).
    change bold_rule with (pass 3). change italic_rule with (pass 4).
    change heading_rule with (pass 5).
    rewrite (@pass_unclosed 0 _ H), (@pass_unclosed 1 _ H),
      (@pass_unclosed 2 _ H), (@pass_unclosed 3 _ H),
      (@pass_unclosed 4 _ H), (@pass_unclosed 5 _ H).
    now rewrite of_list_chars.
Qed.

Lemma unclosed_markers_stay_witness :
  processContentFormatting "[BOLD]never closed [QUOTE] a / b"
  = ("[BOLD]never closed [QUOTE] a / b", "[BOLD]never closed [QUOTE] a / b")%string.
Proof. apply unclosed_markers_stay. reflexivity. Defined.

End MarkupMore.
(* ===================================================================== *)
(** * The surfaces: the page window *)
(* ===================================================================== *)

Module SurfaceMore.
Import Surface.

Lemma ceil_div_bounds t l :
  0 < l -> (- ((- t) / l) - 1) * l < t <= - ((- t) / l) * l.
Proof.
  intros Hl.
  pose proof (Z.div_mod (- t) l ltac:(lia)) as Hdm.
  pose proof (Z.mod_pos_bound (- t) l Hl) as Hmod.
  nia.
Qed.



(** ** The trending score ranks by age *)

Section Ranking.
Local Open Scope Q_scope.
Import SurfaceClaims.

Lemma spec_decay_antitone h1 h2 : h1 <= h2 -> spec_decay h2 <= spec_decay h1.
Proof.
  intros H. unfold spec_decay.
  repeat match goal with
         | |- context [Qlt_le_dec ?a ?b] => destruct (Qlt_le_dec a b)
         end; lra.
Qed.

Lemma spec_decay_bounds h : 0.2 <= spec_decay h <= 3.0.
Proof.
  unfold spec_decay.
  repeat match goal with
         | |- context [Qlt_le_dec ?a ?b] => destruct (Qlt_le_dec a b)
         end; lra.
Qed.

(** The trending score of both surfaces ranks articles of equal
    engagement by age: of two published articles with the same weighted
    counters, not negative, the one published earlier never scores above
    the one published later. The boost lies between 0.2 and 3, so the
    score lies between a fifth of the weighted counters and three times
    them; and an article with no publication time gets the last branch
    of the CASE, a fifth of its weighted counters. *)
Theorem trending_score_ranks_by_age (now : Q) (older younger : news_row)
    (po py : Q) :
  published_at older = Some po ->
  published_at younger = Some py ->
  po <= py ->
  weighted_counters older = weighted_counters younger ->
  (0 <= weighted_counters older)%Z ->
  let e := inject_Z (weighted_counters older) in
  breaking_trending_score now older <= breaking_trending_score now younger
  /\ pinned_trending_score now older <= pinned_trending_score now younger
  /\ e * 0.2 <= breaking_trending_score now older <= e * 3
  /\ (forall n, published_at n = None ->
                 breaking_trending_score now n
                 == inject_Z (weighted_counters n) * 0.2).
Proof.
  intros Ho Hy Hle Hsame Hnn e.
  assert (He : 0 <= e).
  { unfold e. rewrite <- (Qmult_0_l 0).
    change (0 * 0) with (inject_Z 0). rewrite <- Zle_Qle. exact Hnn. }
  assert (Hso : breaking_trending_score now older
                = e * spec_decay ((now - po) / 3600)).
  { unfold breaking_trending_score, hours_ago. rewrite Ho, decay_case_spec.
    reflexivity. }
  assert (Hsy : breaking_trending_score now younger
                = e * spec_decay ((now - py) / 3600)).
  { unfold breaking_trending_score, hours_ago. rewrite Hy, decay_case_spec.
    unfold e. now rewrite Hsame. }
  assert (Hages : (now - py) / 3600 <= (now - po) / 3600).
  { unfold Qdiv. apply Qmult_le_compat_r; [lra | discriminate]. }
  pose proof (spec_decay_antitone Hages) as Hd.
  pose proof (spec_decay_bounds ((now - po) / 3600)) as [Hlo Hhi].
  assert (Hrank : breaking_trending_score now older
                  <= breaking_trending_score now younger).
  { rewrite Hso, Hsy. rewrite !(Qmult_comm e).
    now apply Qmult_le_compat_r. }
  split; [exact Hrank|]. split; [exact Hrank|]. split.
  - rewrite Hso. rewrite !(Qmult_comm e).
    split; (apply Qmult_le_compat_r; [lra | exact He]).
  - intros n Hn. unfold breaking_trending_score, hours_ago. rewrite Hn.
    reflexivity.
Qed.

(** Two articles with the same counters, published thirty hours and half
    an hour before now. *)
Lemma trending_score_ranks_by_age_witness :
  let older := mkNews (Some 10%Z) (Some 2%Z) None (Some 1%Z) (Some 0) in
  let younger := mkNews (Some 10%Z) (Some 2%Z) None (Some 1%Z) (Some 106200) in
  breaking_trending_score 108000 older <= breaking_trending_score 108000 younger
  /\ breaking_trending_score 108000 older == 35 * 0.5
  /\ breaking_trending_score 108000 younger == 35 * 3.
Proof.
  intros older younger.
  destruct (@trending_score_ranks_by_age 108000 older younger 0 106200)
    as (H & _); try reflexivity; try discriminate.
  split; [exact H|]. split; reflexivity.
Defined.

End Ranking.

End SurfaceMore.
(* ===================================================================== *)
(** * Article objects: image urls, tags, defaults *)
(* ===================================================================== *)

Module ArticleMore.
Import Article.

(** An absolute url, as getImageUrl tests it. *)
Definition absolute (u : string) : bool :=
  startsWith "http://" u || startsWith "https://" u.

Lemma prefix_app p u v :
  String.prefix p u = true -> String.prefix p (u ++ v) = true.
Proof.
  revert u. induction p as [|c p IH]; intros u H.
  { now destruct (u ++ v)%string. }
  destruct u as [|d u]; [discriminate|].
  cbn [String.prefix append] in *.
  destruct (Ascii.ascii_dec c d); [now apply IH | discriminate].
Qed.

Lemma absolute_app u v : absolute u = true -> absolute (u ++ v) = true.
Proof.
  unfold absolute, startsWith. intros H.
  apply orb_true_iff in H. apply orb_true_iff.
  destruct H as [H|H]; [left|right]; now apply prefix_app.
Qed.

Lemma drop_last_slash b :
  endsWith_slash b = true -> (drop_last b ++ "/")%string = b.
Proof.
  unfold endsWith_slash, drop_last. intros H.
  rewrite <- (string_of_list_ascii_of_string b) at 2.
  set (l := list_ascii_of_string b) in *.
  destruct (rev l) as [|c r] eqn:E; [discriminate|].
  apply Ascii.eqb_eq in H. subst c.
  assert (Hl : l = rev r ++ ["/"%char]).
  { rewrite <- (rev_involutive l), E. reflexivity. }
  rewrite Hl, removelast_last.
  clear. induction (rev r) as [|c t IH]; simpl; [reflexivity|].
  now rewrite IH.
Qed.

Lemma absolute_not_empty u : absolute u = true -> truthy (JStr u) = true.
Proof. destruct u; [discriminate | reflexivity]. Qed.

(** getImageUrl settles on absolute urls. When the image service is
    enabled and hands out absolute urls, or is disabled while
    R2_PUBLIC_URL is an absolute url, every stored url (a string or
    null) is answered by null or by an absolute url, and an answer
    passes through getImageUrl unchanged; with the R2 base the answer to
    a relative path starts with the base. A stored url that is already
    absolute is never rewritten, and an empty or missing one is null. *)
Theorem getImageUrl_settles (sv : services) (stored : option string) :
  (isEnabled sv = true -> forall p, absolute (getPublicUrl sv p) = true) ->
  (isEnabled sv = false ->
   exists base, R2_PUBLIC_URL sv = Some base /\ absolute base = true) ->
  let imageUrl := match stored with Some u => JStr u | None => JNull end in
  exists answer,
    getImageUrl sv imageUrl = inr answer
    /\ getImageUrl sv answer = inr answer
    /\ (answer = JNull <-> (stored = None \/ stored = Some ""))
    /\ (forall u, stored = Some u -> absolute u = true -> answer = JStr u)
    /\ (forall u base,
          stored = Some u -> u <> "" -> absolute u = false ->
          isEnabled sv = false -> R2_PUBLIC_URL sv = Some base ->
          exists rest, answer = JStr (base ++ rest) /\ absolute (base ++ rest) = true).
Proof.
  intros Hon Hoff imageUrl.
  assert (Habs : forall a, absolute a = true ->
                   getImageUrl sv (JStr a) = inr (JStr a)).
  { intros a Ha. unfold getImageUrl. rewrite (absolute_not_empty _ Ha).
    cbn [negb]. unfold absolute in Ha. now rewrite Ha. }
  destruct stored as [u|]; unfold imageUrl.
  2: { exists JNull. split; [reflexivity|]. split; [reflexivity|].
       split; [split; [intros _; now left | reflexivity]|].
       split; [intros ? H; discriminate | intros ? ? H; discriminate]. }
  destruct (String.eqb u "") eqn:Hu.
  { apply String.eqb_eq in Hu. subst u. exists JNull.
    split; [reflexivity|]. split; [reflexivity|].
    split; [split; [intros _; now right | reflexivity]|].
    split; [intros ? H Ha; injection H as <-; discriminate
           | intros ? ? H Hn; congruence]. }
  assert (Hne : u <> "") by now apply String.eqb_neq.
  assert (Ht : truthy (JStr u) = true).
  { cbn. now rewrite Hu. }
  assert (Hnull : forall a, JStr a = JNull <-> (Some u = None \/ Some u = Some "")).
  { intros a. split; [discriminate|]. intros [H|H]; congruence. }
  destruct (absolute u) eqn:Hau.
  { exists (JStr u). split; [now apply Habs|]. split; [now apply Habs|].
    split; [apply Hnull|]. split.
    - intros u' Hu' _. congruence.
    - intros u' base Hu' _ Hf. congruence. }
  assert (Hfirst : exists a,
            getImageUrl sv (JStr u) = inr (JStr a) /\ absolute a = true
            /\ (forall base, isEnabled sv = false -> R2_PUBLIC_URL sv = Some base ->
                 exists rest, a = (base ++ rest)%string)).
  { unfold getImageUrl. rewrite Ht. cbn [negb]. unfold absolute in Hau.
    rewrite Hau.
    destruct (isEnabled sv) eqn:Hen.
    { eexists. split; [reflexivity|]. split; [now apply Hon|].
      intros base H. discriminate. }
    destruct (Hoff eq_refl) as (base & HR & Hbase). rewrite HR.
    assert (Hbne : String.eqb base "" = false).
    { destruct base; [discriminate | reflexivity]. }
    rewrite Hbne.
    set (cleanPath := if startsWith "/" u then drop_first u else u).
    assert (Hres : exists rest,
              ((if endsWith_slash base then drop_last base else base)
               ++ "/" ++ cleanPath)%string = (base ++ rest)%string).
    { destruct (endsWith_slash base) eqn:Hs.
      - exists cleanPath.
        rewrite <- (drop_last_slash _ Hs) at 2.
        clear. induction (drop_last base) as [|c t IH]; [reflexivity|].
        cbn [append]. f_equal. exact IH.
      - now exists ("/" ++ cleanPath)%string. }
    destruct Hres as (rest & Hres). rewrite Hres.
    exists (base ++ rest)%string.
    split; [reflexivity|]. split; [now apply absolute_app|].
    intros base' _ HR'. injection HR' as <-. now exists rest. }
  destruct Hfirst as (a & H1 & Ha & Hbase).
  exists (JStr a). split; [exact H1|]. split; [now apply Habs|].
  split; [apply Hnull|]. split.
  - intros u' Hu' Hau'. injection Hu' as <-. congruence.
  - intros u' base _ _ _ Hen HR.
    destruct (Hbase base Hen HR) as (rest & ->).
    exists rest. now split.
Qed.

(** A relative path under a base that ends with a slash. *)
Lemma getImageUrl_settles_witness :
  let sv := mkServices false (fun p => p) (Some "https://cdn.example/") in
  getImageUrl sv (JStr "/uploads/a.jpg")
  = inr (JStr "https://cdn.example/uploads/a.jpg")
  /\ exists answer,
       getImageUrl sv (JStr "/uploads/a.jpg") = inr answer
       /\ getImageUrl sv answer = inr answer.
Proof.
  intros sv. split; [reflexivity|].
  destruct (@getImageUrl_settles sv (Some "/uploads/a.jpg"))
    as (answer & H1 & H2 & _).
  - intros H. discriminate.
  - intros _. exists "https://cdn.example/". now split.
  - exists answer. now split.
Defined.

(** ** Tags *)

(** [pieces.join(',')] of at least one piece. *)
Fixpoint join_commas (p : list ascii) (ps : list (list ascii)) : list ascii :=
  match ps with
  | [] => p
  | q :: qs => p ++ ","%char :: join_commas q qs
  end.

Lemma split_on_not_nil sep s : split_on sep s <> [].
Proof.
  destruct s as [|c s]; [discriminate|].
  cbn [split_on]. destruct (split_on sep s); [discriminate|].
  destruct (Ascii.eqb c sep); discriminate.
Qed.

Lemma split_on_whole sep p : ~ In sep p -> split_on sep p = [p].
Proof.
  induction p as [|c p IH]; intros H; [reflexivity|].
  cbn [split_on]. rewrite IH by (intros F; apply H; now right).
  destruct (Ascii.eqb c sep) eqn:E; [|reflexivity].
  apply Ascii.eqb_eq in E. exfalso. apply H. now left.
Qed.

Lemma split_on_piece sep p rest :
  ~ In sep p -> split_on sep (p ++ sep :: rest) = p :: split_on sep rest.
Proof.
  induction p as [|c p IH]; intros H.
  - cbn [app split_on]. rewrite Ascii.eqb_refl.
    destruct (split_on sep rest) eqn:E; [|reflexivity].
    now apply split_on_not_nil in E.
  - cbn [app split_on]. rewrite IH by (intros F; apply H; now right).
    destruct (Ascii.eqb c sep) eqn:E; [|reflexivity].
    apply Ascii.eqb_eq in E. exfalso. apply H. now left.
Qed.

Lemma split_on_join : forall ps p,
  Forall (fun q => ~ In ","%char q) (p :: ps) ->
  split_on "," (join_commas p ps) = p :: ps.
Proof.
  induction ps as [|q qs IH]; intros p H; cbn [join_commas].
  - apply split_on_whole. now inversion H.
  - inversion H as [|? ? Hp Hrest]; subst.
    rewrite split_on_piece by exact Hp. f_equal. now apply IH.
Qed.

Lemma split_on_pieces sep s : Forall (fun q => ~ In sep q) (split_on sep s).
Proof.
  induction s as [|c s IH]; cbn [split_on].
  - constructor; [intros [] | constructor].
  - destruct (split_on sep s) as [|piece rest] eqn:Es;
      [now apply split_on_not_nil in Es|].
    inversion IH as [|? ? Hp Hrest]; subst.
    destruct (Ascii.eqb c sep) eqn:E.
    + constructor; [intros [] | exact IH].
    + constructor; [|exact Hrest].
      intros [F|F]; [|now apply Hp].
      subst c. now rewrite Ascii.eqb_refl in E.
Qed.

Lemma drop_ws_In c s : In c (drop_ws s) -> In c s.
Proof.
  induction s as [|d s IH]; [easy|]. cbn [drop_ws].
  destruct (is_ws d); [|easy]. intros H. right. now apply IH.
Qed.

Lemma trim_chars_In c s : In c (trim_chars s) -> In c s.
Proof.
  unfold trim_chars. intros H.
  apply in_rev, drop_ws_In in H. rewrite <- in_rev in H.
  now apply drop_ws_In.
Qed.

(** The tags of an article. A tag list that was written by joining
    pieces without commas with commas is read back as those pieces,
    trimmed, without the ones that are blank; and whatever the stored
    string, every tag is non-empty, trimmed and free of commas. *)
Theorem tag_list_reads_joined (p : list ascii) (ps : list (list ascii)) :
  Forall (fun q => ~ In ","%char q) (p :: ps) ->
  tag_list (string_of_list_ascii (join_commas p ps))
  = filter (fun t => negb (String.eqb t ""))
      (map (fun q => string_of_list_ascii (trim_chars q)) (p :: ps))
  /\ (forall stored,
        Forall (fun t => t <> "" /\ trim t = t
                         /\ ~ In ","%char (list_ascii_of_string t))
          (tag_list stored)).
Proof.
  intros H. split.
  - unfold tag_list. rewrite list_ascii_of_string_of_list_ascii.
    now rewrite split_on_join.
  - intros stored. unfold tag_list.
    apply Forall_forall. intros t Ht.
    apply filter_In in Ht. destruct Ht as (Ht & Hne).
    apply in_map_iff in Ht. destruct Ht as (q & <- & Hq).
    split; [|split].
    + intros E. rewrite E in Hne. discriminate.
    + unfold trim. rewrite list_ascii_of_string_of_list_ascii.
      now rewrite ContentMore.trim_chars_idem.
    + rewrite list_ascii_of_string_of_list_ascii. intros F.
      apply trim_chars_In in F.
      pose proof (split_on_pieces ","%char (list_ascii_of_string stored)) as Hall.
      rewrite Forall_forall in Hall. exact (Hall q Hq F).
Qed.

(** A tag string with blanks around the tags and with empty pieces. *)
Lemma tag_list_reads_joined_witness :
  tag_list " a, b ,,c ,  , d e" = ["a"; "b"; "c"; "d e"]%string.
Proof.
  destruct (@tag_list_reads_joined
              (list_ascii_of_string " a")
              (map list_ascii_of_string [" b "; ""; "c "; "  "; " d e"]%string))
    as (H & _).
  - repeat constructor; cbn; intros F;
      repeat (destruct F as [F|F]; [discriminate|]); exact F.
  - exact H.
Defined.

(** ** The article object *)

(** How often a key is written in an object. *)
Definition keys_named (k : string) (l : list (string * jsval)) : nat :=
  List.length (filter (fun p => String.eqb k (fst p)) l).

Lemma lookup_absent k l : keys_named k l = O -> lookup k l = JUndefined.
Proof.
  unfold keys_named. induction l as [|[k' v'] l IH]; [reflexivity|].
  cbn [filter fst lookup]. destruct (String.eqb k k'); [discriminate|].
  intros H. now rewrite IH.
Qed.

Lemma keys_named_In k v l : In (k, v) l -> keys_named k l <> O.
Proof.
  unfold keys_named. induction l as [|[k' v'] l IH]; [easy|].
  cbn [filter fst]. intros [H|H].
  - injection H as -> ->. now rewrite String.eqb_refl.
  - destruct (String.eqb k k'); [discriminate | now apply IH].
Qed.

(** A key that is written once has the value written with it. *)
Lemma lookup_unique k v l :
  keys_named k l = 1%nat -> In (k, v) l -> lookup k l = v.
Proof.
  induction l as [|[k' v'] l IH]; [easy|].
  unfold keys_named in *. cbn [filter fst lookup].
  destruct (String.eqb k k') eqn:E; cbn [List.length].
  - intros Hn Hin. injection Hn as Hn.
    rewrite (lookup_absent _ _ Hn).
    destruct Hin as [Hin|Hin]; [now injection Hin as _ ->|].
    now apply keys_named_In in Hin.
  - intros Hn [Hin|Hin].
    + injection Hin as -> _. now rewrite String.eqb_refl in E.
    + rewrite (IH Hn Hin). now destruct v.
Qed.

(** The value written with the first [k]. *)
Fixpoint first_named (k : string) (l : list (string * jsval)) : option jsval :=
  match l with
  | [] => None
  | (k', v) :: rest => if String.eqb k k' then Some v else first_named k rest
  end.

Lemma first_named_In k v l : first_named k l = Some v -> In (k, v) l.
Proof.
  induction l as [|[k' v'] l IH]; [discriminate|]. cbn [first_named].
  destruct (String.eqb k k') eqn:E.
  - apply String.eqb_eq in E. subst k'. intros H. injection H as ->. now left.
  - intros H. right. now apply IH.
Qed.

Lemma field_unique k v l :
  keys_named k l = 1%nat -> first_named k l = Some v -> field (JObj l) k = v.
Proof. intros Hn Hf. apply lookup_unique; [exact Hn | now apply first_named_In]. Qed.

(** Reads a key of an object whose keys are written out. *)
Ltac read_key :=
  apply field_unique; [vm_compute; reflexivity | lazy; reflexivity].
Ltac same_value := etransitivity; [read_key | symmetry; read_key].

(** The keys that come in two spellings. *)
Definition twins : list (string * string) :=
  [("news_id", "newsId"); ("image_url", "imageUrl");
   ("published_at", "publishedAt"); ("reading_time", "readingTime");
   ("likes_count", "likesCount"); ("comments_count", "commentsCount");
   ("share_count", "shareCount"); ("first_name", "firstName");
   ("last_name", "lastName"); ("category_name", "categoryName");
   ("category_slug", "categorySlug"); ("category_color", "categoryColor");
   ("category_icon", "categoryIcon"); ("meta_description", "metaDescription");
   ("trending_score", "trendingScore"); ("hours_ago", "hoursAgo")]%string.

(** The keys with a default that is not falsy. *)
Definition defaulted : list string :=
  ["reading_time"; "first_name"; "last_name"; "category_name";
   "category_slug"; "category_color"; "category_icon"]%string.

(** The keys that fall back to 0. *)
Definition counted : list string :=
  ["views"; "likes_count"; "comments_count"; "share_count";
   "trending_score"; "hours_ago"]%string.

Definition kind_key (k : surface_kind) : string :=
  match k with Breaking => "breaking" | Pinned => "pinned" end.

Lemma js_or_default a b : truthy b = true -> truthy (js_or a b) = true.
Proof. unfold js_or. now destruct (truthy a) eqn:E. Qed.

Lemma js_or_zero a : js_or a (JNum 0) = JNum 0 \/ truthy (js_or a (JNum 0)) = true.
Proof. unfold js_or. destruct (truthy a) eqn:E; [now right | now left]. Qed.

Lemma getImageUrl_kind sv v r :
  getImageUrl sv v = inr r -> r = JNull \/ exists u, r = JStr u.
Proof.
  unfold getImageUrl. destruct (negb (truthy v)).
  { intros H. injection H as <-. now left. }
  destruct v; try discriminate.
  repeat match goal with
         | |- context [if ?c then _ else _] => destruct c
         | |- context [match ?c with Some _ => _ | None => _ end] => destruct c
         end; intros H; injection H as <-; right; eexists; reflexivity.
Qed.

Lemma tags_of_kind v r :
  tags_of v = inr r -> exists ts, r = JArr (map JStr ts).
Proof.
  unfold tags_of. destruct (negb (truthy v)).
  { intros H. injection H as <-. now exists []. }
  destruct v; try discriminate.
  intros H. injection H as <-. eexists. reflexivity.
Qed.

(** The article object of the surfaces. Whenever normalizeArticle
    returns, the two spellings of every key carry the same value, the
    reading time, the names of the author and the category fields are
    never falsy, a counter is 0 or a truthy value, the tags are an array
    of strings, the image url is null or a string, the id is the one of
    the row, and the block of the surface has its own two spellings of
    the dates and an emoji. *)
Theorem normalizeArticle_contract (sv : services) (k : surface_kind)
    (row out : jsval) :
  normalizeArticle sv k row = inr out ->
  Forall (fun p => field out (fst p) = field out (snd p)) twins
  /\ Forall (fun key => truthy (field out key) = true) defaulted
  /\ Forall (fun key => field out key = JNum 0 \/ truthy (field out key) = true)
       counted
  /\ (exists ts, field out "tags" = JArr (map JStr ts))
  /\ (field out "image_url" = JNull \/ exists u, field out "image_url" = JStr u)
  /\ field out "news_id" = field row "news_id"
  /\ exists block emoji,
       field out (kind_key k) = JObj block
       /\ field (JObj block) "started_at" = field (JObj block) "startedAt"
       /\ field (JObj block) "ends_at" = field (JObj block) "endsAt"
       /\ field (JObj block) "emoji" = JStr emoji /\ emoji <> "".
Proof.
  unfold normalizeArticle. intros H.
  destruct (prop row "news_id") as [news_id|] eqn:Ep; [|discriminate].
  destruct (getImageUrl sv (field row "image_url")) as [|image] eqn:Ei;
    [discriminate|].
  destruct (tags_of (field row "tags")) as [|tags] eqn:Et; [discriminate|].
  cbv zeta in H. injection H as H.
  apply getImageUrl_kind in Ei. apply tags_of_kind in Et.
  assert (Er : field row "news_id" = news_id)
    by (unfold field; now rewrite Ep).
  rewrite Er. clear Er Ep.
  assert (Hblock : exists block, kind_block k row = (kind_key k, JObj block)
            /\ field (JObj block) "started_at" = field (JObj block) "startedAt"
            /\ field (JObj block) "ends_at" = field (JObj block) "endsAt"
            /\ exists emoji, field (JObj block) "emoji" = JStr emoji /\ emoji <> "").
  { destruct k; cbn [kind_block kind_key]; eexists;
      (split; [reflexivity|]);
      (split; [same_value|]); (split; [same_value|]);
      eexists; (split; [read_key|]);
      repeat match goal with
             | |- context [if ?c then _ else _] => destruct c
             end; discriminate. }
  destruct Hblock as (block & Eb & Hs & He & emoji & Hemoji & Hne).
  rewrite Eb in H. clear Eb.
  match type of H with
  | JObj ?l = _ => set (fields := l) in H
  end.
  subst out.
  split.
  { unfold twins. repeat (constructor; [cbn [fst snd]; destruct k; same_value|]).
    constructor. }
  split.
  { unfold defaulted.
    repeat (constructor;
            [etransitivity;
             [apply f_equal; destruct k; read_key
             | apply js_or_default; reflexivity]|]).
    constructor. }
  split.
  { unfold counted.
    repeat (constructor;
            [match goal with
             | |- field ?o ?key = _ \/ _ =>
                 let v := fresh "v" in
                 let E := fresh "E" in
                 evar (v : jsval);
                 assert (E : field o key = v)
                   by (subst v; destruct k; read_key);
                 subst v; rewrite E; apply js_or_zero
             end|]).
    constructor. }
  split.
  { destruct Et as (ts & ->). exists ts. destruct k; read_key. }
  split.
  { match goal with
    | |- field ?o ?key = _ \/ _ =>
        assert (E : field o key = image) by (destruct k; read_key)
    end.
    rewrite E. exact Ei. }
  split; [destruct k; read_key|].
  exists block, emoji.
  split; [destruct k; read_key|].
  split; [exact Hs|]. split; [exact He|]. split; [exact Hemoji | exact Hne].
Qed.

(** A row of the breaking surface with nothing but an id and a path. *)
Lemma normalizeArticle_contract_witness :
  let sv := mkServices false (fun p => p) (Some "https://cdn.example") in
  let row := JObj [("news_id", JNum 7); ("image_url", JStr "a.jpg");
                   ("tags", JStr "x, y")] in
  exists out,
    normalizeArticle sv Breaking row = inr out
    /\ field out "imageUrl" = JStr "https://cdn.example/a.jpg"
    /\ field out "news_id" = field out "newsId".
Proof.
  intros sv row.
  destruct (normalizeArticle sv Breaking row) as [|out] eqn:E;
    [vm_compute in E; discriminate|].
  exists out. split; [reflexivity|].
  destruct (@normalizeArticle_contract sv Breaking row out E) as (Htw & _).
  inversion Htw as [|? ? H1 _]; subst.
  split; [|exact H1].
  vm_compute in E. injection E as <-. reflexivity.
Defined.

(** ** The list of articles *)

(** null, undefined, the empty string, 0, false and NaN, or a string. *)
Definition falsy_or_string (v : jsval) : bool :=
  negb (truthy v) || match v with JStr _ => true | _ => false end.

(** A row that normalizeArticle accepts. *)
Definition presentable (row : jsval) : bool :=
  match row with
  | JUndefined | JNull => false
  | _ => falsy_or_string (field row "image_url")
         && falsy_or_string (field row "tags")
  end.

Lemma getImageUrl_returns sv v :
  (exists r, getImageUrl sv v = inr r) <-> falsy_or_string v = true.
Proof.
  unfold getImageUrl, falsy_or_string.
  destruct (negb (truthy v)) eqn:E; cbn [orb].
  { split; [reflexivity | intros _; eexists; reflexivity]. }
  destruct v; try (split; [intros (r & H); discriminate | discriminate]).
  split; [reflexivity|]. intros _.
  repeat match goal with
         | |- context [if ?c then _ else _] => destruct c
         | |- context [match ?c with Some _ => _ | None => _ end] => destruct c
         end; eexists; reflexivity.
Qed.

Lemma tags_of_returns v :
  (exists r, tags_of v = inr r) <-> falsy_or_string v = true.
Proof.
  unfold tags_of, falsy_or_string.
  destruct (negb (truthy v)) eqn:E; cbn [orb].
  { split; [reflexivity | intros _; eexists; reflexivity]. }
  destruct v; try (split; [intros (r & H); discriminate | discriminate]).
  split; [reflexivity | intros _; eexists; reflexivity].
Qed.

Lemma normalizeArticle_returns sv k row :
  (exists a, normalizeArticle sv k row = inr a) <-> presentable row = true.
Proof.
  unfold normalizeArticle.
  destruct (prop row "news_id") as [news_id|] eqn:Ep.
  2: { destruct row; try discriminate; cbn [presentable];
         (split; [intros (a & H); discriminate | discriminate]). }
  assert (Hp : presentable row
               = falsy_or_string (field row "image_url")
                 && falsy_or_string (field row "tags")).
  { destruct row; try reflexivity; discriminate. }
  rewrite Hp, andb_true_iff, <- (getImageUrl_returns sv), <- tags_of_returns.
  destruct (getImageUrl sv (field row "image_url")) as [e|image].
  { split; [intros (a & H); discriminate
           | intros ((r & H) & _); discriminate]. }
  destruct (tags_of (field row "tags")) as [e|tags].
  { split; [intros (a & H); discriminate
           | intros (_ & (r & H)); discriminate]. }
  split; [intros _; split; eexists; reflexivity
         | intros _; eexists; reflexivity].
Qed.

(** The list of articles is all or nothing. The rows are turned into
    articles exactly when every row is an object whose image url and
    tags are strings or falsy; one row that is not makes the whole map
    throw. When it returns there is one article for each row, in the
    order of the rows and with the id of its row. *)
Theorem normalize_rows_all_or_nothing (sv : services) (k : surface_kind)
    (rows : list jsval) :
  ((exists out, normalize_rows sv k rows = inr out)
   <-> forallb presentable rows = true)
  /\ forall out,
       normalize_rows sv k rows = inr out ->
       Forall2 (fun row a => normalizeArticle sv k row = inr a
                             /\ field a "news_id" = field row "news_id")
         rows out.
Proof.
  split.
  - induction rows as [|row rows IH]; cbn [normalize_rows forallb].
    { split; [reflexivity | intros _; eexists; reflexivity]. }
    rewrite andb_true_iff, <- IH, <- (normalizeArticle_returns sv k).
    destruct (normalizeArticle sv k row) as [e|a].
    { split; [intros (out & H); discriminate
             | intros ((a & H) & _); discriminate]. }
    destruct (normalize_rows sv k rows) as [e|more].
    { split; [intros (out & H); discriminate
             | intros (_ & (out & H)); discriminate]. }
    split; [intros _; split; eexists; reflexivity
           | intros _; eexists; reflexivity].
  - induction rows as [|row rows IH]; intros out H; cbn [normalize_rows] in H.
    { injection H as <-. constructor. }
    destruct (normalizeArticle sv k row) as [e|a] eqn:Ea; [discriminate|].
    destruct (normalize_rows sv k rows) as [e|more]; [discriminate|].
    injection H as <-. constructor; [|now apply IH].
    split; [exact Ea|].
    unfold normalizeArticle in Ea.
    destruct (prop row "news_id") as [news_id|] eqn:Ep; [|discriminate].
    destruct (getImageUrl sv (field row "image_url")); [discriminate|].
    destruct (tags_of (field row "tags")); [discriminate|].
    cbv zeta in Ea. injection Ea as <-.
    assert (Er : field row "news_id" = news_id)
      by (unfold field; now rewrite Ep).
    rewrite Er. destruct k; cbn [kind_block]; read_key.
Qed.

End ArticleMore.

(* ===================================================================== *)
(** * Slugs *)
(* ===================================================================== *)

Module SlugMore.
Import Slug.

(** The characters of a slug: [a-z0-9-]. *)
Definition slug_char (c : ascii) : bool :=
  let n := N_of_ascii c in
  ((97 <=? n) && (n <=? 122) || (48 <=? n) && (n <=? 57))%N
  || Ascii.eqb c "-".

(** No two hyphens side by side. *)
Fixpoint single_hyphens (s : list ascii) : bool :=
  match s with
  | c :: ((d :: _) as s') =>
      negb (Ascii.eqb c "-" && Ascii.eqb d "-") && single_hyphens s'
  | _ => true
  end.

(** The digits of radix 36 that toString writes. *)
Definition digit_char (c : ascii) : bool :=
  let n := N_of_ascii c in
  ((97 <=? n) && (n <=? 122) || (48 <=? n) && (n <=? 57))%N.

Lemma spaces_to_hyphen_chars : forall s b,
  Forall (fun c => kept c = true) s ->
  Forall (fun c => slug_char c = true) (spaces_to_hyphen b s).
Proof.
  induction s as [|c s IH]; intros b H; cbn [spaces_to_hyphen]; [constructor|].
  inversion H as [|? ? Hc Hs]; subst.
  destruct (is_ws c) eqn:Ew.
  - apply Forall_app. split; [|now apply IH].
    destruct b; repeat constructor.
  - constructor; [|now apply IH].
    unfold kept in Hc. unfold slug_char. rewrite Ew in Hc.
    now rewrite orb_false_r in Hc.
Qed.

Lemma collapse_hyphens_chars (P : ascii -> Prop) : forall s b,
  Forall P s -> Forall P (collapse_hyphens b s).
Proof.
  induction s as [|c s IH]; intros b H; cbn [collapse_hyphens]; [constructor|].
  inversion H as [|? ? Hc Hs]; subst.
  destruct (Ascii.eqb c "-") eqn:E.
  - apply Forall_app. split; [|now apply IH].
    destruct b; [constructor|].
    apply Ascii.eqb_eq in E. subst c. constructor; [exact Hc | constructor].
  - constructor; [exact Hc | now apply IH].
Qed.

(** After a hyphen the rest does not start with one. *)
Lemma collapse_hyphens_run s :
  match collapse_hyphens true s with
  | d :: _ => Ascii.eqb d "-" = false
  | [] => True
  end.
Proof.
  induction s as [|c s IH]; cbn [collapse_hyphens]; [exact I|].
  destruct (Ascii.eqb c "-") eqn:E; [exact IH | exact E].
Qed.

Lemma single_hyphens_cons c d t :
  single_hyphens (c :: d :: t)
  = negb (Ascii.eqb c "-" && Ascii.eqb d "-") && single_hyphens (d :: t).
Proof. reflexivity. Qed.

Lemma collapse_hyphens_single : forall s b,
  single_hyphens (collapse_hyphens b s) = true.
Proof.
  induction s as [|c s IH]; intros b; cbn [collapse_hyphens]; [reflexivity|].
  destruct (Ascii.eqb c "-") eqn:E.
  - destruct b; cbn [app]; [apply IH|].
    pose proof (collapse_hyphens_run s) as Hrun.
    specialize (IH true).
    destruct (collapse_hyphens true s) as [|d t]; [reflexivity|].
    rewrite single_hyphens_cons, Hrun, IH. reflexivity.
  - specialize (IH false).
    destruct (collapse_hyphens false s) as [|d t]; [reflexivity|].
    rewrite single_hyphens_cons, E, IH. reflexivity.
Qed.

Lemma single_hyphens_firstn : forall n s,
  single_hyphens s = true -> single_hyphens (firstn n s) = true.
Proof.
  induction n as [|n IH]; intros s H; [reflexivity|].
  destruct s as [|c s]; [reflexivity|].
  destruct s as [|d s]; [destruct n; reflexivity|].
  rewrite single_hyphens_cons in H.
  apply andb_true_iff in H. destruct H as (H1 & H2).
  specialize (IH (d :: s) H2).
  destruct n as [|n]; [reflexivity|].
  change (firstn (S (S n)) (c :: d :: s)) with (c :: d :: firstn n s).
  change (firstn (S n) (d :: s)) with (d :: firstn n s) in IH.
  now rewrite single_hyphens_cons, H1, IH.
Qed.

Lemma firstn_chars (P : ascii -> Prop) : forall n s,
  Forall P s -> Forall P (firstn n s).
Proof.
  induction n as [|n IH]; intros s H; [constructor|].
  destruct s as [|c s]; [constructor|].
  inversion H; subst. cbn [firstn]. constructor; [assumption | now apply IH].
Qed.

(** ** The time stamp in radix 36 *)

Definition value36 (c : ascii) : Z :=
  match digit_val c with Some d => d | None => 0 end.

Definition number36 (l : list ascii) (a : Z) : Z :=
  fold_left (fun a c => a * 36 + value36 c) l a.

Lemma digit36_value d :
  (d < 36)%N ->
  digit_char (digit36 d) = true /\ digit_val (digit36 d) = Some (Z.of_N d).
Proof.
  intros H.
  assert (Hall : forallb (fun n =>
            digit_char (digit36 (N.of_nat n))
            && match digit_val (digit36 (N.of_nat n)) with
               | Some v => v =? Z.of_nat n
               | None => false
               end) (seq 0 36) = true) by (vm_compute; reflexivity).
  rewrite forallb_forall in Hall.
  specialize (Hall (N.to_nat d)).
  replace (N.of_nat (N.to_nat d)) with d in Hall by lia.
  replace (Z.of_nat (N.to_nat d)) with (Z.of_N d) in Hall by lia.
  assert (Hin : In (N.to_nat d) (seq 0 36)) by (apply in_seq; lia).
  apply Hall in Hin. apply andb_true_iff in Hin. destruct Hin as (H1 & H2).
  split; [exact H1|].
  destruct (digit_val (digit36 d)) as [v|]; [|discriminate].
  apply Z.eqb_eq in H2. now f_equal.
Qed.

Lemma digit_char_value c :
  digit_char c = true -> exists d, digit_val c = Some d /\ 0 <= d < 36.
Proof.
  unfold digit_char, digit_val. cbv zeta.
  generalize (N_of_ascii c). intros n H.
  assert (Hn : (97 <= n <= 122)%N \/ (48 <= n <= 57)%N).
  { apply orb_true_iff in H. destruct H as [H|H];
      apply andb_true_iff in H; destruct H as (Ha & Hb);
      apply N.leb_le in Ha, Hb; [left|right]; now split. }
  clear H.
  destruct (Z.leb_spec 48 (Z.of_N n)), (Z.leb_spec (Z.of_N n) 57);
    cbn [andb]; try (eexists; split; [reflexivity|]; lia);
    destruct (Z.leb_spec 97 (Z.of_N n)), (Z.leb_spec (Z.of_N n) 122);
    cbn [andb]; try (eexists; split; [reflexivity|]; lia);
    exfalso; lia.
Qed.

Lemma digits_number36 : forall l a,
  Forall (fun c => digit_char c = true) l ->
  digits 36 (Some a) l = Some (number36 l a).
Proof.
  induction l as [|c l IH]; intros a H; [reflexivity|].
  inversion H as [|? ? Hc Hl]; subst.
  destruct (digit_char_value _ Hc) as (d & Hd & Hr).
  cbn [digits number36 fold_left]. unfold value36. rewrite Hd.
  replace (d <? 36) with true by lia.
  now apply IH.
Qed.

Lemma digits_number36_start l :
  l <> [] -> Forall (fun c => digit_char c = true) l ->
  digits 36 None l = Some (number36 l 0).
Proof.
  intros Hne H. destruct l as [|c l]; [congruence|].
  inversion H as [|? ? Hc Hl]; subst.
  destruct (digit_char_value _ Hc) as (d & Hd & Hr).
  cbn [digits number36 fold_left]. unfold value36. rewrite Hd.
  replace (d <? 36) with true by lia.
  cbn [Z.mul Z.add]. now apply digits_number36.
Qed.

(** The digits toString(36) writes in front of [acc]. *)
Lemma digits36_spec : forall fuel n acc,
  (n < 36 ^ N.of_nat (S fuel))%N ->
  exists ds,
    digits36 (S fuel) n acc = ds ++ acc
    /\ ds <> []
    /\ Forall (fun c => digit_char c = true) ds
    /\ forall a, number36 ds a = a * 36 ^ Z.of_nat (List.length ds) + Z.of_N n.
Proof.
  induction fuel as [|fuel IH]; intros n acc Hn.
  - assert (H36 : (n < 36)%N) by (change (36 ^ N.of_nat 1)%N with 36%N in Hn; exact Hn).
    cbn [digits36].
    rewrite N.div_small by exact H36. cbn [N.eqb].
    rewrite N.mod_small by exact H36.
    destruct (digit36_value H36) as (H1 & H2).
    exists [digit36 n]. split; [reflexivity|]. split; [discriminate|].
    split; [now repeat constructor|].
    intros a. cbn [number36 fold_left List.length]. unfold value36. rewrite H2.
    change (36 ^ Z.of_nat 1) with 36. reflexivity.
  - assert (Hm : (n mod 36 < 36)%N) by (apply N.mod_lt; discriminate).
    destruct (digit36_value Hm) as (H1 & H2).
    change (digits36 (S (S fuel)) n acc)
      with (if (n / 36 =? 0)%N then digit36 (n mod 36) :: acc
            else digits36 (S fuel) (n / 36) (digit36 (n mod 36) :: acc)).
    destruct (n / 36 =? 0)%N eqn:E.
    + apply N.eqb_eq in E.
      assert (Hsmall : (n mod 36 = n)%N).
      { pose proof (N.div_mod n 36). lia. }
      exists [digit36 (n mod 36)]. split; [reflexivity|]. split; [discriminate|].
      split; [now repeat constructor|].
      intros a. cbn [number36 fold_left List.length]. unfold value36. rewrite H2.
      change (36 ^ Z.of_nat 1) with 36. rewrite Hsmall. reflexivity.
    + assert (Hdiv : (n / 36 < 36 ^ N.of_nat (S fuel))%N).
      { apply N.Div0.div_lt_upper_bound.
        replace (N.of_nat (S (S fuel))) with (N.succ (N.of_nat (S fuel))) in Hn by lia.
        rewrite N.pow_succ_r' in Hn. exact Hn. }
      destruct (IH (n / 36)%N (digit36 (n mod 36) :: acc) Hdiv)
        as (ds & Hds & Hne & Hall & Hval).
      exists (ds ++ [digit36 (n mod 36)]).
      split; [rewrite Hds, <- app_assoc; reflexivity|].
      split; [destruct ds; discriminate|].
      split; [apply Forall_app; split; [exact Hall | now repeat constructor]|].
      intros a. unfold number36 in *. rewrite fold_left_app, Hval.
      cbn [fold_left]. unfold value36. rewrite H2.
      rewrite length_app, Nat2Z.inj_add. cbn [List.length].
      rewrite Z.pow_add_r by lia. change (36 ^ Z.of_nat 1) with 36.
      rewrite N2Z.inj_mod, N2Z.inj_div.
      pose proof (Z.div_mod (Z.of_N n) 36). change (Z.of_N 36) with 36. lia.
Qed.

Lemma toString36_fuel n : (n < 36 ^ N.of_nat (S (N.to_nat (N.log2 n))))%N.
Proof.
  destruct (N.eq_dec n 0) as [->|Hn]; [reflexivity|].
  assert (Hpos : (0 < n)%N) by lia.
  pose proof (N.log2_spec n Hpos) as (_ & Hlt).
  eapply N.lt_le_trans; [exact Hlt|].
  replace (N.of_nat (S (N.to_nat (N.log2 n)))) with (N.succ (N.log2 n)) by lia.
  apply N.pow_le_mono_l. lia.
Qed.

Lemma toString36_spec n :
  toString36 n <> []
  /\ Forall (fun c => digit_char c = true) (toString36 n)
  /\ number36 (toString36 n) 0 = Z.of_N n.
Proof.
  unfold toString36.
  destruct (digits36_spec [] (toString36_fuel n)) as (ds & Hds & Hne & Hall & Hval).
  rewrite Hds, app_nil_r. split; [exact Hne|]. split; [exact Hall|].
  rewrite Hval. lia.
Qed.

Lemma parseInt_toString36 n :
  parseInt (string_of_list_ascii (toString36 n)) 36 = Some (Z.of_N n).
Proof.
  destruct (toString36_spec n) as (Hne & Hall & Hval).
  unfold parseInt. rewrite list_ascii_of_string_of_list_ascii.
  destruct (toString36 n) as [|c l] eqn:E; [congruence|].
  assert (Hc : digit_char c = true) by now inversion Hall.
  assert (Hws : is_ws c = false).
  { revert Hc. unfold digit_char, is_ws. cbv zeta.
    generalize (N_of_ascii c). intros k H.
    assert (Hk : (97 <= k <= 122)%N \/ (48 <= k <= 57)%N).
    { apply orb_true_iff in H. destruct H as [H|H];
        apply andb_true_iff in H; destruct H as (Ha & Hb);
        apply N.leb_le in Ha, Hb; [left|right]; now split. }
    destruct (N.leb_spec 9 k), (N.leb_spec k 13), (N.eqb_spec k 32),
      (N.eqb_spec k 160); cbn [andb orb]; try reflexivity; exfalso; lia. }
  cbn [drop_ws]. rewrite Hws.
  assert (Hsign : (let '(sign, s1) :=
                     match c :: l with
                     | "-"%char :: s' => (-1, s')
                     | "+"%char :: s' => (1, s')
                     | _ => (1, c :: l)
                     end in (sign, s1)) = (1, c :: l)).
  { destruct c as [[] [] [] [] [] [] [] []]; try reflexivity; discriminate. }
  destruct (match c :: l with
            | "-"%char :: s' => (-1, s')
            | "+"%char :: s' => (1, s')
            | _ => (1, c :: l)
            end) as (sign, s1).
  injection Hsign as -> ->.
  change (negb (36 =? 0) && ((36 <? 2) || (36 <? 36))) with false.
  change ((36 =? 0) || (36 =? 16)) with false. cbv iota beta.
  rewrite digits_number36_start by (try discriminate; exact Hall).
  rewrite Hval. f_equal. lia.
Qed.

Lemma generateSlug_whole_stamp now title :
  generateSlug now title
  = string_of_list_ascii (baseSlug title ++ "-"%char :: toString36 now).
Proof. reflexivity. Qed.

(** The shape of a slug. generateSlug gives the base, a hyphen and the
    time stamp; the base has at most 180 characters, all of them
    lower-case letters, digits or hyphens, and no two hyphens side by
    side; the suffix is the whole time stamp in radix 36 (substring(-6)
    cuts nothing off), in digits and lower-case letters, and parseInt
    reads the time back from it. *)
Theorem generateSlug_shape (now : N) (title : string) :
  generateSlug now title
  = string_of_list_ascii (baseSlug title ++ "-"%char :: toString36 now)
  /\ (List.length (baseSlug title) <= 180)%nat
  /\ Forall (fun c => slug_char c = true) (baseSlug title)
  /\ single_hyphens (baseSlug title) = true
  /\ toString36 now <> []
  /\ Forall (fun c => digit_char c = true) (toString36 now)
  /\ parseInt (string_of_list_ascii (toString36 now)) 36 = Some (Z.of_N now).
Proof.
  destruct (toString36_spec now) as (Hne & Hall & _).
  split; [apply generateSlug_whole_stamp|].
  split; [apply firstn_le_length|].
  split.
  { unfold baseSlug. apply firstn_chars.
    apply collapse_hyphens_chars, spaces_to_hyphen_chars.
    apply Forall_forall. intros c Hc. now apply filter_In in Hc. }
  split; [apply single_hyphens_firstn, collapse_hyphens_single|].
  split; [exact Hne|]. split; [exact Hall|].
  apply parseInt_toString36.
Qed.

(** Two slugs of one title are equal only when they were made in the
    same millisecond. *)
Theorem generateSlug_tells_times_apart (now now' : N) (title : string) :
  now <> now' -> generateSlug now title <> generateSlug now' title.
Proof.
  intros Hne E. apply Hne.
  rewrite !generateSlug_whole_stamp in E.
  apply (f_equal list_ascii_of_string) in E.
  rewrite !list_ascii_of_string_of_list_ascii in E.
  apply app_inv_head in E. injection E as E.
  pose proof (parseInt_toString36 now) as P1.
  pose proof (parseInt_toString36 now') as P2.
  rewrite E in P1. rewrite P1 in P2. injection P2 as P2. lia.
Qed.

Lemma generateSlug_tells_times_apart_witness :
  generateSlug 1700000000000 "Hello" <> generateSlug 1700000000001 "Hello".
Proof.
  apply generateSlug_tells_times_apart. discriminate.
Defined.

End SlugMore.

(* ===================================================================== *)
(** * Category groups *)
(* ===================================================================== *)

Module GroupsMore.
Import Groups.

(** Every entry of every group, in the order of the answer. *)
Definition all_listed (gs : groups_object) : list listed :=
  flat_map (fun kg => categories (snd kg)) gs.

(** The row an entry was made from. *)
Definition row_of (l : listed) : category :=
  mkCategory (l_category_id l) (l_name l) (l_slug l) (l_parent_id l)
    (l_description l) (l_color l) (l_icon l) (l_order_index l).

Definition has_metadata (id : Z) : bool :=
  match metadata_of CATEGORY_GROUP_METADATA id with
  | Some _ => true
  | None => false
  end.

(** The rows the answer lists: a row with a parent id, unless a
    top-level row has that id and the table has no group for it. *)
Definition shown (rows : list category) (c : category) : bool :=
  match parent_id c with
  | None => false
  | Some p =>
      if existsb (Z.eqb p) (map category_id (filter is_parent rows))
      then has_metadata p
      else true
  end.

(** Every entry of a group carries the key of the group. *)
Definition labelled (gs : groups_object) : Prop :=
  Forall (fun kg => Forall (fun l => l_group l = fst kg) (categories (snd kg))) gs.

Lemma row_of_list_in k c : row_of (list_in k c) = c.
Proof. now destruct c. Qed.

Lemma map_row_of_list_in k cs : map row_of (map (list_in k) cs) = cs.
Proof.
  induction cs as [|c cs IH]; [reflexivity|].
  cbn [map]. now rewrite row_of_list_in, IH.
Qed.

(** ** The object [groups] *)

Lemma get_not_In k gs : get k gs = None -> ~ In k (map fst gs).
Proof.
  induction gs as [|[k' g'] gs IH]; intros H; [easy|].
  cbn [get] in H. destruct (String.eqb k k') eqn:E; [discriminate|].
  apply String.eqb_neq in E. intros [F|F]; [now apply E | now apply IH].
Qed.

Lemma assign_fresh k g gs : get k gs = None -> assign k g gs = gs ++ [(k, g)].
Proof.
  induction gs as [|[k' g'] gs IH]; intros H; [reflexivity|].
  cbn [get assign] in *. destruct (String.eqb k k'); [discriminate|].
  now rewrite IH.
Qed.

Lemma assign_there k g0 gs :
  get k gs = Some g0 ->
  exists before after,
    gs = before ++ (k, g0) :: after
    /\ forall g, assign k g gs = before ++ (k, g) :: after.
Proof.
  induction gs as [|[k' g'] gs IH]; intros H; [discriminate|].
  cbn [get] in H. destruct (String.eqb k k') eqn:E.
  - apply String.eqb_eq in E. subst k'. injection H as ->.
    exists [], gs. split; [reflexivity|].
    intros g. cbn [assign]. now rewrite String.eqb_refl.
  - destruct (IH H) as (before & after & Hgs & Has).
    exists ((k', g') :: before), after. split; [now rewrite Hgs|].
    intros g. cbn [assign]. rewrite E. now rewrite Has.
Qed.

Lemma get_assign_other k k' g gs :
  k' <> k -> get k' (assign k g gs) = get k' gs.
Proof.
  intros Hne. induction gs as [|[k0 g0] gs IH]; cbn [assign get].
  - apply String.eqb_neq in Hne. now rewrite Hne.
  - destruct (String.eqb k k0) eqn:E.
    + apply String.eqb_eq in E. subst k0. cbn [get].
      apply String.eqb_neq in Hne. now rewrite Hne.
    + cbn [get]. now rewrite IH.
Qed.

(** ** The table *)

Lemma metadata_of_In : forall entries id md,
  metadata_of entries id = Some md -> In (id, md) entries.
Proof.
  induction entries as [|[k m] entries IH]; intros id md H; [discriminate|].
  cbn [metadata_of] in H. destruct (k =? id) eqn:E.
  - apply Z.eqb_eq in E. injection H as ->. subst. now left.
  - right. now apply IH.
Qed.

(** No two ids of the table share a group key. *)
Lemma groupKey_inj i j mi mj :
  metadata_of CATEGORY_GROUP_METADATA i = Some mi ->
  metadata_of CATEGORY_GROUP_METADATA j = Some mj ->
  groupKey mi = groupKey mj -> i = j.
Proof.
  intros Hi Hj Hk.
  apply metadata_of_In in Hi. apply metadata_of_In in Hj.
  assert (Hall : forallb (fun a =>
            forallb (fun b =>
              implb (String.eqb (groupKey (snd a)) (groupKey (snd b)))
                    (fst a =? fst b))
              CATEGORY_GROUP_METADATA)
            CATEGORY_GROUP_METADATA = true) by (vm_compute; reflexivity).
  rewrite forallb_forall in Hall. specialize (Hall _ Hi).
  rewrite forallb_forall in Hall. specialize (Hall _ Hj).
  cbn [fst snd] in Hall. rewrite Hk, String.eqb_refl in Hall.
  now apply Z.eqb_eq.
Qed.

(** ** The loop over the parents *)

Section Parents.
Variable children : list category.

Definition parent_listing (p : category) : list listed :=
  match metadata_of CATEGORY_GROUP_METADATA (category_id p) with
  | Some md => map (list_in (groupKey md)) (filter (child_of (category_id p)) children)
  | None => []
  end.

Lemma all_listed_app gs gs' : all_listed (gs ++ gs') = all_listed gs ++ all_listed gs'.
Proof. apply flat_map_app. Qed.

Lemma all_listed_cons k g gs :
  all_listed ((k, g) :: gs) = categories g ++ all_listed gs.
Proof. reflexivity. Qed.

Lemma labelled_list_in k cs : Forall (fun l => l_group l = k) (map (list_in k) cs).
Proof. induction cs; constructor; [reflexivity | assumption]. Qed.

Lemma fold_parents : forall ps acc,
  NoDup (map category_id ps) ->
  (forall p md, In p ps ->
     metadata_of CATEGORY_GROUP_METADATA (category_id p) = Some md ->
     get (groupKey md) (fst acc) = None) ->
  let r := fold_left (add_parent children) ps acc in
  all_listed (fst r) = all_listed (fst acc) ++ flat_map parent_listing ps
  /\ snd r = snd acc + Z.of_nat (List.length (flat_map parent_listing ps))
  /\ (labelled (fst acc) -> labelled (fst r))
  /\ (NoDup (map fst (fst acc)) -> NoDup (map fst (fst r))).
Proof.
  induction ps as [|p ps IH]; intros acc Hnd Hfresh; cbn [fold_left flat_map].
  { rewrite app_nil_r. cbn [List.length Z.of_nat]. rewrite Z.add_0_r. tauto. }
  inversion Hnd as [|? ? Hp Hps]; subst.
  remember (add_parent children acc p) as acc' eqn:Eacc.
  remember (parent_listing p) as lp eqn:Elp.
  unfold add_parent in Eacc. unfold parent_listing in Elp.
  destruct (metadata_of CATEGORY_GROUP_METADATA (category_id p)) as [md|] eqn:Emd.
  2: { subst acc' lp. cbn [app]. apply IH; [exact Hps|].
       intros q mq Hq. apply Hfresh. now right. }
  assert (Hget : get (groupKey md) (fst acc) = None).
  { apply Hfresh with (p := p); [now left | exact Emd]. }
  cbv zeta in Eacc.
  assert (Hother : forall k, k <> groupKey md ->
                     get k (fst acc') = get k (fst acc)).
  { intros k Hk. subst acc'. cbn [fst]. now apply get_assign_other. }
  rewrite assign_fresh in Eacc by exact Hget.
  destruct (IH acc' Hps) as (H1 & H2 & H3 & H4).
  { intros q mq Hq Emq.
    assert (Hne : groupKey mq <> groupKey md).
    { intros F. apply Hp.
      rewrite <- (@groupKey_inj _ _ _ _ Emq Emd F).
      now apply in_map. }
    rewrite Hother by exact Hne.
    apply Hfresh with (p := q); [now right | exact Emq]. }
  split; [|split; [|split]].
  - rewrite H1. subst acc' lp. cbn [fst].
    rewrite all_listed_app, all_listed_cons.
    cbn [categories all_listed flat_map]. rewrite app_nil_r, <- app_assoc. reflexivity.
  - rewrite H2. subst acc' lp. cbn [snd].
    rewrite length_app, length_map. lia.
  - intros Hl. apply H3. subst acc'. cbn [fst].
    apply Forall_app. split; [exact Hl|].
    constructor; [|constructor]. cbn [fst snd categories].
    apply labelled_list_in.
  - intros Hk. apply H4. subst acc'. cbn [fst].
    rewrite map_app. cbn [map fst].
    apply NoDup_app; [exact Hk | repeat constructor; intros [] |].
    intros k Hin [F|[]]. subst k. now apply get_not_In in Hget.
Qed.

End Parents.

(** ** The group of the orphans *)

Lemma push_other_spec more gs :
  Forall (fun l => l_group l = "other"%string) more ->
  Permutation (all_listed (push_other more gs)) (all_listed gs ++ more)
  /\ (labelled gs -> labelled (push_other more gs))
  /\ (NoDup (map fst gs) -> NoDup (map fst (push_other more gs))).
Proof.
  intros Hmore. unfold push_other.
  destruct (get "other" gs) as [g|] eqn:E.
  - destruct (@assign_there _ _ _ E) as (before & after & Hgs & Has).
    rewrite Has. rewrite Hgs.
    split; [|split].
    + rewrite !all_listed_app, !all_listed_cons. cbn [categories].
      rewrite <- !app_assoc. apply Permutation_app_head.
      apply Permutation_app_head. apply Permutation_app_comm.
    + unfold labelled. rewrite !Forall_app. intros (Hb & Ha). split; [exact Hb|].
      inversion Ha as [|? ? Hg Hafter]; subst.
      constructor; [|exact Hafter]. cbn [fst snd categories] in *.
      apply Forall_app. now split.
    + rewrite !map_app. cbn [map fst]. tauto.
  - rewrite assign_fresh by exact E.
    split; [|split].
    + rewrite all_listed_app, all_listed_cons.
      cbn [categories empty_other app all_listed flat_map]. now rewrite app_nil_r.
    + unfold labelled. intros Hl. apply Forall_app. split; [exact Hl|].
      constructor; [|constructor]. cbn [fst snd categories empty_other app].
      exact Hmore.
    + intros Hk. rewrite map_app. cbn [map fst].
      apply NoDup_app; [exact Hk | repeat constructor; intros [] |].
      intros k Hin [F|[]]. subst k. now apply get_not_In in E.
Qed.

(** ** The rows that are listed *)

Lemma filter_either (A : Type) (f g : A -> bool) (l : list A) :
  (forall a, In a l -> f a = true -> g a = true -> False) ->
  Permutation (filter (fun a => f a || g a) l) (filter f l ++ filter g l).
Proof.
  induction l as [|a l IH]; intros H; [constructor|].
  assert (IH' : Permutation (filter (fun a => f a || g a) l) (filter f l ++ filter g l)).
  { apply IH. intros b Hb. apply H. now right. }
  cbn [filter]. specialize (H a (or_introl eq_refl)).
  destruct (f a) eqn:Ef, (g a) eqn:Eg; cbn [orb app].
  - exfalso. now apply H.
  - now constructor.
  - now apply Permutation_cons_app.
  - exact IH'.
Qed.

Lemma children_of_parents (m : Z -> bool) (cs : list category) : forall ids,
  NoDup ids ->
  Permutation
    (flat_map (fun i => if m i then filter (child_of i) cs else []) ids)
    (filter (fun c => existsb (fun i => m i && child_of i c) ids) cs).
Proof.
  induction ids as [|i ids IH]; intros Hnd.
  - cbn [flat_map existsb]. clear. induction cs; [constructor | exact IHcs].
  - inversion Hnd as [|? ? Hi Hids]; subst.
    cbn [flat_map existsb].
    etransitivity; [|symmetry; apply filter_either].
    + apply Permutation_app; [|now apply IH].
      destruct (m i); cbn [andb].
      * apply Permutation_refl.
      * clear. induction cs; [constructor | exact IHcs].
    + intros c _ Hc Hex. apply andb_true_iff in Hc. destruct Hc as (_ & Hc).
      apply existsb_exists in Hex. destruct Hex as (j & Hj & Hjc).
      apply andb_true_iff in Hjc. destruct Hjc as (_ & Hjc).
      unfold child_of in *. destruct (parent_id c) as [p|]; [|discriminate].
      apply Z.eqb_eq in Hc, Hjc. subst. exact (Hi Hj).
Qed.

Lemma filter_filter_same (A : Type) (f g : A -> bool) (l : list A) :
  (forall a, f a = true -> g a = true) ->
  filter f (filter g l) = filter f l.
Proof.
  intros H. induction l as [|a l IH]; [reflexivity|].
  cbn [filter]. destruct (g a) eqn:Eg; cbn [filter].
  - now rewrite IH.
  - destruct (f a) eqn:Ef; [|exact IH].
    apply H in Ef. congruence.
Qed.

Lemma group_rows_spec rows :
  NoDup (map category_id (filter is_parent rows)) ->
  Permutation (map row_of (all_listed (fst (group_rows rows))))
              (filter (shown rows) rows)
  /\ snd (group_rows rows)
     = Z.of_nat (List.length (all_listed (fst (group_rows rows))))
  /\ labelled (fst (group_rows rows))
  /\ NoDup (map fst (fst (group_rows rows))).
Proof.
  intros Hnd. unfold group_rows.
  set (parents := filter is_parent rows) in *.
  set (children := filter (fun cat => negb (is_parent cat)) rows).
  destruct (@fold_parents children parents ([], 0) Hnd) as (H1 & H2 & H3 & H4).
  { intros p md _ _. reflexivity. }
  destruct (fold_left (add_parent children) parents ([], 0)) as (gs, total).
  cbn [fst snd app all_listed flat_map List.length] in H1, H2, H3, H4.
  fold (all_listed gs) in H1.
  specialize (H3 (Forall_nil _)). specialize (H4 (NoDup_nil _)).
  set (ids := map category_id parents) in *.
  (* the rows the parents list, and the orphans *)
  assert (Hparents :
    Permutation (map row_of (flat_map (parent_listing children) parents))
      (filter (fun c => negb (orphaned ids c) && shown rows c) children)).
  { assert (E : map row_of (flat_map (parent_listing children) parents)
                = flat_map (fun i => if has_metadata i
                                     then filter (child_of i) children else [])
                    ids).
    { unfold ids. clear. induction parents as [|p ps IH]; [reflexivity|].
      cbn [flat_map map]. rewrite map_app, IH. f_equal.
      unfold parent_listing, has_metadata.
      destruct (metadata_of _ _); [apply map_row_of_list_in | reflexivity]. }
    rewrite E.
    etransitivity; [apply children_of_parents; exact Hnd|].
    erewrite filter_ext; [apply Permutation_refl|].
    intros c. unfold orphaned, shown. fold parents. fold ids.
    destruct (parent_id c) as [p|] eqn:Ep.
    2: { cbn [negb andb]. clearbody ids. clear - Ep.
         induction ids as [|i l IH]; [reflexivity|].
         cbn [existsb]. unfold child_of at 1. rewrite Ep.
         now rewrite andb_false_r. }
    rewrite negb_involutive.
    assert (Hex : existsb (fun i => has_metadata i && child_of i c) ids
                  = existsb (Z.eqb p) ids && has_metadata p).
    { clearbody ids. clear - Ep. induction ids as [|i l IH]; [reflexivity|].
      cbn [existsb]. rewrite IH. unfold child_of. rewrite Ep.
      destruct (p =? i) eqn:E.
      - apply Z.eqb_eq in E. subst i.
        destruct (has_metadata p); cbn [andb orb]; [reflexivity|].
        now rewrite andb_false_r.
      - now rewrite andb_false_r. }
    rewrite Hex. now destruct (existsb (Z.eqb p) ids). }
  assert (Hshown : Permutation (filter (shown rows) rows)
            (filter (fun c => negb (orphaned ids c) && shown rows c) children
             ++ filter (orphaned ids) children)).
  { assert (E : filter (shown rows) rows = filter (shown rows) children).
    { unfold children. symmetry. apply filter_filter_same.
      intros c. unfold shown, is_parent.
      now destruct (parent_id c). }
    rewrite E.
    assert (E2 : filter (orphaned ids) children
                 = filter (fun c => orphaned ids c && shown rows c) children).
    { apply filter_ext_in. intros c Hc.
      unfold children in Hc. apply filter_In in Hc. destruct Hc as (_ & Hc).
      unfold orphaned, shown, is_parent in *. fold parents. fold ids.
      destruct (parent_id c) as [p|]; [|discriminate].
      now destruct (existsb (Z.eqb p) ids). }
    rewrite E2.
    etransitivity; [|apply filter_either].
    - erewrite filter_ext; [apply Permutation_refl|].
      intros c. cbv beta. now destruct (orphaned ids c), (shown rows c).
    - intros c _ Ha Hb. destruct (orphaned ids c); discriminate. }
  destruct (filter (orphaned ids) children) as [|o orphans] eqn:Eo.
  - cbn [fst snd]. rewrite app_nil_r in Hshown.
    split; [|split; [|split]]; try assumption.
    + rewrite H1. now rewrite Hparents.
    + rewrite H2, H1. reflexivity.
  - cbn [fst snd].
    destruct (@push_other_spec (map (list_in "other") (o :: orphans)) gs
                (labelled_list_in _ _)) as (P1 & P2 & P3).
    split; [|split; [|split]]; auto.
    + rewrite P1, map_app, map_row_of_list_in, H1, Hshown.
      now apply Permutation_app_tail.
    + rewrite (Permutation_length P1), length_app, length_map, H2, H1.
      cbn [List.length]. lia.
Qed.

(** The categories of the answer. When no two top-level rows share an
    id, the groups list exactly the rows that have a parent id, apart
    from the rows whose parent is a top-level row the table has no group
    for (these are in no group, not even in other); each listed row is
    there once, total_categories counts the listed rows, every entry
    names the group it is in, and no group key is there twice. *)
Theorem categories_listed_once (rows : list category) :
  NoDup (map category_id (filter is_parent rows)) ->
  let answer := get_categories (Some (inr rows)) in
  status_code answer = 200
  /\ Permutation (map row_of (all_listed (groups answer)))
                 (filter (shown rows) rows)
  /\ total_categories answer = Z.of_nat (List.length (filter (shown rows) rows))
  /\ labelled (groups answer)
  /\ NoDup (map fst (groups answer)).
Proof.
  intros Hnd answer.
  destruct rows as [|row rows'].
  { unfold answer. cbn. repeat split; constructor. }
  destruct (@group_rows_spec _ Hnd) as (H1 & H2 & H3 & H4).
  unfold answer, get_categories.
  destruct (group_rows (row :: rows')) as (gs, total).
  cbn [fst snd status_code groups total_categories] in *.
  split; [reflexivity|]. split; [exact H1|].
  split; [|split; assumption].
  rewrite H2, <- (Permutation_length H1), length_map. reflexivity.
Qed.

(** Five rows: the child of a top-level row without a
    group is left out, the child without a parent row goes to other. *)
Lemma categories_listed_once_witness :
  let row id parent :=
    mkCategory id (JStr "n") (JStr "s") parent JNull JNull JNull (JNum 0) in
  let rows := [row 1 None; row 50 None; row 2 (Some 1); row 4 (Some 50);
               row 5 (Some 999)] in
  total_categories (get_categories (Some (inr rows))) = 2.
Proof.
  intros row rows.
  destruct (@categories_listed_once rows) as (_ & _ & H & _).
  - vm_compute. repeat constructor; cbn; intuition discriminate.
  - exact H.
Defined.

End GroupsMore.
